(** * MapServer OGR link (mapogr.cpp): a shallow embedding

    The development follows the five components of the file:
    geometry conversion ([ogrGeomPoints], [ogrGeomLine],
    [ogrConvertGeometry]), feature fetching ([msOGRFileNextShape],
    [msOGRFileGetShape]), tile chaining ([msOGRFileReadTile],
    [msOGRLayerNextShape]), filter translation
    ([msOGRTranslateMsExpressionToOGRSQL]) and style decoding
    ([msOGRUpdateStyle] and its helpers).

    Conventions.
    - A coordinate is a C [double].  The code only copies and compares
      coordinates ([<], [>], [==], [!=], MS_MIN, MS_MAX); it never does
      arithmetic on them.  The doubles other than NaN are totally ordered
      by [<] (0.0 and -0.0 comparing equal), every finite one being an
      integer multiple of 2^-1074, so such a double is represented by an
      integer that keeps the order ([Num], the infinities lying beyond
      the finite ones); [NaN] is the value on which [<], [>] and [==]
      are false and [!=] is true.
    - Memory allocation is assumed to succeed; the [MS_MEMERR] exits are
      not modelled.
    - The build is the plain 2D one (USE_POINT_Z_M undefined). *)

From Stdlib Require Import Ascii.
From stdpp Require Import base list strings gmap sorting pretty.
From Stdlib Require Import ZArith Lia.

Local Open Scope Z_scope.

(** ** Shared MapServer types (mapserver.h) *)

Inductive status := MS_SUCCESS | MS_FAILURE | MS_DONE.

Inductive MS_SHAPE_TYPE :=
  MS_SHAPE_POINT | MS_SHAPE_LINE | MS_SHAPE_POLYGON | MS_SHAPE_NULL.

Inductive MS_LAYER_TYPE :=
  | MS_LAYER_POINT | MS_LAYER_LINE | MS_LAYER_POLYGON | MS_LAYER_RASTER
  | MS_LAYER_ANNOTATION | MS_LAYER_QUERY | MS_LAYER_CIRCLE
  | MS_LAYER_TILEINDEX | MS_LAYER_CHART.

Global Instance status_eq_dec : EqDecision status.
Proof. solve_decision. Defined.
Global Instance shape_type_eq_dec : EqDecision MS_SHAPE_TYPE.
Proof. solve_decision. Defined.
Global Instance layer_type_eq_dec : EqDecision MS_LAYER_TYPE.
Proof. solve_decision. Defined.

(** C doubles and their comparisons. *)
Inductive double := Num (z : Z) | NaN.
Coercion Num : Z >-> double.

Global Instance double_eq_dec : EqDecision double.
Proof. solve_decision. Defined.

Definition dlt (a b : double) : bool :=
  match a, b with Num x, Num y => x <? y | _, _ => false end.
Definition dgt (a b : double) : bool :=
  match a, b with Num x, Num y => x >? y | _, _ => false end.
Definition deq (a b : double) : bool :=
  match a, b with Num x, Num y => x =? y | _, _ => false end.
Definition dne (a b : double) : bool := negb (deq a b).

(** The order of the numbers, as a proposition: it holds of no NaN. *)
Definition dle (a b : double) : Prop :=
  match a, b with Num x, Num y => x <= y | _, _ => False end.

Definition is_num (a : double) : Prop := a <> NaN.

Record pointObj := mkPoint { px : double; py : double }.

Global Instance pointObj_eq_dec : EqDecision pointObj.
Proof. solve_decision. Defined.

(** A point or a rectangle none of whose coordinates is NaN. *)
Definition point_num (p : pointObj) : Prop := is_num (px p) /\ is_num (py p).

(** A [lineObj] is its point array; [numpoints] is the length. *)
Definition lineObj := list pointObj.

Record rectObj := mkRect { minx : double; miny : double; maxx : double; maxy : double }.

Global Instance rectObj_eq_dec : EqDecision rectObj.
Proof. solve_decision. Defined.

Definition rect_num (r : rectObj) : Prop :=
  is_num (minx r) /\ is_num (miny r) /\ is_num (maxx r) /\ is_num (maxy r).

(** [shapeObj]: [numlines] is [length (line s)], [numvalues] is
    [length (values s)]. *)
Record shapeObj := mkShape {
  type : MS_SHAPE_TYPE;
  line : list lineObj;
  bounds : rectObj;
  values : list string;
  index : Z;
  resultindex : Z;
  tileindex : Z
}.

Definition set_type (t : MS_SHAPE_TYPE) (s : shapeObj) : shapeObj :=
  mkShape t (line s) (bounds s) (values s) (index s) (resultindex s) (tileindex s).
Definition set_line (l : list lineObj) (s : shapeObj) : shapeObj :=
  mkShape (type s) l (bounds s) (values s) (index s) (resultindex s) (tileindex s).
Definition set_bounds (b : rectObj) (s : shapeObj) : shapeObj :=
  mkShape (type s) (line s) b (values s) (index s) (resultindex s) (tileindex s).
Definition set_values (v : list string) (s : shapeObj) : shapeObj :=
  mkShape (type s) (line s) (bounds s) v (index s) (resultindex s) (tileindex s).

(** Modelled from the spec: [msInitShape] and [msFreeShape] live in
    mapprimitive.c, not in this file.  A freed or initialised shape has no
    ring and no value and is of type Null (section 3, "Shape"); its
    rectangle and indices are the -1 that [msInitShape] writes. *)
Definition msInitShape : shapeObj :=
  mkShape MS_SHAPE_NULL [] (mkRect (-1) (-1) (-1) (-1)) [] (-1) (-1) (-1).

Definition msFreeShape (s : shapeObj) : shapeObj := msInitShape.

(** ** Geometry conversion *)

Module Geometry.

(** OGR geometry type codes (ogr_core.h), the 2D ones and their 25D
    variants. *)
Inductive OGRwkbGeometryType :=
  | wkbUnknown | wkbPoint | wkbLineString | wkbPolygon | wkbMultiPoint
  | wkbMultiLineString | wkbMultiPolygon | wkbGeometryCollection
  | wkbNone | wkbLinearRing
  | wkbPoint25D | wkbLineString25D | wkbPolygon25D | wkbMultiPoint25D
  | wkbMultiLineString25D | wkbMultiPolygon25D | wkbGeometryCollection25D.

Global Instance wkb_eq_dec : EqDecision OGRwkbGeometryType.
Proof. solve_decision. Defined.

(** [wkbFlatten] clears the 25D bit. *)
Definition wkbFlatten (t : OGRwkbGeometryType) : OGRwkbGeometryType :=
  match t with
  | wkbPoint25D => wkbPoint
  | wkbLineString25D => wkbLineString
  | wkbPolygon25D => wkbPolygon
  | wkbMultiPoint25D => wkbMultiPoint
  | wkbMultiLineString25D => wkbMultiLineString
  | wkbMultiPolygon25D => wkbMultiPolygon
  | wkbGeometryCollection25D => wkbGeometryCollection
  | t => t
  end.

(** A non-null [OGRGeometryH]: its type code, its own vertices (what
    [OGR_G_GetPointCount], [OGR_G_GetX] and [OGR_G_GetY] read) and its
    members (what [OGR_G_GetGeometryCount] and [OGR_G_GetGeometryRef]
    read). *)
#[warnings="-register-all"]
Inductive OGRGeometry :=
  Geom (gtype : OGRwkbGeometryType) (pts : list pointObj) (subs : list OGRGeometry).

Definition OGR_G_GetGeometryType (g : OGRGeometry) : OGRwkbGeometryType :=
  match g with Geom t _ _ => t end.
Definition OGR_G_Points (g : OGRGeometry) : list pointObj :=
  match g with Geom _ p _ => p end.
Definition OGR_G_Members (g : OGRGeometry) : list OGRGeometry :=
  match g with Geom _ _ s => s end.

(** [OGR_G_GetX(h, i)], [OGR_G_GetY(h, i)]: vertex [i], and 0.0 when there
    is no such vertex. *)
Definition OGR_G_GetXY (g : OGRGeometry) (i : nat) : pointObj :=
  nth i (OGR_G_Points g) (mkPoint 0 0).

(** *** ogrPointsAddPoint *)

Definition relax (b : rectObj) (p : pointObj) : rectObj :=
  let b1 :=
    if dlt (px p) (minx b) then mkRect (px p) (miny b) (maxx b) (maxy b) else b in
  let b2 :=
    if dgt (px p) (maxx b1) then mkRect (minx b1) (miny b1) (px p) (maxy b1) else b1 in
  let b3 :=
    if dlt (py p) (miny b2) then mkRect (minx b2) (py p) (maxx b2) (maxy b2) else b2 in
  if dgt (py p) (maxy b3) then mkRect (minx b3) (miny b3) (maxx b3) (py p) else b3.

Definition ogrPointsAddPoint (ln : lineObj) (p : pointObj) (lineindex : Z)
    (b : rectObj) : lineObj * rectObj :=
  let b' :=
    if (length ln =? 0)%nat && (lineindex =? 0)
    then mkRect (px p) (py p) (px p) (py p)
    else relax b p in
  (ln ++ [p], b').

(** The member loop shared by [ogrGeomPoints] and [ogrGeomLine]:
    [for (iGeom = 0; iGeom < OGR_G_GetGeometryCount(hGeom); iGeom++)
       if (f(OGR_G_GetGeometryRef(hGeom, iGeom), outshp) == -1) return -1;]
    followed by [return 0]. *)
Definition visit_members (f : OGRGeometry -> shapeObj -> Z * shapeObj)
    : list OGRGeometry -> shapeObj -> Z * shapeObj :=
  fix members (l : list OGRGeometry) (shp : shapeObj) : Z * shapeObj :=
    match l with
    | [] => (0, shp)
    | m :: l' =>
        let '(r, shp') := f m shp in
        if r =? -1 then (-1, shp') else members l' shp'
    end.

(** *** ogrGeomPoints *)

Definition add_points (pl : list pointObj) (lineindex : Z)
    (acc : lineObj * rectObj) : lineObj * rectObj :=
  foldl (fun a p => ogrPointsAddPoint (fst a) p lineindex (snd a)) acc pl.

(** The leaf part of [ogrGeomPoints]: [pl] are the [numpoints] points read
    from the leaf.  A first line is added when the shape has none, the
    points go to the last line, and the type becomes Point. *)
Definition ogrGeomPoints_leaf (pl : list pointObj) (outshp : shapeObj) : shapeObj :=
  let lines := if (length (line outshp) =? 0)%nat then [ [] ] else line outshp in
  let last_i := (length lines - 1)%nat in
  let ln := nth last_i lines [] in
  let '(ln', b') := add_points pl (Z.of_nat (length lines) - 1) (ln, bounds outshp) in
  set_type MS_SHAPE_POINT (set_bounds b' (set_line (<[last_i := ln']> lines) outshp)).

Fixpoint ogrGeomPoints (g : OGRGeometry) (outshp : shapeObj) : Z * shapeObj :=
  match g with
  | Geom t pts subs =>
    match wkbFlatten t with
    | wkbGeometryCollection | wkbMultiLineString | wkbMultiPolygon | wkbPolygon =>
        visit_members ogrGeomPoints subs outshp
    | wkbPoint => (0, ogrGeomPoints_leaf [OGR_G_GetXY g 0] outshp)
    | wkbLineString | wkbLinearRing => (0, ogrGeomPoints_leaf pts outshp)
    | wkbMultiPoint =>
        (0, ogrGeomPoints_leaf (map (fun h => OGR_G_GetXY h 0) subs) outshp)
    | _ => (-1, outshp)
    end
  end.

(** *** ogrGeomLine *)

(** The bounds loop of the linestring case: vertex [j] initialises the
    rectangle when [j == 0 && outshp->numlines == 0] and relaxes it
    otherwise. *)
Fixpoint line_bounds (j : nat) (pl : list pointObj) (numlines : nat)
    (b : rectObj) : rectObj :=
  match pl with
  | [] => b
  | p :: pl' =>
      let b' :=
        if (j =? 0)%nat && (numlines =? 0)%nat
        then mkRect (px p) (py p) (px p) (py p)
        else relax b p in
      line_bounds (S j) pl' numlines b'
  end.

(** Ring closure: the first point is appended when [bCloseRings] is set
    and the last point differs from it in x or in y. *)
Definition close_ring (bCloseRings : bool) (ln : lineObj) : lineObj :=
  let first := nth 0 ln (mkPoint 0 0) in
  let lst := nth (length ln - 1)%nat ln (mkPoint 0 0) in
  if bCloseRings && (dne (px lst) (px first) || dne (py lst) (py first))
  then ln ++ [mkPoint (px first) (py first)]
  else ln.

Definition ogrGeomLine_linestring (pts : list pointObj) (outshp : shapeObj)
    (bCloseRings : bool) : Z * shapeObj :=
  if (Z.of_nat (length pts) <? 2) then (0, outshp)
  else
    let shp1 :=
      if decide (type outshp = MS_SHAPE_NULL) then set_type MS_SHAPE_LINE outshp
      else outshp in
    let b := line_bounds 0 pts (length (line shp1)) (bounds shp1) in
    let ln := close_ring bCloseRings pts in
    (0, set_line (line shp1 ++ [ln]) (set_bounds b shp1)).

Fixpoint ogrGeomLine (g : OGRGeometry) (outshp : shapeObj) (bCloseRings : bool)
    : Z * shapeObj :=
  match g with
  | Geom t pts subs =>
    match wkbFlatten t with
    | wkbPolygon | wkbGeometryCollection | wkbMultiLineString | wkbMultiPolygon =>
        let shp0 :=
          if decide (wkbFlatten t = wkbPolygon) then
            if decide (type outshp = MS_SHAPE_NULL)
            then set_type MS_SHAPE_POLYGON outshp else outshp
          else outshp in
        visit_members (fun m shp => ogrGeomLine m shp bCloseRings) subs shp0
    | wkbPoint | wkbMultiPoint => (0, outshp)
    | wkbLineString => ogrGeomLine_linestring pts outshp bCloseRings
    | _ => (-1, outshp)
    end
  end.

(** *** ogrConvertGeometry *)

Definition ogrConvertGeometry (hGeom : option OGRGeometry) (outshp : shapeObj)
    (layertype : MS_LAYER_TYPE) : status * shapeObj :=
  match hGeom with
  | None => (MS_SUCCESS, outshp)
  | Some g =>
    match layertype with
    | MS_LAYER_POINT =>
        let '(r, shp) := ogrGeomPoints g outshp in
        (if r =? -1 then MS_FAILURE else MS_SUCCESS, shp)
    | MS_LAYER_LINE =>
        let '(r, shp) := ogrGeomLine g outshp false in
        let nStatus := if r =? -1 then MS_FAILURE else MS_SUCCESS in
        (nStatus,
         if negb (bool_decide (type shp = MS_SHAPE_LINE))
            && negb (bool_decide (type shp = MS_SHAPE_POLYGON))
         then set_type MS_SHAPE_NULL shp else shp)
    | MS_LAYER_POLYGON =>
        let '(r, shp) := ogrGeomLine g outshp true in
        let nStatus := if r =? -1 then MS_FAILURE else MS_SUCCESS in
        (nStatus,
         if negb (bool_decide (type shp = MS_SHAPE_POLYGON))
         then set_type MS_SHAPE_NULL shp else shp)
    | MS_LAYER_CHART | MS_LAYER_QUERY =>
        match OGR_G_GetGeometryType g with
        | wkbPoint | wkbPoint25D | wkbMultiPoint | wkbMultiPoint25D =>
            let '(r, shp) := ogrGeomPoints g outshp in
            (if r =? -1 then MS_FAILURE else MS_SUCCESS, shp)
        | _ =>
            let '(r, shp) := ogrGeomLine g outshp false in
            (if r =? -1 then MS_FAILURE else MS_SUCCESS, shp)
        end
    | _ => (MS_FAILURE, outshp)
    end
  end.

(** *** What a traversal visits

    The points [ogrGeomPoints] reads, the linestrings [ogrGeomLine] turns
    into rings, and the geometries each of them accepts; the properties
    of the two traversals are stated with these. *)

Definition is_container (t : OGRwkbGeometryType) : bool :=
  match wkbFlatten t with
  | wkbPolygon | wkbGeometryCollection | wkbMultiLineString | wkbMultiPolygon => true
  | _ => false
  end.

Fixpoint points_visited (g : OGRGeometry) : list pointObj :=
  match g with
  | Geom t pts subs =>
    match wkbFlatten t with
    | wkbGeometryCollection | wkbMultiLineString | wkbMultiPolygon | wkbPolygon =>
        concat (map points_visited subs)
    | wkbPoint => [OGR_G_GetXY g 0]
    | wkbLineString | wkbLinearRing => pts
    | wkbMultiPoint => map (fun h => OGR_G_GetXY h 0) subs
    | _ => []
    end
  end.

Fixpoint points_supported (g : OGRGeometry) : bool :=
  match g with
  | Geom t pts subs =>
    match wkbFlatten t with
    | wkbGeometryCollection | wkbMultiLineString | wkbMultiPolygon | wkbPolygon =>
        forallb points_supported subs
    | wkbPoint | wkbLineString | wkbLinearRing | wkbMultiPoint => true
    | _ => false
    end
  end.

Fixpoint lines_visited (g : OGRGeometry) : list lineObj :=
  match g with
  | Geom t pts subs =>
    match wkbFlatten t with
    | wkbGeometryCollection | wkbMultiLineString | wkbMultiPolygon | wkbPolygon =>
        concat (map lines_visited subs)
    | wkbLineString => if (Z.of_nat (length pts) <? 2) then [] else [pts]
    | _ => []
    end
  end.

Fixpoint lines_supported (g : OGRGeometry) : bool :=
  match g with
  | Geom t pts subs =>
    match wkbFlatten t with
    | wkbGeometryCollection | wkbMultiLineString | wkbMultiPolygon | wkbPolygon =>
        forallb lines_supported subs
    | wkbPoint | wkbMultiPoint | wkbLineString => true
    | _ => false
    end
  end.

Definition all_points (s : shapeObj) : list pointObj := concat (line s).

(** [b] is the exact bounding rectangle of the points [pl]: it contains
    every point, and each of its four sides is reached by some point. *)
Definition bbox_exact (b : rectObj) (pl : list pointObj) : Prop :=
  (forall p, p ∈ pl ->
     dle (minx b) (px p) /\ dle (px p) (maxx b) /\
     dle (miny b) (py p) /\ dle (py p) (maxy b)) /\
  (exists p, p ∈ pl /\ px p = minx b) /\
  (exists p, p ∈ pl /\ px p = maxx b) /\
  (exists p, p ∈ pl /\ py p = miny b) /\
  (exists p, p ∈ pl /\ py p = maxy b).

(** The rectangle after [pl] has been visited, [seen] telling whether a
    point was visited before: the first point ever sets the rectangle,
    every other point relaxes it. *)
Fixpoint bbox_fold (seen : bool) (b : rectObj) (pl : list pointObj) : rectObj :=
  match pl with
  | [] => b
  | p :: pl' =>
      bbox_fold true (if seen then relax b p else mkRect (px p) (py p) (px p) (py p)) pl'
  end.

(** A traversal [f] that, on a member [m] it accepts, adds the points
    [added m] to the shape and folds the points [vis m] into the
    rectangle, under an invariant [Inv] of the shape. *)
Definition traversal_spec (f : OGRGeometry -> shapeObj -> Z * shapeObj)
    (sup : OGRGeometry -> bool) (added vis : OGRGeometry -> list pointObj)
    (Inv : shapeObj -> Prop) (m : OGRGeometry) : Prop :=
  sup m = true ->
  (added m = [] <-> vis m = []) /\
  forall shp, Inv shp ->
    Inv (f m shp).2 /\
    all_points (f m shp).2 = all_points shp ++ added m /\
    bounds (f m shp).2
    = bbox_fold (negb (bool_decide (all_points shp = []))) (bounds shp) (vis m).

(** [ogrGeomPoints] keeps all points in one line; [ogrGeomLine] only adds
    lines that hold points. *)
Definition points_inv (shp : shapeObj) : Prop := (length (line shp) <= 1)%nat.

Definition lines_inv (shp : shapeObj) : Prop :=
  Forall (fun l : lineObj => l <> []) (line shp).

(** The points [ogrGeomLine] adds to the shape (rings closed when [c]) and
    the points it folds into the rectangle. *)
Definition lines_added (c : bool) (g : OGRGeometry) : list pointObj :=
  concat (map (close_ring c) (lines_visited g)).
Definition lines_folded (g : OGRGeometry) : list pointObj :=
  concat (lines_visited g).

(** The layer-type policy of section 4.1, as the table words it. *)
Definition force_null_unless (keep : list MS_SHAPE_TYPE) (s : shapeObj) : shapeObj :=
  if bool_decide (type s ∈ keep) then s else set_type MS_SHAPE_NULL s.

Definition is_point_input (g : OGRGeometry) : bool :=
  match OGR_G_GetGeometryType g with
  | wkbPoint | wkbPoint25D | wkbMultiPoint | wkbMultiPoint25D => true
  | _ => false
  end.

Definition coercion_policy (layertype : MS_LAYER_TYPE) (g : OGRGeometry)
    (shp : shapeObj) : option (Z * shapeObj) :=
  match layertype with
  | MS_LAYER_POINT => Some (ogrGeomPoints g shp)
  | MS_LAYER_LINE =>
      let '(r, s) := ogrGeomLine g shp false in
      Some (r, force_null_unless [MS_SHAPE_LINE; MS_SHAPE_POLYGON] s)
  | MS_LAYER_POLYGON =>
      let '(r, s) := ogrGeomLine g shp true in
      Some (r, force_null_unless [MS_SHAPE_POLYGON] s)
  | MS_LAYER_QUERY | MS_LAYER_CHART =>
      if is_point_input g then Some (ogrGeomPoints g shp)
      else Some (ogrGeomLine g shp false)
  | _ => None
  end.

End Geometry.

(** ** Feature fetching and tile chaining *)

Module Layer.
Import Geometry.

(** An [OGRFeatureH]: its FID, its geometry (none when the feature has no
    geometry) and its field values as strings. *)
Record OGRFeature := mkFeature {
  fid : Z;
  fgeom : option OGRGeometry;
  ffields : list string
}.

(** An [OGRLayerH] as the code uses it: [feats] are the features the back
    end returns under the filters in force (evaluating a filter is OGR's),
    [pending] those [OGR_L_GetNextFeature] has not returned yet.
    [read_error] tells whether the back end reports [CE_Failure] when its
    reading ends, [filter_ok] whether it accepts the attribute filter. *)
Record OGRLayer := mkLayer {
  feats : list OGRFeature;
  pending : list OGRFeature;
  read_error : bool;
  filter_ok : bool
}.

Definition OGR_L_GetNextFeature (l : OGRLayer) : option OGRFeature * OGRLayer :=
  match pending l with
  | [] => (None, l)
  | f :: rest => (Some f, mkLayer (feats l) rest (read_error l) (filter_ok l))
  end.

Definition OGR_L_ResetReading (l : OGRLayer) : OGRLayer :=
  mkLayer (feats l) (feats l) (read_error l) (filter_ok l).

Definition OGR_L_GetFeature (l : OGRLayer) (id : Z) : option OGRFeature :=
  find (fun f => bool_decide (fid f = id)) (feats l).

Definition set_pending (p : list OGRFeature) (l : OGRLayer) : OGRLayer :=
  mkLayer (feats l) p (read_error l) (filter_ok l).

(** [msOGRFileInfo]. *)
#[warnings="-register-all"]
Inductive msOGRFileInfo := mkInfo {
  pszFname : string;
  hLayer : option OGRLayer;
  hLastFeature : option OGRFeature;
  nTileId : Z;
  poCurTile : option msOGRFileInfo;
  rect : rectObj;
  last_record_index_read : Z
}.

Definition set_cursor (l : option OGRLayer) (last : Z) (i : msOGRFileInfo)
    : msOGRFileInfo :=
  mkInfo (pszFname i) l (hLastFeature i) (nTileId i) (poCurTile i) (rect i) last.
Definition set_last_feature (f : option OGRFeature) (i : msOGRFileInfo)
    : msOGRFileInfo :=
  mkInfo (pszFname i) (hLayer i) f (nTileId i) (poCurTile i) (rect i)
         (last_record_index_read i).
Definition set_tile_id (id : Z) (i : msOGRFileInfo) : msOGRFileInfo :=
  mkInfo (pszFname i) (hLayer i) (hLastFeature i) id (poCurTile i) (rect i)
         (last_record_index_read i).
Definition set_cur_tile (t : option msOGRFileInfo) (i : msOGRFileInfo)
    : msOGRFileInfo :=
  mkInfo (pszFname i) (hLayer i) (hLastFeature i) (nTileId i) t (rect i)
         (last_record_index_read i).
Definition set_rect (r : rectObj) (i : msOGRFileInfo) : msOGRFileInfo :=
  mkInfo (pszFname i) (hLayer i) (hLastFeature i) (nTileId i) (poCurTile i) r
         (last_record_index_read i).

(** The fields of [layerObj] these functions read. *)
Record layerObj := mkLayerObj {
  ltype : MS_LAYER_TYPE;
  numitems : nat;
  tileindex_name : option string;
  tileitemindex : nat
}.

(** [ogrGetLinearGeometry]: the feature's geometry (its linearisation is
    GDAL's); a null feature handle has none. *)
Definition ogrGetLinearGeometry (hFeature : option OGRFeature) : option OGRGeometry :=
  match hFeature with Some f => fgeom f | None => None end.

(** A geometry is incompatible with a layer type when its conversion into
    a fresh shape succeeds and leaves the shape of type Null; it is
    unsupported when the conversion fails. *)
Definition fresh_shape : shapeObj := set_type MS_SHAPE_NULL msInitShape.

Definition incompatible (hGeom : option OGRGeometry) (lt : MS_LAYER_TYPE) : bool :=
  let r := ogrConvertGeometry hGeom fresh_shape lt in
  bool_decide (r.1 = MS_SUCCESS) && bool_decide (type r.2 = MS_SHAPE_NULL).

Definition compatible (hGeom : option OGRGeometry) (lt : MS_LAYER_TYPE) : bool :=
  let r := ogrConvertGeometry hGeom fresh_shape lt in
  bool_decide (r.1 = MS_SUCCESS) && negb (bool_decide (type r.2 = MS_SHAPE_NULL)).

Definition unsupported (hGeom : option OGRGeometry) (lt : MS_LAYER_TYPE) : bool :=
  negb (bool_decide ((ogrConvertGeometry hGeom fresh_shape lt).1 = MS_SUCCESS)).

(** The geometry subtypes a layer type accepts, by the traversal used. *)
Definition subtype_supported (g : OGRGeometry) (lt : MS_LAYER_TYPE) : bool :=
  match lt with
  | MS_LAYER_POINT => points_supported g
  | MS_LAYER_LINE | MS_LAYER_POLYGON => lines_supported g
  | MS_LAYER_QUERY | MS_LAYER_CHART =>
      if is_point_input g then points_supported g else lines_supported g
  | _ => false
  end.

Section WithBackEnd.

(** [msOGRGetValues] is taken as given: the values it loads for a feature,
    or nothing when it fails. *)
Variable msOGRGetValues : layerObj -> OGRFeature -> option (list string).

(** The data sources that can be opened, by connection string. *)
Variable datasets : gmap string OGRLayer.

(** Whether the build defines [IGNORE_MISSING_DATA]. *)
Variable IGNORE_MISSING_DATA : bool.

(** The values of a feature load: there are no items, or
    [msOGRGetValues] returns them. *)
Definition values_load (layer : layerObj) (f : OGRFeature) : bool :=
  negb (0 <? numitems layer)%nat || bool_decide (is_Some (msOGRGetValues layer f)).

(** *** msOGRFileNextShape *)

Record next_state := mkNext {
  ns_status : status;
  ns_shape : shapeObj;
  ns_pending : list OGRFeature;
  ns_last : Z;
  ns_feature : option OGRFeature
}.

(** The [while (shape->type == MS_SHAPE_NULL)] loop, entered with a freed
    shape of type Null: [pend] is what the layer has not returned yet,
    [last] is [last_record_index_read]. *)
Fixpoint next_shape_loop (layer : layerObj) (read_err : bool)
    (pend : list OGRFeature) (last : Z) : next_state :=
  match pend with
  | [] =>
      mkNext (if read_err then MS_FAILURE else MS_DONE)
             (set_type MS_SHAPE_NULL msInitShape) [] (-1) None
  | f :: rest =>
      let last' := last + 1 in
      let shape0 := set_type MS_SHAPE_NULL msInitShape in
      let with_values :=
        if (0 <? numitems layer)%nat
        then match msOGRGetValues layer f with
             | Some v => Some (set_values v shape0)
             | None => None
             end
        else Some shape0 in
      match with_values with
      | None => mkNext MS_FAILURE shape0 rest last' None
      | Some shape1 =>
          match ogrConvertGeometry (ogrGetLinearGeometry (Some f)) shape1 (ltype layer) with
          | (MS_SUCCESS, shape2) =>
              if negb (bool_decide (type shape2 = MS_SHAPE_NULL))
              then mkNext MS_SUCCESS shape2 rest last' (Some f)
              else next_shape_loop layer read_err rest last'
          | (_, _) => mkNext MS_FAILURE (msFreeShape shape1) rest last' None
          end
      end
  end.

Definition msOGRFileNextShape (layer : layerObj) (shape : shapeObj)
    (psInfo : option msOGRFileInfo) : status * shapeObj * option msOGRFileInfo :=
  match psInfo with
  | None => (MS_FAILURE, shape, None)
  | Some info =>
    match hLayer info with
    | None => (MS_FAILURE, shape, psInfo)
    | Some lyr =>
      let r := next_shape_loop layer (read_error lyr) (pending lyr)
                               (last_record_index_read info) in
      let info1 := set_cursor (Some (set_pending (ns_pending r) lyr)) (ns_last r) info in
      match ns_status r, ns_feature r with
      | MS_SUCCESS, Some f =>
          let s := ns_shape r in
          (MS_SUCCESS,
           mkShape (type s) (line s) (bounds s) (values s)
                   (fid f) (ns_last r) (nTileId info),
           Some (set_last_feature (Some f) info1))
      | st, _ => (st, ns_shape r, Some info1)
      end
    end
  end.

(** *** msOGRFileGetShape *)

(** [while (last_record_index_read < record)]: read [n] more features. *)
Fixpoint seek (n : nat) (pend : list OGRFeature) (last : Z)
    (hFeature : option OGRFeature)
    : option (option OGRFeature) * list OGRFeature * Z :=
  match n with
  | O => (Some hFeature, pend, last)
  | S n' =>
      match pend with
      | [] => (None, pend, last)
      | f :: rest => seek n' rest (last + 1) (Some f)
      end
  end.

Definition msOGRFileGetShape (layer : layerObj) (shape : shapeObj) (record : Z)
    (psInfo : option msOGRFileInfo) (record_is_fid : bool)
    : status * shapeObj * option msOGRFileInfo :=
  match psInfo with
  | None => (MS_FAILURE, shape, None)
  | Some info =>
    match hLayer info with
    | None => (MS_FAILURE, shape, psInfo)
    | Some lyr =>
      let shape0 := set_type MS_SHAPE_NULL (msFreeShape shape) in
      let found : option (option OGRFeature) * msOGRFileInfo :=
        if record_is_fid then
          match OGR_L_GetFeature lyr record with
          | None => (None, info)
          | Some f => (Some (Some f), info)
          end
        else
          let reset := (record <=? last_record_index_read info)
                       || (last_record_index_read info =? -1) in
          let lyr1 := if reset then OGR_L_ResetReading lyr else lyr in
          let last1 := if reset then -1 else last_record_index_read info in
          let '(h, pend, last) :=
            seek (Z.to_nat (record - last1)) (pending lyr1) last1 None in
          (h, set_cursor (Some (set_pending pend lyr1)) last info) in
      match found with
      | (None, info1) => (MS_FAILURE, shape0, Some info1)
      | (Some hFeature, info1) =>
        match ogrConvertGeometry (ogrGetLinearGeometry hFeature) shape0 (ltype layer) with
        | (MS_SUCCESS, shape1) =>
            if bool_decide (type shape1 = MS_SHAPE_NULL)
            then (MS_FAILURE, shape1, Some info1)
            else
              match hFeature with
              | None => (MS_FAILURE, shape1, Some info1)
              | Some f =>
                let with_values :=
                  if (0 <? numitems layer)%nat
                  then match msOGRGetValues layer f with
                       | Some v => Some (set_values v shape1)
                       | None => None
                       end
                  else Some shape1 in
                match with_values with
                | None => (MS_FAILURE, shape1, Some info1)
                | Some s =>
                    (MS_SUCCESS,
                     mkShape (type s) (line s) (bounds s) (values s)
                             (if record_is_fid then record else fid f)
                             (if record_is_fid then -1 else record)
                             (nTileId info1),
                     Some (set_last_feature (Some f) info1))
                end
              end
        | (_, shape1) => (MS_FAILURE, shape1, Some info1)
        end
      end
    end
  end.

(** *** msOGRFileWhichShapes and msOGRFileOpen, as far as tiles need them *)

(** What [msOGRFileOpen] returns for a connection string: a fresh
    [msOGRFileInfo] on the data source, or nothing when it cannot be
    opened. *)
Definition msOGRFileOpen (connection : string) : option msOGRFileInfo :=
  match datasets !! connection with
  | None => None
  | Some lyr =>
      Some (mkInfo connection (Some (OGR_L_ResetReading lyr)) None 0 None
                   (mkRect 0 0 0 0) (-1))
  end.

(** [msOGRFileWhichShapes] without a sort clause: the rectangle is
    recorded, the attribute filter is set (which the back end may refuse)
    and reading is reset. *)
Definition msOGRFileWhichShapes (r : rectObj) (psInfo : msOGRFileInfo)
    : status * msOGRFileInfo :=
  match hLayer psInfo with
  | None => (MS_FAILURE, psInfo)
  | Some lyr =>
      if filter_ok lyr
      then (MS_SUCCESS, set_cursor (Some (OGR_L_ResetReading lyr)) (-1) (set_rect r psInfo))
      else (MS_FAILURE, set_rect r psInfo)
  end.

(** *** msOGRFileReadTile *)

(** [OGR_F_GetFieldAsString(hFeature, layer->tileitemindex)]. *)
Definition tile_connection (layer : layerObj) (f : OGRFeature) : string :=
  nth (tileitemindex layer) (ffields f) EmptyString.

(** [int nFeatureId = OGR_F_GetFID(hFeature)]: a FID is wider than an
    [int]; the conversion keeps its low 32 bits. *)
Definition to_int (z : Z) : Z := (z + 2 ^ 31) mod 2 ^ 32 - 2 ^ 31.

(** What follows a successful open: the tile takes the record's FID as
    an [int], the parent's rectangle is applied when one is set, and the
    tile becomes the current one. *)
Definition install_tile (psInfo : msOGRFileInfo) (f : OGRFeature)
    (psTileInfo : msOGRFileInfo) : status * msOGRFileInfo :=
  let tile := set_tile_id (to_int (fid f)) psTileInfo in
  if dne (minx (rect psInfo)) 0 || dne (maxx (rect psInfo)) 0 then
    match msOGRFileWhichShapes (rect psInfo) tile with
    | (MS_SUCCESS, tile') => (MS_SUCCESS, set_cur_tile (Some tile') psInfo)
    | (st, _) => (st, psInfo)
    end
  else (MS_SUCCESS, set_cur_tile (Some tile) psInfo).

(** The [NextFile:] loop for [targetTile < 0]: [pend] is what the index
    layer [lyr] has not returned yet. *)
Fixpoint next_file (layer : layerObj) (psInfo : msOGRFileInfo) (lyr : OGRLayer)
    (targetTile : Z) (pend : list OGRFeature) : status * msOGRFileInfo :=
  match pend with
  | [] =>
      (if targetTile =? -1 then MS_DONE else MS_FAILURE,
       set_cursor (Some (set_pending [] lyr)) (last_record_index_read psInfo) psInfo)
  | f :: rest =>
      let psInfo' :=
        set_cursor (Some (set_pending rest lyr)) (last_record_index_read psInfo) psInfo in
      match msOGRFileOpen (tile_connection layer f) with
      | None =>
          if negb IGNORE_MISSING_DATA && (targetTile =? -1)
          then next_file layer psInfo lyr targetTile rest
          else (MS_FAILURE, psInfo')
      | Some psTileInfo => install_tile psInfo' f psTileInfo
      end
  end.

Definition msOGRFileReadTile (layer : layerObj) (psInfo : msOGRFileInfo)
    (targetTile : Z) : status * msOGRFileInfo :=
  let psInfo0 := set_cur_tile None psInfo in
  match hLayer psInfo0 with
  | None => (if targetTile =? -1 then MS_DONE else MS_FAILURE, psInfo0)
  | Some lyr =>
      let lyr1 := if targetTile =? -2 then OGR_L_ResetReading lyr else lyr in
      if targetTile <? 0 then next_file layer psInfo0 lyr1 targetTile (pending lyr1)
      else
        let psInfo1 := set_cursor (Some lyr1) (last_record_index_read psInfo0) psInfo0 in
        match OGR_L_GetFeature lyr1 targetTile with
        | None => (MS_FAILURE, psInfo1)
        | Some f =>
            match msOGRFileOpen (tile_connection layer f) with
            | None => (MS_FAILURE, psInfo1)
            | Some psTileInfo => install_tile psInfo1 f psTileInfo
            end
        end
  end.

(** The identities of the tiles that successive sequential advances make
    current, and the status that ends them ([None] when [fuel] advances
    did not reach an end). *)
Fixpoint advance_all (fuel : nat) (layer : layerObj) (psInfo : msOGRFileInfo)
    : list Z * option status :=
  match fuel with
  | O => ([], None)
  | S fuel' =>
      match msOGRFileReadTile layer psInfo (-1) with
      | (MS_SUCCESS, psInfo') =>
          let '(ids, st) := advance_all fuel' layer psInfo' in
          (match poCurTile psInfo' with
           | Some t => nTileId t :: ids
           | None => ids
           end, st)
      | (st, _) => ([], Some st)
      end
  end.

(** *** msOGRLayerNextShape *)

Definition index_pending (psInfo : msOGRFileInfo) : list OGRFeature :=
  match hLayer psInfo with Some lyr => pending lyr | None => [] end.

(** The [do ... while (status == MS_SUCCESS)] loop over tiles; every turn
    that goes on has consumed an index record, so [fuel] above the number
    of pending index records is never used up. *)
Fixpoint tiles_loop (fuel : nat) (layer : layerObj) (shape : shapeObj)
    (psInfo : msOGRFileInfo) : option (status * shapeObj * msOGRFileInfo) :=
  match fuel with
  | O => None
  | S fuel' =>
      let '(st, shape1, tile1) := msOGRFileNextShape layer shape (poCurTile psInfo) in
      let psInfo1 := set_cur_tile tile1 psInfo in
      if negb (bool_decide (st = MS_DONE)) then Some (st, shape1, psInfo1)
      else
        let '(st2, psInfo2) := msOGRFileReadTile layer psInfo1 (-1) in
        if negb (bool_decide (st2 = MS_SUCCESS)) then Some (st2, shape1, psInfo2)
        else tiles_loop fuel' layer shape1 psInfo2
  end.

Definition msOGRLayerNextShape (layer : layerObj) (shape : shapeObj)
    (layerinfo : option msOGRFileInfo)
    : option (status * shapeObj * option msOGRFileInfo) :=
  match layerinfo with
  | None => Some (MS_FAILURE, shape, None)
  | Some psInfo =>
    match hLayer psInfo with
    | None => Some (MS_FAILURE, shape, layerinfo)
    | Some _ =>
      match tileindex_name layer with
      | None => Some (msOGRFileNextShape layer shape layerinfo)
      | Some _ =>
          let first :=
            match poCurTile psInfo with
            | None => msOGRFileReadTile layer psInfo (-1)
            | Some _ => (MS_SUCCESS, psInfo)
            end in
          match first with
          | (MS_SUCCESS, psInfo1) =>
              match tiles_loop (S (length (index_pending psInfo1))) layer shape psInfo1 with
              | Some (st, shp, psInfo2) => Some (st, shp, Some psInfo2)
              | None => None
              end
          | (st, psInfo1) => Some (st, shape, Some psInfo1)
          end
      end
    end
  end.

End WithBackEnd.

End Layer.

(** ** Filter translation *)

Module Filter.

(** Modelled from the spec: [MS_MIN] and [MS_MAX] are macros of
    mapserver.h, which is not part of this file; they are the lesser and
    the greater of two values (section 4.2, "widening the lower bound",
    "narrowing the upper bound"). *)
Definition MS_MIN (a b : double) : double := if dlt a b then a else b.
Definition MS_MAX (a b : double) : double := if dgt a b then a else b.

(** [MS_TRUE] of mapserver.h. *)
Definition MS_TRUE : Z := 1.

(** The parser's token codes (mapserver.h); a character token such as
    ['('] is its character. *)
Inductive token_kind :=
  | MS_TOKEN_LOGICAL_AND | MS_TOKEN_LOGICAL_OR | MS_TOKEN_LOGICAL_NOT
  | MS_TOKEN_LITERAL_NUMBER | MS_TOKEN_LITERAL_STRING | MS_TOKEN_LITERAL_TIME
  | MS_TOKEN_LITERAL_SHAPE | MS_TOKEN_LITERAL_BOOLEAN
  | MS_TOKEN_COMPARISON_EQ | MS_TOKEN_COMPARISON_NE | MS_TOKEN_COMPARISON_GT
  | MS_TOKEN_COMPARISON_LT | MS_TOKEN_COMPARISON_LE | MS_TOKEN_COMPARISON_GE
  | MS_TOKEN_COMPARISON_IEQ | MS_TOKEN_COMPARISON_RE | MS_TOKEN_COMPARISON_IRE
  | MS_TOKEN_COMPARISON_IN | MS_TOKEN_COMPARISON_LIKE
  | MS_TOKEN_COMPARISON_INTERSECTS | MS_TOKEN_COMPARISON_DISJOINT
  | MS_TOKEN_COMPARISON_TOUCHES | MS_TOKEN_COMPARISON_OVERLAPS
  | MS_TOKEN_COMPARISON_CROSSES | MS_TOKEN_COMPARISON_WITHIN
  | MS_TOKEN_COMPARISON_CONTAINS | MS_TOKEN_COMPARISON_EQUALS
  | MS_TOKEN_COMPARISON_BEYOND | MS_TOKEN_COMPARISON_DWITHIN
  | MS_TOKEN_FUNCTION (code : Z)
  | MS_TOKEN_BINDING_DOUBLE | MS_TOKEN_BINDING_INTEGER | MS_TOKEN_BINDING_STRING
  | MS_TOKEN_BINDING_TIME | MS_TOKEN_BINDING_SHAPE
  | MS_TOKEN_BINDING_MAP_CELLSIZE | MS_TOKEN_BINDING_DATA_CELLSIZE
  | MS_TOKEN_CHAR (c : ascii).

Global Instance token_kind_eq_dec : EqDecision token_kind.
Proof. solve_decision. Defined.

Definition LPAREN : token_kind := MS_TOKEN_CHAR "("%char.
Definition RPAREN : token_kind := MS_TOKEN_CHAR ")"%char.
Definition COMMA : token_kind := MS_TOKEN_CHAR ","%char.

(** The [tokenval] union; the parser writes the member that goes with the
    token. *)
Inductive token_value :=
  | dblval (d : double)
  | strval (s : string)
  | shpval (s : shapeObj)
  | bindval (item : string) (index : Z)
  | no_value.

(** A node of the token list; [next] is the rest of the list. *)
Record tokenListNodeObj := mkToken {
  token : token_kind;
  tokenval : token_value
}.

Definition tokenval_dblval (n : tokenListNodeObj) : double :=
  match tokenval n with dblval d => d | _ => 0 end.
Definition tokenval_strval (n : tokenListNodeObj) : string :=
  match tokenval n with strval s => s | _ => EmptyString end.
Definition tokenval_shpval (n : tokenListNodeObj) : shapeObj :=
  match tokenval n with shpval s => s | _ => msInitShape end.
Definition tokenval_bindval_item (n : tokenListNodeObj) : string :=
  match tokenval n with bindval i _ => i | _ => EmptyString end.

(** What a call returns, or the null pointer it reads, or the buffer it
    writes past the end of. *)
Inductive outcome (A : Type) :=
  | Returned (a : A)
  | NullDeref (expr : string)
  | BufferOverrun (buffer : string).
Arguments Returned {A} a.
Arguments NullDeref {A} expr.
Arguments BufferOverrun {A} buffer.

(** The two literal values of [strtmpl]. *)
Inductive template := TMPL_CAST | TMPL_PLAIN.

Definition template_text (t : template) : string :=
  match t with
  | TMPL_CAST => "CAST(%s AS CHARACTER)"
  | TMPL_PLAIN => "%s"
  end.

Definition sprintf_template (t : template) (s : string) : string :=
  match t with
  | TMPL_CAST => "CAST(" +:+ s +:+ " AS CHARACTER)"
  | TMPL_PLAIN => s
  end.

(** [snippet = msSmallMalloc(size); sprintf(snippet, ...)] writes the
    text and the NUL that ends it: a text of [size] characters or more
    goes past the end of the buffer. *)
Definition overruns (size : nat) (text : string) : bool :=
  (size <=? String.length text)%nat.

(** [msStringConcatenate] (mapstring.c): a first piece starts the string. *)
Definition msStringConcatenate (dest : option string) (src : string) : option string :=
  Some (match dest with Some d => d +:+ src | None => src end).

(** *** msOGREscapePropertyName *)

Definition property_char_ok (c : ascii) : bool :=
  let n := nat_of_ascii c in
  ((48 <=? n) && (n <=? 57) || (65 <=? n) && (n <=? 90)
   || (97 <=? n) && (n <=? 122) || (n =? 95) || (127 <? n))%nat.

Definition msOGREscapePropertyName (pszString : string) : option string :=
  if bool_decide (pszString = EmptyString) then None
  else if forallb property_char_ok (String.list_ascii_of_string pszString)
       then Some pszString
       else Some "invalid_property_name".

(** The local state of [msOGRTranslateMsExpressionToOGRSQL]; [sBBOX] is
    [None] as long as [sBBOXValid] is false. *)
Record translate_state := mkState {
  msSQLExpression : option string;
  sBBOX : option rectObj;
  strtmpl : option template;
  bIsIntersectRectangle : bool
}.

Definition initial_state : translate_state := mkState None None None false.

(** What the call leaves behind: the returned string,
    [layer->filter.native_string] and [*psRect]. *)
Record translation := mkTranslation {
  returned : option string;
  native_string : option string;
  psRect : rectObj
}.

(** The test for a literal shape that is an axis-aligned rectangle. *)
Definition is_rectangle (shape : shapeObj) : bool :=
  bool_decide (type shape = MS_SHAPE_POLYGON)
  && (length (line shape) =? 1)%nat
  && (length (nth 0 (line shape) []) =? 5)%nat
  && (let pt i := nth i (nth 0 (line shape) []) (mkPoint 0 0) in
      deq (px (pt 0%nat)) (px (pt 1%nat)) && deq (py (pt 0%nat)) (py (pt 3%nat))
      && deq (px (pt 2%nat)) (px (pt 3%nat)) && deq (py (pt 1%nat)) (py (pt 2%nat))
      && deq (px (pt 0%nat)) (px (pt 4%nat)) && deq (py (pt 0%nat)) (py (pt 4%nat))).

(** The refinement of the caller's rectangle, lines 1485 to 1488. *)
Definition refine_rect (r sBBOX : rectObj) : rectObj :=
  mkRect (MS_MAX (minx r) (minx sBBOX)) (MS_MAX (miny r) (miny sBBOX))
         (MS_MIN (maxx r) (maxx sBBOX)) (MS_MAX (maxy r) (maxy sBBOX)).

(** The intersection of two rectangles, as section 4.2 words it: the
    greater of the minima and the lesser of the maxima, which are numbers
    when both rectangles are made of numbers. *)
Definition dmax (a b : double) : double :=
  match a, b with Num x, Num y => Num (Z.max x y) | _, _ => NaN end.
Definition dmin (a b : double) : double :=
  match a, b with Num x, Num y => Num (Z.min x y) | _, _ => NaN end.

Definition rect_intersection (r b : rectObj) : rectObj :=
  mkRect (dmax (minx r) (minx b)) (dmax (miny r) (miny b))
         (dmin (maxx r) (maxx b)) (dmin (maxy r) (maxy b)).

(** The tokens that are copied through, the field bindings that set
    [strtmpl], and the literals that read it. *)
Definition passes_through (t : token_kind) : bool :=
  match t with
  | MS_TOKEN_COMPARISON_EQ | MS_TOKEN_COMPARISON_NE | MS_TOKEN_COMPARISON_GT
  | MS_TOKEN_COMPARISON_GE | MS_TOKEN_COMPARISON_LT | MS_TOKEN_COMPARISON_LE
  | MS_TOKEN_LOGICAL_AND | MS_TOKEN_LOGICAL_NOT | MS_TOKEN_LOGICAL_OR => true
  | MS_TOKEN_CHAR c => bool_decide (c = "("%char) || bool_decide (c = ")"%char)
  | _ => false
  end.

Definition is_field_binding (t : token_kind) : bool :=
  match t with
  | MS_TOKEN_BINDING_DOUBLE | MS_TOKEN_BINDING_INTEGER | MS_TOKEN_BINDING_STRING => true
  | _ => false
  end.

Definition is_rendered_literal (t : token_kind) : bool :=
  match t with
  | MS_TOKEN_LITERAL_NUMBER | MS_TOKEN_LITERAL_STRING => true
  | _ => false
  end.

(** The eight tokens of [intersects([shape], literal) = true]. *)
Definition intersects_sequence (shape : shapeObj) : list tokenListNodeObj :=
  [ mkToken MS_TOKEN_COMPARISON_INTERSECTS no_value;
    mkToken LPAREN no_value;
    mkToken MS_TOKEN_BINDING_SHAPE no_value;
    mkToken COMMA no_value;
    mkToken MS_TOKEN_LITERAL_SHAPE (shpval shape);
    mkToken RPAREN no_value;
    mkToken MS_TOKEN_COMPARISON_EQ no_value;
    mkToken MS_TOKEN_LITERAL_BOOLEAN (dblval MS_TRUE) ].

(** Any eight nodes that make a recognised intersects sequence. *)
Definition is_intersects_sequence (l : list tokenListNodeObj) : Prop :=
  map token l
  = [MS_TOKEN_COMPARISON_INTERSECTS; LPAREN; MS_TOKEN_BINDING_SHAPE; COMMA;
     MS_TOKEN_LITERAL_SHAPE; RPAREN; MS_TOKEN_COMPARISON_EQ;
     MS_TOKEN_LITERAL_BOOLEAN]
  /\ (forall n, l !! 7%nat = Some n -> tokenval_dblval n = MS_TRUE).

Definition starts_with (t : token_kind) (l : list tokenListNodeObj) : Prop :=
  exists n l', l = n :: l' /\ token n = t.

(** The token sequences the translator walks through without leaving and
    without meeting a field binding: copied-through tokens (a logical AND
    not being followed by INTERSECTS) and recognised intersects
    sequences, each with the AND that may follow it. *)
Inductive walked_through : list tokenListNodeObj -> Prop :=
  | walked_nil : walked_through []
  | walked_pass n l :
      passes_through (token n) = true ->
      (token n = MS_TOKEN_LOGICAL_AND -> ~ starts_with MS_TOKEN_COMPARISON_INTERSECTS l) ->
      walked_through l ->
      walked_through (n :: l)
  | walked_sequence s l :
      is_intersects_sequence s ->
      ~ starts_with MS_TOKEN_LOGICAL_AND l ->
      walked_through l ->
      walked_through (s ++ l)
  | walked_sequence_and s a l :
      is_intersects_sequence s ->
      token a = MS_TOKEN_LOGICAL_AND ->
      walked_through l ->
      walked_through (s ++ a :: l).

Section WithHost.

(** Rendering of a double by [sprintf("%lf")], [CPLEscapeString] with
    [CPLES_SQL], and [msExpressionTokenToString] are the C library's,
    GDAL's and mapfile.c's. *)
Variable sprintf_lf : double -> string.
Variable CPLEscapeString_SQL : string -> string.
Variable msExpressionTokenToString : token_kind -> string.

(** *** msOGREscapeSQLParam *)
Definition msOGREscapeSQLParam (pszString : string) : option string :=
  if bool_decide (pszString = EmptyString) then None
  else Some (CPLEscapeString_SQL pszString).

(** After the loop: the native string is stored when the filter was
    translated completely, the rectangle is refined when a shape was
    met. *)
Definition finish (old_native : option string) (r : rectObj)
    (st : translate_state) : translation :=
  let native :=
    if negb (bool_decide (is_Some (sBBOX st))) || bIsIntersectRectangle st
    then msSQLExpression st else old_native in
  let r' := match sBBOX st with Some b => refine_rect r b | None => r end in
  mkTranslation (msSQLExpression st) native r'.

(** [goto cleanup]. *)
Definition cleanup (old_native : option string) (r : rectObj) : translation :=
  mkTranslation None old_native r.

(** One check of the intersects sequence: [node->next] must exist to be
    read; a token other than the expected one abandons the translation. *)
Definition expect (old_native : option string) (r : rectObj)
    (l : list tokenListNodeObj) (want : token_kind)
    (k : tokenListNodeObj -> list tokenListNodeObj -> outcome translation)
    : outcome translation :=
  match l with
  | [] => NullDeref "node->next"
  | n :: l' =>
      if bool_decide (token n = want) then k n l'
      else Returned (cleanup old_native r)
  end.

(** The loop over the tokens.  Every snippet is printed into a buffer
    whose size is taken from [strlen(strtmpl)]: that of a field reference
    always fits (its text is two characters shorter than the template and
    the name together); that of a literal may not. *)
Fixpoint translate (old_native : option string) (r : rectObj)
    (tokens : list tokenListNodeObj) (st : translate_state)
    : outcome translation :=
  match tokens with
  | [] => Returned (finish old_native r st)
  | node :: rest =>
    match token node with
    | MS_TOKEN_LITERAL_NUMBER =>
        match strtmpl st with
        | None => NullDeref "strlen(strtmpl)"
        | Some tmpl =>
            let snippet := sprintf_lf (tokenval_dblval node) in
            if overruns (String.length (template_text tmpl) + 16) snippet
            then BufferOverrun "snippet"
            else
              translate old_native r rest
                (mkState (msStringConcatenate (msSQLExpression st) snippet)
                         (sBBOX st) (strtmpl st) (bIsIntersectRectangle st))
        end
    | MS_TOKEN_LITERAL_STRING =>
        match strtmpl st, msOGREscapeSQLParam (tokenval_strval node) with
        | None, _ => NullDeref "strlen(strtmpl)"
        | Some _, None => NullDeref "strlen(stresc)"
        | Some tmpl, Some stresc =>
            let snippet := "'" +:+ stresc +:+ "'" in
            if overruns (String.length (template_text tmpl) + String.length stresc)
                        snippet
            then BufferOverrun "snippet"
            else
              translate old_native r rest
                (mkState (msStringConcatenate (msSQLExpression st) snippet)
                         (sBBOX st) (strtmpl st) (bIsIntersectRectangle st))
        end
    | MS_TOKEN_BINDING_DOUBLE | MS_TOKEN_BINDING_INTEGER | MS_TOKEN_BINDING_STRING =>
        let cast : outcome bool :=
          if bool_decide (token node = MS_TOKEN_BINDING_STRING) then Returned true
          else match rest with
               | [] => NullDeref "node->next"
               | n :: _ =>
                   Returned (bool_decide (token n = MS_TOKEN_COMPARISON_RE)
                             || bool_decide (token n = MS_TOKEN_COMPARISON_IRE))
               end in
        match cast with
        | NullDeref e => NullDeref e
        | BufferOverrun e => BufferOverrun e
        | Returned c =>
            let tmpl := if c then TMPL_CAST else TMPL_PLAIN in
            match msOGREscapePropertyName (tokenval_bindval_item node) with
            | None => NullDeref "strlen(stresc)"
            | Some stresc =>
                translate old_native r rest
                  (mkState (msStringConcatenate (msSQLExpression st)
                              (sprintf_template tmpl stresc))
                           (sBBOX st) (Some tmpl) (bIsIntersectRectangle st))
            end
        end
    | MS_TOKEN_COMPARISON_INTERSECTS =>
        expect old_native r rest LPAREN (fun _ r1 =>
        expect old_native r r1 MS_TOKEN_BINDING_SHAPE (fun _ r2 =>
        expect old_native r r2 COMMA (fun _ r3 =>
        expect old_native r r3 MS_TOKEN_LITERAL_SHAPE (fun n4 r4 =>
        expect old_native r r4 RPAREN (fun _ r5 =>
        expect old_native r r5 MS_TOKEN_COMPARISON_EQ (fun _ r6 =>
        expect old_native r r6 MS_TOKEN_LITERAL_BOOLEAN (fun n7 r7 =>
          if dne (tokenval_dblval n7) MS_TRUE then Returned (cleanup old_native r)
          else
            let shape := tokenval_shpval n4 in
            let st' :=
              mkState (msSQLExpression st) (Some (bounds shape)) (strtmpl st)
                      (if is_rectangle shape then true else bIsIntersectRectangle st) in
            match r7 with
            | n8 :: r8 =>
                if bool_decide (token n8 = MS_TOKEN_LOGICAL_AND)
                then translate old_native r r8 st'
                else translate old_native r r7 st'
            | [] => translate old_native r r7 st'
            end)))))))
    | MS_TOKEN_COMPARISON_EQ | MS_TOKEN_COMPARISON_NE | MS_TOKEN_COMPARISON_GT
    | MS_TOKEN_COMPARISON_GE | MS_TOKEN_COMPARISON_LT | MS_TOKEN_COMPARISON_LE
    | MS_TOKEN_LOGICAL_AND | MS_TOKEN_LOGICAL_NOT | MS_TOKEN_LOGICAL_OR
    | MS_TOKEN_CHAR "("%char | MS_TOKEN_CHAR ")"%char =>
        let emit :=
          mkState (msStringConcatenate (msSQLExpression st)
                     (msExpressionTokenToString (token node)))
                  (sBBOX st) (strtmpl st) (bIsIntersectRectangle st) in
        match rest with
        | n1 :: r1 =>
            if bool_decide (token node = MS_TOKEN_LOGICAL_AND)
               && bool_decide (token n1 = MS_TOKEN_COMPARISON_INTERSECTS)
            then translate old_native r r1 st
            else translate old_native r rest emit
        | [] => translate old_native r rest emit
        end
    | _ => Returned (cleanup old_native r)
    end
  end.

(** [msOGRTranslateMsExpressionToOGRSQL(layer, psFilter, psRect)], with
    [old_native] the value of [layer->filter.native_string] at entry. *)
Definition msOGRTranslateMsExpressionToOGRSQL (old_native : option string)
    (psFilter : list tokenListNodeObj) (r : rectObj) : outcome translation :=
  translate old_native r psFilter initial_state.

End WithHost.

End Filter.

(** ** Style decoding *)

Module Style.

Definition INT_MIN : Z := -2147483648.
Definition INT_MAX : Z := 2147483647.

(** The values of a C [int]. *)
Definition is_int (n : Z) : Prop := INT_MIN <= n <= INT_MAX.

Inductive OGRSTClassId :=
  OGRSTCNone | OGRSTCPen | OGRSTCBrush | OGRSTCSymbol | OGRSTCLabel | OGRSTCVector.

Global Instance class_id_eq_dec : EqDecision OGRSTClassId.
Proof. solve_decision. Defined.

Record colorObj := mkColor { red : Z; green : Z; blue : Z; alpha : Z }.

(** Line caps and joins (mapserver.h); the defaults are
    [MS_CJC_DEFAULT_CAPS] and [MS_CJC_DEFAULT_JOINS]. *)
Inductive MS_CJC :=
  | MS_CJC_NONE | MS_CJC_BEVEL | MS_CJC_BUTT | MS_CJC_MITER | MS_CJC_ROUND
  | MS_CJC_SQUARE | MS_CJC_TRIANGLE.
Definition MS_CJC_DEFAULT_CAPS : MS_CJC := MS_CJC_ROUND.
Definition MS_CJC_DEFAULT_JOINS : MS_CJC := MS_CJC_NONE.
Definition MS_STYLE_SINGLE_SIDED_OFFSET : Z := -99.

Inductive MS_POSITION :=
  MS_UL | MS_LR | MS_UR | MS_LL | MS_CR | MS_CL | MS_UC | MS_LC | MS_CC.

(** A style part ([OGRStyleToolH]) with its parameters read: each field
    is what [OGR_ST_GetParamStr], [OGR_ST_GetParamNum] or
    [OGR_ST_GetParamDbl] gives for the parameter of the part's own class,
    [None] when the parameter is null; a colour is [None] as well when
    [OGR_ST_GetRGBFromString] does not parse it.  Sizes come in pixels. *)
Record OGRStyleTool := mkTool {
  st_type : OGRSTClassId;
  st_id : option string;
  st_color : option colorObj;
  st_bcolor : option colorObj;
  st_ocolor : option colorObj;
  st_width : option Z;
  st_cap : option string;
  st_join : option string;
  st_peroffset : option Z;
  st_angle : option Z;
  st_size : option Z;
  st_dx : option Z;
  st_dy : option Z;
  st_priority : option Z;
  st_text : option string;
  st_anchor : option Z
}.

(** The fields of [styleObj] the decoder writes; the dash pattern
    ([pattern], [patternlength]), whose parsing is GDAL's, is left out. *)
Record styleObj := mkStyle {
  color : colorObj;
  outlinecolor : colorObj;
  backgroundcolor : colorObj;
  symbol : Z;
  symbolname : option string;
  size : Z;
  width : Z;
  linecap : MS_CJC;
  linejoin : MS_CJC;
  offsetx : Z;
  offsety : Z;
  angle : Z;
  gap : Z
}.

(** The fields of [labelObj] kept here; its colours and font are left
    out. *)
Record labelObj := mkLabel {
  text : option string;
  label_angle : Z;
  label_size : Z;
  position : MS_POSITION
}.

(** [classObj]: [numstyles] and [numlabels] are the lengths. *)
Record classObj := mkClass {
  styles : list styleObj;
  labels : list labelObj
}.

(** [StyleSortStruct]. *)
Record StyleSortStruct := mkSort {
  nPriority : Z;
  nApparitionIndex : nat
}.

Definition msOGRUpdateStyleSortFct (sssa sssb : StyleSortStruct) : Z :=
  if nPriority sssa <? nPriority sssb then -1
  else if nPriority sssa >? nPriority sssb then 1
  else if (nApparitionIndex sssa <? nApparitionIndex sssb)%nat then -1
  else 1.

(** [qsort] is the C library's.  The comparator is a strict order on
    entries that differ in priority or in apparition index, as those of
    one call do, so every sorting algorithm gives the same array: the one
    built here by insertion. *)
Fixpoint qsort_insert (x : StyleSortStruct) (l : list StyleSortStruct)
    : list StyleSortStruct :=
  match l with
  | [] => [x]
  | y :: l' =>
      if msOGRUpdateStyleSortFct x y <? 0 then x :: l else y :: qsort_insert x l'
  end.

Definition qsort (l : list StyleSortStruct) : list StyleSortStruct :=
  foldr qsort_insert [] l.

(** [strstr(hay, needle) != NULL]. *)
Fixpoint contains (needle hay : string) : bool :=
  String.prefix needle hay
  || match hay with
     | EmptyString => false
     | String _ hay' => contains needle hay'
     end.

(** *** msOGRUpdateStyleCheckPenBrushOnly *)

Fixpoint check_parts (parts : list (option OGRStyleTool)) (countPen countBrush : Z)
    : bool :=
  match parts with
  | [] => (countPen =? 1) && (countBrush =? 1)
  | None :: rest => check_parts rest countPen countBrush
  | Some hStylePart :: rest =>
      match st_type hStylePart with
      | OGRSTCPen =>
          match st_priority hStylePart with
          | Some _ => false
          | None => check_parts rest (countPen + 1) countBrush
          end
      | OGRSTCBrush =>
          match st_priority hStylePart with
          | Some _ => false
          | None => check_parts rest countPen (countBrush + 1)
          end
      | OGRSTCSymbol => false
      | _ => check_parts rest countPen countBrush
      end
  end.

Definition msOGRUpdateStyleCheckPenBrushOnly (parts : list (option OGRStyleTool))
    : bool :=
  check_parts parts 0 0.

(** The trigger of the legacy two-slot mode as section 4.4 words it:
    exactly one Pen and one Brush, neither with an explicit priority, and
    no Symbol part. *)
Definition parts_of (k : OGRSTClassId) (parts : list (option OGRStyleTool))
    : list OGRStyleTool :=
  filter (fun t => st_type t = k) (omap id parts).

Definition legacy_trigger (parts : list (option OGRStyleTool)) : Prop :=
  length (parts_of OGRSTCPen parts) = 1%nat /\
  length (parts_of OGRSTCBrush parts) = 1%nat /\
  (forall t, t ∈ parts_of OGRSTCPen parts ++ parts_of OGRSTCBrush parts ->
             st_priority t = None) /\
  parts_of OGRSTCSymbol parts = [].

(** The parts that take a style slot, in discovery order, and the
    priority each is sorted by. *)
Definition takes_slot (t : OGRStyleTool) : bool :=
  match st_type t with
  | OGRSTCPen | OGRSTCBrush | OGRSTCSymbol => true
  | _ => false
  end.

Definition discovered (parts : list (option OGRStyleTool)) : list OGRStyleTool :=
  filter (fun t => takes_slot t = true) (omap id parts).

Definition sort_priority (t : OGRStyleTool) : Z :=
  match st_priority t with Some p => p | None => INT_MIN end.

(** [ka] comes before [kb] in the order [l]. *)
Definition precedes (l : list nat) (ka kb : nat) : Prop :=
  exists i j, (i < j)%nat /\ l !! i = Some ka /\ l !! j = Some kb.

(** The order of the sort keys: by priority, then by apparition index. *)
Definition key_le (a b : StyleSortStruct) : Prop :=
  nPriority a < nPriority b
  \/ (nPriority a = nPriority b /\ (nApparitionIndex a <= nApparitionIndex b)%nat).

Section WithHost.

(** [initStyle] (mapfile.c) as the style it gives, and the symbol set
    through [msGetSymbolIndex] and [msStringSplit] on [','];
    the build has no USE_CURL. *)
Variable initStyle : styleObj.
Variable msGetSymbolIndex : string -> bool -> Z.
Variable msStringSplit : string -> list string.

(** Modelled from the spec: [msMaybeAllocateClassStyle] is in mapfile.c,
    not in this file.  It makes slot [idx] exist, appending initialised
    styles while there are too few (section 4.4: a part "becomes a newly
    appended slot" when [idx] is the number of slots). *)
Definition msMaybeAllocateClassStyle (c : classObj) (idx : nat) : classObj :=
  mkClass (styles c ++ replicate (S idx - length (styles c)) initStyle) (labels c).

(** [c->styles[nIndex]] after allocation, and its update. *)
Definition style_at (c : classObj) (nIndex : nat) : styleObj :=
  nth nIndex (styles c) initStyle.
Definition set_style (c : classObj) (nIndex : nat) (s : styleObj) : classObj :=
  mkClass (<[nIndex := s]> (styles c)) (labels c).

(** *** msOGRGetSymbolId *)
Definition msOGRGetSymbolId (pszSymbolId pszDefaultSymbol : option string)
    (try_addimage_if_notfound : bool) : Z :=
  let nSymbol :=
    match pszSymbolId with
    | Some id =>
        if bool_decide (id = EmptyString) then -1
        else foldl (fun n p => if n =? -1
                               then msGetSymbolIndex p try_addimage_if_notfound
                               else n)
                   (-1) (msStringSplit id)
    | None => -1
    end in
  let nSymbol :=
    match pszDefaultSymbol with
    | Some d => if nSymbol =? -1
                then msGetSymbolIndex d try_addimage_if_notfound else nSymbol
    | None => nSymbol
    end in
  if nSymbol =? -1 then 0 else nSymbol.

(** *** msOGRUpdateStyleParseLabel *)
Definition label_position (nPosition : Z) (old : MS_POSITION) : MS_POSITION :=
  match nPosition with
  | 1 => MS_UR | 2 => MS_UC | 3 => MS_UL
  | 4 => MS_CR | 5 => MS_CC | 6 => MS_CL
  | 7 => MS_LR | 8 => MS_LC | 9 => MS_LL
  | 10 => MS_UR | 11 => MS_UC | 12 => MS_UL
  | _ => old
  end.

Definition msOGRUpdateStyleParseLabel (c : classObj) (hLabelStyle : OGRStyleTool)
    : classObj :=
  let sz := default 0 (st_size hLabelStyle) in
  let l1 :=
    mkLabel (st_text hLabelStyle) (default 0 (st_angle hLabelStyle))
            (if sz <? 1 then 1 else sz)
            (match st_anchor hLabelStyle with
             | Some n => label_position n MS_UR
             | None => MS_UR
             end) in
  mkClass (styles c) (match labels c with [] => [l1] | _ :: ls => l1 :: ls end).

(** *** msOGRUpdateStyleParsePen *)
Definition pen_cap (pszCap : option string) : MS_CJC :=
  match pszCap with
  | Some s =>
      if bool_decide (s = "b") then MS_CJC_BUTT
      else if bool_decide (s = "r") then MS_CJC_ROUND
      else if bool_decide (s = "p") then MS_CJC_SQUARE
      else MS_CJC_DEFAULT_CAPS
  | None => MS_CJC_DEFAULT_CAPS
  end.

Definition pen_join (pszJoin : option string) : MS_CJC :=
  match pszJoin with
  | Some s =>
      if bool_decide (s = "m") then MS_CJC_MITER
      else if bool_decide (s = "r") then MS_CJC_ROUND
      else if bool_decide (s = "b") then MS_CJC_BEVEL
      else MS_CJC_DEFAULT_JOINS
  | None => MS_CJC_DEFAULT_JOINS
  end.

Definition no_color : colorObj := mkColor (-1) (-1) (-1) 255.

Definition is_invisible (name : string) (hTool : OGRStyleTool) : bool :=
  match st_id hTool with Some id => contains name id | None => false end.

(** The style is returned together with [*pbPriority]. *)
Definition msOGRUpdateStyleParsePen (layer_type : MS_LAYER_TYPE) (s : styleObj)
    (hPenStyle : OGRStyleTool) (bIsBrush : bool) (nPriority : Z) : styleObj * Z :=
  let invisible := is_invisible "ogr-pen-1" hPenStyle in
  let oPenColor :=
    if invisible then no_color
    else match st_color hPenStyle with Some c => c | None => no_color end in
  let nPenSize :=
    if invisible then 1 else default 1 (st_width hPenStyle) in
  let nPenSymbol :=
    if invisible then 0
    else match st_id hPenStyle with
         | Some _ => msOGRGetSymbolId (st_id hPenStyle) None false
         | None => 0
         end in
  let offx := default 0 (st_peroffset hPenStyle) in
  let offy := if negb (offx =? 0) then MS_STYLE_SINGLE_SIDED_OFFSET else 0 in
  let outline := bIsBrush || bool_decide (layer_type = MS_LAYER_POLYGON) in
  (mkStyle (if outline then color s else oPenColor)
           (if outline then oPenColor else outlinecolor s)
           (backgroundcolor s) nPenSymbol (symbolname s) nPenSize nPenSize
           (pen_cap (st_cap hPenStyle)) (pen_join (st_join hPenStyle))
           offx offy (angle s) (gap s),
   match st_priority hPenStyle with Some p => p | None => nPriority end).

(** *** msOGRUpdateStyleParseBrush *)
(** The style is returned together with [*pbIsBrush] and [*pbPriority]. *)
Definition msOGRUpdateStyleParseBrush (s : styleObj) (hBrushStyle : OGRStyleTool)
    (bIsBrush : bool) (nPriority : Z) : styleObj * bool * Z :=
  let prio := match st_priority hBrushStyle with Some p => p | None => nPriority end in
  if is_invisible "ogr-brush-1" hBrushStyle then
    (mkStyle no_color (outlinecolor s) (backgroundcolor s) (symbol s)
             (symbolname s) (size s) (width s) (linecap s) (linejoin s)
             (offsetx s) (offsety s) (angle s) (gap s),
     bIsBrush, prio)
  else
    (mkStyle (match st_color hBrushStyle with Some c => c | None => color s end)
             (outlinecolor s)
             (match st_bcolor hBrushStyle with
              | Some c => c | None => backgroundcolor s end)
             (msOGRGetSymbolId (st_id hBrushStyle) None false)
             (symbolname s)
             (match st_size hBrushStyle with Some z => z | None => size s end)
             (width s) (linecap s) (linejoin s) (offsetx s) (offsety s)
             (match st_angle hBrushStyle with Some a => a | None => angle s end)
             (match st_dx hBrushStyle, st_dy hBrushStyle with
              | Some dx, Some dy => if dx =? dy then dx else gap s
              | _, _ => gap s
              end),
     true, prio).

(** *** msOGRUpdateStyleParseSymbol *)
Definition msOGRUpdateStyleParseSymbol (s : styleObj) (hSymbolStyle : OGRStyleTool)
    (nPriority : Z) : styleObj * Z :=
  (mkStyle (match st_color hSymbolStyle with Some c => c | None => color s end)
           (match st_ocolor hSymbolStyle with
            | Some c => c | None => outlinecolor s end)
           (backgroundcolor s)
           (match symbolname s with
            | None => msOGRGetSymbolId (st_id hSymbolStyle) (Some "default-marker") false
            | Some _ => symbol s
            end)
           (symbolname s)
           (match st_size hSymbolStyle with Some z => z | None => size s end)
           (width s) (linecap s) (linejoin s) (offsetx s) (offsety s)
           (default 0 (st_angle hSymbolStyle)) (gap s),
   match st_priority hSymbolStyle with Some p => p | None => nPriority end).

(** *** msOGRUpdateStyle *)

(** The state of the loop over the parts. *)
Record update_state := mkUpdate {
  us_class : classObj;
  us_bIsBrush : bool;
  us_sort : list StyleSortStruct
}.

(** The slot a part is given. *)
Definition pen_index (bIsPenBrushOnly bIsBrush : bool) (layer_type : MS_LAYER_TYPE)
    (c : classObj) : nat :=
  if bIsPenBrushOnly then
    if bIsBrush || bool_decide (layer_type = MS_LAYER_POLYGON) then 1%nat else 0%nat
  else length (styles c).

Definition brush_index (bIsPenBrushOnly : bool) (c : classObj) : nat :=
  if bIsPenBrushOnly then 0%nat else length (styles c).

Definition memorize (bIsPenBrushOnly : bool) (nPriority : Z)
    (pasSortStruct : list StyleSortStruct) : list StyleSortStruct :=
  if bIsPenBrushOnly then pasSortStruct
  else pasSortStruct ++ [mkSort nPriority (length pasSortStruct)].

(** One turn of the loop, for a part that is not null. *)
Definition update_part (bIsPenBrushOnly : bool) (layer_type : MS_LAYER_TYPE)
    (st : update_state) (hStylePart : OGRStyleTool) : update_state :=
  let c := us_class st in
  match st_type hStylePart with
  | OGRSTCLabel =>
      mkUpdate (msOGRUpdateStyleParseLabel c hStylePart) (us_bIsBrush st) (us_sort st)
  | OGRSTCPen =>
      let nIndex := pen_index bIsPenBrushOnly (us_bIsBrush st) layer_type c in
      let c1 := msMaybeAllocateClassStyle c nIndex in
      let '(s, nPriority) :=
        msOGRUpdateStyleParsePen layer_type (style_at c1 nIndex) hStylePart
                                 (us_bIsBrush st) INT_MIN in
      mkUpdate (set_style c1 nIndex s) (us_bIsBrush st)
               (memorize bIsPenBrushOnly nPriority (us_sort st))
  | OGRSTCBrush =>
      let nIndex := brush_index bIsPenBrushOnly c in
      let c1 := msMaybeAllocateClassStyle c nIndex in
      let '(s, bIsBrush, nPriority) :=
        msOGRUpdateStyleParseBrush (style_at c1 nIndex) hStylePart
                                   (us_bIsBrush st) INT_MIN in
      mkUpdate (set_style c1 nIndex s) bIsBrush
               (memorize bIsPenBrushOnly nPriority (us_sort st))
  | OGRSTCSymbol =>
      let nIndex := length (styles c) in
      let c1 := msMaybeAllocateClassStyle c nIndex in
      let '(s, nPriority) :=
        msOGRUpdateStyleParseSymbol (style_at c1 nIndex) hStylePart INT_MIN in
      mkUpdate (set_style c1 nIndex s) (us_bIsBrush st)
               (memorize bIsPenBrushOnly nPriority (us_sort st))
  | _ => st
  end.

Definition update_parts (bIsPenBrushOnly : bool) (layer_type : MS_LAYER_TYPE)
    (parts : list (option OGRStyleTool)) (st : update_state) : update_state :=
  foldl (fun st p =>
           match p with
           | None => st
           | Some hStylePart => update_part bIsPenBrushOnly layer_type st hStylePart
           end) st parts.

(** The reordering of [c->styles] from [iBaseStyleIndex] on. *)
Definition reorder (iBaseStyleIndex : nat) (sorted : list StyleSortStruct)
    (c : classObj) : classObj :=
  let ppsStyleTmp := take (length sorted) (drop iBaseStyleIndex (styles c)) in
  mkClass (take iBaseStyleIndex (styles c)
           ++ map (fun ss => nth (nApparitionIndex ss) ppsStyleTmp initStyle) sorted
           ++ drop (iBaseStyleIndex + length sorted) (styles c))
          (labels c).

Definition msOGRUpdateStyle (parts : list (option OGRStyleTool))
    (layer_type : MS_LAYER_TYPE) (c : classObj) : status * classObj :=
  let bIsPenBrushOnly := msOGRUpdateStyleCheckPenBrushOnly parts in
  let iBaseStyleIndex := length (styles c) in
  let st := update_parts bIsPenBrushOnly layer_type parts (mkUpdate c false []) in
  if (1 <? length (us_sort st))%nat && negb bIsPenBrushOnly
  then (MS_SUCCESS, reorder iBaseStyleIndex (qsort (us_sort st)) (us_class st))
  else (MS_SUCCESS, us_class st).

(** The discovery indices of the slot-taking parts in their final order. *)
Definition slot_order (parts : list (option OGRStyleTool)) : list nat :=
  map nApparitionIndex
      (qsort (imap (fun k t => mkSort (sort_priority t) k) (discovered parts))).

(** What a Pen and a Brush write into a style in the legacy mode. *)
Definition pen_style (layer_type : MS_LAYER_TYPE) (bIsBrush : bool)
    (pen : OGRStyleTool) (s : styleObj) : styleObj :=
  (msOGRUpdateStyleParsePen layer_type s pen bIsBrush INT_MIN).1.
Definition brush_style (brush : OGRStyleTool) (s : styleObj) : styleObj :=
  (msOGRUpdateStyleParseBrush s brush false INT_MIN).1.1.
Definition brush_visible (brush : OGRStyleTool) : bool :=
  negb (is_invisible "ogr-brush-1" brush).

(** The style a slot-taking part leaves in a fresh slot. *)
Definition derived_style (layer_type : MS_LAYER_TYPE) (t : OGRStyleTool)
    (s : styleObj) : Prop :=
  match st_type t with
  | OGRSTCPen => exists b, s = pen_style layer_type b t initStyle
  | OGRSTCBrush => s = brush_style t initStyle
  | OGRSTCSymbol => s = (msOGRUpdateStyleParseSymbol initStyle t INT_MIN).1
  | _ => False
  end.

(** Slot [i] allocated and rewritten by [f]. *)
Definition write_slot (c : classObj) (i : nat) (f : styleObj -> styleObj) : classObj :=
  set_style (msMaybeAllocateClassStyle c i) i
            (f (style_at (msMaybeAllocateClassStyle c i) i)).

(** Two loop states that agree on the styles and on [bIsBrush]. *)
Definition same_styles (st st' : update_state) : Prop :=
  styles (us_class st) = styles (us_class st') /\ us_bIsBrush st = us_bIsBrush st'.

(** The styles the loop has appended to those of [c], before sorting. *)
Definition appended (parts : list (option OGRStyleTool))
    (layer_type : MS_LAYER_TYPE) (c : classObj) : list styleObj :=
  drop (length (styles c))
       (styles (us_class (update_parts false layer_type parts (mkUpdate c false [])))).

End WithHost.

End Style.

(** ** Items and their values *)

Module Items.
Import Geometry Layer Style.

(** *** The special item names and their indexes *)

Definition MSOGR_LABELNUMITEMS : nat := 21.
Definition MSOGR_LABELFONTNAMENAME : string := "OGR:LabelFont".
Definition MSOGR_LABELFONTNAMEINDEX : Z := -100.
Definition MSOGR_LABELSIZENAME : string := "OGR:LabelSize".
Definition MSOGR_LABELSIZEINDEX : Z := -101.
Definition MSOGR_LABELTEXTNAME : string := "OGR:LabelText".
Definition MSOGR_LABELTEXTINDEX : Z := -102.
Definition MSOGR_LABELANGLENAME : string := "OGR:LabelAngle".
Definition MSOGR_LABELANGLEINDEX : Z := -103.
Definition MSOGR_LABELFCOLORNAME : string := "OGR:LabelFColor".
Definition MSOGR_LABELFCOLORINDEX : Z := -104.
Definition MSOGR_LABELBCOLORNAME : string := "OGR:LabelBColor".
Definition MSOGR_LABELBCOLORINDEX : Z := -105.
Definition MSOGR_LABELPLACEMENTNAME : string := "OGR:LabelPlacement".
Definition MSOGR_LABELPLACEMENTINDEX : Z := -106.
Definition MSOGR_LABELANCHORNAME : string := "OGR:LabelAnchor".
Definition MSOGR_LABELANCHORINDEX : Z := -107.
Definition MSOGR_LABELDXNAME : string := "OGR:LabelDx".
Definition MSOGR_LABELDXINDEX : Z := -108.
Definition MSOGR_LABELDYNAME : string := "OGR:LabelDy".
Definition MSOGR_LABELDYINDEX : Z := -109.
Definition MSOGR_LABELPERPNAME : string := "OGR:LabelPerp".
Definition MSOGR_LABELPERPINDEX : Z := -110.
Definition MSOGR_LABELBOLDNAME : string := "OGR:LabelBold".
Definition MSOGR_LABELBOLDINDEX : Z := -111.
Definition MSOGR_LABELITALICNAME : string := "OGR:LabelItalic".
Definition MSOGR_LABELITALICINDEX : Z := -112.
Definition MSOGR_LABELUNDERLINENAME : string := "OGR:LabelUnderline".
Definition MSOGR_LABELUNDERLINEINDEX : Z := -113.
Definition MSOGR_LABELPRIORITYNAME : string := "OGR:LabelPriority".
Definition MSOGR_LABELPRIORITYINDEX : Z := -114.
Definition MSOGR_LABELSTRIKEOUTNAME : string := "OGR:LabelStrikeout".
Definition MSOGR_LABELSTRIKEOUTINDEX : Z := -115.
Definition MSOGR_LABELSTRETCHNAME : string := "OGR:LabelStretch".
Definition MSOGR_LABELSTRETCHINDEX : Z := -116.
Definition MSOGR_LABELADJHORNAME : string := "OGR:LabelAdjHor".
Definition MSOGR_LABELADJHORINDEX : Z := -117.
Definition MSOGR_LABELADJVERTNAME : string := "OGR:LabelAdjVert".
Definition MSOGR_LABELADJVERTINDEX : Z := -118.
Definition MSOGR_LABELHCOLORNAME : string := "OGR:LabelHColor".
Definition MSOGR_LABELHCOLORINDEX : Z := -119.
Definition MSOGR_LABELOCOLORNAME : string := "OGR:LabelOColor".
Definition MSOGR_LABELOCOLORINDEX : Z := -120.
Definition MSOGR_LABELPARAMNAME : string := "OGR:LabelParam".
Definition MSOGR_LABELPARAMNAMELEN : nat := 14.
Definition MSOGR_LABELPARAMINDEX : Z := -500.
Definition MSOGR_BRUSHPARAMNAME : string := "OGR:BrushParam".
Definition MSOGR_BRUSHPARAMNAMELEN : nat := 14.
Definition MSOGR_BRUSHPARAMINDEX : Z := -600.
Definition MSOGR_PENPARAMNAME : string := "OGR:PenParam".
Definition MSOGR_PENPARAMNAMELEN : nat := 12.
Definition MSOGR_PENPARAMINDEX : Z := -700.
Definition MSOGR_SYMBOLPARAMNAME : string := "OGR:SymbolParam".
Definition MSOGR_SYMBOLPARAMNAMELEN : nat := 15.
Definition MSOGR_SYMBOLPARAMINDEX : Z := -800.

(** [EQUAL] and [EQUALN] (cpl_port.h) are [strcasecmp] and [strncasecmp]
    giving 0: letters are compared without regard to case. *)
Definition tolower (c : ascii) : ascii :=
  let n := nat_of_ascii c in
  if (65 <=? n)%nat && (n <=? 90)%nat then ascii_of_nat (n + 32) else c.

Fixpoint EQUAL (a b : string) : bool :=
  match a, b with
  | EmptyString, EmptyString => true
  | String x a', String y b' => bool_decide (tolower x = tolower y) && EQUAL a' b'
  | _, _ => false
  end.

Fixpoint EQUALN (a b : string) (n : nat) {struct n} : bool :=
  match n with
  | O => true
  | S n' =>
      match a, b with
      | EmptyString, EmptyString => true
      | String x a', String y b' =>
          bool_decide (tolower x = tolower y) && EQUALN a' b' n'
      | _, _ => false
      end
  end.

(** [s + n]: the string from its [n]-th character on. *)
Fixpoint advance (n : nat) (s : string) : string :=
  match n, s with
  | S n', String _ s' => advance n' s'
  | _, _ => s
  end.

(** The parameter asked of a style part: one of the label parameters of
    [OGRSTLabelParam], or an integer cast to the parameter type. *)
Inductive OGRSTParam :=
  | OGRSTLabelFontName | OGRSTLabelSize | OGRSTLabelTextString | OGRSTLabelAngle
  | OGRSTLabelFColor | OGRSTLabelBColor | OGRSTLabelPlacement | OGRSTLabelAnchor
  | OGRSTLabelDx | OGRSTLabelDy | OGRSTLabelPerp | OGRSTLabelBold
  | OGRSTLabelItalic | OGRSTLabelUnderline | OGRSTLabelPriority | OGRSTLabelStrikeout
  | OGRSTLabelStretch | OGRSTLabelAdjHor | OGRSTLabelAdjVert | OGRSTLabelHColor
  | OGRSTLabelOColor
  | param_number (n : Z).

(** The parts kept for the special items: the first part of each class. *)
Record style_tools := mkTools {
  hLabelStyle : option OGRStyleTool;
  hPenStyle : option OGRStyleTool;
  hBrushStyle : option OGRStyleTool;
  hSymbolStyle : option OGRStyleTool
}.

Definition keep_part (t : style_tools) (hStylePart : option OGRStyleTool)
    : style_tools :=
  match hStylePart with
  | None => t
  | Some p =>
      if bool_decide (st_type p = OGRSTCLabel)
         && negb (bool_decide (is_Some (hLabelStyle t)))
      then mkTools (Some p) (hPenStyle t) (hBrushStyle t) (hSymbolStyle t)
      else if bool_decide (st_type p = OGRSTCPen)
              && negb (bool_decide (is_Some (hPenStyle t)))
      then mkTools (hLabelStyle t) (Some p) (hBrushStyle t) (hSymbolStyle t)
      else if bool_decide (st_type p = OGRSTCBrush)
              && negb (bool_decide (is_Some (hBrushStyle t)))
      then mkTools (hLabelStyle t) (hPenStyle t) (Some p) (hSymbolStyle t)
      else if bool_decide (st_type p = OGRSTCSymbol)
              && negb (bool_decide (is_Some (hSymbolStyle t)))
      then mkTools (hLabelStyle t) (hPenStyle t) (hBrushStyle t) (Some p)
      else t
  end.

(** [OGR_F_GetFieldAsString]: the value of a field as a string, the empty
    string for a field the feature does not have. *)
Definition OGR_F_GetFieldAsString (f : OGRFeature) (i : Z) : string :=
  default EmptyString (ffields f !! Z.to_nat i).

(** The item names [msOGRFileGetItems] adds for
    [GETSHAPE_STYLE_ITEMS "all"]. *)
Definition style_item_names : list string :=
  [ MSOGR_LABELFONTNAMENAME;
    MSOGR_LABELSIZENAME;
    MSOGR_LABELTEXTNAME;
    MSOGR_LABELANGLENAME;
    MSOGR_LABELFCOLORNAME;
    MSOGR_LABELBCOLORNAME;
    MSOGR_LABELPLACEMENTNAME;
    MSOGR_LABELANCHORNAME;
    MSOGR_LABELDXNAME;
    MSOGR_LABELDYNAME;
    MSOGR_LABELPERPNAME;
    MSOGR_LABELBOLDNAME;
    MSOGR_LABELITALICNAME;
    MSOGR_LABELUNDERLINENAME;
    MSOGR_LABELPRIORITYNAME;
    MSOGR_LABELSTRIKEOUTNAME;
    MSOGR_LABELSTRETCHNAME;
    MSOGR_LABELADJHORNAME;
    MSOGR_LABELADJVERTNAME;
    MSOGR_LABELHCOLORNAME;
    MSOGR_LABELOCOLORNAME ].

Section WithBackEnd.

(** The back end: the parts of a feature's style string
    ([OGR_SM_InitFromFeature], [OGR_SM_GetPart]), a parameter of a part
    as a string (in pixels, the unit set on each part), the field names
    of a layer's definition and the index of a field by name (-1 when
    there is none), and [atoi] of the C library. *)
Variable OGR_SM_Parts : OGRFeature -> list (option OGRStyleTool).
Variable OGR_ST_GetParamStr : OGRStyleTool -> OGRSTParam -> option string.
Variable OGR_FD_FieldNames : OGRLayer -> list string.
Variable OGR_FD_GetFieldIndex : OGRLayer -> string -> Z.
Variable atoi : string -> Z.

Definition style_tools_of (hFeature : OGRFeature) : style_tools :=
  foldl keep_part (mkTools None None None None) (OGR_SM_Parts hFeature).

(** The value of a parameter, [dflt] when the part or the parameter is
    missing. *)
Definition param_or (tool : option OGRStyleTool) (p : OGRSTParam) (dflt : string)
    : string :=
  match tool with
  | None => dflt
  | Some t => default dflt (OGR_ST_GetParamStr t p)
  end.

(** *** msOGRGetValues *)

(** One turn of the loop: the value of the item of index [idx], nothing
    for an index that is none of the known ones. *)
Definition item_value (tools : style_tools) (hFeature : OGRFeature) (idx : Z)
    : option string :=
  if 0 <=? idx then Some (OGR_F_GetFieldAsString hFeature idx)
  else if idx =? MSOGR_LABELTEXTINDEX
  then Some (param_or (hLabelStyle tools) OGRSTLabelTextString EmptyString)
  else if idx =? MSOGR_LABELANGLEINDEX
  then Some (param_or (hLabelStyle tools) OGRSTLabelAngle "0")
  else if idx =? MSOGR_LABELSIZEINDEX
  then Some (param_or (hLabelStyle tools) OGRSTLabelSize "0")
  else if idx =? MSOGR_LABELFCOLORINDEX
  then Some (param_or (hLabelStyle tools) OGRSTLabelFColor "#000000")
  else if idx =? MSOGR_LABELFONTNAMEINDEX
  then Some (param_or (hLabelStyle tools) OGRSTLabelFontName "Arial")
  else if idx =? MSOGR_LABELBCOLORINDEX
  then Some (param_or (hLabelStyle tools) OGRSTLabelBColor "#000000")
  else if idx =? MSOGR_LABELPLACEMENTINDEX
  then Some (param_or (hLabelStyle tools) OGRSTLabelPlacement EmptyString)
  else if idx =? MSOGR_LABELANCHORINDEX
  then Some (param_or (hLabelStyle tools) OGRSTLabelAnchor "0")
  else if idx =? MSOGR_LABELDXINDEX
  then Some (param_or (hLabelStyle tools) OGRSTLabelDx "0")
  else if idx =? MSOGR_LABELDYINDEX
  then Some (param_or (hLabelStyle tools) OGRSTLabelDy "0")
  else if idx =? MSOGR_LABELPERPINDEX
  then Some (param_or (hLabelStyle tools) OGRSTLabelPerp "0")
  else if idx =? MSOGR_LABELBOLDINDEX
  then Some (param_or (hLabelStyle tools) OGRSTLabelBold "0")
  else if idx =? MSOGR_LABELITALICINDEX
  then Some (param_or (hLabelStyle tools) OGRSTLabelItalic "0")
  else if idx =? MSOGR_LABELUNDERLINEINDEX
  then Some (param_or (hLabelStyle tools) OGRSTLabelUnderline "0")
  else if idx =? MSOGR_LABELPRIORITYINDEX
  then Some (param_or (hLabelStyle tools) OGRSTLabelPriority "0")
  else if idx =? MSOGR_LABELSTRIKEOUTINDEX
  then Some (param_or (hLabelStyle tools) OGRSTLabelStrikeout "0")
  else if idx =? MSOGR_LABELSTRETCHINDEX
  then Some (param_or (hLabelStyle tools) OGRSTLabelStretch "0")
  else if idx =? MSOGR_LABELADJHORINDEX
  then Some (param_or (hLabelStyle tools) OGRSTLabelAdjHor EmptyString)
  else if idx =? MSOGR_LABELADJVERTINDEX
  then Some (param_or (hLabelStyle tools) OGRSTLabelAdjVert EmptyString)
  else if idx =? MSOGR_LABELHCOLORINDEX
  then Some (param_or (hLabelStyle tools) OGRSTLabelHColor EmptyString)
  else if idx =? MSOGR_LABELOCOLORINDEX
  then Some (param_or (hLabelStyle tools) OGRSTLabelOColor EmptyString)
  else if MSOGR_LABELPARAMINDEX <=? idx
  then Some (param_or (hLabelStyle tools)
                      (param_number (idx - MSOGR_LABELPARAMINDEX)) EmptyString)
  else if MSOGR_BRUSHPARAMINDEX <=? idx
  then Some (param_or (hBrushStyle tools)
                      (param_number (idx - MSOGR_BRUSHPARAMINDEX)) EmptyString)
  else if MSOGR_PENPARAMINDEX <=? idx
  then Some (param_or (hPenStyle tools)
                      (param_number (idx - MSOGR_PENPARAMINDEX)) EmptyString)
  else if MSOGR_SYMBOLPARAMINDEX <=? idx
  then Some (param_or (hSymbolStyle tools)
                      (param_number (idx - MSOGR_SYMBOLPARAMINDEX)) EmptyString)
  else None.

Fixpoint get_values (tools : style_tools) (hFeature : OGRFeature)
    (itemindexes : list Z) : option (list string) :=
  match itemindexes with
  | [] => Some []
  | idx :: rest =>
      match item_value tools hFeature idx with
      | None => None
      | Some v =>
          match get_values tools hFeature rest with
          | None => None
          | Some vs => Some (v :: vs)
          end
      end
  end.

(** [msOGRGetValues(layer, hFeature)], [itemindexes] being
    [layer->iteminfo] with its [layer->numitems] entries. *)
Definition msOGRGetValues (itemindexes : list Z) (hFeature : OGRFeature)
    : option (list string) :=
  if bool_decide (itemindexes = []) then None
  else get_values (style_tools_of hFeature) hFeature itemindexes.

(** *** msOGRFileGetItems *)

(** [getShapeStyleItems] is the layer's processing key
    [GETSHAPE_STYLE_ITEMS]; a null layer handle has no definition.  The
    field definitions passed on to the metadata are left out. *)
Definition msOGRFileGetItems (getShapeStyleItems : option string)
    (psInfo : msOGRFileInfo) : option (list string) :=
  match hLayer psInfo with
  | None => None
  | Some lyr =>
      Some (OGR_FD_FieldNames lyr
            ++ match getShapeStyleItems with
               | Some v => if EQUAL v "all" then style_item_names else []
               | None => []
               end)
  end.

(** *** msOGRLayerInitItemInfo *)

(** One turn of the loop: the index of the item [item] in the layer
    [lyr]. *)
Definition item_index (lyr : OGRLayer) (item : string) : Z :=
  if EQUAL item MSOGR_LABELFONTNAMENAME then MSOGR_LABELFONTNAMEINDEX
  else if EQUAL item MSOGR_LABELSIZENAME then MSOGR_LABELSIZEINDEX
  else if EQUAL item MSOGR_LABELTEXTNAME then MSOGR_LABELTEXTINDEX
  else if EQUAL item MSOGR_LABELANGLENAME then MSOGR_LABELANGLEINDEX
  else if EQUAL item MSOGR_LABELFCOLORNAME then MSOGR_LABELFCOLORINDEX
  else if EQUAL item MSOGR_LABELBCOLORNAME then MSOGR_LABELBCOLORINDEX
  else if EQUAL item MSOGR_LABELPLACEMENTNAME then MSOGR_LABELPLACEMENTINDEX
  else if EQUAL item MSOGR_LABELANCHORNAME then MSOGR_LABELANCHORINDEX
  else if EQUAL item MSOGR_LABELDXNAME then MSOGR_LABELDXINDEX
  else if EQUAL item MSOGR_LABELDYNAME then MSOGR_LABELDYINDEX
  else if EQUAL item MSOGR_LABELPERPNAME then MSOGR_LABELPERPINDEX
  else if EQUAL item MSOGR_LABELBOLDNAME then MSOGR_LABELBOLDINDEX
  else if EQUAL item MSOGR_LABELITALICNAME then MSOGR_LABELITALICINDEX
  else if EQUAL item MSOGR_LABELUNDERLINENAME then MSOGR_LABELUNDERLINEINDEX
  else if EQUAL item MSOGR_LABELPRIORITYNAME then MSOGR_LABELPRIORITYINDEX
  else if EQUAL item MSOGR_LABELSTRIKEOUTNAME then MSOGR_LABELSTRIKEOUTINDEX
  else if EQUAL item MSOGR_LABELSTRETCHNAME then MSOGR_LABELSTRETCHINDEX
  else if EQUAL item MSOGR_LABELADJHORNAME then MSOGR_LABELADJHORINDEX
  else if EQUAL item MSOGR_LABELADJVERTNAME then MSOGR_LABELADJVERTINDEX
  else if EQUAL item MSOGR_LABELHCOLORNAME then MSOGR_LABELHCOLORINDEX
  else if EQUAL item MSOGR_LABELOCOLORNAME then MSOGR_LABELOCOLORINDEX
  else if EQUALN item MSOGR_LABELPARAMNAME MSOGR_LABELPARAMNAMELEN
  then MSOGR_LABELPARAMINDEX + atoi (advance MSOGR_LABELPARAMNAMELEN item)
  else if EQUALN item MSOGR_BRUSHPARAMNAME MSOGR_BRUSHPARAMNAMELEN
  then MSOGR_BRUSHPARAMINDEX + atoi (advance MSOGR_BRUSHPARAMNAMELEN item)
  else if EQUALN item MSOGR_PENPARAMNAME MSOGR_PENPARAMNAMELEN
  then MSOGR_PENPARAMINDEX + atoi (advance MSOGR_PENPARAMNAMELEN item)
  else if EQUALN item MSOGR_SYMBOLPARAMNAME MSOGR_SYMBOLPARAMNAMELEN
  then MSOGR_SYMBOLPARAMINDEX + atoi (advance MSOGR_SYMBOLPARAMNAMELEN item)
  else OGR_FD_GetFieldIndex lyr item.

(** The loop: the array when every item has an index, or the entries
    written when an item has none (the last of them is the -1). *)
Fixpoint item_indexes (lyr : OGRLayer) (items : list string)
    : status * list Z :=
  match items with
  | [] => (MS_SUCCESS, [])
  | item :: rest =>
      let idx := item_index lyr item in
      if idx =? -1 then (MS_FAILURE, [idx])
      else let '(st, l) := item_indexes lyr rest in (st, idx :: l)
  end.

Variable datasets : gmap string OGRLayer.
Variable IGNORE_MISSING_DATA : bool.

(** [msOGRLayerInitItemInfo(layer)] for a layer whose [layerinfo] is
    [psInfo], [items] being [layer->items] with its [layer->numitems]
    entries; [OGR_L_GetLayerDefn] gives a definition for every layer.
    The result holds the new [layer->iteminfo], [None] when the call
    returns before allocating it. *)
Definition msOGRLayerInitItemInfo (layer : layerObj) (items : list string)
    (psInfo : msOGRFileInfo) : status * msOGRFileInfo * option (list Z) :=
  if bool_decide (items = []) then (MS_SUCCESS, psInfo, None)
  else
    let '(st, psInfo1) :=
      match tileindex_name layer, poCurTile psInfo with
      | Some _, None => msOGRFileReadTile datasets IGNORE_MISSING_DATA layer psInfo (-2)
      | _, _ => (MS_SUCCESS, psInfo)
      end in
    if negb (bool_decide (st = MS_SUCCESS)) then (MS_FAILURE, psInfo1, None)
    else
      let file :=
        match tileindex_name layer with
        | Some _ => poCurTile psInfo1
        | None => Some psInfo1
        end in
      match file with
      | None => (MS_FAILURE, psInfo1, None)
      | Some info =>
          match hLayer info with
          | None => (MS_FAILURE, psInfo1, None)
          | Some lyr =>
              let '(st', l) := item_indexes lyr items in (st', psInfo1, Some l)
          end
      end.

(** *** msOGRLayerGetItems *)

(** The result holds [layer->items] and [layer->iteminfo] when they are
    written. *)
Definition msOGRLayerGetItems (layer : layerObj)
    (getShapeStyleItems : option string) (layerinfo : option msOGRFileInfo)
    : status * option msOGRFileInfo * option (list string) * option (list Z) :=
  match layerinfo with
  | None => (MS_FAILURE, None, None, None)
  | Some psInfo =>
      match hLayer psInfo with
      | None => (MS_FAILURE, layerinfo, None, None)
      | Some _ =>
          let '(st, psInfo1) :=
            match tileindex_name layer, poCurTile psInfo with
            | Some _, None =>
                msOGRFileReadTile datasets IGNORE_MISSING_DATA layer psInfo (-1)
            | _, _ => (MS_SUCCESS, psInfo)
            end in
          if negb (bool_decide (st = MS_SUCCESS))
          then (MS_FAILURE, Some psInfo1, None, None)
          else
            let file :=
              match tileindex_name layer with
              | Some _ => poCurTile psInfo1
              | None => Some psInfo1
              end in
            match file with
            | None => (MS_FAILURE, Some psInfo1, None, None)
            | Some info =>
                match msOGRFileGetItems getShapeStyleItems info with
                | None => (MS_FAILURE, Some psInfo1, None, None)
                | Some items =>
                    let '(st', psInfo2, iteminfo) :=
                      msOGRLayerInitItemInfo layer items psInfo1 in
                    (st', Some psInfo2, Some items, iteminfo)
                end
            end
      end
  end.

End WithBackEnd.

End Items.

(** ** Shapes from and to OGR geometries *)

Module Wkt.
Import Geometry.

(** *** msOGRGeometryToShape *)

(** [nType > 0] leaves out [wkbUnknown], which the comparisons that
    follow reject as well; [nType] is compared as it is, so the 25D codes
    match none of them. *)
Definition msOGRGeometryToShape (hGeometry : option OGRGeometry)
    (psShape : option shapeObj) (nType : OGRwkbGeometryType)
    : status * option shapeObj :=
  match hGeometry, psShape with
  | Some g, Some shp =>
      let convert lt :=
        let '(st, shp') := ogrConvertGeometry (Some g) shp lt in (st, Some shp') in
      match nType with
      | wkbPoint | wkbMultiPoint => convert MS_LAYER_POINT
      | wkbLineString | wkbMultiLineString => convert MS_LAYER_LINE
      | wkbPolygon | wkbMultiPolygon => convert MS_LAYER_POLYGON
      | _ => (MS_FAILURE, psShape)
      end
  | _, _ => (MS_FAILURE, psShape)
  end.

(** *** msOGRShapeToWKT *)

(** [OGR_G_CreateGeometry(wkbPoint)] with [OGR_G_SetPoint_2D], and a
    linestring or a ring filled by [OGR_G_AddPoint_2D].  A ring reports
    the type code of a linestring ("OGRLinearRing/OGRLineString ... both
    are of type wkbLineString", line 279). *)
Definition point_geometry (p : pointObj) : OGRGeometry := Geom wkbPoint [p] [].
Definition linestring_geometry (l : lineObj) : OGRGeometry := Geom wkbLineString l [].
Definition ring_geometry (l : lineObj) : OGRGeometry := Geom wkbLineString l [].

(** The geometry the shape is exported from; there is none for a shape
    of another form. *)
Definition shape_geometry (shape : shapeObj) : option OGRGeometry :=
  match type shape, line shape with
  | MS_SHAPE_POINT, [ln] =>
      if (length ln =? 1)%nat then Some (point_geometry (nth 0 ln (mkPoint 0 0)))
      else if (1 <? length ln)%nat
           then Some (Geom wkbMultiPoint [] (map point_geometry ln))
           else None
  | MS_SHAPE_LINE, [ln] => Some (linestring_geometry ln)
  | MS_SHAPE_LINE, _ :: _ :: _ =>
      Some (Geom wkbMultiLineString [] (map linestring_geometry (line shape)))
  | MS_SHAPE_POLYGON, _ =>
      Some (Geom wkbPolygon [] (map ring_geometry (line shape)))
  | _, _ => None
  end.

Section WithText.

(** [OGR_G_ExportToWkt] and [OGR_G_CreateFromWkt] are GDAL's. *)
Variable OGR_G_ExportToWkt : OGRGeometry -> string.
Variable OGR_G_CreateFromWkt : string -> option OGRGeometry.

Definition msOGRShapeToWKT (shape : option shapeObj) : option string :=
  match shape with
  | None => None
  | Some s =>
      match shape_geometry s with
      | Some hGeom => Some (OGR_G_ExportToWkt hGeom)
      | None => None
      end
  end.

(** *** msOGRShapeFromWKT *)
Definition msOGRShapeFromWKT (string : option string) : option shapeObj :=
  match string with
  | None => None
  | Some text =>
      match OGR_G_CreateFromWkt text with
      | None => None
      | Some hGeom =>
          match msOGRGeometryToShape (Some hGeom) (Some msInitShape)
                  (wkbFlatten (OGR_G_GetGeometryType hGeom)) with
          | (MS_FAILURE, _) => None
          | (_, shape) => shape
          end
      end
  end.

End WithText.

(** A ring of at least two points whose last point is its first. *)
Definition ring_closed (l : lineObj) : Prop := (2 <= length l)%nat /\ head l = last l.

(** The shapes that come back from their own text: one line of points;
    lines of at least two points; closed rings. *)
Definition exportable (s : shapeObj) : Prop :=
  match type s with
  | MS_SHAPE_POINT => exists ln, line s = [ln] /\ ln <> []
  | MS_SHAPE_LINE => line s <> [] /\ Forall (fun l : lineObj => (2 <= length l)%nat) (line s)
  | MS_SHAPE_POLYGON => Forall ring_closed (line s)
  | MS_SHAPE_NULL => False
  end.

End Wkt.

(** ** The layer interface over files and tiles *)

Module LayerApi.
Import Geometry Layer.

(** The reading position of a file: [last_record_index_read] counts the
    features returned since reading was last reset, and the layer has yet
    to return those that come after them. *)
Definition cursor_ok (info : msOGRFileInfo) : Prop :=
  exists lyr,
    hLayer info = Some lyr /\ -1 <= last_record_index_read info /\
    pending lyr = drop (Z.to_nat (last_record_index_read info + 1)) (feats lyr).

(** What the conversion of a feature's geometry for a layer gives, from a
    freed shape. *)
Definition converted (layer : layerObj) (f : OGRFeature) : shapeObj :=
  (ogrConvertGeometry (fgeom f) fresh_shape (ltype layer)).2.

Section WithBackEnd.

Variable msOGRGetValues : layerObj -> OGRFeature -> option (list string).

(** The values a shape carries for a feature: those [msOGRGetValues]
    loads when the layer has items, none otherwise. *)
Definition feature_values (layer : layerObj) (f : OGRFeature) : list string :=
  if (0 <? numitems layer)%nat
  then match msOGRGetValues layer f with Some v => v | None => [] end
  else [].

(** The data sources that can be opened, and whether the build defines
    [IGNORE_MISSING_DATA]. *)
Variable datasets : gmap string OGRLayer.
Variable IGNORE_MISSING_DATA : bool.

(** [resultObj] (mapserver.h). *)
Record resultObj := mkResult {
  shapeindex : Z;
  r_tileindex : Z;
  r_resultindex : Z
}.

(** *** msOGRLayerWhichShapes *)
Definition msOGRLayerWhichShapes (layer : layerObj) (rect : rectObj)
    (layerinfo : option msOGRFileInfo) : status * option msOGRFileInfo :=
  match layerinfo with
  | None => (MS_FAILURE, None)
  | Some psInfo =>
    match hLayer psInfo with
    | None => (MS_FAILURE, layerinfo)
    | Some _ =>
        let '(st, psInfo1) := msOGRFileWhichShapes rect psInfo in
        if negb (bool_decide (st = MS_SUCCESS))
           || negb (bool_decide (is_Some (tileindex_name layer)))
        then (st, Some psInfo1)
        else
          let '(st2, psInfo2) :=
            msOGRFileReadTile datasets IGNORE_MISSING_DATA layer psInfo1 (-1) in
          (st2, Some psInfo2)
    end
  end.

(** *** msOGRLayerGetShape *)
Definition msOGRLayerGetShape (layer : layerObj) (shape : shapeObj)
    (record : resultObj) (layerinfo : option msOGRFileInfo)
    : status * shapeObj * option msOGRFileInfo :=
  let record_is_fid := negb (0 <=? r_resultindex record) in
  let shapeindex :=
    if 0 <=? r_resultindex record then r_resultindex record
    else shapeindex record in
  match layerinfo with
  | None => (MS_FAILURE, shape, None)
  | Some psInfo =>
    match hLayer psInfo with
    | None => (MS_FAILURE, shape, layerinfo)
    | Some _ =>
      match tileindex_name layer with
      | None =>
          msOGRFileGetShape msOGRGetValues layer shape shapeindex layerinfo
                            record_is_fid
      | Some _ =>
          let reload :=
            match poCurTile psInfo with
            | None => true
            | Some t => negb (nTileId t =? r_tileindex record)
            end in
          let loaded :=
            if reload
            then msOGRFileReadTile datasets IGNORE_MISSING_DATA layer psInfo
                                   (r_tileindex record)
            else (MS_SUCCESS, psInfo) in
          match loaded with
          | (MS_SUCCESS, psInfo1) =>
              let '(st, shp, tile) :=
                msOGRFileGetShape msOGRGetValues layer shape shapeindex
                                  (poCurTile psInfo1) record_is_fid in
              (st, shp, Some (set_cur_tile tile psInfo1))
          | (_, psInfo1) => (MS_FAILURE, shape, Some psInfo1)
          end
      end
    end
  end.

(** The record that finds a shape again: its shape, tile and result
    indices. *)
Definition record_of (s : shapeObj) : resultObj :=
  mkResult (index s) (tileindex s) (resultindex s).

(** The file a layer reads its features from: the current tile of a
    tiled layer, the layer's own file otherwise. *)
Definition reading_file (layer : layerObj) (psInfo : msOGRFileInfo)
    : option msOGRFileInfo :=
  match tileindex_name layer with
  | None => Some psInfo
  | Some _ => poCurTile psInfo
  end.

(** A tile that has just been made current, for an index with the
    rectangle [index_rect] and the records [index_feats]: it reads from
    its first feature, carries the FID of the index record that names its
    data source, and has the rectangle of the index when that rectangle
    is set. *)
Definition just_loaded (layer : layerObj) (index_rect : rectObj)
    (index_feats : list OGRFeature) (t : msOGRFileInfo) : Prop :=
  last_record_index_read t = -1 /\
  (exists f d,
     f ∈ index_feats /\ nTileId t = to_int (fid f) /\
     datasets !! tile_connection layer f = Some d /\
     hLayer t = Some (OGR_L_ResetReading d)) /\
  rect t = (if dne (minx index_rect) 0 || dne (maxx index_rect) 0
            then index_rect else mkRect 0 0 0 0).

End WithBackEnd.

End LayerApi.

(** ** The spatial filter *)

Module SpatialFilter.
Import Geometry Wkt.

(** The geometry [msOGRFileWhichShapes] passes to
    [OGR_L_SetSpatialFilter] for the rectangle [rect]: a point, a line or
    a polygon of one ring. *)
Definition spatial_filter (rect : rectObj) : OGRGeometry :=
  if deq (minx rect) (maxx rect) && deq (miny rect) (maxy rect) then
    Geom wkbPoint [mkPoint (minx rect) (miny rect)] []
  else if deq (minx rect) (maxx rect) || deq (miny rect) (maxy rect) then
    Geom wkbLineString
         [mkPoint (minx rect) (miny rect); mkPoint (maxx rect) (maxy rect)] []
  else
    Geom wkbPolygon []
         [ring_geometry
            [mkPoint (minx rect) (miny rect); mkPoint (maxx rect) (miny rect);
             mkPoint (maxx rect) (maxy rect); mkPoint (minx rect) (maxy rect);
             mkPoint (minx rect) (miny rect)]].

End SpatialFilter.

(** ** What a translation can have gathered *)

Module FilterFacts.
Import Filter.

(** The shape rectangle of a state reached from [st] over the tokens
    [tokens]: the one [st] had, with its rectangle flag, or the bounds of
    a literal shape among the tokens. *)
Definition bbox_from (tokens : list tokenListNodeObj) (st st' : translate_state)
    : Prop :=
  (sBBOX st' = sBBOX st /\ bIsIntersectRectangle st' = bIsIntersectRectangle st) \/
  (exists n, n ∈ tokens /\ token n = MS_TOKEN_LITERAL_SHAPE /\
             sBBOX st' = Some (bounds (tokenval_shpval n))).

(** The literal shape of an intersects sequence (its fifth token) and
    the state after the sequence has been recognised. *)
Definition sequence_shape (s : list tokenListNodeObj) : shapeObj :=
  match s !! 4%nat with
  | Some n => tokenval_shpval n
  | None => msInitShape
  end.

Definition after_sequence (st : translate_state) (shape : shapeObj)
    : translate_state :=
  mkState (msSQLExpression st) (Some (bounds shape)) (strtmpl st)
          (if is_rectangle shape then true else bIsIntersectRectangle st).

(** The closed ring over the corners [(x0,y0)] and [(x1,y1)] that leaves
    the first corner along the y axis. *)
Definition corner_ring (x0 y0 x1 y1 : Z) : list pointObj :=
  [mkPoint x0 y0; mkPoint x0 y1; mkPoint x1 y1; mkPoint x1 y0; mkPoint x0 y0].

(** The template of a field binding: the cast for a string field, and
    for a number field that a regular-expression operator follows. *)
Definition binding_template (t : token_kind) (next : list tokenListNodeObj)
    : template :=
  if bool_decide (t = MS_TOKEN_BINDING_STRING) then TMPL_CAST
  else match next with
       | n :: _ =>
           if bool_decide (token n = MS_TOKEN_COMPARISON_RE)
              || bool_decide (token n = MS_TOKEN_COMPARISON_IRE)
           then TMPL_CAST else TMPL_PLAIN
       | [] => TMPL_PLAIN
       end.

Section WithHost.

Variable sprintf_lf : double -> string.
Variable CPLEscapeString_SQL : string -> string.
Variable msExpressionTokenToString : token_kind -> string.

(** Attribute tokens [pre], followed by [l], that the translator renders
    one by one when [tmpl] is the value of [strtmpl] before them:
    copied-through tokens (an AND not standing before an INTERSECTS),
    field bindings with a name (a number field not being the last token
    of all), and literals whose text fits the buffer allocated for it.
    The buffer of a number has 16 characters more than the template of
    the last field binding; that of a string literal is as much longer
    than the escaped string as the template is long, which holds the two
    quotes and the NUL for the cast template and not for the plain one:
    so a string literal is one only when the last field binding was
    rendered with the cast. *)
Fixpoint attribute_tokens (tmpl : option template)
    (pre l : list tokenListNodeObj) : Prop :=
  match pre with
  | [] => True
  | n :: p =>
      match token n with
      | MS_TOKEN_LITERAL_NUMBER =>
          match tmpl with
          | Some t =>
              overruns (String.length (template_text t) + 16)
                       (sprintf_lf (tokenval_dblval n)) = false
          | None => False
          end /\ attribute_tokens tmpl p l
      | MS_TOKEN_LITERAL_STRING =>
          tmpl = Some TMPL_CAST /\ tokenval_strval n <> EmptyString /\
          attribute_tokens tmpl p l
      | MS_TOKEN_BINDING_STRING =>
          tokenval_bindval_item n <> EmptyString /\
          attribute_tokens (Some TMPL_CAST) p l
      | MS_TOKEN_BINDING_DOUBLE | MS_TOKEN_BINDING_INTEGER =>
          tokenval_bindval_item n <> EmptyString /\ p ++ l <> [] /\
          attribute_tokens (Some (binding_template (token n) (p ++ l))) p l
      | t =>
          passes_through t = true /\
          (t = MS_TOKEN_LOGICAL_AND ->
           ~ starts_with MS_TOKEN_COMPARISON_INTERSECTS (p ++ l)) /\
          attribute_tokens tmpl p l
      end
  end.

(** The text an attribute token adds to the query, [next] being the
    tokens after it. *)
Definition token_sql (n : tokenListNodeObj) (next : list tokenListNodeObj) : string :=
  match token n with
  | MS_TOKEN_LITERAL_NUMBER => sprintf_lf (tokenval_dblval n)
  | MS_TOKEN_LITERAL_STRING =>
      "'" +:+ CPLEscapeString_SQL (tokenval_strval n) +:+ "'"
  | MS_TOKEN_BINDING_DOUBLE | MS_TOKEN_BINDING_INTEGER | MS_TOKEN_BINDING_STRING =>
      sprintf_template (binding_template (token n) next)
        (default EmptyString (msOGREscapePropertyName (tokenval_bindval_item n)))
  | t => msExpressionTokenToString t
  end.

(** The query after the tokens [pre], followed by [l], have been added
    to [sql]. *)
Fixpoint render (sql : option string) (pre l : list tokenListNodeObj)
    : option string :=
  match pre with
  | [] => sql
  | n :: p => render (msStringConcatenate sql (token_sql n (p ++ l))) p l
  end.

End WithHost.

End FilterFacts.

(** ** What the style decoder's helpers guarantee *)

Module StyleFacts.
Import Style.

(** The names [msOGRGetSymbolId] looks up before the default symbol: the
    pieces of a symbol id that is there and not empty. *)
Definition tried_names (msStringSplit : string -> list string)
    (pszSymbolId : option string) : list string :=
  match pszSymbolId with
  | Some id => if bool_decide (id = EmptyString) then [] else msStringSplit id
  | None => []
  end.

(** No entry of the array is before an entry that compares less. *)
Definition no_inversion (l : list StyleSortStruct) : Prop :=
  forall i j a b,
    (i < j)%nat -> l !! i = Some a -> l !! j = Some b ->
    ~ msOGRUpdateStyleSortFct b a < 0.

End StyleFacts.

(** ** What the item functions guarantee *)

Module ItemFacts.
Import Layer Style Items.

(** The four families of numbered parameter items. *)
Inductive param_family := LabelParam | BrushParam | PenParam | SymbolParam.

Definition family_name (k : param_family) : string :=
  match k with
  | LabelParam => MSOGR_LABELPARAMNAME
  | BrushParam => MSOGR_BRUSHPARAMNAME
  | PenParam => MSOGR_PENPARAMNAME
  | SymbolParam => MSOGR_SYMBOLPARAMNAME
  end.

Definition family_index (k : param_family) : Z :=
  match k with
  | LabelParam => MSOGR_LABELPARAMINDEX
  | BrushParam => MSOGR_BRUSHPARAMINDEX
  | PenParam => MSOGR_PENPARAMINDEX
  | SymbolParam => MSOGR_SYMBOLPARAMINDEX
  end.

Definition family_tool (k : param_family) (tools : style_tools)
    : option OGRStyleTool :=
  match k with
  | LabelParam => hLabelStyle tools
  | BrushParam => hBrushStyle tools
  | PenParam => hPenStyle tools
  | SymbolParam => hSymbolStyle tools
  end.

(** An item name that is taken for a special item whatever the layer's
    fields are. *)
Definition special_item (item : string) : bool :=
  existsb (EQUAL item) style_item_names
  || EQUALN item MSOGR_LABELPARAMNAME MSOGR_LABELPARAMNAMELEN
  || EQUALN item MSOGR_BRUSHPARAMNAME MSOGR_BRUSHPARAMNAMELEN
  || EQUALN item MSOGR_PENPARAMNAME MSOGR_PENPARAMNAMELEN
  || EQUALN item MSOGR_SYMBOLPARAMNAME MSOGR_SYMBOLPARAMNAMELEN.

(** The indexes of the 21 style items, in the order of
    [style_item_names]: -100 down to -120. *)
Definition style_item_indexes : list Z :=
  map (fun k => MSOGR_LABELFONTNAMEINDEX - Z.of_nat k) (seq 0 MSOGR_LABELNUMITEMS).

(** The label parameter and the default value of each style item, in the
    order of [style_item_names]. *)
Definition style_item_params : list (OGRSTParam * string) :=
  [ (OGRSTLabelFontName, "Arial"); (OGRSTLabelSize, "0");
    (OGRSTLabelTextString, EmptyString); (OGRSTLabelAngle, "0");
    (OGRSTLabelFColor, "#000000"); (OGRSTLabelBColor, "#000000");
    (OGRSTLabelPlacement, EmptyString); (OGRSTLabelAnchor, "0");
    (OGRSTLabelDx, "0"); (OGRSTLabelDy, "0"); (OGRSTLabelPerp, "0");
    (OGRSTLabelBold, "0"); (OGRSTLabelItalic, "0"); (OGRSTLabelUnderline, "0");
    (OGRSTLabelPriority, "0"); (OGRSTLabelStrikeout, "0");
    (OGRSTLabelStretch, "0"); (OGRSTLabelAdjHor, EmptyString);
    (OGRSTLabelAdjVert, EmptyString); (OGRSTLabelHColor, EmptyString);
    (OGRSTLabelOColor, EmptyString) ].

(** The values of the fields of index 0 to [n - 1]. *)
Definition field_values (f : OGRFeature) (n : nat) : list string :=
  map (fun i => OGR_F_GetFieldAsString f (Z.of_nat i)) (seq 0 n).

End ItemFacts.

(** ** Concrete inputs used in the examples below *)

Definition load_fields (layer : Layer.layerObj) (f : Layer.OGRFeature)
    : option (list string) := Some (Layer.ffields f).

Definition polygon_layer : Layer.layerObj :=
  Layer.mkLayerObj MS_LAYER_POLYGON 0 None 0.

Definition point_feature : Layer.OGRFeature :=
  Layer.mkFeature 7 (Some (Geometry.Geom Geometry.wkbPoint [mkPoint 3 4] [])) [].

Definition square_feature : Layer.OGRFeature :=
  Layer.mkFeature 8
    (Some (Geometry.Geom Geometry.wkbPolygon []
       [Geometry.Geom Geometry.wkbLineString
          [mkPoint 0 0; mkPoint 0 2; mkPoint 2 2; mkPoint 2 0; mkPoint 0 0] []]))
    [].

Definition two_features : Layer.msOGRFileInfo :=
  let feats := [point_feature; square_feature] in
  Layer.mkInfo "parcels" (Some (Layer.mkLayer feats feats false true)) None 0 None
               (mkRect 0 0 0 0) (-1).


(** A tile index of three records; the second names a data source that
    does not exist. *)
Definition tile_layer : Layer.layerObj :=
  Layer.mkLayerObj MS_LAYER_POLYGON 0 (Some "index.shp") 0.

Definition index_record (id : Z) (name : string) : Layer.OGRFeature :=
  Layer.mkFeature id None [name].

Definition tile_sources : gmap string Layer.OGRLayer :=
  <["tile_a.shp" := Layer.mkLayer [square_feature] [] false true]>
  (<["tile_c.shp" := Layer.mkLayer [point_feature; square_feature] [] false true]> ∅).

Definition three_records : list Layer.OGRFeature :=
  [index_record 1 "tile_a.shp"; index_record 2 "tile_b.shp";
   index_record 3 "tile_c.shp"].

Definition tile_index_at (pend : list Layer.OGRFeature) : Layer.msOGRFileInfo :=
  Layer.mkInfo "index.shp" (Some (Layer.mkLayer three_records pend false true))
               None 0 None (mkRect 0 0 10 10) (-1).

(** A host for the filter translator: whole numbers rendered as [%lf]
    does, single quotes doubled, and the operator texts of mapfile.c. *)
Definition render_number (d : double) : string :=
  match d with
  | Num z => pretty z +:+ ".000000"
  | NaN => "nan"
  end.

Fixpoint double_quotes (s : string) : string :=
  match s with
  | EmptyString => EmptyString
  | String c s' =>
      if bool_decide (c = "'"%char) then String c (String c (double_quotes s'))
      else String c (double_quotes s')
  end.

Definition token_text (t : Filter.token_kind) : string :=
  match t with
  | Filter.MS_TOKEN_LOGICAL_AND => " and "
  | Filter.MS_TOKEN_LOGICAL_OR => " or "
  | Filter.MS_TOKEN_LOGICAL_NOT => " not "
  | Filter.MS_TOKEN_COMPARISON_EQ => " = "
  | Filter.MS_TOKEN_COMPARISON_NE => " != "
  | Filter.MS_TOKEN_COMPARISON_GT => " > "
  | Filter.MS_TOKEN_COMPARISON_GE => " >= "
  | Filter.MS_TOKEN_COMPARISON_LT => " < "
  | Filter.MS_TOKEN_COMPARISON_LE => " <= "
  | Filter.MS_TOKEN_CHAR c => String c EmptyString
  | _ => EmptyString
  end.

(** The literal rectangle (0,0)-(10,10) as a closed five-point ring, the
    view rectangle (-5,-5)-(5,5), and a string equality. *)
Definition literal_square : shapeObj :=
  mkShape MS_SHAPE_POLYGON
    [[mkPoint 0 0; mkPoint 0 10; mkPoint 10 10; mkPoint 10 0; mkPoint 0 0]]
    (mkRect 0 0 10 10) [] (-1) (-1) (-1).

Definition view_rect : rectObj := mkRect (-5) (-5) 5 5.

Definition name_is_x : list Filter.tokenListNodeObj :=
  [ Filter.mkToken Filter.MS_TOKEN_BINDING_STRING (Filter.bindval "name" 0);
    Filter.mkToken Filter.MS_TOKEN_COMPARISON_EQ Filter.no_value;
    Filter.mkToken Filter.MS_TOKEN_LITERAL_STRING (Filter.strval "x") ].

(** [(1 = 1)] and [(length('abc') = 3)] as token lists. *)
Definition one_equals_one : list Filter.tokenListNodeObj :=
  [ Filter.mkToken Filter.LPAREN Filter.no_value;
    Filter.mkToken Filter.MS_TOKEN_LITERAL_NUMBER (Filter.dblval 1);
    Filter.mkToken Filter.MS_TOKEN_COMPARISON_EQ Filter.no_value;
    Filter.mkToken Filter.MS_TOKEN_LITERAL_NUMBER (Filter.dblval 1);
    Filter.mkToken Filter.RPAREN Filter.no_value ].

Definition length_of_abc : list Filter.tokenListNodeObj :=
  [ Filter.mkToken Filter.LPAREN Filter.no_value;
    Filter.mkToken (Filter.MS_TOKEN_FUNCTION 350) Filter.no_value;
    Filter.mkToken Filter.LPAREN Filter.no_value;
    Filter.mkToken Filter.MS_TOKEN_LITERAL_STRING (Filter.strval "abc");
    Filter.mkToken Filter.RPAREN Filter.no_value;
    Filter.mkToken Filter.MS_TOKEN_COMPARISON_EQ Filter.no_value;
    Filter.mkToken Filter.MS_TOKEN_LITERAL_NUMBER (Filter.dblval 3);
    Filter.mkToken Filter.RPAREN Filter.no_value ].

Definition logical_and : Filter.tokenListNodeObj :=
  Filter.mkToken Filter.MS_TOKEN_LOGICAL_AND Filter.no_value.

(** [[a] = [b]]: a double field, the equality, an integer field. *)
Definition a_equals : list Filter.tokenListNodeObj :=
  [ Filter.mkToken Filter.MS_TOKEN_BINDING_DOUBLE (Filter.bindval "a" 0);
    Filter.mkToken Filter.MS_TOKEN_COMPARISON_EQ Filter.no_value ].

Definition field_b : Filter.tokenListNodeObj :=
  Filter.mkToken Filter.MS_TOKEN_BINDING_INTEGER (Filter.bindval "b" 1).

(** A host with an empty symbol set, a style with nothing set, an empty
    class and the class the public entry points hand to the decoder (one
    initialised style), and a few style parts: only the kind, the colour
    and the priority are given. *)
Definition no_symbols : string -> bool -> Z := fun _ _ => -1.
Definition one_name : string -> list string := fun s => [s].

(** A symbol set that knows two names, and the split of an id at its
    commas. *)
Definition two_symbols : string -> bool -> Z :=
  fun name _ =>
    if bool_decide (name = "ogr-sym-3") then 7
    else if bool_decide (name = "default-marker") then 1
    else -1.

Fixpoint split_at_commas (piece s : string) : list string :=
  match s with
  | EmptyString => [piece]
  | String c s' =>
      if bool_decide (c = ","%char) then piece :: split_at_commas EmptyString s'
      else split_at_commas (piece +:+ String c EmptyString) s'
  end.

Definition comma_split : string -> list string := split_at_commas EmptyString.

Definition plain_style : Style.styleObj :=
  Style.mkStyle Style.no_color Style.no_color Style.no_color 0 None (-1) 1
                Style.MS_CJC_ROUND Style.MS_CJC_NONE 0 0 0 0.

Definition empty_class : Style.classObj := Style.mkClass [] [].
Definition reset_class : Style.classObj := Style.mkClass [plain_style] [].

Definition tool (k : Style.OGRSTClassId) (c : option Style.colorObj)
    (priority : option Z) : Style.OGRStyleTool :=
  Style.mkTool k None c None None None None None None None None None None
               priority None None.

Definition black_pen : Style.OGRStyleTool :=
  tool Style.OGRSTCPen (Some (Style.mkColor 0 0 0 255)) None.
Definition red_brush : Style.OGRStyleTool :=
  tool Style.OGRSTCBrush (Some (Style.mkColor 255 0 0 255)) None.
Definition brush_priority_3 : Style.OGRStyleTool :=
  tool Style.OGRSTCBrush (Some (Style.mkColor 255 0 0 255)) (Some 3).
Definition symbol_priority_1 : Style.OGRStyleTool :=
  tool Style.OGRSTCSymbol (Some (Style.mkColor 0 0 255 255)) (Some 1).
Definition symbol_lowest : Style.OGRStyleTool :=
  tool Style.OGRSTCSymbol (Some (Style.mkColor 0 0 255 255)) (Some Style.INT_MIN).

(** A text for the literal square and a parser that knows it. *)
Definition square_to_text : Geometry.OGRGeometry -> string :=
  fun _ => "POLYGON ((0 0,0 10,10 10,10 0,0 0))".
Definition square_from_text : string -> option Geometry.OGRGeometry :=
  fun text =>
    if bool_decide (text = "POLYGON ((0 0,0 10,10 10,10 0,0 0))")
    then Some (Geometry.Geom Geometry.wkbPolygon []
                 [Geometry.Geom Geometry.wkbLineString
                    [mkPoint 0 0; mkPoint 0 10; mkPoint 10 10; mkPoint 10 0; mkPoint 0 0]
                    []])
    else None.

(** The first sequential read of the two features, a file that holds a
    point only, and the first steps of a layer over the tile index. *)
Definition first_read : status * shapeObj * option Layer.msOGRFileInfo :=
  Layer.msOGRFileNextShape load_fields polygon_layer msInitShape (Some two_features).

Definition after_first_read : Layer.msOGRFileInfo :=
  default two_features first_read.2.

Definition points_only : Layer.msOGRFileInfo :=
  Layer.mkInfo "points" (Some (Layer.mkLayer [point_feature] [point_feature] false true))
               None 0 None (mkRect 0 0 0 0) (-1).

Definition first_tile : status * Layer.msOGRFileInfo :=
  Layer.msOGRFileReadTile tile_sources false tile_layer (tile_index_at three_records) (-1).

Definition first_tile_shape
    : option (status * shapeObj * option Layer.msOGRFileInfo) :=
  Layer.msOGRLayerNextShape load_fields tile_sources false tile_layer msInitShape
                            (Some (tile_index_at three_records)).

Definition tile_shape : shapeObj :=
  match first_tile_shape with Some (_, s, _) => s | None => msInitShape end.

Definition tile_state : Layer.msOGRFileInfo :=
  match first_tile_shape with
  | Some (_, _, Some psInfo) => psInfo
  | _ => tile_index_at three_records
  end.

(** A layer of cities with two fields, a city whose style string has a
    pen and a label part, and decimal numbers as [atoi] reads them. *)
Definition city_fields : Layer.OGRLayer -> list string :=
  fun _ => ["name"; "pop"].

Definition city_field_index : Layer.OGRLayer -> string -> Z :=
  fun _ s =>
    if bool_decide (s = "name") then 0
    else if bool_decide (s = "pop") then 1
    else -1.

Fixpoint read_digits (acc : Z) (s : string) : Z :=
  match s with
  | EmptyString => acc
  | String c s' =>
      let n := nat_of_ascii c in
      if (48 <=? n)%nat && (n <=? 57)%nat
      then read_digits (10 * acc + Z.of_nat (n - 48)) s'
      else acc
  end.

Definition decimal : string -> Z := read_digits 0.

Definition label_tool : Style.OGRStyleTool := tool Style.OGRSTCLabel None None.

Definition city_parts : Layer.OGRFeature -> list (option Style.OGRStyleTool) :=
  fun _ => [Some black_pen; Some label_tool].

Definition city_param : Style.OGRStyleTool -> Items.OGRSTParam -> option string :=
  fun t p =>
    match Style.st_type t, p with
    | Style.OGRSTCLabel, Items.OGRSTLabelTextString => Some "Springfield"
    | Style.OGRSTCPen, Items.param_number 0 => Some "#000000"
    | _, _ => None
    end.

Definition city_feature : Layer.OGRFeature :=
  Layer.mkFeature 1 (Some (Geometry.Geom Geometry.wkbPoint [mkPoint 3 4] []))
                  ["Springfield"; "30000"].

Definition cities : Layer.OGRLayer :=
  Layer.mkLayer [city_feature] [city_feature] false true.

Definition city_file : Layer.msOGRFileInfo :=
  Layer.mkInfo "cities" (Some cities) None 0 None (mkRect 0 0 0 0) (-1).

Definition city_layer : Layer.layerObj := Layer.mkLayerObj MS_LAYER_POINT 2 None 0.

Definition city_read : status * shapeObj * option Layer.msOGRFileInfo :=
  Layer.msOGRFileNextShape
    (fun _ f => Items.msOGRGetValues city_parts city_param [0; -102] f)
    city_layer msInitShape (Some city_file).

(** * Properties *)

(** ** Geometry conversion *)

Section GeometryProperties.
Import Geometry.

Lemma OGRGeometry_ind' (P : OGRGeometry -> Prop) :
  (forall t pts subs, Forall P subs -> P (Geom t pts subs)) ->
  forall g, P g.
Proof.
  intros H. fix IH 1. intros [t pts subs]. apply H.
  induction subs as [|m subs IHs]; constructor; [apply IH | exact IHs].
Qed.

Lemma point_eta (p : pointObj) : mkPoint (px p) (py p) = p.
Proof. by destruct p. Qed.

(** *** Comparisons of doubles *)

Lemma deq_true a b : deq a b = true <-> a = b /\ is_num a.
Proof.
  unfold is_num. destruct a as [x|], b as [y|]; simpl.
  - rewrite Z.eqb_eq. split; [by intros -> | by intros [[= ->] _]].
  - split; [done | by intros [? _]].
  - split; [done | by intros [? _]].
  - split; [done | by intros [_ ?]].
Qed.

Lemma dne_true a b : dne a b = true <-> a <> b \/ ~ is_num a.
Proof.
  unfold dne. rewrite negb_true_iff, <- not_true_iff_false, deq_true.
  destruct (decide (a = b)) as [->|Hab]; [| tauto].
  unfold is_num. destruct (decide (b = NaN)); tauto.
Qed.

Lemma dle_refl a : is_num a -> dle a a.
Proof. destruct a; simpl; [lia | done]. Qed.

Lemma dle_antisym a b : dle a b -> dle b a -> a = b.
Proof. destruct a, b; simpl; try done. intros. f_equal. lia. Qed.

Lemma dle_trans a b c : dle a b -> dle b c -> dle a c.
Proof. destruct a, b, c; simpl; try done. lia. Qed.

Lemma dle_num a b : dle a b -> is_num a /\ is_num b.
Proof. by destruct a, b. Qed.

Global Instance point_num_dec p : Decision (point_num p).
Proof. unfold point_num, is_num. apply _. Defined.

(** *** Ring closure *)

Lemma nth_last_default (ln : lineObj) (d : pointObj) :
  ln <> [] -> last ln = Some (nth (length ln - 1)%nat ln d).
Proof.
  intros Hne. rewrite last_lookup.
  replace (Nat.pred (length ln)) with (length ln - 1)%nat by lia.
  destruct (ln !! (length ln - 1)%nat) as [x|] eqn:E.
  - by rewrite (nth_lookup_Some _ _ d _ E).
  - apply lookup_ge_None in E. destruct ln; [done | simpl in E; lia].
Qed.

Lemma nth_head_default (ln : lineObj) (d : pointObj) :
  ln <> [] -> head ln = Some (nth 0 ln d).
Proof. by destruct ln. Qed.

(** The test of the closure: the last point differs from the first in x
    or in y, which is the case as well when a coordinate of the first
    point is NaN. *)
Lemma ring_test (lst first : pointObj) :
  dne (px lst) (px first) || dne (py lst) (py first) = true
  <-> lst <> first \/ ~ point_num first.
Proof.
  rewrite orb_true_iff, !dne_true. unfold point_num.
  destruct lst as [x y], first as [x0 y0]. simpl. split.
  - intros [[H|H]|[H|H]].
    + left. congruence.
    + destruct (decide (x = x0)) as [->|]; [right; tauto | left; congruence].
    + left. congruence.
    + destruct (decide (y = y0)) as [->|]; [right; tauto | left; congruence].
  - intros [H|H].
    + destruct (decide (x = x0)) as [->|]; [| tauto].
      destruct (decide (y = y0)) as [->|]; [done | tauto].
    + destruct (decide (is_num x0)) as [H0|H0].
      * destruct (decide (x = x0)) as [->|]; [| tauto].
        right. destruct (decide (y = y0)) as [->|]; [| tauto].
        right. tauto.
      * destruct (decide (x = x0)) as [->|]; [| tauto]. left. tauto.
Qed.

Lemma close_ring_closed (ln : lineObj) (p0 : pointObj) :
  head ln = Some p0 -> last ln = head ln -> point_num p0 ->
  close_ring true ln = ln.
Proof.
  intros Hh Heq Hnum. assert (Hne : ln <> []) by (by destruct ln).
  unfold close_ring.
  rewrite (nth_last_default ln (mkPoint 0 0) Hne) in Heq.
  rewrite (nth_head_default ln (mkPoint 0 0) Hne) in Heq, Hh.
  injection Heq as Heq. injection Hh as Hh. rewrite Heq, Hh.
  destruct (dne (px p0) (px p0) || dne (py p0) (py p0)) eqn:E; [| done].
  apply ring_test in E as [E|E]; done.
Qed.

Lemma close_ring_open (ln : lineObj) (p0 : pointObj) :
  head ln = Some p0 -> last ln <> head ln \/ ~ point_num p0 ->
  close_ring true ln = ln ++ [p0].
Proof.
  intros Hh Hneq. assert (Hne : ln <> []) by (by destruct ln).
  unfold close_ring.
  rewrite (nth_last_default ln (mkPoint 0 0) Hne) in Hneq.
  rewrite (nth_head_default ln (mkPoint 0 0) Hne) in Hneq, Hh.
  injection Hh as Hh. rewrite Hh in *.
  set (l := nth (length ln - 1)%nat ln (mkPoint 0 0)) in *.
  cbn [andb]. rewrite point_eta.
  destruct (dne (px l) (px p0) || dne (py l) (py p0)) eqn:E; [done |].
  exfalso. apply not_true_iff_false in E. apply E, ring_test.
  destruct Hneq as [H|H]; [left; congruence | by right].
Qed.

Lemma close_ring_false (ln : lineObj) : close_ring false ln = ln.
Proof. done. Qed.

Lemma ogrGeomLine_linestring_eq t pts subs shp b :
  wkbFlatten t = wkbLineString ->
  ogrGeomLine (Geom t pts subs) shp b = ogrGeomLine_linestring pts shp b.
Proof. intros H. simpl. by rewrite H. Qed.

(** C9 (as amended).  Ring closure in polygon mode, for a linestring
    [pts] of at least two points.  The closing test compares doubles with
    [!=], so a first point with a NaN coordinate differs from every point,
    itself included.  When the last point equals the first and the first
    has no NaN coordinate no point is appended; otherwise exactly one
    point, a copy of the first, is appended (so the ring is one point
    longer); when the first point has no NaN coordinate, closing a second
    time changes nothing; and the ring [ogrGeomLine] adds to the shape for
    such a linestring is this closed ring. *)
Theorem ring_closure_idempotent (pts : lineObj) (p0 : pointObj) :
  (2 <= length pts)%nat ->
  head pts = Some p0 ->
  (last pts = Some p0 -> point_num p0 -> close_ring true pts = pts) /\
  (last pts <> Some p0 \/ ~ point_num p0 ->
     close_ring true pts = pts ++ [p0] /\
     length (close_ring true pts) = S (length pts)) /\
  (point_num p0 ->
     close_ring true (close_ring true pts) = close_ring true pts) /\
  (forall subs shp,
     line (ogrGeomLine (Geom wkbLineString pts subs) shp true).2
     = line shp ++ [close_ring true pts]).
Proof.
  intros Hlen Hh. assert (Hne : pts <> []) by (by destruct pts).
  assert (Hclosed : last pts = Some p0 -> point_num p0 ->
                    close_ring true pts = pts).
  { intros Hl Hn. apply (close_ring_closed pts p0); [done | congruence | done]. }
  assert (Hopen : last pts <> Some p0 \/ ~ point_num p0 ->
                  close_ring true pts = pts ++ [p0]).
  { intros Hl. apply close_ring_open; [done |].
    destruct Hl as [Hl|Hl]; [left; congruence | by right]. }
  split_and!.
  - exact Hclosed.
  - intros Hl. split; [by apply Hopen |].
    rewrite (Hopen Hl), length_app. simpl. lia.
  - intros Hn. destruct (decide (last pts = Some p0)) as [Hl|Hl].
    + by rewrite !(Hclosed Hl Hn).
    + rewrite (Hopen (or_introl Hl)). apply (close_ring_closed _ p0).
      * by destruct pts.
      * rewrite last_snoc. destruct pts; [done | by simplify_eq/=].
      * done.
  - intros subs shp. rewrite ogrGeomLine_linestring_eq by done.
    unfold ogrGeomLine_linestring.
    destruct (Z.ltb_spec (Z.of_nat (length pts)) 2); [lia |].
    simpl. by destruct (decide (type shp = MS_SHAPE_NULL)).
Qed.

Lemma ring_closure_idempotent_witness :
  close_ring true [mkPoint 0 0; mkPoint 4 0; mkPoint 4 3]
  = [mkPoint 0 0; mkPoint 4 0; mkPoint 4 3; mkPoint 0 0].
Proof.
  pose proof (ring_closure_idempotent
                [mkPoint 0 0; mkPoint 4 0; mkPoint 4 3] (mkPoint 0 0)
                ltac:(simpl; lia) eq_refl) as (_ & Hopen & _).
  apply Hopen. left. discriminate.
Defined.

(** C9, as stated, does not hold of every linestring: a ring that ends
    on its first point, this point having a NaN coordinate, gets a
    closing point, and gets another one each time it is closed again. *)
Lemma ring_with_nan_closed_again :
  ~ (forall (pts : lineObj) (p0 : pointObj),
       (2 <= length pts)%nat -> head pts = Some p0 ->
       (last pts = Some p0 -> close_ring true pts = pts) /\
       close_ring true (close_ring true pts) = close_ring true pts).
Proof.
  intros H.
  destruct (H [mkPoint NaN 0; mkPoint 4 0; mkPoint 4 3; mkPoint NaN 0]
              (mkPoint NaN 0) ltac:(simpl; lia) eq_refl) as [_ H2].
  vm_compute in H2. discriminate H2.
Qed.


(** *** The layer-type policy *)

Lemma ogrGeomLine_point t pts subs shp b :
  wkbFlatten t = wkbPoint \/ wkbFlatten t = wkbMultiPoint ->
  ogrGeomLine (Geom t pts subs) shp b = (0, shp).
Proof. intros [H|H]; simpl; by rewrite H. Qed.

Lemma force_null_unless_line shp :
  force_null_unless [MS_SHAPE_LINE; MS_SHAPE_POLYGON] shp
  = if negb (bool_decide (type shp = MS_SHAPE_LINE))
       && negb (bool_decide (type shp = MS_SHAPE_POLYGON))
    then set_type MS_SHAPE_NULL shp else shp.
Proof.
  unfold force_null_unless.
  destruct shp as [[] ? ? ? ? ? ?]; simpl; by (repeat case_bool_decide; set_solver).
Qed.

Lemma force_null_unless_polygon shp :
  force_null_unless [MS_SHAPE_POLYGON] shp
  = if negb (bool_decide (type shp = MS_SHAPE_POLYGON))
    then set_type MS_SHAPE_NULL shp else shp.
Proof.
  unfold force_null_unless.
  destruct shp as [[] ? ? ? ? ? ?]; simpl; by (repeat case_bool_decide; set_solver).
Qed.

Lemma ogrConvertGeometry_policy g shp lt :
  match coercion_policy lt g shp with
  | Some (r, s) =>
      ogrConvertGeometry (Some g) shp lt
      = (if r =? -1 then MS_FAILURE else MS_SUCCESS, s)
  | None => ogrConvertGeometry (Some g) shp lt = (MS_FAILURE, shp)
  end.
Proof.
  destruct lt; simpl; try done.
  - by destruct (ogrGeomPoints g shp).
  - destruct (ogrGeomLine g shp false) as [r s].
    by rewrite force_null_unless_line.
  - destruct (ogrGeomLine g shp true) as [r s].
    by rewrite force_null_unless_polygon.
  - unfold is_point_input.
    destruct (OGR_G_GetGeometryType g);
      first [by destruct (ogrGeomPoints g shp) | by destruct (ogrGeomLine g shp false)].
  - unfold is_point_input.
    destruct (OGR_G_GetGeometryType g);
      first [by destruct (ogrGeomPoints g shp) | by destruct (ogrGeomLine g shp false)].
Qed.

(** C4.  Geometry coercion follows the layer-type policy table of
    section 4.1 for every geometry, shape and layer type (a layer type
    outside the table is refused); and a Point or MultiPoint geometry
    converted against a Polygon layer succeeds with a shape of type Null,
    to which nothing was added.  The output shape is the caller's: the
    fetch functions hand it over reset to Null, and it must not already be
    typed Polygon. *)
Theorem coercion_follows_policy_table (g : OGRGeometry) (shp : shapeObj) :
  wkbFlatten (OGR_G_GetGeometryType g) = wkbPoint
    \/ wkbFlatten (OGR_G_GetGeometryType g) = wkbMultiPoint ->
  type shp <> MS_SHAPE_POLYGON ->
  (forall g' shp' lt,
     match coercion_policy lt g' shp' with
     | Some (r, s) =>
         ogrConvertGeometry (Some g') shp' lt
         = (if r =? -1 then MS_FAILURE else MS_SUCCESS, s)
     | None => ogrConvertGeometry (Some g') shp' lt = (MS_FAILURE, shp')
     end) /\
  ogrConvertGeometry (Some g) shp MS_LAYER_POLYGON
    = (MS_SUCCESS, set_type MS_SHAPE_NULL shp) /\
  type (ogrConvertGeometry (Some g) shp MS_LAYER_POLYGON).2 = MS_SHAPE_NULL.
Proof.
  intros Hpt Hty. split; [intros; apply ogrConvertGeometry_policy |].
  destruct g as [t pts subs]. simpl in Hpt.
  unfold ogrConvertGeometry. rewrite (ogrGeomLine_point _ _ _ _ _ Hpt). simpl.
  by rewrite bool_decide_eq_false_2.
Qed.

Lemma coercion_follows_policy_table_witness :
  ogrConvertGeometry (Some (Geom wkbPoint [mkPoint 3 4] [])) msInitShape MS_LAYER_POLYGON
  = (MS_SUCCESS, set_type MS_SHAPE_NULL msInitShape).
Proof.
  apply (coercion_follows_policy_table (Geom wkbPoint [mkPoint 3 4] []) msInitShape).
  - left. reflexivity.
  - discriminate.
Defined.

(** *** Bounding rectangle *)

Lemma relax_eq (x0 y0 x1 y1 x y : Z) :
  relax (mkRect x0 y0 x1 y1) (mkPoint x y)
  = mkRect (Z.min x0 x) (Z.min y0 y) (Z.max x1 x) (Z.max y1 y).
Proof.
  unfold relax. simpl.
  destruct (Z.ltb_spec x x0); simpl;
    rewrite (Z.gtb_ltb x x1); destruct (Z.ltb_spec x1 x); simpl;
    destruct (Z.ltb_spec y y0); simpl;
    rewrite (Z.gtb_ltb y y1); destruct (Z.ltb_spec y1 y); simpl;
    repeat f_equal; lia.
Qed.

Lemma point_num_inv p : point_num p -> exists x y : Z, p = mkPoint x y.
Proof.
  destruct p as [[x|] [y|]]; intros [H1 H2]; try done. by exists x, y.
Qed.

Lemma bbox_exact_ext b (l l' : list pointObj) :
  (forall p, p ∈ l <-> p ∈ l') -> bbox_exact b l -> bbox_exact b l'.
Proof.
  intros Hm (Hin & (p1 & ? & ?) & (p2 & ? & ?) & (p3 & ? & ?) & (p4 & ? & ?)).
  split_and!; [intros p Hp; apply Hin, Hm, Hp | ..];
    [exists p1 | exists p2 | exists p3 | exists p4]; (split; [by apply Hm | done]).
Qed.

(** An exact rectangle is made of numbers, and so are its points. *)
Lemma bbox_exact_num b l :
  bbox_exact b l ->
  (exists x0 y0 x1 y1 : Z, b = mkRect x0 y0 x1 y1) /\ Forall point_num l.
Proof.
  intros (Hin & (p1 & I1 & E1) & (p2 & I2 & E2) & (p3 & I3 & E3) & (p4 & I4 & E4)).
  split.
  - destruct (Hin _ I1) as (H1 & _). destruct (Hin _ I2) as (_ & H2 & _).
    destruct (Hin _ I3) as (_ & _ & H3 & _). destruct (Hin _ I4) as (_ & _ & _ & H4).
    apply dle_num in H1 as [H1 _], H2 as [_ H2], H3 as [H3 _], H4 as [_ H4].
    destruct b as [[x0|] [y0|] [x1|] [y1|]]; try done. by exists x0, y0, x1, y1.
  - apply Forall_forall. intros p Hp. destruct (Hin _ Hp) as (H1 & _ & H3 & _).
    apply dle_num in H1 as [_ H1], H3 as [_ H3]. by split.
Qed.

Lemma bbox_exact_unique b b' (l l' : list pointObj) :
  (forall p, p ∈ l <-> p ∈ l') -> bbox_exact b l -> bbox_exact b' l' -> b = b'.
Proof.
  intros Hm H1 H2. apply (bbox_exact_ext _ _ _ Hm) in H1.
  destruct H1 as (Hin & (p1 & I1 & E1) & (p2 & I2 & E2) & (p3 & I3 & E3) & (p4 & I4 & E4)).
  destruct H2 as (Hin' & (q1 & J1 & F1) & (q2 & J2 & F2) & (q3 & J3 & F3) & (q4 & J4 & F4)).
  pose proof (Hin _ J1) as (A1 & _). pose proof (Hin _ J2) as (_ & A2 & _).
  pose proof (Hin _ J3) as (_ & _ & A3 & _). pose proof (Hin _ J4) as (_ & _ & _ & A4).
  pose proof (Hin' _ I1) as (B1 & _). pose proof (Hin' _ I2) as (_ & B2 & _).
  pose proof (Hin' _ I3) as (_ & _ & B3 & _). pose proof (Hin' _ I4) as (_ & _ & _ & B4).
  rewrite F1 in A1. rewrite F2 in A2. rewrite F3 in A3. rewrite F4 in A4.
  rewrite E1 in B1. rewrite E2 in B2. rewrite E3 in B3. rewrite E4 in B4.
  destruct b, b'; simpl in *. f_equal; by apply dle_antisym.
Qed.

Lemma bbox_exact_init p :
  point_num p -> bbox_exact (mkRect (px p) (py p) (px p) (py p)) [p].
Proof.
  intros [Hx Hy].
  split_and!;
    [intros q ->%list_elem_of_singleton; simpl; by split_and!; apply dle_refl | ..];
    exists p; (split; [by apply list_elem_of_singleton | done]).
Qed.

Lemma bbox_exact_relax b l p :
  bbox_exact b l -> point_num p -> bbox_exact (relax b p) (l ++ [p]).
Proof.
  intros Hb Hp.
  destruct (bbox_exact_num _ _ Hb) as [(x0 & y0 & x1 & y1 & ->) _].
  destruct (point_num_inv _ Hp) as (x & y & ->).
  destruct Hb as (Hin & (p1 & I1 & E1) & (p2 & I2 & E2) & (p3 & I3 & E3) & (p4 & I4 & E4)).
  simpl in E1, E2, E3, E4.
  rewrite relax_eq. split_and!; simpl.
  - intros q [Hq | ->%list_elem_of_singleton]%elem_of_app.
    + specialize (Hin _ Hq). simpl in Hin.
      destruct (px q), (py q); simpl in *; try tauto. lia.
    + simpl. lia.
  - destruct (Z.le_gt_cases x0 x);
      [exists p1 | exists (mkPoint x y)];
      (split; [rewrite elem_of_app, list_elem_of_singleton; tauto
              | simpl; rewrite ?E1; f_equal; lia]).
  - destruct (Z.le_gt_cases x x1);
      [exists p2 | exists (mkPoint x y)];
      (split; [rewrite elem_of_app, list_elem_of_singleton; tauto
              | simpl; rewrite ?E2; f_equal; lia]).
  - destruct (Z.le_gt_cases y0 y);
      [exists p3 | exists (mkPoint x y)];
      (split; [rewrite elem_of_app, list_elem_of_singleton; tauto
              | simpl; rewrite ?E3; f_equal; lia]).
  - destruct (Z.le_gt_cases y y1);
      [exists p4 | exists (mkPoint x y)];
      (split; [rewrite elem_of_app, list_elem_of_singleton; tauto
              | simpl; rewrite ?E4; f_equal; lia]).
Qed.

Lemma bbox_fold_true_exact b l pl :
  bbox_exact b l -> Forall point_num pl ->
  bbox_exact (bbox_fold true b pl) (l ++ pl).
Proof.
  revert b l. induction pl as [|p pl IH]; intros b l H Hn; simpl.
  - by rewrite app_nil_r.
  - apply Forall_cons in Hn as [Hp Hn].
    replace (l ++ p :: pl) with ((l ++ [p]) ++ pl) by (by rewrite <- app_assoc).
    apply IH; [by apply bbox_exact_relax | done].
Qed.

Lemma bbox_fold_false_exact b pl :
  pl <> [] -> Forall point_num pl -> bbox_exact (bbox_fold false b pl) pl.
Proof.
  destruct pl as [|p pl]; [done | intros _ [Hp Hn]%Forall_cons]. simpl.
  apply (bbox_fold_true_exact _ [p]); [by apply bbox_exact_init | done].
Qed.

Lemma bbox_fold_app seen b l1 l2 :
  bbox_fold seen b (l1 ++ l2)
  = bbox_fold (seen || negb (bool_decide (l1 = []))) (bbox_fold seen b l1) l2.
Proof.
  revert seen b. induction l1 as [|p l1 IH]; intros seen b; simpl.
  - by rewrite orb_false_r.
  - rewrite IH. simpl. by rewrite orb_true_r.
Qed.

(** Starting from a shape whose rectangle is exact for the points it
    holds (or which holds none), folding more points, none of them with
    a NaN coordinate, keeps it exact. *)
Lemma bbox_fold_keeps_exact b (old pl : list pointObj) :
  (old <> [] -> bbox_exact b old) ->
  old ++ pl <> [] ->
  Forall point_num pl ->
  bbox_exact (bbox_fold (negb (bool_decide (old = []))) b pl) (old ++ pl).
Proof.
  intros Hold Hne Hn. case_bool_decide as E; simpl.
  - subst old. simpl in *. by apply bbox_fold_false_exact.
  - apply bbox_fold_true_exact; [by apply Hold | done].
Qed.


(** *** What the two traversals do to a shape *)

Lemma elem_of_concat {A} (ll : list (list A)) (x : A) :
  x ∈ concat ll <-> exists l, l ∈ ll /\ x ∈ l.
Proof.
  rewrite list_elem_of_In, in_concat.
  split; intros (l & H1 & H2); exists l;
    [rewrite !list_elem_of_In | rewrite <- !list_elem_of_In]; done.
Qed.

Lemma concat_nil_iff {A} (ll : list (list A)) :
  concat ll = [] <-> Forall (fun l => l = []) ll.
Proof.
  induction ll as [|l ll IH]; simpl; [by split |].
  split.
  - intros [-> H]%app_nil. constructor; [done | by apply IH].
  - intros H. inversion H; subst. simpl. by apply IH.
Qed.

Lemma visit_members_status f (sup : OGRGeometry -> bool) l :
  Forall (fun m => forall shp, (f m shp).1 = if sup m then 0 else -1) l ->
  forall shp, (visit_members f l shp).1 = if forallb sup l then 0 else -1.
Proof.
  induction 1 as [|m l Hm Hl IH]; intros shp; simpl; [done |].
  specialize (Hm shp). destruct (f m shp) as [r shp']. simpl in Hm. subst r.
  destruct (sup m); simpl; [apply IH | done].
Qed.

Lemma ogrGeomPoints_status g shp :
  (ogrGeomPoints g shp).1 = if points_supported g then 0 else -1.
Proof.
  revert shp. induction g as [t pts subs IH] using OGRGeometry_ind'. intros shp.
  simpl. destruct (wkbFlatten t); try done;
    apply (visit_members_status ogrGeomPoints points_supported), IH.
Qed.

Lemma ogrGeomLine_status g shp b :
  (ogrGeomLine g shp b).1 = if lines_supported g then 0 else -1.
Proof.
  revert shp. induction g as [t pts subs IH] using OGRGeometry_ind'. intros shp.
  simpl. destruct (wkbFlatten t) eqn:Et; try done;
    try (apply (visit_members_status (fun m s => ogrGeomLine m s b) lines_supported), IH).
  unfold ogrGeomLine_linestring. by destruct (_ <? 2).
Qed.

Lemma seen_app (a b c : list pointObj) :
  (b = [] <-> c = []) ->
  negb (bool_decide (a ++ b = []))
  = negb (bool_decide (a = [])) || negb (bool_decide (c = [])).
Proof.
  intros H. destruct a as [|x a]; simpl; [| done].
  f_equal. by apply bool_decide_ext.
Qed.

Section Traversal.
Variable f : OGRGeometry -> shapeObj -> Z * shapeObj.
Variable sup : OGRGeometry -> bool.
Variables added vis : OGRGeometry -> list pointObj.
Variable Inv : shapeObj -> Prop.

Hypothesis f_status : forall m shp, (f m shp).1 = if sup m then 0 else -1.

Lemma visit_members_spec l :
  Forall (traversal_spec f sup added vis Inv) l ->
  forallb sup l = true ->
  (concat (map added l) = [] <-> concat (map vis l) = []) /\
  forall shp, Inv shp ->
    Inv (visit_members f l shp).2 /\
    all_points (visit_members f l shp).2 = all_points shp ++ concat (map added l) /\
    bounds (visit_members f l shp).2
    = bbox_fold (negb (bool_decide (all_points shp = []))) (bounds shp)
                (concat (map vis l)).
Proof.
  induction 1 as [|m l Hm Hl IH]; simpl.
  - intros _. split; [done |]. intros shp HI. by rewrite app_nil_r.
  - intros [Hs Hsl]%andb_true_iff.
    destruct (Hm Hs) as [Hnil Hm']. destruct (IH Hsl) as [Hnil' IH'].
    split.
    { rewrite !app_nil. tauto. }
    intros shp HI. pose proof (f_status m shp) as Hst. rewrite Hs in Hst.
    destruct (Hm' shp HI) as (HI1 & Hp1 & Hb1).
    destruct (f m shp) as [r shp1]. simpl in *. subst r. simpl.
    destruct (IH' shp1 HI1) as (HI2 & Hp2 & Hb2).
    split_and!; [done | by rewrite Hp2, Hp1, <- app_assoc |].
    rewrite Hb2, Hb1, Hp1, bbox_fold_app. f_equal. by apply seen_app.
Qed.
End Traversal.


Lemma add_points_acc pl idx (acc : lineObj * rectObj) :
  add_points pl idx acc
  = (acc.1 ++ pl,
     bbox_fold (negb ((length acc.1 =? 0)%nat && (idx =? 0))) acc.2 pl).
Proof.
  unfold add_points. revert acc. induction pl as [|p pl IH]; intros [ln b]; simpl.
  - by rewrite app_nil_r.
  - rewrite IH. unfold ogrPointsAddPoint. simpl. rewrite length_app. simpl.
    replace (length ln + 1 =? 0)%nat with false by (symmetry; apply Nat.eqb_neq; lia).
    simpl. rewrite <- app_assoc. simpl. f_equal.
    by destruct ((length ln =? 0)%nat && (idx =? 0)).
Qed.

Lemma add_points_eq pl idx ln b :
  add_points pl idx (ln, b)
  = (ln ++ pl, bbox_fold (negb ((length ln =? 0)%nat && (idx =? 0))) b pl).
Proof. apply add_points_acc. Qed.

Lemma ogrGeomPoints_leaf_spec pl shp :
  points_inv shp ->
  points_inv (ogrGeomPoints_leaf pl shp) /\
  all_points (ogrGeomPoints_leaf pl shp) = all_points shp ++ pl /\
  bounds (ogrGeomPoints_leaf pl shp)
  = bbox_fold (negb (bool_decide (all_points shp = []))) (bounds shp) pl.
Proof.
  unfold points_inv, ogrGeomPoints_leaf, all_points. intros HI.
  destruct (line shp) as [|l [|l' ls]] eqn:El; simpl in *; [| | lia].
  - rewrite add_points_eq. simpl. by rewrite app_nil_r.
  - rewrite add_points_eq. simpl. rewrite !app_nil_r. split_and!; [done.. |].
    f_equal. rewrite andb_true_r. f_equal. destruct l; simpl; done.
Qed.

Lemma ogrGeomPoints_spec g :
  traversal_spec ogrGeomPoints points_supported points_visited points_visited
                 points_inv g.
Proof.
  induction g as [t pts subs IH] using OGRGeometry_ind'.
  intros Hsup. simpl in Hsup |- *.
  destruct (wkbFlatten t) eqn:Et; try discriminate Hsup;
    try (split; [done |]; intros shp HI; simpl; by apply ogrGeomPoints_leaf_spec);
    destruct (visit_members_spec ogrGeomPoints points_supported
                points_visited points_visited points_inv
                ogrGeomPoints_status subs IH Hsup) as [_ Hv];
    (split; [done |]; intros shp HI; by apply Hv).
Qed.

Lemma close_ring_nil_iff c (ln : lineObj) : close_ring c ln = [] <-> ln = [].
Proof.
  unfold close_ring. destruct ln as [|p ln]; simpl.
  - by rewrite andb_false_r.
  - destruct (c && _); [| done]. split; intros H; discriminate H.
Qed.

Lemma elem_of_close_ring c (ln : lineObj) p : p ∈ close_ring c ln <-> p ∈ ln.
Proof.
  destruct ln as [|q ln]; unfold close_ring.
  - simpl. by rewrite andb_false_r.
  - destruct (c && _); [| done].
    rewrite elem_of_app, list_elem_of_singleton. simpl. rewrite point_eta.
    split; [| tauto]. intros [H | ->]; [done | apply list_elem_of_here].
Qed.


Lemma line_bounds_succ j pts n b :
  line_bounds (S j) pts n b = bbox_fold true b pts.
Proof.
  revert j b. induction pts as [|p pts IH]; intros j b; simpl; [done | apply IH].
Qed.

Lemma line_bounds_eq pts n b :
  line_bounds 0 pts n b = bbox_fold (negb (n =? 0)%nat) b pts.
Proof.
  destruct pts as [|p pts]; simpl; [done |].
  rewrite line_bounds_succ. by destruct (n =? 0)%nat.
Qed.

Lemma lines_added_members c (subs : list OGRGeometry) :
  concat (map (close_ring c) (concat (map lines_visited subs)))
  = concat (map (lines_added c) subs).
Proof.
  induction subs as [|m subs IH]; simpl; [done |].
  by rewrite map_app, concat_app, IH.
Qed.

Lemma lines_folded_members (subs : list OGRGeometry) :
  concat (concat (map lines_visited subs)) = concat (map lines_folded subs).
Proof.
  induction subs as [|m subs IH]; simpl; [done |].
  by rewrite concat_app, IH.
Qed.

Lemma lines_inv_all_points shp :
  lines_inv shp ->
  negb (length (line shp) =? 0)%nat = negb (bool_decide (all_points shp = [])).
Proof.
  unfold lines_inv, all_points. intros HI.
  destruct (line shp) as [|l ls]; simpl; [done |].
  inversion HI; subst. destruct l; [done |]. done.
Qed.

Lemma ogrGeomLine_linestring_spec c pts shp :
  lines_inv shp ->
  let r := ogrGeomLine_linestring pts shp c in
  let vis := if (Z.of_nat (length pts) <? 2) then [] else [pts] in
  lines_inv r.2 /\
  all_points r.2 = all_points shp ++ concat (map (close_ring c) vis) /\
  bounds r.2
  = bbox_fold (negb (bool_decide (all_points shp = []))) (bounds shp) (concat vis).
Proof.
  intros HI. unfold ogrGeomLine_linestring.
  destruct (Z.ltb_spec (Z.of_nat (length pts)) 2) as [Hlt|Hge]; simpl.
  - by rewrite app_nil_r.
  - assert (Hne : pts <> []) by (destruct pts; [simpl in Hge; lia | done]).
    set (shp1 := if decide (type shp = MS_SHAPE_NULL) then _ else _).
    assert (Hl : line shp1 = line shp) by (subst shp1; by case_decide).
    assert (Hb : bounds shp1 = bounds shp) by (subst shp1; by case_decide).
    unfold lines_inv, all_points in *. simpl. rewrite Hl, Hb, !app_nil_r.
    split_and!.
    + apply Forall_app. split; [done |]. constructor; [| done].
      by rewrite close_ring_nil_iff.
    + by rewrite concat_app; simpl; rewrite app_nil_r.
    + rewrite line_bounds_eq. f_equal. by apply lines_inv_all_points.
Qed.

Lemma ogrGeomLine_spec c g :
  traversal_spec (fun m s => ogrGeomLine m s c) lines_supported
                 (lines_added c) lines_folded lines_inv g.
Proof.
  induction g as [t pts subs IH] using OGRGeometry_ind'.
  intros Hsup. unfold lines_added, lines_folded. simpl in Hsup |- *.
  destruct (wkbFlatten t) eqn:Et; try discriminate Hsup;
    try (split; [done |]; intros shp HI; simpl; by rewrite app_nil_r).
  - (* wkbLineString *)
    split.
    + destruct (_ <? 2); simpl; [done |].
      rewrite !app_nil_r. apply close_ring_nil_iff.
    + intros shp HI. by apply ogrGeomLine_linestring_spec.
  - (* wkbPolygon *)
    destruct (visit_members_spec (fun m s => ogrGeomLine m s c) lines_supported
                (lines_added c) lines_folded lines_inv
                (fun m s => ogrGeomLine_status m s c) subs IH Hsup) as [Hn Hv].
    rewrite lines_added_members, lines_folded_members.
    split; [done |]. intros shp HI.
    case_decide; [| done].
    by destruct (Hv (if decide (type shp = MS_SHAPE_NULL)
                     then set_type MS_SHAPE_POLYGON shp else shp))
      as (? & ? & ?); [by case_decide | case_decide].
  - destruct (visit_members_spec (fun m s => ogrGeomLine m s c) lines_supported
                (lines_added c) lines_folded lines_inv
                (fun m s => ogrGeomLine_status m s c) subs IH Hsup) as [Hn Hv].
    rewrite lines_added_members, lines_folded_members.
    split; [done |]. intros shp HI. case_decide; [done |]. by apply Hv.
  - destruct (visit_members_spec (fun m s => ogrGeomLine m s c) lines_supported
                (lines_added c) lines_folded lines_inv
                (fun m s => ogrGeomLine_status m s c) subs IH Hsup) as [Hn Hv].
    rewrite lines_added_members, lines_folded_members.
    split; [done |]. intros shp HI. case_decide; [done |]. by apply Hv.
  - destruct (visit_members_spec (fun m s => ogrGeomLine m s c) lines_supported
                (lines_added c) lines_folded lines_inv
                (fun m s => ogrGeomLine_status m s c) subs IH Hsup) as [Hn Hv].
    rewrite lines_added_members, lines_folded_members.
    split; [done |]. intros shp HI. case_decide; [done |]. by apply Hv.
Qed.


(** *** Exactness and order independence of the rectangle *)

Lemma bbox_fold_false_ext b (l l' : list pointObj) :
  (forall p, p ∈ l <-> p ∈ l') ->
  Forall point_num l ->
  bbox_fold false b l = bbox_fold false b l'.
Proof.
  intros Hm Hn.
  assert (Hn' : Forall point_num l').
  { rewrite Forall_forall in Hn |- *. intros p Hp. by apply Hn, Hm. }
  destruct l as [|p l], l' as [|p' l']; [done | | |].
  - exfalso. by apply (not_elem_of_nil p'), Hm, list_elem_of_here.
  - exfalso. by apply (not_elem_of_nil p), Hm, list_elem_of_here.
  - apply (bbox_exact_unique _ _ (p :: l) (p' :: l') Hm);
      by apply bbox_fold_false_exact.
Qed.

Lemma forallb_perm {A} (f : A -> bool) (l l' : list A) :
  l ≡ₚ l' -> forallb f l = forallb f l'.
Proof.
  induction 1 as [|x l l' _ IH|x y l|l l' l'' _ IH1 _ IH2]; simpl;
    [done | by rewrite IH | by destruct (f x), (f y) | by rewrite IH1].
Qed.

Lemma elem_of_concat_map_perm {A B} (f : A -> list B) (l l' : list A) (x : B) :
  l ≡ₚ l' -> x ∈ concat (map f l) <-> x ∈ concat (map f l').
Proof.
  intros Hp. rewrite !elem_of_concat.
  split; intros (k & Hk & Hx); exists k; (split; [| done]);
    revert Hk; rewrite !list_elem_of_In, !in_map_iff;
    intros (a & <- & Ha); exists a; (split; [done |]);
    revert Ha; rewrite <- !list_elem_of_In; by rewrite Hp.
Qed.

Lemma elem_of_map_perm {A B} (f : A -> B) (l l' : list A) (x : B) :
  l ≡ₚ l' -> x ∈ map f l <-> x ∈ map f l'.
Proof.
  intros Hp. rewrite !list_elem_of_In, !in_map_iff.
  split; intros (a & <- & Ha); exists a; (split; [done |]);
    revert Ha; rewrite <- !list_elem_of_In; by rewrite Hp.
Qed.

Lemma points_supported_perm t pts subs subs' :
  subs ≡ₚ subs' ->
  points_supported (Geom t pts subs) = points_supported (Geom t pts subs').
Proof. intros Hp. simpl. destruct (wkbFlatten t); try done; by apply forallb_perm. Qed.

Lemma lines_supported_perm t pts subs subs' :
  subs ≡ₚ subs' ->
  lines_supported (Geom t pts subs) = lines_supported (Geom t pts subs').
Proof. intros Hp. simpl. destruct (wkbFlatten t); try done; by apply forallb_perm. Qed.

Lemma points_visited_perm t pts subs subs' p :
  subs ≡ₚ subs' ->
  p ∈ points_visited (Geom t pts subs) <-> p ∈ points_visited (Geom t pts subs').
Proof.
  intros Hp. simpl. destruct (wkbFlatten t); try done;
    first [by apply elem_of_concat_map_perm | by apply elem_of_map_perm].
Qed.

Lemma lines_folded_perm t pts subs subs' p :
  subs ≡ₚ subs' ->
  p ∈ lines_folded (Geom t pts subs) <-> p ∈ lines_folded (Geom t pts subs').
Proof.
  intros Hp. unfold lines_folded. simpl. destruct (wkbFlatten t); try done;
    rewrite !lines_folded_members; by apply elem_of_concat_map_perm.
Qed.

Lemma lines_added_folded c g p : p ∈ lines_added c g <-> p ∈ lines_folded g.
Proof.
  unfold lines_added, lines_folded. rewrite !elem_of_concat. split.
  - intros (l & Hl & Hp). revert Hl. rewrite list_elem_of_In, in_map_iff.
    intros (l0 & <- & Hl0). exists l0. split; [by apply list_elem_of_In |].
    by apply elem_of_close_ring in Hp.
  - intros (l & Hl & Hp). exists (close_ring c l). split.
    + apply list_elem_of_In, in_map. by apply list_elem_of_In.
    + by apply elem_of_close_ring.
Qed.

Section TraversalResult.
Variable f : OGRGeometry -> shapeObj -> Z * shapeObj.
Variable sup : OGRGeometry -> bool.
Variables added vis : OGRGeometry -> list pointObj.
Variable Inv : shapeObj -> Prop.
Hypothesis f_spec : forall g, traversal_spec f sup added vis Inv g.
Hypothesis f_status : forall m shp, (f m shp).1 = if sup m then 0 else -1.
Hypothesis added_vis : forall g p, p ∈ added g <-> p ∈ vis g.

Lemma traversal_result g g' shp0 :
  Inv shp0 -> line shp0 = [] ->
  sup g = sup g' ->
  (forall p, p ∈ vis g <-> p ∈ vis g') ->
  (f g shp0).1 = (f g' shp0).1 /\
  ((f g shp0).1 = 0 -> all_points (f g shp0).2 <> [] ->
     Forall point_num (all_points (f g shp0).2) ->
     bbox_exact (bounds (f g shp0).2) (all_points (f g shp0).2)) /\
  ((f g shp0).1 = 0 -> Forall point_num (all_points (f g shp0).2) ->
     bounds (f g shp0).2 = bounds (f g' shp0).2).
Proof.
  intros HI Hl Hsup Hvis.
  assert (Hap : all_points shp0 = []) by (unfold all_points; by rewrite Hl).
  rewrite !f_status, <- Hsup. split; [done |].
  destruct (sup g) eqn:Hs; [| by split].
  destruct (f_spec g Hs) as [_ Hg]. destruct (Hg shp0 HI) as (_ & Hp & Hb).
  destruct (f_spec g') as [_ Hg']; [by rewrite <- Hsup |].
  destruct (Hg' shp0 HI) as (_ & Hp' & Hb').
  rewrite Hap in *. simpl in *.
  assert (Hnum : Forall point_num (added g) -> Forall point_num (vis g)).
  { rewrite !Forall_forall. intros Hn p Hv. by apply Hn, added_vis. }
  split.
  - intros _ Hne Hn. rewrite Hb, Hp. rewrite Hp in Hn.
    apply (bbox_exact_ext _ (vis g)); [intros p; symmetry; apply added_vis |].
    apply bbox_fold_false_exact; [| by apply Hnum].
    intros Hv. apply Hne. rewrite Hp.
    destruct (added g) as [|q ?] eqn:E; [done |]. exfalso.
    apply (not_elem_of_nil q). rewrite <- Hv, <- added_vis, E. left.
  - intros _ Hn. rewrite Hp in Hn. rewrite Hb, Hb'.
    apply bbox_fold_false_ext; [done | by apply Hnum].
Qed.
End TraversalResult.

Lemma ogrGeomPoints_result t pts subs subs' shp0 :
  line shp0 = [] -> subs ≡ₚ subs' ->
  let r := ogrGeomPoints (Geom t pts subs) shp0 in
  let r' := ogrGeomPoints (Geom t pts subs') shp0 in
  r.1 = r'.1 /\
  (r.1 = 0 -> all_points r.2 <> [] -> Forall point_num (all_points r.2) ->
     bbox_exact (bounds r.2) (all_points r.2)) /\
  (r.1 = 0 -> Forall point_num (all_points r.2) -> bounds r.2 = bounds r'.2).
Proof.
  intros Hl Hp.
  apply (traversal_result ogrGeomPoints points_supported points_visited
           points_visited points_inv ogrGeomPoints_spec ogrGeomPoints_status);
    [done | unfold points_inv; rewrite Hl; simpl; lia | done
    | by apply points_supported_perm | intros p; by apply points_visited_perm].
Qed.

Lemma ogrGeomLine_result c t pts subs subs' shp0 :
  line shp0 = [] -> subs ≡ₚ subs' ->
  let r := ogrGeomLine (Geom t pts subs) shp0 c in
  let r' := ogrGeomLine (Geom t pts subs') shp0 c in
  r.1 = r'.1 /\
  (r.1 = 0 -> all_points r.2 <> [] -> Forall point_num (all_points r.2) ->
     bbox_exact (bounds r.2) (all_points r.2)) /\
  (r.1 = 0 -> Forall point_num (all_points r.2) -> bounds r.2 = bounds r'.2).
Proof.
  intros Hl Hp.
  apply (traversal_result (fun m s => ogrGeomLine m s c) lines_supported
           (lines_added c) lines_folded lines_inv (ogrGeomLine_spec c)
           (fun m s => ogrGeomLine_status m s c));
    [intros; apply lines_added_folded | unfold lines_inv; by rewrite Hl | done
    | by apply lines_supported_perm | intros p; by apply lines_folded_perm].
Qed.


Lemma convert_wrap (rr rr' : Z * shapeObj) (b b' : bool)
    (k : shapeObj -> shapeObj) :
  rr.1 = (if b then 0 else -1) -> rr'.1 = (if b' then 0 else -1) ->
  (forall s, line (k s) = line s /\ bounds (k s) = bounds s) ->
  rr.1 = rr'.1 /\
  (rr.1 = 0 -> all_points rr.2 <> [] -> Forall point_num (all_points rr.2) ->
     bbox_exact (bounds rr.2) (all_points rr.2)) /\
  (rr.1 = 0 -> Forall point_num (all_points rr.2) -> bounds rr.2 = bounds rr'.2) ->
  let r := (if rr.1 =? -1 then MS_FAILURE else MS_SUCCESS, k rr.2) in
  let r' := (if rr'.1 =? -1 then MS_FAILURE else MS_SUCCESS, k rr'.2) in
  r.1 = r'.1 /\
  (r.1 = MS_SUCCESS -> all_points r.2 <> [] -> Forall point_num (all_points r.2) ->
     bbox_exact (bounds r.2) (all_points r.2)) /\
  (r.1 = MS_SUCCESS -> Forall point_num (all_points r.2) ->
     bounds r.2 = bounds r'.2).
Proof.
  destruct rr as [z s], rr' as [z' s']. simpl. intros -> -> Hk (H1 & H2 & H3).
  unfold all_points in *.
  destruct (Hk s) as [-> ->], (Hk s') as [_ ->].
  destruct b, b'; simpl in *; try discriminate H1; split_and!; auto; discriminate.
Qed.

Lemma coercion_policy_line g shp :
  coercion_policy MS_LAYER_LINE g shp
  = Some ((ogrGeomLine g shp false).1,
          force_null_unless [MS_SHAPE_LINE; MS_SHAPE_POLYGON] (ogrGeomLine g shp false).2).
Proof. unfold coercion_policy. by destruct (ogrGeomLine g shp false). Qed.

Lemma coercion_policy_polygon g shp :
  coercion_policy MS_LAYER_POLYGON g shp
  = Some ((ogrGeomLine g shp true).1,
          force_null_unless [MS_SHAPE_POLYGON] (ogrGeomLine g shp true).2).
Proof. unfold coercion_policy. by destruct (ogrGeomLine g shp true). Qed.

Lemma ogrConvertGeometry_unfold g shp lt :
  ogrConvertGeometry (Some g) shp lt =
  match coercion_policy lt g shp with
  | Some rs => (if rs.1 =? -1 then MS_FAILURE else MS_SUCCESS, rs.2)
  | None => (MS_FAILURE, shp)
  end.
Proof.
  pose proof (ogrConvertGeometry_policy g shp lt) as H.
  by destruct (coercion_policy lt g shp) as [[r s]|].
Qed.

(** C5 (as amended).  Conversion of a geometry into a fresh shape (one
    without rings, as the fetch functions hand it over), for every layer
    type: whenever it succeeds and the shape holds a point, and no
    coordinate of the shape's points is NaN, the shape's rectangle is the
    exact per-axis minimum and maximum of the points of the shape - it
    contains them all and each side is reached by one of them.  Visiting
    the members of the geometry in another order gives the same status
    and, when no coordinate is NaN, the same rectangle. *)
Theorem bounds_exact_any_order t pts (subs subs' : list OGRGeometry)
    (shp0 : shapeObj) (lt : MS_LAYER_TYPE) :
  line shp0 = [] -> subs ≡ₚ subs' ->
  let r := ogrConvertGeometry (Some (Geom t pts subs)) shp0 lt in
  let r' := ogrConvertGeometry (Some (Geom t pts subs')) shp0 lt in
  r.1 = r'.1 /\
  (r.1 = MS_SUCCESS -> all_points r.2 <> [] -> Forall point_num (all_points r.2) ->
     bbox_exact (bounds r.2) (all_points r.2)) /\
  (r.1 = MS_SUCCESS -> Forall point_num (all_points r.2) ->
     bounds r.2 = bounds r'.2).
Proof.
  intros Hl Hp.
  pose proof (ogrGeomPoints_result t pts subs subs' shp0 Hl Hp) as HP.
  pose proof (ogrGeomLine_result false t pts subs subs' shp0 Hl Hp) as HLf.
  pose proof (ogrGeomLine_result true t pts subs subs' shp0 Hl Hp) as HLt.
  pose proof (ogrGeomPoints_status (Geom t pts subs) shp0) as SP.
  pose proof (ogrGeomPoints_status (Geom t pts subs') shp0) as SP'.
  pose proof (ogrGeomLine_status (Geom t pts subs) shp0 false) as SLf.
  pose proof (ogrGeomLine_status (Geom t pts subs') shp0 false) as SLf'.
  pose proof (ogrGeomLine_status (Geom t pts subs) shp0 true) as SLt.
  pose proof (ogrGeomLine_status (Geom t pts subs') shp0 true) as SLt'.
  rewrite !ogrConvertGeometry_unfold.
  assert (Hid : forall s : shapeObj, line (id s) = line s /\ bounds (id s) = bounds s)
    by done.
  assert (Hfn : forall keep s, line (force_null_unless keep s) = line s
                            /\ bounds (force_null_unless keep s) = bounds s).
  { intros keep s. unfold force_null_unless. by case_bool_decide. }
  destruct lt; try (cbn [coercion_policy fst snd]; by split_and!).
  - exact (convert_wrap _ _ _ _ id SP SP' Hid HP).
  - rewrite !coercion_policy_line.
    exact (convert_wrap _ _ _ _ _ SLf SLf' (Hfn _) HLf).
  - rewrite !coercion_policy_polygon.
    exact (convert_wrap _ _ _ _ _ SLt SLt' (Hfn _) HLt).
  - unfold coercion_policy.
    change (is_point_input (Geom t pts subs')) with (is_point_input (Geom t pts subs)).
    destruct (is_point_input (Geom t pts subs)).
    + exact (convert_wrap _ _ _ _ id SP SP' Hid HP).
    + exact (convert_wrap _ _ _ _ id SLf SLf' Hid HLf).
  - unfold coercion_policy.
    change (is_point_input (Geom t pts subs')) with (is_point_input (Geom t pts subs)).
    destruct (is_point_input (Geom t pts subs)).
    + exact (convert_wrap _ _ _ _ id SP SP' Hid HP).
    + exact (convert_wrap _ _ _ _ id SLf SLf' Hid HLf).
Qed.


Lemma bounds_exact_any_order_witness :
  let ring1 := Geom wkbLineString [mkPoint 0 0; mkPoint 4 1] [] in
  let ring2 := Geom wkbLineString [mkPoint (-2) 3; mkPoint 1 7; mkPoint 2 (-5)] [] in
  bounds (ogrConvertGeometry (Some (Geom wkbMultiLineString [] [ring1; ring2]))
            msInitShape MS_LAYER_LINE).2
  = bounds (ogrConvertGeometry (Some (Geom wkbMultiLineString [] [ring2; ring1]))
              msInitShape MS_LAYER_LINE).2.
Proof.
  intros ring1 ring2.
  apply (bounds_exact_any_order wkbMultiLineString [] [ring1; ring2] [ring2; ring1]
           msInitShape MS_LAYER_LINE).
  - reflexivity.
  - apply perm_swap.
  - reflexivity.
  - vm_compute. repeat constructor; discriminate.
Defined.

(** C5, as stated, does not hold of every geometry: a comparison with a
    NaN coordinate is false, so a NaN that is visited first stays in the
    rectangle and one that is visited later is left out of it.  The two
    orders of the points (NaN, 0) and (1, 0) give different rectangles,
    neither of which is the minimum and maximum of the points. *)
Lemma bounds_with_nan_depend_on_order :
  ~ (forall t pts (subs subs' : list OGRGeometry) (shp0 : shapeObj)
            (lt : MS_LAYER_TYPE),
       line shp0 = [] -> subs ≡ₚ subs' ->
       let r := ogrConvertGeometry (Some (Geom t pts subs)) shp0 lt in
       let r' := ogrConvertGeometry (Some (Geom t pts subs')) shp0 lt in
       r.1 = r'.1 /\
       (r.1 = MS_SUCCESS -> all_points r.2 <> [] ->
          bbox_exact (bounds r.2) (all_points r.2)) /\
       (r.1 = MS_SUCCESS -> bounds r.2 = bounds r'.2)).
Proof.
  intros H.
  destruct (H wkbMultiPoint []
              [Geom wkbPoint [mkPoint NaN 0] []; Geom wkbPoint [mkPoint 1 0] []]
              [Geom wkbPoint [mkPoint 1 0] []; Geom wkbPoint [mkPoint NaN 0] []]
              msInitShape MS_LAYER_POINT eq_refl (perm_swap _ _ _))
    as (_ & _ & Hb).
  specialize (Hb eq_refl). vm_compute in Hb. discriminate Hb.
Qed.

End GeometryProperties.

(** ** Feature fetching *)

Section FetchProperties.
Import Geometry Layer.

Variable msOGRGetValues : layerObj -> OGRFeature -> option (list string).

(** The traversals carry the values of the shape along. *)
Lemma visit_members_values f v l :
  Forall (fun m => forall s, f m (set_values v s) = ((f m s).1, set_values v (f m s).2)) l ->
  forall s, visit_members f l (set_values v s)
            = ((visit_members f l s).1, set_values v (visit_members f l s).2).
Proof.
  induction 1 as [|m l Hm Hl IH]; intros s; simpl; [done |].
  rewrite Hm. destruct (f m s) as [r s']. simpl.
  destruct (r =? -1); [done | apply IH].
Qed.

Lemma ogrGeomPoints_leaf_values v pl s :
  ogrGeomPoints_leaf pl (set_values v s) = set_values v (ogrGeomPoints_leaf pl s).
Proof.
  unfold ogrGeomPoints_leaf. simpl.
  by destruct (add_points pl _ _).
Qed.

Lemma ogrGeomPoints_values v g s :
  ogrGeomPoints g (set_values v s)
  = ((ogrGeomPoints g s).1, set_values v (ogrGeomPoints g s).2).
Proof.
  revert s. induction g as [t pts subs IH] using OGRGeometry_ind'. intros s.
  simpl. destruct (wkbFlatten t); try done;
    first [ by rewrite ogrGeomPoints_leaf_values
          | by apply (visit_members_values ogrGeomPoints) ].
Qed.

Lemma ogrGeomLine_values v c g s :
  ogrGeomLine g (set_values v s) c
  = ((ogrGeomLine g s c).1, set_values v (ogrGeomLine g s c).2).
Proof.
  revert s. induction g as [t pts subs IH] using OGRGeometry_ind'. intros s.
  simpl. destruct (wkbFlatten t) eqn:Et; try done.
  - unfold ogrGeomLine_linestring. destruct (_ <? 2); [done |]. simpl.
    by case_decide.
  - case_decide; [| done]. simpl.
    destruct (decide (type s = MS_SHAPE_NULL));
      by rewrite <- (visit_members_values (fun m s => ogrGeomLine m s c) v subs IH).
  - case_decide; [done |].
    by apply (visit_members_values (fun m s => ogrGeomLine m s c)).
  - case_decide; [done |].
    by apply (visit_members_values (fun m s => ogrGeomLine m s c)).
  - case_decide; [done |].
    by apply (visit_members_values (fun m s => ogrGeomLine m s c)).
Qed.

Lemma ogrConvertGeometry_values v hGeom s lt :
  ogrConvertGeometry hGeom (set_values v s) lt
  = ((ogrConvertGeometry hGeom s lt).1, set_values v (ogrConvertGeometry hGeom s lt).2).
Proof.
  destruct hGeom as [g|]; [| done]. unfold ogrConvertGeometry.
  destruct lt; try done;
    try (destruct (OGR_G_GetGeometryType g));
    rewrite ?ogrGeomPoints_values, ?ogrGeomLine_values;
    repeat match goal with
    | |- context [ogrGeomPoints ?g ?s] => destruct (ogrGeomPoints g s) as [? ?]
    | |- context [ogrGeomLine ?g ?s ?c] => destruct (ogrGeomLine g s c) as [? ?]
    end; simpl; try done;
    repeat case_bool_decide; simpl; done.
Qed.


Lemma ogrConvertGeometry_status g s lt :
  (ogrConvertGeometry (Some g) s lt).1
  = if subtype_supported g lt then MS_SUCCESS else MS_FAILURE.
Proof.
  rewrite ogrConvertGeometry_unfold.
  destruct lt; try done; unfold subtype_supported.
  - cbn [coercion_policy fst]. rewrite ogrGeomPoints_status.
    by destruct (points_supported g).
  - rewrite coercion_policy_line. cbn [fst]. rewrite ogrGeomLine_status.
    by destruct (lines_supported g).
  - rewrite coercion_policy_polygon. cbn [fst]. rewrite ogrGeomLine_status.
    by destruct (lines_supported g).
  - cbn [coercion_policy]. destruct (is_point_input g); cbn [fst];
      rewrite ?ogrGeomPoints_status, ?ogrGeomLine_status;
      by destruct (points_supported g), (lines_supported g).
  - cbn [coercion_policy]. destruct (is_point_input g); cbn [fst];
      rewrite ?ogrGeomPoints_status, ?ogrGeomLine_status;
      by destruct (points_supported g), (lines_supported g).
Qed.

Lemma unsupported_iff g lt :
  unsupported (Some g) lt = negb (subtype_supported g lt).
Proof.
  unfold unsupported. rewrite ogrConvertGeometry_status.
  by destruct (subtype_supported g lt).
Qed.

(** How the loop of [msOGRFileNextShape] treats its next feature. *)
Lemma loaded_shape layer f :
  values_load msOGRGetValues layer f = true ->
  exists v,
    (if (0 <? numitems layer)%nat
     then match msOGRGetValues layer f with
          | Some v => Some (set_values v fresh_shape)
          | None => None
          end
     else Some fresh_shape) = Some (set_values v fresh_shape).
Proof.
  unfold values_load. destruct (0 <? numitems layer)%nat; simpl.
  - intros [v ->]%bool_decide_eq_true. by exists v.
  - intros _. by exists [].
Qed.

Lemma next_shape_loop_skip layer re f rest last :
  values_load msOGRGetValues layer f = true ->
  incompatible (fgeom f) (ltype layer) = true ->
  next_shape_loop msOGRGetValues layer re (f :: rest) last
  = next_shape_loop msOGRGetValues layer re rest (last + 1).
Proof.
  intros Hv [Hst Hty]%andb_true_iff.
  apply bool_decide_eq_true in Hst, Hty.
  destruct (loaded_shape layer f Hv) as [v Ev].
  cbn [next_shape_loop]. fold fresh_shape. rewrite Ev.
  cbn [ogrGetLinearGeometry]. rewrite ogrConvertGeometry_values.
  destruct (ogrConvertGeometry (fgeom f) fresh_shape (ltype layer)) as [st s].
  simpl in *. subst st. by rewrite bool_decide_eq_true_2.
Qed.

Lemma next_shape_loop_unsupported layer re f rest last :
  values_load msOGRGetValues layer f = true ->
  unsupported (fgeom f) (ltype layer) = true ->
  ns_status (next_shape_loop msOGRGetValues layer re (f :: rest) last) = MS_FAILURE.
Proof.
  intros Hv Hst. apply negb_true_iff, bool_decide_eq_false in Hst.
  destruct (loaded_shape layer f Hv) as [v Ev].
  cbn [next_shape_loop]. fold fresh_shape. rewrite Ev.
  cbn [ogrGetLinearGeometry]. rewrite ogrConvertGeometry_values.
  destruct (ogrConvertGeometry (fgeom f) fresh_shape (ltype layer)) as [st s].
  simpl in *. by destruct st.
Qed.

Lemma next_shape_loop_compatible layer re f rest last :
  values_load msOGRGetValues layer f = true ->
  compatible (fgeom f) (ltype layer) = true ->
  let r := next_shape_loop msOGRGetValues layer re (f :: rest) last in
  ns_status r = MS_SUCCESS /\ ns_feature r = Some f /\ ns_pending r = rest
  /\ ns_last r = last + 1.
Proof.
  intros Hv [Hst Hty]%andb_true_iff.
  apply bool_decide_eq_true in Hst. apply negb_true_iff, bool_decide_eq_false in Hty.
  destruct (loaded_shape layer f Hv) as [v Ev].
  cbn [next_shape_loop]. fold fresh_shape. rewrite Ev.
  cbn [ogrGetLinearGeometry]. rewrite ogrConvertGeometry_values.
  destruct (ogrConvertGeometry (fgeom f) fresh_shape (ltype layer)) as [st s].
  simpl in *. subst st. by rewrite bool_decide_eq_false_2.
Qed.

Lemma support_cases hGeom lt :
  unsupported hGeom lt = false ->
  incompatible hGeom lt = true \/ compatible hGeom lt = true.
Proof.
  unfold unsupported, incompatible, compatible.
  intros ->%negb_false_iff. simpl. by case_bool_decide; [left | right].
Qed.

Lemma next_shape_loop_no_failure layer pend last :
  Forall (fun f => values_load msOGRGetValues layer f = true
                   /\ unsupported (fgeom f) (ltype layer) = false) pend ->
  ns_status (next_shape_loop msOGRGetValues layer false pend last) <> MS_FAILURE.
Proof.
  intros H. revert last. induction H as [|f rest [Hv Hu] _ IH]; intros last.
  - done.
  - destruct (support_cases _ _ Hu) as [Hi | Hc].
    + rewrite next_shape_loop_skip by done. apply IH.
    + destruct (next_shape_loop_compatible layer false f rest last Hv Hc) as [-> _].
      done.
Qed.

(** Random access. *)
Lemma get_shape_by_fid_null layer shape info lyr f :
  hLayer info = Some lyr ->
  OGR_L_GetFeature lyr (fid f) = Some f ->
  incompatible (fgeom f) (ltype layer) = true
    \/ unsupported (fgeom f) (ltype layer) = true ->
  (msOGRFileGetShape msOGRGetValues layer shape (fid f) (Some info) true).1.1
  = MS_FAILURE.
Proof.
  intros Hl Hf Hbad. unfold msOGRFileGetShape. rewrite Hl, Hf.
  cbn [ogrGetLinearGeometry]. unfold msFreeShape.
  change (set_type MS_SHAPE_NULL msInitShape) with fresh_shape.
  unfold incompatible, unsupported in Hbad.
  destruct (ogrConvertGeometry (fgeom f) fresh_shape (ltype layer)) as [st s].
  simpl in Hbad. destruct st; try done.
  destruct Hbad as [Hty | Hst]; [| done].
  apply bool_decide_eq_true in Hty. by rewrite bool_decide_eq_true_2.
Qed.


Lemma next_shape_advance layer shape info lyr f rest :
  hLayer info = Some lyr ->
  pending lyr = f :: rest ->
  values_load msOGRGetValues layer f = true ->
  incompatible (fgeom f) (ltype layer) = true ->
  msOGRFileNextShape msOGRGetValues layer shape (Some info)
  = msOGRFileNextShape msOGRGetValues layer shape
      (Some (set_cursor (Some (set_pending rest lyr))
                        (last_record_index_read info + 1) info)).
Proof.
  intros Hl Hp Hv Hi. unfold msOGRFileNextShape. rewrite Hl, Hp.
  rewrite (next_shape_loop_skip _ _ _ _ _ Hv Hi). by destruct info, lyr.
Qed.

(** C3 (as amended).  A feature whose geometry is incompatible with the
    layer type (its conversion succeeds and leaves the shape Null):
    - sequential fetching skips it: [msOGRFileNextShape] gives what it
      gives from the next feature on, and it reports no failure as long
      as the values of the pending features load, none of them is of an
      unsupported subtype and the back end reports no read error;
    - random access by id does report it: [msOGRFileGetShape] fails;
    - a geometry of an unsupported subtype makes both fail, and a
      conversion fails exactly when the traversal chosen for the layer
      type meets a subtype it does not handle (or the layer type has no
      conversion). *)
Theorem incompatible_geometry_by_fetch_path (layer : layerObj) (shape : shapeObj)
    (info : msOGRFileInfo) (lyr : OGRLayer) (f : OGRFeature)
    (rest : list OGRFeature) :
  hLayer info = Some lyr ->
  pending lyr = f :: rest ->
  OGR_L_GetFeature lyr (fid f) = Some f ->
  values_load msOGRGetValues layer f = true ->
  incompatible (fgeom f) (ltype layer) = true ->
  msOGRFileNextShape msOGRGetValues layer shape (Some info)
  = msOGRFileNextShape msOGRGetValues layer shape
      (Some (set_cursor (Some (set_pending rest lyr))
                        (last_record_index_read info + 1) info)) /\
  (Forall (fun f' => values_load msOGRGetValues layer f' = true
                     /\ unsupported (fgeom f') (ltype layer) = false) (pending lyr) ->
   read_error lyr = false ->
   (msOGRFileNextShape msOGRGetValues layer shape (Some info)).1.1 <> MS_FAILURE) /\
  (msOGRFileGetShape msOGRGetValues layer shape (fid f) (Some info) true).1.1
  = MS_FAILURE /\
  (forall info' lyr' u rest',
     hLayer info' = Some lyr' ->
     pending lyr' = u :: rest' ->
     values_load msOGRGetValues layer u = true ->
     unsupported (fgeom u) (ltype layer) = true ->
     (msOGRFileNextShape msOGRGetValues layer shape (Some info')).1.1 = MS_FAILURE /\
     (OGR_L_GetFeature lyr' (fid u) = Some u ->
      (msOGRFileGetShape msOGRGetValues layer shape (fid u) (Some info') true).1.1
      = MS_FAILURE)) /\
  (forall g lt, unsupported (Some g) lt = negb (subtype_supported g lt)).
Proof.
  intros Hl Hp Hf Hv Hi. split_and!.
  - by apply (next_shape_advance layer shape info lyr f rest).
  - intros Hall Hre. unfold msOGRFileNextShape. rewrite Hl, Hre.
    pose proof (next_shape_loop_no_failure layer (pending lyr)
                  (last_record_index_read info) Hall) as Hnf.
    destruct (next_shape_loop _ _ _ _ _) as [st ? ? ? [?|]]; simpl in *;
      by destruct st.
  - apply (get_shape_by_fid_null layer shape info lyr f); auto.
  - intros info' lyr' u rest' Hl' Hp' Hv' Hu. split.
    + unfold msOGRFileNextShape. rewrite Hl', Hp'.
      pose proof (next_shape_loop_unsupported layer (read_error lyr') u rest'
                    (last_record_index_read info') Hv' Hu) as Hst.
      destruct (next_shape_loop _ _ _ _ _) as [st ? ? ? [?|]]; simpl in *;
        by subst st.
    + intros Hf'. apply (get_shape_by_fid_null layer shape info' lyr' u); auto.
  - apply unsupported_iff.
Qed.

End FetchProperties.

Section FetchExamples.
Import Geometry Layer.

Lemma incompatible_geometry_by_fetch_path_witness :
  (msOGRFileNextShape load_fields polygon_layer msInitShape (Some two_features)).1.1
    = MS_SUCCESS /\
  (msOGRFileGetShape load_fields polygon_layer msInitShape 7 (Some two_features) true).1.1
    = MS_FAILURE.
Proof.
  destruct (incompatible_geometry_by_fetch_path load_fields polygon_layer msInitShape
              two_features
              (mkLayer [point_feature; square_feature]
                       [point_feature; square_feature] false true)
              point_feature [square_feature]
              eq_refl eq_refl eq_refl eq_refl eq_refl) as (Hseq & _ & Hid & _).
  split; [rewrite Hseq; reflexivity | exact Hid].
Defined.

(** C3, as stated, does not hold for random access: a Point feature of a
    Polygon layer is incompatible, not unsupported, and fetching it by id
    fails. *)
Lemma fetch_by_id_reports_incompatible :
  ~ (forall getv layer shape info lyr f,
       hLayer info = Some lyr ->
       OGR_L_GetFeature lyr (fid f) = Some f ->
       incompatible (fgeom f) (ltype layer) = true ->
       (msOGRFileGetShape getv layer shape (fid f) (Some info) true).1.1
       <> MS_FAILURE).
Proof.
  intros H.
  apply (H load_fields polygon_layer msInitShape two_features
           (mkLayer [point_feature; square_feature]
                    [point_feature; square_feature] false true)
           point_feature); reflexivity.
Qed.

End FetchExamples.

(** ** Tile chaining *)

Section TileProperties.
Import Geometry Layer.

Variable msOGRGetValues : layerObj -> OGRFeature -> option (list string).
Variable datasets : gmap string OGRLayer.

Local Abbreviation ReadTile := (msOGRFileReadTile datasets false).
Local Abbreviation opens layer f := (msOGRFileOpen datasets (tile_connection layer f)).

(** A FID that fits an [int] is kept by the conversion. *)
Lemma to_int_fits (z : Z) : - 2 ^ 31 <= z < 2 ^ 31 -> to_int z = z.
Proof. intros H. unfold to_int. rewrite Z.mod_small; lia. Qed.

Lemma msOGRFileOpen_Some c t :
  msOGRFileOpen datasets c = Some t ->
  exists d, datasets !! c = Some d /\
    t = mkInfo c (Some (OGR_L_ResetReading d)) None 0 None (mkRect 0 0 0 0) (-1).
Proof.
  unfold msOGRFileOpen. destruct (datasets !! c) as [d|]; [| done].
  intros [= <-]. by exists d.
Qed.

Lemma install_tile_status psInfo f t c :
  msOGRFileOpen datasets c = Some t ->
  (forall d, datasets !! c = Some d -> filter_ok d = true) ->
  exists t', install_tile psInfo f t = (MS_SUCCESS, set_cur_tile (Some t') psInfo)
             /\ nTileId t' = to_int (fid f).
Proof.
  intros (d & Hd & ->)%msOGRFileOpen_Some Hok. unfold install_tile.
  destruct (dne _ _ || dne _ _).
  - unfold msOGRFileWhichShapes. simpl. rewrite (Hok _ Hd). by eexists.
  - by eexists.
Qed.

Lemma next_file_skip layer psInfo lyr f rest :
  opens layer f = None ->
  next_file datasets false layer psInfo lyr (-1) (f :: rest)
  = next_file datasets false layer psInfo lyr (-1) rest.
Proof. intros H. simpl. by rewrite H. Qed.

Lemma next_file_done layer psInfo lyr pend :
  Forall (fun f => opens layer f = None) pend ->
  (next_file datasets false layer psInfo lyr (-1) pend).1 = MS_DONE.
Proof.
  induction 1 as [|f rest Hf _ IH]; [done |].
  by rewrite next_file_skip.
Qed.

Lemma next_file_no_failure layer psInfo lyr pend :
  (forall c d, datasets !! c = Some d -> filter_ok d = true) ->
  (next_file datasets false layer psInfo lyr (-1) pend).1 <> MS_FAILURE.
Proof.
  intros Hok. induction pend as [|f rest IH]; [done |].
  simpl. destruct (opens layer f) as [t|] eqn:Ho; [| exact IH].
  destruct (install_tile_status
              (set_cursor (Some (set_pending rest lyr))
                          (last_record_index_read psInfo) psInfo) f t _ Ho (Hok _))
    as (t' & -> & _).
  done.
Qed.

Lemma install_tile_pending psInfo f t st psInfo' :
  install_tile psInfo f t = (st, psInfo') ->
  index_pending psInfo' = index_pending psInfo.
Proof.
  unfold install_tile. destruct (dne _ _ || dne _ _).
  - destruct (msOGRFileWhichShapes _ _) as [[] ?]; by intros [= <- <-].
  - by intros [= <- <-].
Qed.

Lemma next_file_consumes layer psInfo lyr target pend psInfo' :
  next_file datasets false layer psInfo lyr target pend = (MS_SUCCESS, psInfo') ->
  (length (index_pending psInfo') < length pend)%nat.
Proof.
  revert psInfo'. induction pend as [|f rest IH]; intros psInfo'; simpl.
  - by destruct (target =? -1).
  - destruct (opens layer f) as [t|].
    + intros ->%install_tile_pending. unfold index_pending. simpl. lia.
    + destruct (target =? -1); simpl; [| done]. intros H%IH. lia.
Qed.

Lemma ReadTile_consumes layer psInfo psInfo' :
  ReadTile layer psInfo (-1) = (MS_SUCCESS, psInfo') ->
  (length (index_pending psInfo') < length (index_pending psInfo))%nat.
Proof.
  unfold msOGRFileReadTile, index_pending. simpl.
  destruct (hLayer psInfo) as [lyr|]; [| done].
  apply next_file_consumes.
Qed.

Lemma tiles_loop_total layer fuel shape psInfo :
  (length (index_pending psInfo) < fuel)%nat ->
  is_Some (tiles_loop msOGRGetValues datasets false fuel layer shape psInfo).
Proof.
  revert shape psInfo. induction fuel as [|fuel IH]; intros shape psInfo Hlt; [lia |].
  simpl. destruct (msOGRFileNextShape _ _ _ _) as [[st shape1] tile1].
  destruct (negb (bool_decide (st = MS_DONE))); [done |].
  destruct (ReadTile layer (set_cur_tile tile1 psInfo) (-1)) as [st2 psInfo2] eqn:ER.
  destruct (negb (bool_decide (st2 = MS_SUCCESS))) eqn:E2; [done |].
  apply negb_false_iff, bool_decide_eq_true in E2. subst st2.
  apply IH. apply ReadTile_consumes in ER.
  unfold index_pending in *. simpl in ER. lia.
Qed.

Lemma msOGRLayerNextShape_total layer shape layerinfo :
  is_Some (msOGRLayerNextShape msOGRGetValues datasets false layer shape layerinfo).
Proof.
  unfold msOGRLayerNextShape.
  destruct layerinfo as [psInfo|]; [| done].
  destruct (hLayer psInfo); [| done].
  destruct (tileindex_name layer); [| done].
  destruct (match poCurTile psInfo with
            | Some _ => (MS_SUCCESS, psInfo)
            | None => ReadTile layer psInfo (-1)
            end) as [[] psInfo1]; try done.
  destruct (tiles_loop_total layer (S (length (index_pending psInfo1))) shape psInfo1)
    as [[[st shp] psInfo2] ->]; [lia | done].
Qed.

Lemma next_file_irrel layer psInfo l lyr p target pend :
  next_file datasets false layer
    (set_cursor l (last_record_index_read psInfo) psInfo) (set_pending p lyr) target pend
  = next_file datasets false layer psInfo lyr target pend.
Proof.
  induction pend as [|f rest IH]; simpl.
  - by destruct psInfo, lyr.
  - rewrite IH. by destruct psInfo, lyr.
Qed.

Lemma ReadTile_skip layer info lyr f rest :
  hLayer info = Some lyr ->
  pending lyr = f :: rest ->
  opens layer f = None ->
  ReadTile layer info (-1)
  = ReadTile layer
      (set_cursor (Some (set_pending rest lyr)) (last_record_index_read info) info) (-1).
Proof.
  intros Hl Hp Ho. unfold msOGRFileReadTile. simpl. rewrite Hl, Hp.
  rewrite next_file_skip by done.
  by rewrite <- (next_file_irrel layer (set_cur_tile None info)
                   (Some (set_pending rest lyr)) lyr rest).
Qed.

Lemma ReadTile_opened layer info lyr f rest :
  hLayer info = Some lyr ->
  pending lyr = f :: rest ->
  is_Some (opens layer f) ->
  (forall d, datasets !! tile_connection layer f = Some d -> filter_ok d = true) ->
  exists t info',
    ReadTile layer info (-1) = (MS_SUCCESS, info') /\
    poCurTile info' = Some t /\ nTileId t = to_int (fid f) /\
    hLayer info' = Some (set_pending rest lyr).
Proof.
  intros Hl Hp [t Ho] Hok. unfold msOGRFileReadTile. simpl. rewrite Hl, Hp.
  simpl. rewrite Ho.
  edestruct install_tile_status as (t' & -> & Hid); [exact Ho | exact Hok |].
  by exists t', (set_cur_tile (Some t')
    (set_cursor (Some (set_pending rest lyr)) (last_record_index_read info)
       (set_cur_tile None info))).
Qed.

Lemma ReadTile_done layer info lyr :
  hLayer info = Some lyr ->
  Forall (fun f => opens layer f = None) (pending lyr) ->
  (ReadTile layer info (-1)).1 = MS_DONE.
Proof.
  intros Hl Hall. unfold msOGRFileReadTile. simpl. rewrite Hl. simpl.
  by apply next_file_done.
Qed.

Lemma ReadTile_no_failure layer info :
  (forall c d, datasets !! c = Some d -> filter_ok d = true) ->
  (ReadTile layer info (-1)).1 <> MS_FAILURE.
Proof.
  intros Hok. unfold msOGRFileReadTile. simpl.
  destruct (hLayer info); [| done]. simpl. by apply next_file_no_failure.
Qed.

Lemma ReadTile_target_fails layer info lyr f target :
  hLayer info = Some lyr ->
  0 <= target ->
  OGR_L_GetFeature lyr target = Some f ->
  opens layer f = None ->
  (ReadTile layer info target).1 = MS_FAILURE.
Proof.
  intros Hl Hpos Hf Ho. unfold msOGRFileReadTile. simpl. rewrite Hl.
  destruct (Z.eqb_spec target (-2)); [lia |].
  destruct (Z.ltb_spec target 0); [lia |].
  by rewrite Hf, Ho.
Qed.

Lemma three_record_scenario layer info lyr r1 r2 r3 :
  hLayer info = Some lyr ->
  pending lyr = [r1; r2; r3] ->
  is_Some (opens layer r1) -> opens layer r2 = None -> is_Some (opens layer r3) ->
  (forall d, datasets !! tile_connection layer r1 = Some d -> filter_ok d = true) ->
  (forall d, datasets !! tile_connection layer r3 = Some d -> filter_ok d = true) ->
  advance_all datasets false 4 layer info
  = ([to_int (fid r1); to_int (fid r3)], Some MS_DONE).
Proof.
  intros Hl Hp O1 O2 O3 F1 F3.
  destruct (ReadTile_opened layer info lyr r1 [r2; r3] Hl Hp O1 F1)
    as (t1 & info1 & E1 & Ht1 & Hid1 & Hl1).
  pose proof (ReadTile_skip layer info1 _ r2 [r3] Hl1 eq_refl O2) as E2.
  set (info1' := set_cursor _ _ info1) in E2.
  destruct (ReadTile_opened layer info1' _ r3 [] eq_refl eq_refl O3 F3)
    as (t3 & info3 & E3 & Ht3 & Hid3 & Hl3).
  pose proof (ReadTile_done layer info3 _ Hl3 (Forall_nil_2 _)) as E4.
  cbn [advance_all]. rewrite E1, Ht1, E2, E3, Ht3.
  destruct (ReadTile layer info3 (-1)) as [st4 info4]. simpl in E4. subst st4.
  by rewrite Hid1, Hid3.
Qed.

(** C8.  Sequential advance of the tiled cursor ([targetTile] -1, in a
    build where missing tiles are skipped) over an index record [r] whose
    sub-dataset cannot be opened: the record is skipped, the advance
    being the advance from the next record on; when no pending record
    can be opened the result is the "done" signal; a failed open never
    surfaces as a failure (the only failure left is a tile refusing the
    filter).  An index of three records whose second cannot be opened
    yields the first and the third tile, in that order, then "done"; a
    tile is identified by the FID of its record as an [int].
    When the record is requested by its identity instead, the failed open
    is a failure.  [msOGRLayerNextShape], which drives these advances,
    always returns. *)
Theorem tile_open_failure_skipped_unless_requested (layer : layerObj)
    (info : msOGRFileInfo) (lyr : OGRLayer) (r : OGRFeature)
    (rest : list OGRFeature) :
  hLayer info = Some lyr ->
  pending lyr = r :: rest ->
  opens layer r = None ->
  ReadTile layer info (-1)
  = ReadTile layer
      (set_cursor (Some (set_pending rest lyr)) (last_record_index_read info) info)
      (-1) /\
  (forall info0 lyr0,
     hLayer info0 = Some lyr0 ->
     Forall (fun f => opens layer f = None) (pending lyr0) ->
     (ReadTile layer info0 (-1)).1 = MS_DONE) /\
  (forall info0,
     (forall c d, datasets !! c = Some d -> filter_ok d = true) ->
     (ReadTile layer info0 (-1)).1 <> MS_FAILURE) /\
  (forall info0 lyr0 r1 r3,
     hLayer info0 = Some lyr0 ->
     pending lyr0 = [r1; r; r3] ->
     is_Some (opens layer r1) -> is_Some (opens layer r3) ->
     (forall d, datasets !! tile_connection layer r1 = Some d -> filter_ok d = true) ->
     (forall d, datasets !! tile_connection layer r3 = Some d -> filter_ok d = true) ->
     advance_all datasets false 4 layer info0
     = ([to_int (fid r1); to_int (fid r3)], Some MS_DONE)) /\
  (forall target,
     0 <= target -> OGR_L_GetFeature lyr target = Some r ->
     (ReadTile layer info target).1 = MS_FAILURE) /\
  (forall shape layerinfo,
     is_Some (msOGRLayerNextShape msOGRGetValues datasets false layer shape layerinfo)).
Proof.
  intros Hl Hp Ho. split_and!.
  - by apply (ReadTile_skip layer info lyr r rest).
  - intros info0 lyr0. apply ReadTile_done.
  - intros info0. apply ReadTile_no_failure.
  - intros info0 lyr0 r1 r3 Hl0 Hp0 O1 O3.
    by apply (three_record_scenario layer info0 lyr0 r1 r r3).
  - intros target Hpos Hf. by apply (ReadTile_target_fails layer info lyr r target).
  - apply msOGRLayerNextShape_total.
Qed.

End TileProperties.

Section TileExamples.
Import Geometry Layer.

Lemma tile_open_failure_skipped_unless_requested_witness :
  advance_all tile_sources false 4 tile_layer (tile_index_at three_records)
    = ([1; 3], Some MS_DONE) /\
  (msOGRFileReadTile tile_sources false tile_layer
     (tile_index_at [index_record 2 "tile_b.shp"; index_record 3 "tile_c.shp"]) 2).1
    = MS_FAILURE.
Proof.
  destruct (tile_open_failure_skipped_unless_requested load_fields tile_sources
              tile_layer
              (tile_index_at [index_record 2 "tile_b.shp"; index_record 3 "tile_c.shp"])
              (mkLayer three_records
                 [index_record 2 "tile_b.shp"; index_record 3 "tile_c.shp"] false true)
              (index_record 2 "tile_b.shp") [index_record 3 "tile_c.shp"])
    as (_ & _ & _ & Hscen & Htarget & _).
  - reflexivity.
  - reflexivity.
  - vm_compute. reflexivity.
  - split.
    + apply (Hscen (tile_index_at three_records)
               (mkLayer three_records three_records false true)
               (index_record 1 "tile_a.shp") (index_record 3 "tile_c.shp")).
      * reflexivity.
      * reflexivity.
      * vm_compute. by eexists.
      * vm_compute. by eexists.
      * intros d. vm_compute. by intros [= <-].
      * intros d. vm_compute. by intros [= <-].
    + apply Htarget; [lia | vm_compute; reflexivity].
Defined.

(** The same index read through [msOGRLayerNextShape]: a shape of tile 1,
    then a shape of tile 3 (whose first feature, a point, is skipped),
    then "done". *)
Example layer_next_shape_over_tiles :
  let next := msOGRLayerNextShape load_fields tile_sources false tile_layer in
  let r1 := next msInitShape (Some (tile_index_at three_records)) in
  let r2 := match r1 with Some (_, s, i) => next s i | None => None end in
  let r3 := match r2 with Some (_, s, i) => next s i | None => None end in
  (fun r => match r with Some (st, s, _) => Some (st, tileindex s) | None => None end)
    <$> [r1; r2; r3]
  = [Some (MS_SUCCESS, 1); Some (MS_SUCCESS, 3); Some (MS_DONE, -1)].
Proof. vm_compute. reflexivity. Qed.

End TileExamples.

(** ** Filter translation *)

Section FilterProperties.
Import Filter.

Variable sprintf_lf : double -> string.
Variable CPLEscapeString_SQL : string -> string.
Variable msExpressionTokenToString : token_kind -> string.

Local Abbreviation Translate :=
  (msOGRTranslateMsExpressionToOGRSQL sprintf_lf CPLEscapeString_SQL
     msExpressionTokenToString).

Lemma MS_MAX_max (a b : Z) : MS_MAX a b = Z.max a b.
Proof.
  unfold MS_MAX. simpl. rewrite Z.gtb_ltb.
  destruct (Z.ltb_spec b a); f_equal; lia.
Qed.

Lemma MS_MIN_min (a b : Z) : MS_MIN a b = Z.min a b.
Proof. unfold MS_MIN. simpl. destruct (Z.ltb_spec a b); f_equal; lia. Qed.

Lemma rect_num_inv r :
  rect_num r -> exists x0 y0 x1 y1 : Z, r = mkRect x0 y0 x1 y1.
Proof.
  destruct r as [[x0|] [y0|] [x1|] [y1|]]; intros (? & ? & ? & ?); try done.
  by exists x0, y0, x1, y1.
Qed.

(** On rectangles made of numbers the refinement is the intersection on
    three sides; on the fourth it takes the greater of the two upper y
    bounds. *)
Lemma refine_rect_sides (x0 y0 x1 y1 u0 v0 u1 v1 : Z) :
  refine_rect (mkRect x0 y0 x1 y1) (mkRect u0 v0 u1 v1)
  = mkRect (Z.max x0 u0) (Z.max y0 v0) (Z.min x1 u1) (Z.max y1 v1).
Proof. unfold refine_rect. cbn [minx miny maxx maxy]. by rewrite !MS_MAX_max, MS_MIN_min. Qed.

Lemma refine_rect_is_intersection_iff r b :
  rect_num r -> rect_num b ->
  refine_rect r b = rect_intersection r b <-> maxy r = maxy b.
Proof.
  intros (x0 & y0 & x1 & y1 & ->)%rect_num_inv
         (u0 & v0 & u1 & v1 & ->)%rect_num_inv.
  rewrite refine_rect_sides. unfold rect_intersection. simpl. split.
  - intros [= H]. f_equal. lia.
  - intros [= ->]. repeat f_equal; lia.
Qed.

(** The intersects sequence alone: the rectangle is refined with the
    bounds of the literal shape and nothing is written to the query. *)
Lemma translate_intersects_sequence old r shape :
  Translate old (intersects_sequence shape) r
  = Returned (mkTranslation None (if is_rectangle shape then None else old)
                            (refine_rect r (bounds shape))).
Proof.
  unfold msOGRTranslateMsExpressionToOGRSQL, intersects_sequence. simpl.
  unfold finish, tokenval_shpval.
  cbn [tokenval msSQLExpression sBBOX bIsIntersectRectangle].
  destruct (is_rectangle shape); reflexivity.
Qed.


(** C1.  The rectangle returned is not the intersection in general.  For
    the intersects sequence on the literal rectangle (0,0)-(10,10) and
    the view rectangle (-5,-5)-(5,5) the translation returns the
    rectangle (0,0)-(5,10), whereas the intersection of the two is
    (0,0)-(5,5): line 1488 takes the greater of the two upper y bounds.
    For rectangles made of numbers, the rectangle returned is the
    intersection exactly when the two upper y bounds are equal. *)
Theorem refined_rectangle_widens_maxy :
  (forall old,
     Translate old (intersects_sequence literal_square) view_rect
     = Returned (mkTranslation None None (mkRect 0 0 5 10))) /\
  rect_intersection view_rect (bounds literal_square) = mkRect 0 0 5 5 /\
  (forall old r shape t,
     Translate old (intersects_sequence shape) r = Returned t ->
     rect_num r -> rect_num (bounds shape) ->
     (psRect t = rect_intersection r (bounds shape) <-> maxy r = maxy (bounds shape))).
Proof.
  split_and!.
  - intros old. by rewrite translate_intersects_sequence.
  - reflexivity.
  - intros old r shape t. rewrite translate_intersects_sequence.
    intros [= <-]. apply refine_rect_is_intersection_iff.
Qed.

(** *** Literals met before a field binding *)

Lemma not_starts_with_app (t : token_kind) l lit rest :
  (l <> [] -> ~ starts_with t l) -> token lit <> t ->
  ~ starts_with t (l ++ lit :: rest).
Proof.
  intros Hl Hlit (n & l' & E & Hn). destruct l as [|m l]; simpl in E.
  - by simplify_eq.
  - simplify_eq. apply Hl; [done |]. by exists n, l.
Qed.

Lemma translate_passes old r n l st :
  passes_through (token n) = true ->
  (token n = MS_TOKEN_LOGICAL_AND -> ~ starts_with MS_TOKEN_COMPARISON_INTERSECTS l) ->
  exists st',
    strtmpl st' = strtmpl st /\
    translate sprintf_lf CPLEscapeString_SQL msExpressionTokenToString old r (n :: l) st
    = translate sprintf_lf CPLEscapeString_SQL msExpressionTokenToString old r l st'.
Proof.
  intros Hp Hand.
  set (emit := mkState (msStringConcatenate (msSQLExpression st)
                          (msExpressionTokenToString (token n)))
                       (sBBOX st) (strtmpl st) (bIsIntersectRectangle st)).
  exists emit. split; [done |].
  assert (Hnext : forall m l', l = m :: l' ->
            bool_decide (token n = MS_TOKEN_LOGICAL_AND)
            && bool_decide (token m = MS_TOKEN_COMPARISON_INTERSECTS) = false).
  { intros m l' ->. apply andb_false_iff.
    destruct (decide (token n = MS_TOKEN_LOGICAL_AND)) as [Ha|Ha].
    - right. apply bool_decide_eq_false. intros Hm.
      apply (Hand Ha). by exists m, l'.
    - left. by apply bool_decide_eq_false. }
  cbn [translate]. fold emit.
  destruct (token n) eqn:Et; try discriminate Hp;
    try (destruct l as [|m l']; [done | by rewrite (Hnext m l' eq_refl)]).
  simpl in Hp. apply orb_true_iff in Hp as [->%bool_decide_eq_true | ->%bool_decide_eq_true];
    (destruct l as [|m l']; [done | by rewrite (Hnext m l' eq_refl)]).
Qed.

Lemma expect_ok old r n l want k :
  token n = want -> expect old r (n :: l) want k = k n l.
Proof. intros <-. unfold expect. by rewrite bool_decide_eq_true_2. Qed.

(** The state after a recognised intersects sequence. *)
Lemma translate_at_intersects old r node rest st :
  token node = MS_TOKEN_COMPARISON_INTERSECTS ->
  translate sprintf_lf CPLEscapeString_SQL msExpressionTokenToString old r
            (node :: rest) st
  = expect old r rest LPAREN (fun _ r1 =>
    expect old r r1 MS_TOKEN_BINDING_SHAPE (fun _ r2 =>
    expect old r r2 COMMA (fun _ r3 =>
    expect old r r3 MS_TOKEN_LITERAL_SHAPE (fun n4 r4 =>
    expect old r r4 RPAREN (fun _ r5 =>
    expect old r r5 MS_TOKEN_COMPARISON_EQ (fun _ r6 =>
    expect old r r6 MS_TOKEN_LITERAL_BOOLEAN (fun n7 r7 =>
      if dne (tokenval_dblval n7) MS_TRUE then Returned (cleanup old r)
      else
        let shape := tokenval_shpval n4 in
        let st' :=
          mkState (msSQLExpression st) (Some (bounds shape)) (strtmpl st)
                  (if is_rectangle shape then true else bIsIntersectRectangle st) in
        match r7 with
        | n8 :: r8 =>
            if bool_decide (token n8 = MS_TOKEN_LOGICAL_AND)
            then translate sprintf_lf CPLEscapeString_SQL
                   msExpressionTokenToString old r r8 st'
            else translate sprintf_lf CPLEscapeString_SQL
                   msExpressionTokenToString old r r7 st'
        | [] => translate sprintf_lf CPLEscapeString_SQL
                  msExpressionTokenToString old r r7 st'
        end))))))).
Proof. intros E. cbn [translate]. rewrite E. reflexivity. Qed.

Lemma translate_sequence_tail old r s l st :
  is_intersects_sequence s ->
  exists st',
    strtmpl st' = strtmpl st /\
    translate sprintf_lf CPLEscapeString_SQL msExpressionTokenToString old r (s ++ l) st
    = match l with
      | n8 :: r8 =>
          if bool_decide (token n8 = MS_TOKEN_LOGICAL_AND)
          then translate sprintf_lf CPLEscapeString_SQL
                 msExpressionTokenToString old r r8 st'
          else translate sprintf_lf CPLEscapeString_SQL
                 msExpressionTokenToString old r l st'
      | [] => translate sprintf_lf CPLEscapeString_SQL
                msExpressionTokenToString old r l st'
      end.
Proof.
  intros [Hk Hv].
  destruct s as [|n0 [|n1 [|n2 [|n3 [|n4 [|n5 [|n6 [|n7 [|? ?]]]]]]]]]; try discriminate Hk.
  injection Hk as E0 E1 E2 E3 E4 E5 E6 E7.
  specialize (Hv n7 eq_refl).
  cbn [app]. rewrite (translate_at_intersects _ _ _ _ _ E0).
  rewrite (expect_ok _ _ _ _ _ _ E1), (expect_ok _ _ _ _ _ _ E2),
    (expect_ok _ _ _ _ _ _ E3), (expect_ok _ _ _ _ _ _ E4),
    (expect_ok _ _ _ _ _ _ E5), (expect_ok _ _ _ _ _ _ E6),
    (expect_ok _ _ _ _ _ _ E7).
  rewrite Hv. change (dne MS_TRUE MS_TRUE) with false. cbv iota zeta.
  eexists. split; [| reflexivity]. done.
Qed.

Lemma translate_sequence old r s l st :
  is_intersects_sequence s ->
  ~ starts_with MS_TOKEN_LOGICAL_AND l ->
  exists st',
    strtmpl st' = strtmpl st /\
    translate sprintf_lf CPLEscapeString_SQL msExpressionTokenToString old r (s ++ l) st
    = translate sprintf_lf CPLEscapeString_SQL msExpressionTokenToString old r l st'.
Proof.
  intros Hs Hl.
  destruct (translate_sequence_tail old r s l st Hs) as (st' & Hst' & ->).
  exists st'. split; [done |].
  destruct l as [|m l']; [done |].
  rewrite bool_decide_eq_false_2; [done |].
  intros Hm. apply Hl. by exists m, l'.
Qed.

Lemma translate_sequence_and old r s a l st :
  is_intersects_sequence s ->
  token a = MS_TOKEN_LOGICAL_AND ->
  exists st',
    strtmpl st' = strtmpl st /\
    translate sprintf_lf CPLEscapeString_SQL msExpressionTokenToString old r
              (s ++ a :: l) st
    = translate sprintf_lf CPLEscapeString_SQL msExpressionTokenToString old r l st'.
Proof.
  intros Hs Ha.
  destruct (translate_sequence_tail old r s (a :: l) st Hs) as (st' & Hst' & ->).
  exists st'. split; [done |]. by rewrite bool_decide_eq_true_2.
Qed.

Lemma translate_literal_null old r lit rest st :
  is_rendered_literal (token lit) = true ->
  strtmpl st = None ->
  translate sprintf_lf CPLEscapeString_SQL msExpressionTokenToString old r
            (lit :: rest) st
  = NullDeref "strlen(strtmpl)".
Proof.
  intros Hlit Hs. cbn [translate].
  destruct (token lit); try discriminate Hlit; by rewrite Hs.
Qed.

Lemma walked_then_literal old r pre lit rest st :
  walked_through pre ->
  is_rendered_literal (token lit) = true ->
  strtmpl st = None ->
  translate sprintf_lf CPLEscapeString_SQL msExpressionTokenToString old r
            (pre ++ lit :: rest) st
  = NullDeref "strlen(strtmpl)".
Proof.
  intros Hw Hlit. revert st.
  assert (Hni : token lit <> MS_TOKEN_COMPARISON_INTERSECTS)
    by (intros E; by rewrite E in Hlit).
  assert (Hna : token lit <> MS_TOKEN_LOGICAL_AND)
    by (intros E; by rewrite E in Hlit).
  induction Hw as [|n l Hp Hand Hw IH|s l Hs Hl Hw IH|s a l Hs Ha Hw IH]; intros st Hst.
  - by apply translate_literal_null.
  - cbn [app].
    destruct (translate_passes old r n (l ++ lit :: rest) st Hp) as (st' & Hst' & ->).
    { intros Ha. apply not_starts_with_app; [| done]. intros _. by apply Hand. }
    apply IH. congruence.
  - rewrite <- app_assoc.
    destruct (translate_sequence old r s (l ++ lit :: rest) st Hs) as (st' & Hst' & ->).
    { apply not_starts_with_app; [| done]. by intros _. }
    apply IH. congruence.
  - rewrite <- app_assoc. simpl.
    destruct (translate_sequence_and old r s a (l ++ lit :: rest) st Hs Ha)
      as (st' & Hst' & ->).
    apply IH. congruence.
Qed.

(** C10 (as amended).  [strtmpl] starts null, and a numeric or string
    literal that the translator reaches before any field binding - every
    token before it being a copied-through operator or parenthesis, or
    part of a recognised intersects sequence - makes [strlen(strtmpl)]
    read a null pointer, whatever follows the literal. *)
Theorem literal_reached_before_binding_reads_null old r pre lit rest :
  walked_through pre ->
  is_rendered_literal (token lit) = true ->
  strtmpl initial_state = None /\
  Translate old (pre ++ lit :: rest) r = NullDeref "strlen(strtmpl)".
Proof.
  intros Hw Hlit. split; [done |]. by apply walked_then_literal.
Qed.

End FilterProperties.

Section FilterExamples.
Import Filter.

Local Abbreviation translate_example :=
  (msOGRTranslateMsExpressionToOGRSQL render_number double_quotes token_text).

Lemma literal_reached_before_binding_reads_null_witness :
  translate_example None one_equals_one view_rect = NullDeref "strlen(strtmpl)".
Proof.
  apply (literal_reached_before_binding_reads_null render_number double_quotes
           token_text None view_rect
           [mkToken LPAREN no_value]
           (mkToken MS_TOKEN_LITERAL_NUMBER (dblval 1))
           [mkToken MS_TOKEN_COMPARISON_EQ no_value;
            mkToken MS_TOKEN_LITERAL_NUMBER (dblval 1);
            mkToken RPAREN no_value]).
  - apply walked_pass; [reflexivity | discriminate | apply walked_nil].
  - reflexivity.
Defined.

(** C10, as stated, does not hold of every expression whose first literal
    comes before any field binding: in [(length('abc') = 3)] the function
    token makes the translation give up before the literal is read. *)
Lemma literal_before_binding_not_reached :
  ~ (forall old r pre lit rest,
       Forall (fun n => is_field_binding (token n) = false) pre ->
       is_rendered_literal (token lit) = true ->
       exists e, translate_example old (pre ++ lit :: rest) r = NullDeref e).
Proof.
  intros H.
  destruct (H None view_rect
              [mkToken LPAREN no_value; mkToken (MS_TOKEN_FUNCTION 350) no_value;
               mkToken LPAREN no_value]
              (mkToken MS_TOKEN_LITERAL_STRING (strval "abc"))
              [mkToken RPAREN no_value; mkToken MS_TOKEN_COMPARISON_EQ no_value;
               mkToken MS_TOKEN_LITERAL_NUMBER (dblval 3); mkToken RPAREN no_value])
    as [e He].
  - by repeat constructor.
  - reflexivity.
  - discriminate He.
Qed.

(** Scenario A: the intersects sequence on a closed five-point rectangle,
    ANDed with a string equality, leaves no spatial clause in the query
    and stores it as the native string. *)
Example rectangle_and_equality :
  translate_example None (intersects_sequence literal_square ++ logical_and :: name_is_x)
                    view_rect
  = Returned (mkTranslation (Some "CAST(name AS CHARACTER) = 'x'")
                            (Some "CAST(name AS CHARACTER) = 'x'")
                            (mkRect 0 0 5 10)).
Proof. vm_compute. reflexivity. Qed.

(** With the equality first, the AND that precedes INTERSECTS is consumed
    together with the INTERSECTS token itself, and the shape binding that
    follows makes the translation give up. *)
Example equality_and_rectangle :
  translate_example None (name_is_x ++ logical_and :: intersects_sequence literal_square)
                    view_rect
  = Returned (mkTranslation None None view_rect).
Proof. vm_compute. reflexivity. Qed.

End FilterExamples.

(** ** Style decoding *)

Section StyleProperties.
Import Style.

Variable initStyle : styleObj.
Variable msGetSymbolIndex : string -> bool -> Z.
Variable msStringSplit : string -> list string.

(** *** The trigger of the legacy mode *)

Lemma parts_of_None k parts : parts_of k (None :: parts) = parts_of k parts.
Proof. done. Qed.

Lemma parts_of_Some k t parts :
  parts_of k (Some t :: parts)
  = if decide (st_type t = k) then t :: parts_of k parts else parts_of k parts.
Proof. unfold parts_of. simpl. by rewrite filter_cons. Qed.

Lemma check_parts_spec parts cp cb :
  check_parts parts cp cb = true <->
  cp + Z.of_nat (length (parts_of OGRSTCPen parts)) = 1 /\
  cb + Z.of_nat (length (parts_of OGRSTCBrush parts)) = 1 /\
  (forall t, t ∈ parts_of OGRSTCPen parts ++ parts_of OGRSTCBrush parts ->
             st_priority t = None) /\
  parts_of OGRSTCSymbol parts = [].
Proof.
  revert cp cb. induction parts as [|[t|] parts IH]; intros cp cb.
  - simpl. rewrite andb_true_iff, !Z.eqb_eq, !Z.add_0_r.
    split; [intros [? ?]; split_and!; [done.. | |done] | tauto].
    intros t Ht. by apply not_elem_of_nil in Ht.
  - cbn [check_parts]. rewrite !parts_of_Some.
    destruct (st_type t) eqn:Et; simpl;
      repeat (case_decide; try discriminate); try (by apply IH).
    + (* Pen *)
      destruct (st_priority t) as [p|] eqn:Ep.
      * split; [done |]. intros (_ & _ & H & _).
        specialize (H t (list_elem_of_here _ _)). congruence.
      * rewrite IH. simpl length. rewrite Nat2Z.inj_succ.
        split; intros (H1 & H2 & H3 & H4); split_and!; try done; try lia.
        -- intros t' [->|Ht']%elem_of_cons; [done | by apply H3].
        -- intros t' Ht'. apply H3. by right.
    + (* Brush *)
      destruct (st_priority t) as [p|] eqn:Ep.
      * split; [done |]. intros (_ & _ & H & _).
        assert (Hin : t ∈ parts_of OGRSTCPen parts ++ t :: parts_of OGRSTCBrush parts)
          by (apply elem_of_app; right; left).
        specialize (H t Hin). congruence.
      * rewrite IH. simpl length. rewrite Nat2Z.inj_succ.
        split; intros (H1 & H2 & H3 & H4); split_and!; try done; try lia.
        -- intros t' [Ht'|[->|Ht']%elem_of_cons]%elem_of_app; [| done |];
             apply H3; apply elem_of_app; tauto.
        -- intros t' [Ht'|Ht']%elem_of_app; apply H3; apply elem_of_app;
             [by left | right; by right].
    + (* Symbol *)
      split; [done | by intros (_ & _ & _ & ?)].
  - cbn [check_parts]. rewrite !parts_of_None. apply IH.
Qed.

(** C7.  [msOGRUpdateStyleCheckPenBrushOnly] answers true exactly when
    the decoded parts hold exactly one Pen and exactly one Brush, neither
    Pen nor Brush carries an explicit priority, and there is no Symbol
    part; so a Symbol part, or an explicit priority on a Pen or a Brush,
    disables the legacy mode whatever else the parts are. *)
Theorem legacy_mode_trigger_exact (parts : list (option OGRStyleTool)) :
  (msOGRUpdateStyleCheckPenBrushOnly parts = true <-> legacy_trigger parts) /\
  (forall t, Some t ∈ parts -> st_type t = OGRSTCSymbol ->
             msOGRUpdateStyleCheckPenBrushOnly parts = false) /\
  (forall t p, Some t ∈ parts ->
               st_type t = OGRSTCPen \/ st_type t = OGRSTCBrush ->
               st_priority t = Some p ->
               msOGRUpdateStyleCheckPenBrushOnly parts = false).
Proof.
  assert (Hiff : msOGRUpdateStyleCheckPenBrushOnly parts = true <-> legacy_trigger parts).
  { unfold msOGRUpdateStyleCheckPenBrushOnly, legacy_trigger.
    rewrite check_parts_spec. simpl. split; intros (? & ? & ? & ?); split_and!;
      try done; lia. }
  assert (Hin : forall k t, Some t ∈ parts -> st_type t = k -> t ∈ parts_of k parts).
  { intros k t Ht Hk. unfold parts_of. apply list_elem_of_filter. split; [done |].
    apply list_elem_of_omap. by exists (Some t). }
  split_and!; [done | |].
  - intros t Ht Hs. apply not_true_is_false. rewrite Hiff.
    intros (_ & _ & _ & Hnil). pose proof (Hin _ _ Ht Hs) as H.
    rewrite Hnil in H. by apply not_elem_of_nil in H.
  - intros t p Ht Hk Hp. apply not_true_is_false. rewrite Hiff.
    intros (_ & _ & Hnone & _).
    assert (t ∈ parts_of OGRSTCPen parts ++ parts_of OGRSTCBrush parts) as H.
    { apply elem_of_app. destruct Hk as [Hk|Hk]; [left | right]; by apply Hin. }
    specialize (Hnone t H). congruence.
Qed.


(** *** The sort *)

Lemma sort_fct_lt a b :
  (msOGRUpdateStyleSortFct a b <? 0) = true -> key_le a b.
Proof.
  unfold msOGRUpdateStyleSortFct, key_le.
  destruct (Z.ltb_spec (nPriority a) (nPriority b)); [by left |].
  rewrite Z.gtb_ltb. destruct (Z.ltb_spec (nPriority b) (nPriority a)); [done |].
  destruct (Nat.ltb_spec (nApparitionIndex a) (nApparitionIndex b)); [| done].
  intros _. right. lia.
Qed.

Lemma sort_fct_ge a b :
  (msOGRUpdateStyleSortFct a b <? 0) = false -> key_le b a.
Proof.
  unfold msOGRUpdateStyleSortFct, key_le.
  destruct (Z.ltb_spec (nPriority a) (nPriority b)); [done |].
  rewrite Z.gtb_ltb. destruct (Z.ltb_spec (nPriority b) (nPriority a)); [by left |].
  destruct (Nat.ltb_spec (nApparitionIndex a) (nApparitionIndex b)); [done |].
  intros _. right. lia.
Qed.

Lemma key_le_trans a b c : key_le a b -> key_le b c -> key_le a c.
Proof. unfold key_le. intros [?|[? ?]] [?|[? ?]]; [left; lia.. | right; lia]. Qed.

Lemma qsort_insert_perm x l : qsort_insert x l ≡ₚ x :: l.
Proof.
  induction l as [|y l IH]; simpl; [done |].
  destruct (_ <? 0); [done |]. rewrite IH. apply perm_swap.
Qed.

Lemma qsort_perm l : qsort l ≡ₚ l.
Proof.
  induction l as [|x l IH]; simpl; [done |].
  by rewrite qsort_insert_perm, IH.
Qed.

Lemma qsort_insert_sorted x l :
  StronglySorted key_le l -> StronglySorted key_le (qsort_insert x l).
Proof.
  induction 1 as [|y l Hs IH Hall]; simpl; [by repeat constructor |].
  destruct (msOGRUpdateStyleSortFct x y <? 0) eqn:E.
  - apply sort_fct_lt in E. constructor; [by constructor |].
    constructor; [done |]. eapply Forall_impl; [exact Hall |].
    intros z Hz. by apply key_le_trans with y.
  - apply sort_fct_ge in E. constructor; [done |].
    rewrite qsort_insert_perm. by constructor.
Qed.

Lemma qsort_sorted l : StronglySorted key_le (qsort l).
Proof.
  induction l as [|x l IH]; simpl; [constructor | by apply qsort_insert_sorted].
Qed.

Lemma StronglySorted_lookup {A} (R : A -> A -> Prop) (l : list A) i j a b :
  StronglySorted R l -> (i < j)%nat -> l !! i = Some a -> l !! j = Some b -> R a b.
Proof.
  intros Hs. revert i j. induction Hs as [|x l Hs IH Hall]; intros i j Hij Hi Hj.
  - done.
  - destruct i as [|i], j as [|j]; try lia; simpl in *.
    + simplify_eq. rewrite Forall_forall in Hall. apply Hall.
      by apply list_elem_of_lookup_2 with j.
    + apply (IH i j); [lia | done..].
Qed.

(** An entry whose key is strictly smaller comes first in the sorted
    array. *)
Lemma qsort_precedes l a b :
  a ∈ l -> b ∈ l ->
  key_le a b -> ~ key_le b a ->
  exists i j, (i < j)%nat /\ qsort l !! i = Some a /\ qsort l !! j = Some b.
Proof.
  intros Ha Hb Hab Hba.
  rewrite <- (qsort_perm l) in Ha, Hb.
  apply list_elem_of_lookup in Ha as [i Hi], Hb as [j Hj].
  exists i, j. split_and!; [| done..].
  destruct (Nat.lt_trichotomy i j) as [?|[->|Hji]]; [done | |].
  - simplify_eq. done.
  - exfalso. apply Hba.
    by apply (StronglySorted_lookup key_le (qsort l) j i b a (qsort_sorted l)).
Qed.


(** *** The general mode *)

Local Abbreviation Allocate := (msMaybeAllocateClassStyle initStyle).
Local Abbreviation UpdatePart :=
  (update_part initStyle msGetSymbolIndex msStringSplit).
Local Abbreviation UpdateParts :=
  (update_parts initStyle msGetSymbolIndex msStringSplit).
Local Abbreviation UpdateStyle :=
  (msOGRUpdateStyle initStyle msGetSymbolIndex msStringSplit).
Local Abbreviation Derived :=
  (derived_style initStyle msGetSymbolIndex msStringSplit).
Local Abbreviation Appended :=
  (appended initStyle msGetSymbolIndex msStringSplit).
Local Abbreviation PenStyle := (pen_style msGetSymbolIndex msStringSplit).
Local Abbreviation BrushStyle := (brush_style msGetSymbolIndex msStringSplit).
Local Abbreviation ParseSymbol :=
  (msOGRUpdateStyleParseSymbol msGetSymbolIndex msStringSplit).

Lemma alloc_fresh c :
  Allocate c (length (styles c)) = mkClass (styles c ++ [initStyle]) (labels c).
Proof.
  unfold msMaybeAllocateClassStyle.
  by replace (S (length (styles c)) - length (styles c))%nat with 1%nat by lia.
Qed.

Lemma style_at_fresh l lb x :
  style_at initStyle (mkClass (l ++ [x]) lb) (length l) = x.
Proof.
  unfold style_at. simpl. rewrite app_nth2 by lia. by rewrite Nat.sub_diag.
Qed.

Lemma set_style_fresh l lb x s :
  set_style (mkClass (l ++ [x]) lb) (length l) s = mkClass (l ++ [s]) lb.
Proof.
  unfold set_style. simpl. f_equal.
  rewrite insert_app_r_alt by lia. by rewrite Nat.sub_diag.
Qed.

Lemma discovered_None parts : discovered (None :: parts) = discovered parts.
Proof. done. Qed.

Lemma discovered_Some t parts :
  discovered (Some t :: parts)
  = if takes_slot t then t :: discovered parts else discovered parts.
Proof.
  unfold discovered. simpl. rewrite filter_cons.
  destruct (takes_slot t); by case_decide.
Qed.

Lemma update_part_general lt st t :
  if takes_slot t then
    exists s b,
      Derived lt t s /\
      UpdatePart false lt st t
      = mkUpdate (mkClass (styles (us_class st) ++ [s]) (labels (us_class st))) b
                 (us_sort st ++ [mkSort (sort_priority t) (length (us_sort st))])
  else
    styles (us_class (UpdatePart false lt st t)) = styles (us_class st)
    /\ us_sort (UpdatePart false lt st t) = us_sort st.
Proof.
  unfold takes_slot, update_part, derived_style, sort_priority, pen_index,
    brush_index, memorize.
  destruct (st_type t) eqn:Et; try done;
    rewrite alloc_fresh, style_at_fresh.
  - (* Pen *)
    unfold msOGRUpdateStyleParsePen at 1. rewrite set_style_fresh.
    eexists _, _. split; [| reflexivity]. by exists (us_bIsBrush st).
  - (* Brush *)
    unfold pen_style, brush_style.
    unfold msOGRUpdateStyleParseBrush.
    destruct (is_invisible "ogr-brush-1" t); rewrite set_style_fresh;
      by eexists _, _.
  - (* Symbol *)
    eexists _, _. split; [reflexivity |].
    unfold msOGRUpdateStyleParseSymbol. cbv beta iota zeta.
    by rewrite set_style_fresh.
Qed.

Lemma update_parts_Some b lt t parts st :
  UpdateParts b lt (Some t :: parts) st = UpdateParts b lt parts (UpdatePart b lt st t).
Proof. reflexivity. Qed.

Lemma update_parts_None b lt parts st :
  UpdateParts b lt (None :: parts) st = UpdateParts b lt parts st.
Proof. reflexivity. Qed.

Lemma update_parts_general lt parts st :
  exists news,
    styles (us_class (UpdateParts false lt parts st))
    = styles (us_class st) ++ news /\
    Forall2 (Derived lt) (discovered parts) news /\
    us_sort (UpdateParts false lt parts st)
    = us_sort st
      ++ imap (fun k t => mkSort (sort_priority t) (length (us_sort st) + k))
              (discovered parts).
Proof.
  revert st. induction parts as [|[t|] parts IH]; intros st.
  - exists []. simpl. by rewrite !app_nil_r.
  - rewrite update_parts_Some.
    pose proof (update_part_general lt st t) as Hstep.
    rewrite discovered_Some. destruct (takes_slot t).
    + destruct Hstep as (s & b & Hd & ->).
      destruct (IH (mkUpdate (mkClass (styles (us_class st) ++ [s])
                                      (labels (us_class st))) b
                             (us_sort st ++ [mkSort (sort_priority t)
                                                    (length (us_sort st))])))
        as (news & Hs & Hf & Hq).
      exists (s :: news). split_and!.
      * rewrite Hs. cbn [us_class styles]. by rewrite <- app_assoc.
      * by constructor.
      * rewrite Hq. cbn [us_sort]. rewrite <- app_assoc, imap_cons.
        cbn [app]. rewrite Nat.add_0_r. do 2 f_equal.
        apply imap_ext. intros k t' _. unfold compose. f_equal.
        rewrite length_app. simpl. lia.
    + destruct Hstep as [Hs Hq].
      destruct (IH (UpdatePart false lt st t)) as (news & Hs' & Hf & Hq').
      exists news. by rewrite Hs', Hq', Hs, Hq.
  - rewrite update_parts_None. apply IH.
Qed.


Lemma sort_structs_indices (prio : OGRStyleTool -> Z) (l : list OGRStyleTool) m :
  map nApparitionIndex (imap (fun k t => mkSort (prio t) (m + k)) l)
  = seq m (length l).
Proof.
  revert m. induction l as [|t l IH]; intros m; [done |].
  rewrite imap_cons. simpl. rewrite Nat.add_0_r. f_equal.
  rewrite <- IH. f_equal. apply imap_ext. intros k t' _. simpl. f_equal. lia.
Qed.

Lemma slot_order_perm parts :
  slot_order parts ≡ₚ seq 0 (length (discovered parts)).
Proof.
  unfold slot_order. rewrite qsort_perm.
  by rewrite <- (sort_structs_indices sort_priority (discovered parts) 0).
Qed.

Lemma slot_order_precedes parts ka kb ta tb :
  discovered parts !! ka = Some ta ->
  discovered parts !! kb = Some tb ->
  sort_priority ta < sort_priority tb
    \/ (sort_priority ta = sort_priority tb /\ (ka < kb)%nat) ->
  precedes (slot_order parts) ka kb.
Proof.
  intros Ha Hb Hlt. unfold precedes, slot_order.
  set (structs := imap (fun k t => mkSort (sort_priority t) k) (discovered parts)).
  assert (Hin : forall k t, discovered parts !! k = Some t ->
                            mkSort (sort_priority t) k ∈ structs).
  { intros k t Hk. apply list_elem_of_lookup_2 with k.
    unfold structs. by rewrite list_lookup_imap, Hk. }
  destruct (qsort_precedes structs (mkSort (sort_priority ta) ka)
              (mkSort (sort_priority tb) kb)) as (i & j & Hij & Hi & Hj).
  - by apply Hin.
  - by apply Hin.
  - unfold key_le. simpl. lia.
  - unfold key_le. simpl. lia.
  - exists i, j. by rewrite !list_lookup_fmap, Hi, Hj.
Qed.

Lemma general_mode_final parts lt c :
  msOGRUpdateStyleCheckPenBrushOnly parts = false ->
  (UpdateStyle parts lt c).1 = MS_SUCCESS /\
  styles (UpdateStyle parts lt c).2
  = styles c ++ map (fun k => nth k (Appended parts lt c) initStyle) (slot_order parts) /\
  Forall2 (Derived lt) (discovered parts) (Appended parts lt c).
Proof.
  intros Hgen. unfold msOGRUpdateStyle, appended. rewrite Hgen.
  destruct (update_parts_general lt parts (mkUpdate c false []))
    as (news & Hs & Hf & Hq).
  simpl in Hs, Hq. rewrite Hs, Hq, drop_app_length.
  pose proof (Forall2_length _ _ _ Hf) as Hlen.
  assert (Hmap : forall l : list StyleSortStruct,
            map (fun ss => nth (nApparitionIndex ss) news initStyle) l
            = map (fun k => nth k news initStyle) (map nApparitionIndex l)).
  { intros l. by rewrite map_map. }
  split_and!; [by destruct (_ && _) | | done].
  rewrite andb_true_r. unfold slot_order.
  set (structs := imap (fun k t => mkSort (sort_priority t) k) (discovered parts)).
  assert (Hsl : length (qsort structs) = length news).
  { rewrite (Permutation_length (qsort_perm structs)). unfold structs.
    by rewrite length_imap. }
  destruct (1 <? length structs)%nat eqn:E; simpl.
  - rewrite Hs, take_app_length, drop_app_length, Hsl.
    rewrite firstn_all.
    rewrite (drop_ge (styles c ++ news)) by (rewrite length_app; lia).
    by rewrite app_nil_r, Hmap.
  - rewrite Hs. f_equal. apply Nat.ltb_ge in E.
    unfold structs in *. rewrite length_imap in E.
    destruct (discovered parts) as [|t [|t' l]]; simpl in E; try lia.
    + by destruct news.
    + by destruct news as [|s [|? ?]].
Qed.

(** C6 (as amended).  In general mode the decoder succeeds and the slots
    it adds to the class are the styles of the slot-taking parts, put in
    the order of their sort keys: a part with a smaller priority comes
    before one with a greater priority whatever their discovery order,
    and parts of equal priority keep their discovery order.  A part
    without explicit priority is sorted by the sentinel INT_MIN, which is
    below every explicit priority other than INT_MIN itself (with which
    it ties).  One Brush of priority 3 and one Symbol of priority 1, in
    either discovery order, add exactly two slots, Symbol then Brush. *)
Theorem general_mode_slot_order (parts : list (option OGRStyleTool))
    (lt : MS_LAYER_TYPE) (c : classObj) :
  msOGRUpdateStyleCheckPenBrushOnly parts = false ->
  (UpdateStyle parts lt c).1 = MS_SUCCESS /\
  styles (UpdateStyle parts lt c).2
  = styles c ++ map (fun k => nth k (Appended parts lt c) initStyle) (slot_order parts) /\
  Forall2 (Derived lt) (discovered parts) (Appended parts lt c) /\
  slot_order parts ≡ₚ seq 0 (length (discovered parts)) /\
  (forall ka kb ta tb,
     discovered parts !! ka = Some ta ->
     discovered parts !! kb = Some tb ->
     sort_priority ta < sort_priority tb
       \/ (sort_priority ta = sort_priority tb /\ (ka < kb)%nat) ->
     precedes (slot_order parts) ka kb) /\
  (forall t, st_priority t = None -> sort_priority t = INT_MIN) /\
  (forall t p, st_priority t = Some p -> is_int p ->
     sort_priority t = p /\ INT_MIN <= p /\ (p <> INT_MIN -> INT_MIN < p)) /\
  (forall brush symbol c',
     st_type brush = OGRSTCBrush -> st_priority brush = Some 3 ->
     st_type symbol = OGRSTCSymbol -> st_priority symbol = Some 1 ->
     styles (UpdateStyle [Some brush; Some symbol] lt c').2
     = styles c' ++ [(ParseSymbol initStyle symbol INT_MIN).1;
                     BrushStyle brush initStyle] /\
     styles (UpdateStyle [Some symbol; Some brush] lt c').2
     = styles c' ++ [(ParseSymbol initStyle symbol INT_MIN).1;
                     BrushStyle brush initStyle]).
Proof.
  intros Hgen. destruct (general_mode_final parts lt c Hgen) as (H1 & H2 & H3).
  split_and!; try done.
  - apply slot_order_perm.
  - apply slot_order_precedes.
  - intros t Ht. unfold sort_priority. by rewrite Ht.
  - intros t p Ht [Hlo Hhi]. unfold sort_priority. rewrite Ht. lia.
  - intros brush symbol c' Eb Pb Es Ps.
    assert (Sb : sort_priority brush = 3) by (unfold sort_priority; by rewrite Pb).
    assert (Ss : sort_priority symbol = 1) by (unfold sort_priority; by rewrite Ps).
    assert (Tb : takes_slot brush = true) by (unfold takes_slot; by rewrite Eb).
    assert (Ts : takes_slot symbol = true) by (unfold takes_slot; by rewrite Es).
    split.
    + destruct (general_mode_final [Some brush; Some symbol] lt c') as (_ & -> & Hf).
      { unfold msOGRUpdateStyleCheckPenBrushOnly. simpl. by rewrite Eb, Pb. }
      revert Hf. unfold slot_order.
      rewrite !discovered_Some, Tb, Ts.
      change (discovered []) with (@nil OGRStyleTool).
      intros Hf. apply Forall2_cons_inv_l in Hf as (s1 & l1 & D1 & Hf & ->).
      apply Forall2_cons_inv_l in Hf as (s2 & l2 & D2 & Hf & ->).
      apply Forall2_nil_inv_l in Hf as ->.
      unfold derived_style in D1, D2. rewrite Eb in D1. rewrite Es in D2.
      subst s1 s2. simpl. by rewrite Sb, Ss.
    + destruct (general_mode_final [Some symbol; Some brush] lt c') as (_ & -> & Hf).
      { unfold msOGRUpdateStyleCheckPenBrushOnly. simpl. by rewrite Es. }
      revert Hf. unfold slot_order.
      rewrite !discovered_Some, Tb, Ts.
      change (discovered []) with (@nil OGRStyleTool).
      intros Hf. apply Forall2_cons_inv_l in Hf as (s1 & l1 & D1 & Hf & ->).
      apply Forall2_cons_inv_l in Hf as (s2 & l2 & D2 & Hf & ->).
      apply Forall2_nil_inv_l in Hf as ->.
      unfold derived_style in D1, D2. rewrite Es in D1. rewrite Eb in D2.
      subst s1 s2. simpl. by rewrite Sb, Ss.
Qed.


(** *** The legacy mode *)

Local Abbreviation Write := (write_slot initStyle).

Lemma nth_write c i f k :
  nth k (styles (Write c i f)) initStyle
  = if decide (k = i) then f (nth i (styles c) initStyle)
    else nth k (styles c) initStyle.
Proof.
  unfold write_slot, set_style, style_at, msMaybeAllocateClassStyle. simpl.
  set (l := styles c ++ replicate (S i - length (styles c)) initStyle).
  assert (Hl : (i < length l)%nat).
  { unfold l. rewrite length_app, length_replicate. lia. }
  assert (Hn : forall j, nth j l initStyle = nth j (styles c) initStyle).
  { intros j. unfold l. destruct (Nat.lt_ge_cases j (length (styles c))).
    - by rewrite app_nth1.
    - rewrite app_nth2 by lia. rewrite (nth_overflow (styles c)) by lia.
      destruct (Nat.lt_ge_cases (j - length (styles c))
                  (S i - length (styles c))) as [Hj|Hj].
      + apply nth_lookup_Some with (d := initStyle) (i := (j - length (styles c))%nat)
          (l := replicate (S i - length (styles c)) initStyle).
        by apply lookup_replicate_2.
      + apply nth_overflow. by rewrite length_replicate. }
  case_decide as E.
  - subst k. rewrite <- Hn. apply nth_lookup_Some with (i := i).
    by apply list_lookup_insert_eq.
  - rewrite <- Hn. destruct (Nat.lt_ge_cases k (length l)).
    + destruct (lookup_lt_is_Some_2 l k) as [x Hx]; [done |].
      rewrite (nth_lookup_Some _ _ initStyle _ Hx).
      apply nth_lookup_Some with (i := k).
      by rewrite list_lookup_insert_ne.
    + rewrite !nth_overflow; [done | lia | by rewrite length_insert].
Qed.

Lemma length_write c i f :
  length (styles (Write c i f)) = (S i `max` length (styles c))%nat.
Proof.
  unfold write_slot, set_style, msMaybeAllocateClassStyle. simpl.
  rewrite length_insert, length_app, length_replicate. lia.
Qed.

Lemma update_part_legacy_pen lt st t :
  st_type t = OGRSTCPen ->
  UpdatePart true lt st t
  = mkUpdate
      (Write (us_class st)
         (if us_bIsBrush st || bool_decide (lt = MS_LAYER_POLYGON) then 1 else 0)%nat
         (PenStyle lt (us_bIsBrush st) t))
      (us_bIsBrush st) (us_sort st).
Proof. intros Et. unfold update_part. by rewrite Et. Qed.

Lemma update_part_legacy_brush st lt t :
  st_type t = OGRSTCBrush ->
  UpdatePart true lt st t
  = mkUpdate (Write (us_class st) 0 (BrushStyle t))
             (us_bIsBrush st || brush_visible t) (us_sort st).
Proof.
  intros Et. unfold update_part. rewrite Et.
  unfold brush_index, memorize, write_slot, brush_style, brush_visible,
    msOGRUpdateStyleParseBrush.
  destruct (is_invisible "ogr-brush-1" t); simpl;
    by rewrite ?orb_false_r, ?orb_true_r.
Qed.

Lemma update_part_same lt b st st' t :
  same_styles st st' -> same_styles (UpdatePart b lt st t) (UpdatePart b lt st' t).
Proof.
  destruct st as [[sl lb] bb so], st' as [[sl' lb'] bb' so'].
  intros [Hs Hb]. simpl in Hs, Hb. subst sl' bb'.
  unfold update_part, same_styles.
  destruct (st_type t); try done; unfold msOGRUpdateStyleParseBrush;
    try destruct (is_invisible "ogr-brush-1" t); split; reflexivity.
Qed.

Lemma update_part_no_slot lt b st t :
  takes_slot t = false -> same_styles (UpdatePart b lt st t) st.
Proof.
  unfold takes_slot, update_part, same_styles. by destruct (st_type t).
Qed.

Lemma update_parts_discovered lt b parts st st' :
  same_styles st st' ->
  same_styles (UpdateParts b lt parts st)
              (foldl (UpdatePart b lt) st' (discovered parts)).
Proof.
  revert st st'. induction parts as [|[t|] parts IH]; intros st st' HR.
  - done.
  - rewrite update_parts_Some, discovered_Some.
    destruct (takes_slot t) eqn:Et; cbn [foldl].
    + apply IH. by apply update_part_same.
    + apply IH. destruct (update_part_no_slot lt b st t Et) as [H1 H2].
      destruct HR as [H3 H4]. split; congruence.
  - rewrite update_parts_None. by apply IH.
Qed.

Lemma filter_discovered k (l : list OGRStyleTool) :
  (k = OGRSTCPen \/ k = OGRSTCBrush \/ k = OGRSTCSymbol) ->
  filter (fun t => st_type t = k) (filter (fun t => takes_slot t = true) l)
  = filter (fun t => st_type t = k) l.
Proof.
  intros Hk. induction l as [|t l IH]; [done |].
  rewrite (filter_cons (fun t => takes_slot t = true)). case_decide as Ht.
  - rewrite !filter_cons. by rewrite IH.
  - rewrite IH, filter_cons. case_decide as Ek; [| done].
    exfalso. apply Ht. unfold takes_slot. rewrite Ek.
    by destruct Hk as [->|[->| ->]].
Qed.

Lemma two_tools (l : list OGRStyleTool) :
  Forall (fun t => takes_slot t = true) l ->
  length (filter (fun t => st_type t = OGRSTCPen) l) = 1%nat ->
  length (filter (fun t => st_type t = OGRSTCBrush) l) = 1%nat ->
  filter (fun t => st_type t = OGRSTCSymbol) l = [] ->
  exists pen brush,
    st_type pen = OGRSTCPen /\ st_type brush = OGRSTCBrush /\
    (l = [brush; pen] \/ l = [pen; brush]).
Proof.
  intros Hall Hp Hb Hs.
  assert (Hkind : forall t, t ∈ l -> st_type t = OGRSTCPen \/ st_type t = OGRSTCBrush).
  { intros t Ht. rewrite Forall_forall in Hall. specialize (Hall t Ht).
    unfold takes_slot in Hall. destruct (st_type t) eqn:Et; try done; [by left | by right |].
    exfalso. assert (t ∈ filter (fun t => st_type t = OGRSTCSymbol) l) as Hin
      by (by apply list_elem_of_filter).
    rewrite Hs in Hin. by apply not_elem_of_nil in Hin. }
  destruct l as [|x [|y [|z l]]].
  - done.
  - destruct (Hkind x (list_elem_of_here _ _)) as [Ex|Ex];
      rewrite !filter_cons, Ex in Hp, Hb; repeat case_decide; simpl in *; done.
  - destruct (Hkind x (list_elem_of_here _ _)) as [Ex|Ex],
             (Hkind y (list_elem_of_further _ _ _ (list_elem_of_here _ _))) as [Ey|Ey];
      rewrite !filter_cons, Ex, Ey in Hp, Hb; repeat case_decide; simpl in *;
      try done.
    + exists x, y. split_and!; try done. by right.
    + exists y, x. split_and!; try done. by left.
  - exfalso.
    destruct (Hkind x (list_elem_of_here _ _)) as [Ex|Ex],
             (Hkind y (list_elem_of_further _ _ _ (list_elem_of_here _ _))) as [Ey|Ey],
             (Hkind z (list_elem_of_further _ _ _
                         (list_elem_of_further _ _ _ (list_elem_of_here _ _)))) as [Ez|Ez];
      rewrite !filter_cons, Ex, Ey, Ez in Hp, Hb; repeat case_decide; simpl in *;
      try done; lia.
Qed.

Lemma legacy_two_tools parts :
  msOGRUpdateStyleCheckPenBrushOnly parts = true ->
  exists pen brush,
    st_type pen = OGRSTCPen /\ st_type brush = OGRSTCBrush /\
    (discovered parts = [brush; pen] \/ discovered parts = [pen; brush]).
Proof.
  unfold msOGRUpdateStyleCheckPenBrushOnly. rewrite check_parts_spec.
  intros (Hp & Hb & _ & Hs). unfold parts_of in *.
  apply two_tools.
  - unfold discovered. apply Forall_forall. intros t Ht.
    by apply list_elem_of_filter in Ht as [? _].
  - unfold discovered. rewrite filter_discovered by tauto. lia.
  - unfold discovered. rewrite filter_discovered by tauto. lia.
  - unfold discovered. by rewrite filter_discovered by tauto.
Qed.

Lemma legacy_mode_styles parts lt c :
  msOGRUpdateStyleCheckPenBrushOnly parts = true ->
  (UpdateStyle parts lt c).1 = MS_SUCCESS /\
  styles (UpdateStyle parts lt c).2
  = styles (us_class (foldl (UpdatePart true lt) (mkUpdate c false [])
                            (discovered parts))).
Proof.
  intros Hleg. unfold msOGRUpdateStyle. rewrite Hleg, andb_false_r.
  split; [done |]. cbn [snd].
  by destruct (update_parts_discovered lt true parts (mkUpdate c false [])
                 (mkUpdate c false [])) as [-> _].
Qed.

(** The two discovery orders. *)
Lemma legacy_brush_then_pen lt c brush pen :
  st_type brush = OGRSTCBrush -> st_type pen = OGRSTCPen ->
  us_class (foldl (UpdatePart true lt) (mkUpdate c false []) [brush; pen])
  = Write (Write c 0 (BrushStyle brush))
          (if brush_visible brush || bool_decide (lt = MS_LAYER_POLYGON)
           then 1 else 0)%nat
          (PenStyle lt (brush_visible brush) pen).
Proof.
  intros Eb Ep. cbn [foldl].
  by rewrite (update_part_legacy_brush _ lt brush Eb), update_part_legacy_pen.
Qed.

Lemma legacy_pen_then_brush lt c brush pen :
  st_type brush = OGRSTCBrush -> st_type pen = OGRSTCPen ->
  us_class (foldl (UpdatePart true lt) (mkUpdate c false []) [pen; brush])
  = Write (Write c (if bool_decide (lt = MS_LAYER_POLYGON) then 1 else 0)%nat
                 (PenStyle lt false pen))
          0 (BrushStyle brush).
Proof.
  intros Eb Ep. cbn [foldl].
  by rewrite (update_part_legacy_pen lt _ pen Ep), update_part_legacy_brush.
Qed.

(** C2 (as amended).  In the legacy mode the slot-taking parts are one
    Pen and one Brush, the decoder succeeds, and the Brush always writes
    slot 0.  The Pen writes slot 1 when the layer is a polygon layer or a
    visible Brush was met before it: then slot 0 holds the brush-derived
    style, slot 1 the pen-derived style, and the class has at least two
    styles.  Otherwise the Pen writes slot 0 as well, the part discovered
    second writing over the style the first one left there, and no slot 1
    is made. *)
Theorem legacy_two_slot_layout (parts : list (option OGRStyleTool))
    (lt : MS_LAYER_TYPE) (c : classObj) :
  msOGRUpdateStyleCheckPenBrushOnly parts = true ->
  exists pen brush,
    st_type pen = OGRSTCPen /\ st_type brush = OGRSTCBrush /\
    (discovered parts = [brush; pen] \/ discovered parts = [pen; brush]) /\
    (UpdateStyle parts lt c).1 = MS_SUCCESS /\
    let out := styles (UpdateStyle parts lt c).2 in
    let s0 := nth 0 (styles c) initStyle in
    let s1 := nth 1 (styles c) initStyle in
    (discovered parts = [brush; pen] ->
       if brush_visible brush || bool_decide (lt = MS_LAYER_POLYGON)
       then nth 0 out initStyle = BrushStyle brush s0 /\
            nth 1 out initStyle = PenStyle lt (brush_visible brush) pen s1 /\
            length out = (2 `max` length (styles c))%nat
       else nth 0 out initStyle = PenStyle lt false pen (BrushStyle brush s0) /\
            nth 1 out initStyle = s1 /\
            length out = (1 `max` length (styles c))%nat) /\
    (discovered parts = [pen; brush] ->
       if bool_decide (lt = MS_LAYER_POLYGON)
       then nth 0 out initStyle = BrushStyle brush s0 /\
            nth 1 out initStyle = PenStyle lt false pen s1 /\
            length out = (2 `max` length (styles c))%nat
       else nth 0 out initStyle = BrushStyle brush (PenStyle lt false pen s0) /\
            nth 1 out initStyle = s1 /\
            length out = (1 `max` length (styles c))%nat).
Proof.
  intros Hleg.
  destruct (legacy_two_tools parts Hleg) as (pen & brush & Ep & Eb & Hd).
  destruct (legacy_mode_styles parts lt c Hleg) as [Hok Hst].
  exists pen, brush. split_and!; try done.
  cbv zeta. split.
  - intros Ho. rewrite Hst, Ho, (legacy_brush_then_pen lt c brush pen Eb Ep).
    destruct (brush_visible brush || bool_decide (lt = MS_LAYER_POLYGON)) eqn:E.
    + rewrite !nth_write, length_write, length_write. simpl. split_and!; [done.. | lia].
    + apply orb_false_elim in E as [-> _].
      rewrite !nth_write, length_write, length_write. simpl. split_and!; [done.. | lia].
  - intros Ho. rewrite Hst, Ho, (legacy_pen_then_brush lt c brush pen Eb Ep).
    destruct (bool_decide (lt = MS_LAYER_POLYGON)).
    + rewrite !nth_write, length_write, length_write. simpl. split_and!; [done.. | lia].
    + rewrite !nth_write, length_write, length_write. simpl. split_and!; [done.. | lia].
Qed.

End StyleProperties.

Section StyleExamples.
Import Style.

Local Abbreviation update_example := (msOGRUpdateStyle plain_style no_symbols one_name).

Lemma legacy_two_slot_layout_witness :
  exists pen brush,
    discovered [Some red_brush; Some black_pen] = [brush; pen] /\
    nth 0 (styles (update_example [Some red_brush; Some black_pen] MS_LAYER_LINE
                                  reset_class).2) plain_style
    = brush_style no_symbols one_name brush plain_style /\
    nth 1 (styles (update_example [Some red_brush; Some black_pen] MS_LAYER_LINE
                                  reset_class).2) plain_style
    = pen_style no_symbols one_name MS_LAYER_LINE true pen plain_style.
Proof.
  destruct (legacy_two_slot_layout plain_style no_symbols one_name
              [Some red_brush; Some black_pen] MS_LAYER_LINE reset_class eq_refl)
    as (pen & brush & Ep & Eb & [Hd|Hd] & _ & Hbp & _).
  - exists pen, brush. split; [exact Hd |].
    injection Hd as <- <-. destruct (Hbp eq_refl) as (H0 & H1 & _).
    split; [exact H0 | exact H1].
  - injection Hd as <- <-. discriminate Ep.
Defined.

(** C2, as stated, does not hold of every part order and layer type: a
    Pen met before the Brush on a line layer is written to slot 0, and
    the class is left with its one style. *)
Lemma legacy_pen_first_on_line_layer :
  ~ (forall parts lt c pen brush,
       msOGRUpdateStyleCheckPenBrushOnly parts = true ->
       Some pen ∈ parts -> st_type pen = OGRSTCPen ->
       Some brush ∈ parts -> st_type brush = OGRSTCBrush ->
       exists b s0 s1,
         styles (update_example parts lt c).2 !! 0%nat
         = Some (brush_style no_symbols one_name brush s0) /\
         styles (update_example parts lt c).2 !! 1%nat
         = Some (pen_style no_symbols one_name lt b pen s1)).
Proof.
  intros H.
  destruct (H [Some black_pen; Some red_brush] MS_LAYER_LINE reset_class
              black_pen red_brush) as (b & s0 & s1 & _ & H1).
  - reflexivity.
  - apply list_elem_of_here.
  - reflexivity.
  - apply list_elem_of_further, list_elem_of_here.
  - reflexivity.
  - vm_compute in H1. discriminate H1.
Qed.

Lemma general_mode_slot_order_witness :
  styles (update_example [Some brush_priority_3; Some symbol_priority_1]
                         MS_LAYER_POLYGON empty_class).2
  = [(msOGRUpdateStyleParseSymbol no_symbols one_name plain_style
        symbol_priority_1 INT_MIN).1;
     brush_style no_symbols one_name brush_priority_3 plain_style].
Proof.
  destruct (general_mode_slot_order plain_style no_symbols one_name
              [Some brush_priority_3; Some symbol_priority_1] MS_LAYER_POLYGON
              empty_class eq_refl) as (_ & _ & _ & _ & _ & _ & _ & Hscenario).
  exact (proj1 (Hscenario brush_priority_3 symbol_priority_1 empty_class
                  eq_refl eq_refl eq_refl eq_refl)).
Defined.

(** C6, as stated, does not hold of a part whose explicit priority is
    INT_MIN: the sentinel of a part without priority is not below it, so
    the two keep their discovery order. *)
Lemma sentinel_ties_with_lowest_priority :
  ~ (forall parts ka kb ta tb p,
       msOGRUpdateStyleCheckPenBrushOnly parts = false ->
       discovered parts !! ka = Some ta -> st_priority ta = None ->
       discovered parts !! kb = Some tb -> st_priority tb = Some p -> is_int p ->
       precedes (slot_order parts) ka kb).
Proof.
  intros H.
  destruct (H [Some symbol_lowest; Some black_pen] 1%nat 0%nat black_pen
              symbol_lowest INT_MIN)
    as (i & j & Hij & Hi & Hj); try reflexivity.
  - unfold is_int, INT_MIN, INT_MAX. lia.
  - destruct i as [|[|i]], j as [|[|j]]; try lia; vm_compute in Hi, Hj; discriminate.
Qed.

End StyleExamples.

(** ** Further properties of geometry conversion *)

Section LineExtraction.
Import Geometry Wkt.

Lemma lines_visited_long g : Forall (fun l : lineObj => (2 <= length l)%nat) (lines_visited g).
Proof.
  induction g as [t pts subs IH] using OGRGeometry_ind'. simpl.
  assert (Hc : Forall (fun l : lineObj => (2 <= length l)%nat)
                      (concat (map lines_visited subs))).
  { apply Forall_concat, Forall_fmap. by apply (Forall_impl _ _ _ IH). }
  destruct (wkbFlatten t); try done.
  destruct (Z.ltb_spec (Z.of_nat (length pts)) 2); [done |].
  constructor; [lia | done].
Qed.

Lemma visit_members_lines c (subs : list OGRGeometry) :
  Forall (fun m => forall shp, lines_supported m = true ->
            line (ogrGeomLine m shp c).2
            = line shp ++ map (close_ring c) (lines_visited m)) subs ->
  forallb lines_supported subs = true ->
  forall shp,
    line (visit_members (fun m s => ogrGeomLine m s c) subs shp).2
    = line shp ++ map (close_ring c) (concat (map lines_visited subs)).
Proof.
  induction 1 as [|m l Hm Hl IH]; intros Hs shp; simpl.
  - by rewrite app_nil_r.
  - simpl in Hs. apply andb_true_iff in Hs as [Hs1 Hs2].
    pose proof (ogrGeomLine_status m shp c) as Hst. rewrite Hs1 in Hst.
    specialize (Hm shp Hs1).
    destruct (ogrGeomLine m shp c) as [r shp1]. simpl in *. subst r. simpl.
    by rewrite (IH Hs2 shp1), Hm, map_app, app_assoc.
Qed.

Lemma ogrGeomLine_lines c g shp :
  lines_supported g = true ->
  line (ogrGeomLine g shp c).2 = line shp ++ map (close_ring c) (lines_visited g).
Proof.
  revert shp. induction g as [t pts subs IH] using OGRGeometry_ind'. intros shp Hsup.
  simpl in Hsup |- *.
  destruct (wkbFlatten t) eqn:Et; try discriminate Hsup; simpl;
    rewrite ?app_nil_r; try done;
    try (rewrite (visit_members_lines c subs IH Hsup); by repeat case_decide).
  unfold ogrGeomLine_linestring.
  destruct (_ <? 2); simpl; [by rewrite app_nil_r |]. by case_decide.
Qed.

Lemma close_ring_true_closed (l : lineObj) :
  (2 <= length l)%nat -> ring_closed (close_ring true l).
Proof.
  intros Hl. destruct l as [|p0 l']; [simpl in Hl; lia |].
  destruct (decide (last (p0 :: l') = head (p0 :: l'))) as [E|E];
    [destruct (decide (point_num p0)) as [Hn|Hn] |].
  - rewrite (close_ring_closed (p0 :: l') p0 eq_refl E Hn). by split.
  - rewrite (close_ring_open (p0 :: l') p0 eq_refl (or_intror Hn)). split.
    + rewrite length_app. simpl. lia.
    + by rewrite last_snoc.
  - rewrite (close_ring_open (p0 :: l') p0 eq_refl (or_introl E)). split.
    + rewrite length_app. simpl. lia.
    + by rewrite last_snoc.
Qed.

(** X1.  Line extraction only appends: on a geometry it accepts,
    [ogrGeomLine] returns 0, keeps the lines the shape had, and adds one
    line for each linestring of at least two points, in traversal order
    (closed when rings are to be closed); linestrings of fewer than two
    points and point members add nothing, so no line it adds has fewer
    than two points. *)
Theorem line_extraction_appends (g : OGRGeometry) (shp : shapeObj) (c : bool) :
  lines_supported g = true ->
  (ogrGeomLine g shp c).1 = 0 /\
  line (ogrGeomLine g shp c).2 = line shp ++ map (close_ring c) (lines_visited g) /\
  Forall (fun l : lineObj => (2 <= length l)%nat)
         (map (close_ring c) (lines_visited g)).
Proof.
  intros Hsup. split_and!.
  - by rewrite ogrGeomLine_status, Hsup.
  - by apply ogrGeomLine_lines.
  - apply Forall_fmap. eapply Forall_impl; [apply lines_visited_long |].
    intros l Hl. simpl in Hl |- *. unfold close_ring.
    destruct (_ && _); [rewrite length_app; simpl; lia | lia].
Qed.

Lemma line_extraction_appends_witness :
  line (ogrGeomLine
          (Geom wkbMultiLineString []
             [Geom wkbLineString [mkPoint 0 0; mkPoint 1 1] [];
              Geom wkbLineString [mkPoint 5 5] [];
              Geom wkbPoint [mkPoint 2 2] []])
          msInitShape false).2
  = [[mkPoint 0 0; mkPoint 1 1]].
Proof.
  apply (line_extraction_appends
           (Geom wkbMultiLineString []
              [Geom wkbLineString [mkPoint 0 0; mkPoint 1 1] [];
               Geom wkbLineString [mkPoint 5 5] [];
               Geom wkbPoint [mkPoint 2 2] []]) msInitShape false).
  reflexivity.
Defined.

(** X2.  Every ring of a shape converted for a polygon layer is closed:
    when the conversion succeeds and the rings the shape already had are
    closed, every ring of the result has at least two points and ends on
    its first point. *)
Theorem polygon_rings_closed (g : OGRGeometry) (shp : shapeObj) :
  (ogrConvertGeometry (Some g) shp MS_LAYER_POLYGON).1 = MS_SUCCESS ->
  Forall ring_closed (line shp) ->
  Forall ring_closed (line (ogrConvertGeometry (Some g) shp MS_LAYER_POLYGON).2).
Proof.
  intros Hok Hold. simpl in Hok |- *.
  pose proof (ogrGeomLine_status g shp true) as Hst.
  pose proof (ogrGeomLine_lines true g shp) as Hl.
  destruct (ogrGeomLine g shp true) as [r shp1]. simpl in *.
  destruct (lines_supported g); [| subst r; discriminate Hok].
  assert (Hline : line (if negb (bool_decide (type shp1 = MS_SHAPE_POLYGON))
                        then set_type MS_SHAPE_NULL shp1 else shp1) = line shp1)
    by (by destruct (negb _)).
  rewrite Hline, (Hl eq_refl). apply Forall_app. split; [done |].
  apply Forall_fmap. eapply Forall_impl; [apply lines_visited_long |].
  intros l Hlen. by apply close_ring_true_closed.
Qed.

Lemma polygon_rings_closed_witness :
  Forall ring_closed
    (line (ogrConvertGeometry
             (Some (Geom wkbPolygon []
                      [Geom wkbLineString [mkPoint 0 0; mkPoint 4 0; mkPoint 4 3] []]))
             msInitShape MS_LAYER_POLYGON).2).
Proof.
  apply (polygon_rings_closed
           (Geom wkbPolygon []
              [Geom wkbLineString [mkPoint 0 0; mkPoint 4 0; mkPoint 4 3] []])
           msInitShape).
  - reflexivity.
  - constructor.
Defined.

End LineExtraction.

Section ShapeType.
Import Geometry Wkt.

Lemma convert_point g shp :
  ogrConvertGeometry (Some g) shp MS_LAYER_POINT
  = (if (ogrGeomPoints g shp).1 =? -1 then MS_FAILURE else MS_SUCCESS,
     (ogrGeomPoints g shp).2).
Proof. simpl. by destruct (ogrGeomPoints g shp). Qed.

Lemma convert_line g shp :
  ogrConvertGeometry (Some g) shp MS_LAYER_LINE
  = (if (ogrGeomLine g shp false).1 =? -1 then MS_FAILURE else MS_SUCCESS,
     let s := (ogrGeomLine g shp false).2 in
     if negb (bool_decide (type s = MS_SHAPE_LINE))
        && negb (bool_decide (type s = MS_SHAPE_POLYGON))
     then set_type MS_SHAPE_NULL s else s).
Proof. simpl. by destruct (ogrGeomLine g shp false). Qed.

Lemma convert_polygon g shp :
  ogrConvertGeometry (Some g) shp MS_LAYER_POLYGON
  = (if (ogrGeomLine g shp true).1 =? -1 then MS_FAILURE else MS_SUCCESS,
     let s := (ogrGeomLine g shp true).2 in
     if negb (bool_decide (type s = MS_SHAPE_POLYGON))
     then set_type MS_SHAPE_NULL s else s).
Proof. simpl. by destruct (ogrGeomLine g shp true). Qed.

Lemma visit_members_type c (subs : list OGRGeometry) :
  Forall (fun m => forall shp, type shp <> MS_SHAPE_NULL ->
            type (ogrGeomLine m shp c).2 = type shp) subs ->
  forall shp, type shp <> MS_SHAPE_NULL ->
    type (visit_members (fun m s => ogrGeomLine m s c) subs shp).2 = type shp.
Proof.
  induction 1 as [|m l Hm Hl IH]; intros shp Hne; simpl; [done |].
  specialize (Hm shp Hne). destruct (ogrGeomLine m shp c) as [r shp1]. simpl in Hm.
  destruct (r =? -1); simpl; [done |].
  rewrite IH; [done | congruence].
Qed.

Lemma ogrGeomLine_type c g shp :
  type shp <> MS_SHAPE_NULL -> type (ogrGeomLine g shp c).2 = type shp.
Proof.
  revert shp. induction g as [t pts subs IH] using OGRGeometry_ind'. intros shp Hne.
  simpl. destruct (wkbFlatten t) eqn:Et; try done;
    try (rewrite (visit_members_type c subs IH); by repeat case_decide).
  unfold ogrGeomLine_linestring. destruct (_ <? 2); [done |]. by case_decide.
Qed.

(** X3.  Line extraction sets the shape type once: a shape that has a
    type keeps it whatever geometry is visited.  So in a collection the
    first member that gives a type decides: when the first member is a
    linestring of at least two points the shape is a Line shape whatever
    follows, and a polygon layer finds it incompatible. *)
Theorem shape_type_set_once (g : OGRGeometry) (shp : shapeObj) (c : bool) :
  (type shp <> MS_SHAPE_NULL -> type (ogrGeomLine g shp c).2 = type shp) /\
  (forall t pts t1 pts1 subs1 rest,
     g = Geom t pts (Geom t1 pts1 subs1 :: rest) ->
     wkbFlatten t = wkbGeometryCollection ->
     wkbFlatten t1 = wkbLineString -> (2 <= length pts1)%nat ->
     type shp = MS_SHAPE_NULL ->
     type (ogrGeomLine g shp c).2 = MS_SHAPE_LINE /\
     type (ogrConvertGeometry (Some g) shp MS_LAYER_POLYGON).2 = MS_SHAPE_NULL).
Proof.
  split; [apply ogrGeomLine_type |].
  intros t pts t1 pts1 subs1 rest -> Et Et1 Hlen Hnull.
  assert (Hline : forall b,
            type (ogrGeomLine (Geom t pts (Geom t1 pts1 subs1 :: rest)) shp b).2
            = MS_SHAPE_LINE).
  { intros b. cbn [ogrGeomLine]. rewrite Et.
    destruct (decide (wkbGeometryCollection = wkbPolygon)) as [|_]; [done |].
    cbn [visit_members]. fold (ogrGeomLine (Geom t1 pts1 subs1) shp b).
    rewrite (ogrGeomLine_linestring_eq t1 pts1 subs1 shp b Et1).
    unfold ogrGeomLine_linestring.
    destruct (Z.ltb_spec (Z.of_nat (length pts1)) 2); [lia |].
    destruct (decide (type shp = MS_SHAPE_NULL)); [| done].
    cbn [Z.eqb]. assert (Hv := visit_members_type b rest).
    rewrite Hv; [done | | done].
    apply Forall_forall. intros m _ s. apply ogrGeomLine_type. }
  split; [apply Hline |].
  rewrite convert_polygon. cbn [snd]. cbv zeta. rewrite (Hline true). done.
Qed.

Lemma shape_type_set_once_witness :
  type (ogrConvertGeometry
          (Some (Geom wkbGeometryCollection []
                   [Geom wkbLineString [mkPoint 0 0; mkPoint 1 1] [];
                    Geom wkbPolygon []
                      [Geom wkbLineString [mkPoint 0 0; mkPoint 4 0; mkPoint 4 3] []]]))
          msInitShape MS_LAYER_POLYGON).2
  = MS_SHAPE_NULL.
Proof.
  destruct (shape_type_set_once
              (Geom wkbGeometryCollection []
                 [Geom wkbLineString [mkPoint 0 0; mkPoint 1 1] [];
                  Geom wkbPolygon []
                    [Geom wkbLineString [mkPoint 0 0; mkPoint 4 0; mkPoint 4 3] []]])
              msInitShape true) as [_ H].
  apply (H wkbGeometryCollection [] wkbLineString [mkPoint 0 0; mkPoint 1 1] []
           [Geom wkbPolygon []
              [Geom wkbLineString [mkPoint 0 0; mkPoint 4 0; mkPoint 4 3] []]]);
    [reflexivity | reflexivity | reflexivity | simpl; lia | reflexivity].
Defined.

Lemma visit_members_point_type (subs : list OGRGeometry) :
  Forall (fun m => forall shp, (ogrGeomPoints m shp).2 = shp
                               \/ type (ogrGeomPoints m shp).2 = MS_SHAPE_POINT) subs ->
  forall shp, (visit_members ogrGeomPoints subs shp).2 = shp
              \/ type (visit_members ogrGeomPoints subs shp).2 = MS_SHAPE_POINT.
Proof.
  induction 1 as [|m l Hm Hl IH]; intros shp; simpl; [by left |].
  specialize (Hm shp). destruct (ogrGeomPoints m shp) as [r shp1]. simpl in Hm.
  destruct (r =? -1); simpl; [done |].
  destruct (IH shp1) as [E|E]; [rewrite E; exact Hm | by right].
Qed.

Lemma ogrGeomPoints_leaf_type pl shp :
  type (ogrGeomPoints_leaf pl shp) = MS_SHAPE_POINT.
Proof. unfold ogrGeomPoints_leaf. by destruct (add_points _ _ _). Qed.

Lemma ogrGeomPoints_type g shp :
  (ogrGeomPoints g shp).2 = shp \/ type (ogrGeomPoints g shp).2 = MS_SHAPE_POINT.
Proof.
  revert shp. induction g as [t pts subs IH] using OGRGeometry_ind'. intros shp.
  simpl. destruct (wkbFlatten t); try (by left);
    try (right; apply ogrGeomPoints_leaf_type);
    by apply visit_members_point_type.
Qed.

(** X4.  Point extraction gathers every point in one line: from a shape
    without lines and a geometry it accepts, [ogrGeomPoints] returns 0,
    the shape has at most one line, that line holds the points of every
    leaf in traversal order, and the shape is either untouched (no leaf
    was met) or of type Point. *)
Theorem point_extraction_single_line (g : OGRGeometry) (shp : shapeObj) :
  points_supported g = true ->
  line shp = [] ->
  (ogrGeomPoints g shp).1 = 0 /\
  (length (line (ogrGeomPoints g shp).2) <= 1)%nat /\
  concat (line (ogrGeomPoints g shp).2) = points_visited g /\
  ((ogrGeomPoints g shp).2 = shp \/ type (ogrGeomPoints g shp).2 = MS_SHAPE_POINT).
Proof.
  intros Hsup Hfresh.
  destruct (ogrGeomPoints_spec g Hsup) as [_ Hspec].
  destruct (Hspec shp) as (Hinv & Hpts & _).
  { unfold points_inv. rewrite Hfresh. simpl. lia. }
  split_and!.
  - by rewrite ogrGeomPoints_status, Hsup.
  - exact Hinv.
  - unfold all_points in Hpts. by rewrite Hpts, Hfresh.
  - apply ogrGeomPoints_type.
Qed.

Lemma point_extraction_single_line_witness :
  concat (line (ogrGeomPoints
                  (Geom wkbPolygon []
                     [Geom wkbLineString [mkPoint 0 0; mkPoint 4 0; mkPoint 4 3] []])
                  msInitShape).2)
  = [mkPoint 0 0; mkPoint 4 0; mkPoint 4 3].
Proof.
  apply (point_extraction_single_line
           (Geom wkbPolygon []
              [Geom wkbLineString [mkPoint 0 0; mkPoint 4 0; mkPoint 4 3] []])
           msInitShape); reflexivity.
Defined.

End ShapeType.

(** ** Shapes from and to OGR geometries *)

Section GeometryToShape.
Import Geometry Wkt.

(** X5.  [msOGRGeometryToShape] succeeds exactly when the type code is
    one of the six 2D codes it knows and the geometry has only subtypes
    the traversal of that code accepts.  A null geometry or shape fails,
    and a type code it does not know - [wkbUnknown], a 25D code, a
    collection - fails and leaves the shape as it was, whatever the
    geometry. *)
Theorem geometry_to_shape_status (g : OGRGeometry) (shp : shapeObj)
    (nType : OGRwkbGeometryType) :
  ((msOGRGeometryToShape (Some g) (Some shp) nType).1 = MS_SUCCESS <->
   ((nType = wkbPoint \/ nType = wkbMultiPoint) /\ points_supported g = true) \/
   ((nType = wkbLineString \/ nType = wkbMultiLineString \/
     nType = wkbPolygon \/ nType = wkbMultiPolygon) /\ lines_supported g = true)) /\
  (forall psShape, msOGRGeometryToShape None psShape nType = (MS_FAILURE, psShape)) /\
  (msOGRGeometryToShape (Some g) None nType).1 = MS_FAILURE /\
  (nType ∉ [wkbPoint; wkbMultiPoint; wkbLineString; wkbMultiLineString;
            wkbPolygon; wkbMultiPolygon] ->
   msOGRGeometryToShape (Some g) (Some shp) nType = (MS_FAILURE, Some shp)).
Proof.
  split_and!.
  - unfold msOGRGeometryToShape.
    destruct nType;
      rewrite ?convert_point, ?convert_line, ?convert_polygon; cbn [fst];
      rewrite ?ogrGeomPoints_status, ?ogrGeomLine_status;
      destruct (points_supported g), (lines_supported g); simpl;
      intuition congruence.
  - done.
  - done.
  - intros Hn. unfold msOGRGeometryToShape.
    destruct nType; try done; exfalso; apply Hn;
      repeat first [apply list_elem_of_here | apply list_elem_of_further].
Qed.

End GeometryToShape.

Section RoundTrip.
Import Geometry Wkt.

Variable OGR_G_ExportToWkt : OGRGeometry -> string.
Variable OGR_G_CreateFromWkt : string -> option OGRGeometry.

Lemma leaf_of_fresh pl :
  line (ogrGeomPoints_leaf pl msInitShape) = [pl] /\
  type (ogrGeomPoints_leaf pl msInitShape) = MS_SHAPE_POINT /\
  bounds (ogrGeomPoints_leaf pl msInitShape)
  = bbox_fold false (bounds msInitShape) pl.
Proof.
  unfold ogrGeomPoints_leaf. simpl. rewrite add_points_eq. by simpl.
Qed.

Lemma points_of_point_geometries (ln : lineObj) :
  map (fun h => OGR_G_GetXY h 0) (map point_geometry ln) = ln.
Proof. induction ln as [|p ln IH]; simpl; [done | by rewrite IH]. Qed.

Lemma lines_of_linestrings (lines : list lineObj) :
  Forall (fun l : lineObj => (2 <= length l)%nat) lines ->
  concat (map lines_visited (map linestring_geometry lines)) = lines.
Proof.
  induction 1 as [|l lines Hl _ IH]; simpl; [done |].
  destruct (Z.ltb_spec (Z.of_nat (length l)) 2); [lia |]. simpl. by rewrite IH.
Qed.

Lemma linestrings_supported (lines : list lineObj) :
  forallb lines_supported (map linestring_geometry lines) = true.
Proof. by induction lines as [|l lines IH]. Qed.

Lemma close_closed_rings (lines : list lineObj) :
  Forall ring_closed lines -> Forall point_num (concat lines) ->
  map (close_ring true) lines = lines.
Proof.
  induction 1 as [|l lines [Hlen Hc] _ IH]; simpl; [done |].
  intros [Hl Hn]%Forall_app. rewrite (IH Hn).
  destruct l as [|p0 l]; [simpl in Hlen; lia |].
  apply Forall_cons in Hl as [Hp0 _].
  by rewrite (close_ring_closed (p0 :: l) p0 eq_refl (eq_sym Hc) Hp0).
Qed.

Lemma lines_bounds c g :
  lines_supported g = true ->
  bounds (ogrGeomLine g msInitShape c).2
  = bbox_fold false (bounds msInitShape) (concat (lines_visited g)).
Proof.
  intros Hsup. destruct (ogrGeomLine_spec c g Hsup) as [_ H].
  destruct (H msInitShape) as (_ & _ & Hb); [constructor |]. exact Hb.
Qed.

Lemma linestrings_type (l : lineObj) (ls : list lineObj) c :
  (2 <= length l)%nat ->
  type (visit_members (fun m s => ogrGeomLine m s c)
          (map linestring_geometry (l :: ls)) msInitShape).2 = MS_SHAPE_LINE.
Proof.
  intros Hl. cbn [map visit_members]. unfold linestring_geometry at 1.
  cbn [ogrGeomLine wkbFlatten]. unfold ogrGeomLine_linestring.
  destruct (Z.ltb_spec (Z.of_nat (length l)) 2); [lia |].
  cbn [Z.eqb]. rewrite visit_members_type; [done | | done].
  apply Forall_forall. intros m _ s. apply ogrGeomLine_type.
Qed.

Lemma rings_type (ls : list lineObj) c :
  type (visit_members (fun m s => ogrGeomLine m s c) (map ring_geometry ls)
          (set_type MS_SHAPE_POLYGON msInitShape)).2 = MS_SHAPE_POLYGON.
Proof.
  rewrite visit_members_type; [done | | done].
  apply Forall_forall. intros m _ s. apply ogrGeomLine_type.
Qed.

Lemma to_shape_point g shp nType :
  nType = wkbPoint \/ nType = wkbMultiPoint ->
  msOGRGeometryToShape (Some g) (Some shp) nType
  = (if points_supported g then MS_SUCCESS else MS_FAILURE,
     Some (ogrGeomPoints g shp).2).
Proof.
  intros [-> | ->]; unfold msOGRGeometryToShape; rewrite convert_point;
    rewrite ogrGeomPoints_status; by destruct (points_supported g).
Qed.

Lemma to_shape_line g shp nType :
  nType = wkbLineString \/ nType = wkbMultiLineString ->
  type (ogrGeomLine g shp false).2 = MS_SHAPE_LINE ->
  msOGRGeometryToShape (Some g) (Some shp) nType
  = (if lines_supported g then MS_SUCCESS else MS_FAILURE,
     Some (ogrGeomLine g shp false).2).
Proof.
  intros Hn Ht. unfold msOGRGeometryToShape.
  destruct Hn as [-> | ->]; rewrite convert_line; cbv zeta;
    rewrite Ht, ogrGeomLine_status; by destruct (lines_supported g).
Qed.

Lemma to_shape_polygon g shp nType :
  nType = wkbPolygon \/ nType = wkbMultiPolygon ->
  type (ogrGeomLine g shp true).2 = MS_SHAPE_POLYGON ->
  msOGRGeometryToShape (Some g) (Some shp) nType
  = (if lines_supported g then MS_SUCCESS else MS_FAILURE,
     Some (ogrGeomLine g shp true).2).
Proof.
  intros Hn Ht. unfold msOGRGeometryToShape.
  destruct Hn as [-> | ->]; rewrite convert_polygon; cbv zeta;
    rewrite Ht, ogrGeomLine_status; by destruct (lines_supported g).
Qed.

Lemma nonempty_of_long (l : lineObj) : (2 <= length l)%nat -> l <> [].
Proof. destruct l; [simpl; lia | done]. Qed.

(** The geometry a shape is exported from converts back into the lines
    of the shape. *)
Lemma shape_geometry_back (s : shapeObj) :
  exportable s ->
  Forall point_num (all_points s) ->
  exists g s',
    shape_geometry s = Some g /\
    msOGRGeometryToShape (Some g) (Some msInitShape)
      (wkbFlatten (OGR_G_GetGeometryType g)) = (MS_SUCCESS, Some s') /\
    type s' = type s /\ line s' = line s /\
    (all_points s <> [] -> bbox_exact (bounds s') (all_points s)).
Proof.
  unfold exportable, shape_geometry, all_points.
  destruct (type s) eqn:Et; [| | | done].
  - (* Point *)
    intros (ln & -> & Hne) Hnum. simpl in Hnum. rewrite app_nil_r in Hnum.
    assert (Hleaf : forall g, points_supported g = true ->
              (ogrGeomPoints g msInitShape).2 = ogrGeomPoints_leaf ln msInitShape ->
              (wkbFlatten (OGR_G_GetGeometryType g) = wkbPoint
               \/ wkbFlatten (OGR_G_GetGeometryType g) = wkbMultiPoint) ->
              exists s',
                msOGRGeometryToShape (Some g) (Some msInitShape)
                  (wkbFlatten (OGR_G_GetGeometryType g)) = (MS_SUCCESS, Some s') /\
                type s' = MS_SHAPE_POINT /\ line s' = [ln] /\
                (concat [ln] <> [] -> bbox_exact (bounds s') (concat [ln]))).
    { intros g Hsup Hg Hty. exists (ogrGeomPoints_leaf ln msInitShape).
      rewrite (to_shape_point g msInitShape _ Hty), Hsup, Hg.
      destruct (leaf_of_fresh ln) as (Hl & Ht & Hb).
      split_and!; [done.. |]. intros _. rewrite Hb. simpl. rewrite app_nil_r.
      by apply bbox_fold_false_exact. }
    destruct ln as [|p [|q ln]]; [done | |].
    + exists (point_geometry p). cbn [length Nat.eqb nth].
      destruct (Hleaf (point_geometry p)) as (s' & H); [done | done | by left |].
      exists s'. by split.
    + exists (Geom wkbMultiPoint [] (map point_geometry (p :: q :: ln))).
      cbn [length Nat.eqb Nat.ltb Nat.leb].
      destruct (Hleaf (Geom wkbMultiPoint [] (map point_geometry (p :: q :: ln))))
        as (s' & H); [done | | by right |].
      { cbn [ogrGeomPoints wkbFlatten snd]. by rewrite points_of_point_geometries. }
      exists s'. by split.
  - (* Line *)
    intros [Hne Hlen] Hnum.
    assert (Hback : forall g, lines_supported g = true ->
              lines_visited g = line s ->
              type (ogrGeomLine g msInitShape false).2 = MS_SHAPE_LINE ->
              (wkbFlatten (OGR_G_GetGeometryType g) = wkbLineString
               \/ wkbFlatten (OGR_G_GetGeometryType g) = wkbMultiLineString) ->
              exists s',
                msOGRGeometryToShape (Some g) (Some msInitShape)
                  (wkbFlatten (OGR_G_GetGeometryType g)) = (MS_SUCCESS, Some s') /\
                type s' = MS_SHAPE_LINE /\ line s' = line s /\
                (concat (line s) <> [] -> bbox_exact (bounds s') (concat (line s)))).
    { intros g Hsup Hv Ht Hty. exists (ogrGeomLine g msInitShape false).2.
      rewrite (to_shape_line g msInitShape _ Hty Ht), Hsup.
      split_and!; [done | done | |].
      - rewrite (ogrGeomLine_lines false g msInitShape Hsup), Hv. simpl.
        by rewrite map_id.
      - intros Hp. rewrite (lines_bounds false g Hsup), Hv.
        by apply bbox_fold_false_exact. }
    destruct (line s) as [|l [|l' ls]] eqn:El; [done | |].
    + apply Forall_cons in Hlen as [Hl _].
      exists (linestring_geometry l).
      destruct (Hback (linestring_geometry l)) as (s' & H); [done | | | by left |].
      { simpl. by destruct (Z.ltb_spec (Z.of_nat (length l)) 2); [lia |]. }
      { pose proof (linestrings_type l [] false Hl) as HT.
        cbn [map visit_members] in HT. unfold linestring_geometry in *.
        destruct (ogrGeomLine (Geom wkbLineString l []) msInitShape false) as [r s1] eqn:E.
        pose proof (ogrGeomLine_status (Geom wkbLineString l []) msInitShape false) as Hs.
        rewrite E in Hs. simpl in Hs. subst r. exact HT. }
      exists s'. by split.
    + exists (Geom wkbMultiLineString [] (map linestring_geometry (l :: l' :: ls))).
      destruct (Hback (Geom wkbMultiLineString []
                         (map linestring_geometry (l :: l' :: ls))))
        as (s' & H); [| | | by right |].
      { cbn [lines_supported wkbFlatten]. apply linestrings_supported. }
      { cbn [lines_visited wkbFlatten]. by apply lines_of_linestrings. }
      { cbn [ogrGeomLine wkbFlatten].
        destruct (decide (wkbMultiLineString = wkbPolygon)) as [|_]; [done |].
        apply linestrings_type. by apply Forall_cons in Hlen as [? _]. }
      exists s'. by split.
  - (* Polygon *)
    intros Hrings Hnum.
    set (g := Geom wkbPolygon [] (map ring_geometry (line s))).
    assert (Hsup : lines_supported g = true) by apply linestrings_supported.
    assert (Hv : lines_visited g = line s).
    { unfold g. cbn [lines_visited wkbFlatten]. apply lines_of_linestrings.
      eapply Forall_impl; [exact Hrings |]. by intros l [? _]. }
    assert (Ht : type (ogrGeomLine g msInitShape true).2 = MS_SHAPE_POLYGON).
    { unfold g. cbn [ogrGeomLine wkbFlatten].
      destruct (decide (wkbPolygon = wkbPolygon)) as [_|]; [| done].
      destruct (decide (type msInitShape = MS_SHAPE_NULL)) as [_|]; [| done].
      apply rings_type. }
    exists g, (ogrGeomLine g msInitShape true).2. split; [by destruct (line s) |].
    change (wkbFlatten (OGR_G_GetGeometryType g)) with wkbPolygon.
    rewrite (to_shape_polygon g msInitShape _ (or_introl eq_refl) Ht), Hsup.
    split_and!; [done | done | |].
    + rewrite (ogrGeomLine_lines true g msInitShape Hsup), Hv. simpl.
      by apply close_closed_rings.
    + intros Hp. rewrite (lines_bounds true g Hsup), Hv.
      by apply bbox_fold_false_exact.
Qed.

(** X6.  A shape comes back from its own text.  For a Point shape of one
    non-empty line, a Line shape whose lines have at least two points
    each, or a Polygon shape whose rings are closed, and whose points
    have no NaN coordinate: when the parser gives back the geometry the
    text was exported from, [msOGRShapeFromWKT] of the text
    [msOGRShapeToWKT] makes returns a shape of the same type with the
    same lines, whose rectangle is the exact bounding rectangle of its
    points. *)
Theorem wkt_round_trip (s : shapeObj) :
  exportable s ->
  Forall point_num (all_points s) ->
  (forall g, shape_geometry s = Some g ->
             OGR_G_CreateFromWkt (OGR_G_ExportToWkt g) = Some g) ->
  exists s',
    msOGRShapeFromWKT OGR_G_CreateFromWkt
      (msOGRShapeToWKT OGR_G_ExportToWkt (Some s)) = Some s' /\
    type s' = type s /\ line s' = line s /\
    (all_points s <> [] -> bbox_exact (bounds s') (all_points s)).
Proof.
  intros Hs Hnum Hparse.
  destruct (shape_geometry_back s Hs Hnum) as (g & s' & Hg & Hto & Ht & Hl & Hb).
  exists s'. unfold msOGRShapeToWKT, msOGRShapeFromWKT.
  by rewrite Hg, (Hparse g Hg), Hto.
Qed.

End RoundTrip.

Section RoundTripExample.
Import Geometry Wkt.

Lemma wkt_round_trip_witness :
  exists s',
    msOGRShapeFromWKT square_from_text
      (msOGRShapeToWKT square_to_text (Some literal_square)) = Some s' /\
    line s' = line literal_square.
Proof.
  destruct (wkt_round_trip square_to_text square_from_text literal_square)
    as (s' & H & _ & Hl & _).
  - repeat constructor.
  - vm_compute. repeat constructor; discriminate.
  - intros g [= <-]. reflexivity.
  - by exists s'.
Defined.

End RoundTripExample.

(** ** Further properties of feature fetching *)

Section SequentialReading.
Import Geometry Layer LayerApi.

Variable msOGRGetValues : layerObj -> OGRFeature -> option (list string).

Local Abbreviation NextShape := (msOGRFileNextShape msOGRGetValues).
Local Abbreviation GetShape := (msOGRFileGetShape msOGRGetValues).
Local Abbreviation Loop := (next_shape_loop msOGRGetValues).

Local Abbreviation Values := (feature_values msOGRGetValues).

Lemma set_values_same (s : shapeObj) : set_values (values s) s = s.
Proof. by destruct s. Qed.

Lemma convert_keeps_values hGeom s lt :
  values (ogrConvertGeometry hGeom s lt).2 = values s.
Proof.
  pose proof (ogrConvertGeometry_values (values s) hGeom s lt) as E.
  rewrite set_values_same in E.
  destruct (ogrConvertGeometry hGeom s lt) as [st s']. simpl in *.
  injection E as E. by rewrite E at 1.
Qed.

(** The values a shape is given for a feature. *)
Lemma loaded_values layer f (s : shapeObj) :
  values_load msOGRGetValues layer f = true ->
  values s = [] ->
  (if (0 <? numitems layer)%nat
   then match msOGRGetValues layer f with
        | Some v => Some (set_values v s)
        | None => None
        end
   else Some s) = Some (set_values (Values layer f) s).
Proof.
  unfold values_load, feature_values. destruct (0 <? numitems layer)%nat; simpl.
  - by intros [v ->]%bool_decide_eq_true.
  - intros _ <-. by rewrite set_values_same.
Qed.

(** One turn of the loop has three ways to leave a feature. *)
Lemma loop_step layer re f rest last :
  let r := Loop layer re (f :: rest) last in
  (ns_status r = MS_FAILURE) \/
  (values_load msOGRGetValues layer f = true /\
   incompatible (fgeom f) (ltype layer) = true /\
   r = Loop layer re rest (last + 1)) \/
  (values_load msOGRGetValues layer f = true /\
   compatible (fgeom f) (ltype layer) = true /\
   r = mkNext MS_SUCCESS (set_values (Values layer f) (converted layer f)) rest
              (last + 1) (Some f)).
Proof.
  intros r. destruct (values_load msOGRGetValues layer f) eqn:Hv.
  - destruct (unsupported (fgeom f) (ltype layer)) eqn:Hu.
    + left. by apply next_shape_loop_unsupported.
    + destruct (support_cases _ _ Hu) as [Hi | Hc].
      * right; left. split_and!; [done.. |]. by apply next_shape_loop_skip.
      * right; right. split_and!; [done.. |].
        apply andb_true_iff in Hc as [Hst Hty].
        apply bool_decide_eq_true in Hst.
        apply negb_true_iff, bool_decide_eq_false in Hty.
        unfold r, converted. cbn [next_shape_loop]. fold fresh_shape.
        rewrite (loaded_values layer f fresh_shape Hv eq_refl).
        cbn [ogrGetLinearGeometry]. rewrite ogrConvertGeometry_values.
        destruct (ogrConvertGeometry (fgeom f) fresh_shape (ltype layer)) as [st s].
        simpl in *. subst st. by rewrite bool_decide_eq_false_2.
  - left. unfold r. cbn [next_shape_loop]. unfold values_load in Hv.
    destruct (0 <? numitems layer)%nat; simpl in Hv; [| done].
    apply bool_decide_eq_false in Hv.
    destruct (msOGRGetValues layer f) as [v|]; [| done].
    exfalso. apply Hv. by exists v.
Qed.

(** What a turn-by-turn reading that succeeds has gone through. *)
Lemma loop_success layer re pend last :
  ns_status (Loop layer re pend last) = MS_SUCCESS ->
  exists skipped f rest,
    pend = skipped ++ f :: rest /\
    Forall (fun u => incompatible (fgeom u) (ltype layer) = true) skipped /\
    values_load msOGRGetValues layer f = true /\
    compatible (fgeom f) (ltype layer) = true /\
    Loop layer re pend last
    = mkNext MS_SUCCESS (set_values (Values layer f) (converted layer f)) rest
             (last + Z.of_nat (length skipped) + 1) (Some f).
Proof.
  revert last. induction pend as [|u pend IH]; intros last Hok.
  - simpl in Hok. by destruct re.
  - destruct (loop_step layer re u pend last) as [Hf | [(Hv & Hi & E) | (Hv & Hc & E)]].
    + congruence.
    + rewrite E in Hok |- *.
      destruct (IH (last + 1) Hok) as (sk & f & rest & -> & Hsk & Hvf & Hcf & ->).
      exists (u :: sk), f, rest. split_and!; try done.
      * by constructor.
      * f_equal. simpl length. lia.
    + exists [], u, pend. rewrite E. split_and!; try done.
      f_equal. simpl. lia.
Qed.

(** A reading that ends has met incompatible features only. *)
Lemma loop_done layer re pend last :
  ns_status (Loop layer re pend last) = MS_DONE ->
  re = false /\
  Forall (fun u => incompatible (fgeom u) (ltype layer) = true) pend /\
  Loop layer re pend last = mkNext MS_DONE fresh_shape [] (-1) None.
Proof.
  revert last. induction pend as [|u pend IH]; intros last Hd.
  - simpl in Hd |- *. by destruct re.
  - destruct (loop_step layer re u pend last) as [Hf | [(Hv & Hi & E) | (Hv & Hc & E)]].
    + congruence.
    + rewrite E in Hd |- *. destruct (IH (last + 1) Hd) as (-> & Hall & ->).
      split_and!; [done | by constructor | done].
    + rewrite E in Hd. discriminate Hd.
Qed.

Lemma next_shape_unfold layer shape info lyr :
  hLayer info = Some lyr ->
  NextShape layer shape (Some info)
  = let r := Loop layer (read_error lyr) (pending lyr) (last_record_index_read info) in
    let info1 := set_cursor (Some (set_pending (ns_pending r) lyr)) (ns_last r) info in
    match ns_status r, ns_feature r with
    | MS_SUCCESS, Some f =>
        let s := ns_shape r in
        (MS_SUCCESS,
         mkShape (type s) (line s) (bounds s) (values s)
                 (fid f) (ns_last r) (nTileId info),
         Some (set_last_feature (Some f) info1))
    | st, _ => (st, ns_shape r, Some info1)
    end.
Proof. intros Hl. unfold msOGRFileNextShape. by rewrite Hl. Qed.

Lemma next_shape_status layer shape info lyr :
  hLayer info = Some lyr ->
  (NextShape layer shape (Some info)).1.1
  = ns_status (Loop layer (read_error lyr) (pending lyr) (last_record_index_read info)).
Proof.
  intros Hl. rewrite (next_shape_unfold layer shape info lyr Hl). cbv zeta.
  destruct (Loop _ _ _ _) as [st sh pe la fe]. simpl.
  by destruct st, fe.
Qed.

Lemma next_shape_success layer shape s info lyr info' :
  hLayer info = Some lyr ->
  NextShape layer shape (Some info) = (MS_SUCCESS, s, info') ->
  exists skipped f rest,
    pending lyr = skipped ++ f :: rest /\
    Forall (fun u => incompatible (fgeom u) (ltype layer) = true) skipped /\
    values_load msOGRGetValues layer f = true /\
    compatible (fgeom f) (ltype layer) = true /\
    s = mkShape (type (converted layer f)) (line (converted layer f))
                (bounds (converted layer f)) (Values layer f) (fid f)
                (last_record_index_read info + Z.of_nat (length skipped) + 1)
                (nTileId info) /\
    info' = Some (set_last_feature (Some f)
                    (set_cursor (Some (set_pending rest lyr))
                       (last_record_index_read info + Z.of_nat (length skipped) + 1)
                       info)).
Proof.
  intros Hl Hn.
  pose proof (next_shape_status layer shape info lyr Hl) as Hst.
  rewrite Hn in Hst. simpl in Hst. symmetry in Hst.
  destruct (loop_success _ _ _ _ Hst) as (sk & f & rest & Hp & Hsk & Hv & Hc & E).
  exists sk, f, rest. rewrite (next_shape_unfold layer shape info lyr Hl) in Hn.
  rewrite E in Hn. cbv zeta in Hn. cbn [ns_status ns_feature ns_shape ns_last
    ns_pending type line bounds values set_values] in Hn.
  injection Hn as <- <-. done.
Qed.


(** X7.  A sequential read that succeeds returns the first pending
    feature whose geometry is compatible with the layer type: the
    features before it were incompatible and are skipped, the shape
    carries the feature's FID, its converted lines, its values and the
    file's tile id, and its result index counts every feature read since
    the last reset, the skipped ones included. *)
Theorem sequential_read_first_compatible (layer : layerObj) (shape s : shapeObj)
    (info : msOGRFileInfo) (lyr : OGRLayer) (info' : option msOGRFileInfo) :
  hLayer info = Some lyr ->
  NextShape layer shape (Some info) = (MS_SUCCESS, s, info') ->
  exists skipped f rest,
    pending lyr = skipped ++ f :: rest /\
    Forall (fun u => incompatible (fgeom u) (ltype layer) = true) skipped /\
    values_load msOGRGetValues layer f = true /\
    compatible (fgeom f) (ltype layer) = true /\
    s = mkShape (type (converted layer f)) (line (converted layer f))
                (bounds (converted layer f)) (Values layer f) (fid f)
                (last_record_index_read info + Z.of_nat (length skipped) + 1)
                (nTileId info) /\
    info' = Some (set_last_feature (Some f)
                    (set_cursor (Some (set_pending rest lyr))
                       (last_record_index_read info + Z.of_nat (length skipped) + 1)
                       info)).
Proof. apply next_shape_success. Qed.

(** X8.  A sequential read ends with MS_DONE only when the back end
    reports no error and every pending feature was incompatible with the
    layer type; the shape is left freed, nothing is pending any more,
    the record count is back at -1, and reading again gives MS_DONE
    again. *)
Theorem sequential_read_end (layer : layerObj) (shape : shapeObj)
    (info : msOGRFileInfo) (lyr : OGRLayer) :
  hLayer info = Some lyr ->
  (NextShape layer shape (Some info)).1.1 = MS_DONE ->
  let info_end := set_cursor (Some (set_pending [] lyr)) (-1) info in
  read_error lyr = false /\
  Forall (fun u => incompatible (fgeom u) (ltype layer) = true) (pending lyr) /\
  NextShape layer shape (Some info) = (MS_DONE, fresh_shape, Some info_end) /\
  forall shape',
    NextShape layer shape' (Some info_end) = (MS_DONE, fresh_shape, Some info_end).
Proof.
  intros Hl Hd info_end.
  rewrite (next_shape_status layer shape info lyr Hl) in Hd.
  destruct (loop_done _ _ _ _ Hd) as (Hre & Hall & E).
  split_and!; [done | done | |].
  - rewrite (next_shape_unfold layer shape info lyr Hl), E. done.
  - intros shape'. unfold msOGRFileNextShape. cbn [info_end set_cursor hLayer].
    cbn [set_pending pending read_error last_record_index_read next_shape_loop].
    rewrite Hre. done.
Qed.

Lemma seek_reads n (pend : list OGRFeature) last h f :
  pend !! n = Some f ->
  seek (S n) pend last h = (Some (Some f), drop (S n) pend, last + Z.of_nat (S n)).
Proof.
  revert pend last h. induction n as [|n IH]; intros [|x pend] last h Hf; try done.
  - simpl in Hf. injection Hf as ->. simpl. repeat (f_equal; try lia).
  - simpl in Hf.
    change (seek (S (S n)) (x :: pend) last h)
      with (seek (S n) pend (last + 1) (Some x)).
    rewrite (IH pend (last + 1) (Some x) Hf). cbn [drop].
    repeat (f_equal; try lia).
Qed.

Lemma drop_app_inv {A} (l : list A) n (a : list A) (x : A) (b : list A) :
  drop n l = a ++ x :: b ->
  l !! (n + length a)%nat = Some x /\ drop (S (n + length a)) l = b.
Proof.
  intros E. split.
  - rewrite <- (lookup_drop l n (length a)), E. by apply list_lookup_middle.
  - replace (S (n + length a)) with (n + S (length a))%nat by lia.
    rewrite <- (drop_drop l (S (length a)) n), E.
    change (a ++ x :: b) with (a ++ [x] ++ b). rewrite app_assoc.
    rewrite drop_app_length'; [done |]. rewrite length_app. simpl. lia.
Qed.

Lemma file_round_trip layer shape shape' s info info' :
  cursor_ok info ->
  NextShape layer shape (Some info) = (MS_SUCCESS, s, Some info') ->
  cursor_ok info' /\
  0 <= resultindex s /\
  resultindex s = last_record_index_read info' /\
  tileindex s = nTileId info /\ nTileId info' = nTileId info /\
  GetShape layer shape' (resultindex s) (Some info') false = (MS_SUCCESS, s, Some info').
Proof.
  intros (lyr & Hl & Hge & Hp) Hn.
  destruct (next_shape_success layer shape s info lyr (Some info') Hl Hn)
    as (sk & f & rest & Hpend & Hsk & Hv & Hc & -> & [= ->]).
  rewrite Hpend in Hp. symmetry in Hp.
  apply drop_app_inv in Hp as [Hf Hrest].
  set (last := last_record_index_read info) in *.
  set (record := last + Z.of_nat (length sk) + 1).
  assert (Hrec : Z.to_nat (record + 1) = S (Z.to_nat (last + 1) + length sk)).
  { unfold record. lia. }
  split_and!.
  - exists (set_pending rest lyr). split_and!; [done | simpl; lia |].
    cbn [set_last_feature set_cursor last_record_index_read set_pending pending feats].
    fold record. by rewrite Hrec.
  - simpl. lia.
  - done.
  - done.
  - done.
  - cbn [resultindex]. fold record.
    unfold msOGRFileGetShape.
    cbn [set_last_feature set_cursor hLayer last_record_index_read].
    rewrite Z.leb_refl. cbn [orb].
    cbn [OGR_L_ResetReading set_pending feats pending read_error filter_ok].
    replace (record - -1) with (record + 1) by lia. rewrite Hrec.
    rewrite (seek_reads _ _ _ _ f Hf), Hrest.
    cbn [ogrGetLinearGeometry]. unfold msFreeShape.
    change (set_type MS_SHAPE_NULL msInitShape) with fresh_shape.
    apply andb_true_iff in Hc as [Hst Hty].
    apply bool_decide_eq_true in Hst.
    apply negb_true_iff, bool_decide_eq_false in Hty.
    pose proof (convert_keeps_values (fgeom f) fresh_shape (ltype layer)) as Hvals.
    unfold converted.
    destruct (ogrConvertGeometry (fgeom f) fresh_shape (ltype layer)) as [st c].
    simpl in Hst, Hty, Hvals |- *. subst st.
    rewrite bool_decide_eq_false_2 by done.
    rewrite (loaded_values layer f c Hv Hvals).
    replace (-1 + Z.of_nat (S (Z.to_nat (last + 1) + length sk))) with record
      by (unfold record; lia).
    reflexivity.
Qed.

(** X9.  The result index of a shape read sequentially finds it again.
    When the record count of the file is in step with what its layer has
    returned, and [msOGRFileNextShape] succeeds, the count is still in
    step, the shape's result index is the record count (not negative),
    its tile index is the file's tile id, and [msOGRFileGetShape] by that
    result index returns the very same shape and leaves the file as it
    was. *)
Theorem result_index_round_trip (layer : layerObj) (shape shape' s : shapeObj)
    (info info' : msOGRFileInfo) :
  cursor_ok info ->
  NextShape layer shape (Some info) = (MS_SUCCESS, s, Some info') ->
  cursor_ok info' /\
  0 <= resultindex s /\
  resultindex s = last_record_index_read info' /\
  tileindex s = nTileId info /\ nTileId info' = nTileId info /\
  GetShape layer shape' (resultindex s) (Some info') false = (MS_SUCCESS, s, Some info').
Proof. apply file_round_trip. Qed.

End SequentialReading.

Section TileReading.
Import Geometry Layer LayerApi.

Variable msOGRGetValues : layerObj -> OGRFeature -> option (list string).
Variable datasets : gmap string OGRLayer.
Variable IGNORE_MISSING_DATA : bool.

Local Abbreviation ReadTile := (msOGRFileReadTile datasets IGNORE_MISSING_DATA).
Local Abbreviation NextFile := (next_file datasets IGNORE_MISSING_DATA).
Local Abbreviation TilesLoop :=
  (tiles_loop msOGRGetValues datasets IGNORE_MISSING_DATA).
Local Abbreviation LayerNextShape :=
  (msOGRLayerNextShape msOGRGetValues datasets IGNORE_MISSING_DATA).
Local Abbreviation LayerGetShape :=
  (msOGRLayerGetShape msOGRGetValues datasets IGNORE_MISSING_DATA).

Lemma install_tile_loaded layer psInfo f c d psInfo' :
  c = tile_connection layer f ->
  datasets !! c = Some d ->
  install_tile psInfo f
    (mkInfo c (Some (OGR_L_ResetReading d)) None 0 None (mkRect 0 0 0 0) (-1))
  = (MS_SUCCESS, psInfo') ->
  exists t,
    psInfo' = set_cur_tile (Some t) psInfo /\
    just_loaded datasets layer (rect psInfo) [f] t.
Proof.
  intros -> Hd. unfold install_tile, just_loaded.
  destruct (dne (minx (rect psInfo)) 0 || dne (maxx (rect psInfo)) 0).
  - unfold msOGRFileWhichShapes. cbn [set_tile_id hLayer OGR_L_ResetReading filter_ok].
    destruct (filter_ok d); [| done]. intros [= <-].
    eexists. split; [reflexivity |]. split_and!; [done | | done].
    exists f, d. split_and!; [apply list_elem_of_here | done..].
  - intros [= <-]. eexists. split; [reflexivity |]. split_and!; [done | | done].
    exists f, d. split_and!; [apply list_elem_of_here | done..].
Qed.

Lemma just_loaded_mono layer r (l l' : list OGRFeature) t :
  l ⊆ l' -> just_loaded datasets layer r l t -> just_loaded datasets layer r l' t.
Proof.
  intros Hsub (H1 & (f & d & Hf & H2) & H3). split_and!; [done | | done].
  exists f, d. split; [by apply Hsub | done].
Qed.

Lemma next_file_loaded layer psInfo lyr target pend psInfo' :
  NextFile layer psInfo lyr target pend = (MS_SUCCESS, psInfo') ->
  exists t,
    poCurTile psInfo' = Some t /\ is_Some (hLayer psInfo') /\
    just_loaded datasets layer (rect psInfo) pend t.
Proof.
  revert psInfo'. induction pend as [|f rest IH]; intros psInfo'; cbn [next_file].
  - by destruct (target =? -1).
  - destruct (msOGRFileOpen datasets (tile_connection layer f)) as [t0|] eqn:Ho.
    + apply msOGRFileOpen_Some in Ho as (d & Hd & ->). intros Hi.
      apply (install_tile_loaded layer _ f _ d psInfo' eq_refl Hd) in Hi
        as (t & -> & Hj).
      exists t. split_and!; [done | by eexists |].
      eapply just_loaded_mono; [| exact Hj].
      intros x ->%list_elem_of_singleton. apply list_elem_of_here.
    + destruct (negb IGNORE_MISSING_DATA && (target =? -1)); [| done].
      intros (t & H1 & H2 & H3)%IH. exists t. split_and!; [done | done |].
      eapply just_loaded_mono; [| exact H3].
      intros x Hx. by apply list_elem_of_further.
Qed.

Lemma find_elem (p : OGRFeature -> bool) (l : list OGRFeature) f :
  find p l = Some f -> f ∈ l.
Proof.
  induction l as [|x l IH]; simpl; [done |].
  destruct (p x); [intros [= ->]; apply list_elem_of_here |].
  intros H. by apply list_elem_of_further, IH.
Qed.

Lemma ReadTile_loaded layer psInfo lyr target psInfo' :
  hLayer psInfo = Some lyr ->
  ReadTile layer psInfo target = (MS_SUCCESS, psInfo') ->
  exists t,
    poCurTile psInfo' = Some t /\ is_Some (hLayer psInfo') /\
    just_loaded datasets layer (rect psInfo) (pending lyr ++ feats lyr) t.
Proof.
  intros Hl. unfold msOGRFileReadTile. cbn [set_cur_tile hLayer]. rewrite Hl.
  destruct (target <? 0).
  - intros (t & H1 & H2 & H3)%next_file_loaded. exists t. split_and!; [done.. |].
    eapply just_loaded_mono; [| exact H3].
    intros x Hx. apply elem_of_app. by destruct (target =? -2); [right | left].
  - destruct (OGR_L_GetFeature _ target) as [f|] eqn:Ef; [| done].
    destruct (msOGRFileOpen datasets (tile_connection layer f)) as [t0|] eqn:Ho; [| done].
    apply msOGRFileOpen_Some in Ho as (d & Hd & ->). intros Hi.
    apply (install_tile_loaded layer _ f _ d psInfo' eq_refl Hd) in Hi as (t & -> & Hj).
    exists t. split_and!; [done | by eexists |].
    eapply just_loaded_mono; [| exact Hj].
    apply find_elem in Ef. intros x ->%list_elem_of_singleton.
    apply elem_of_app. right. by destruct (target =? -2).
Qed.

(** X10.  A tile that [msOGRFileReadTile] has just made current is read
    from its first feature: its record count is -1 and its layer is the
    opened data source with reading reset.  It carries the FID of the
    index record that names it, narrowed to an [int] (lines 2064, 2114
    and 2135: the FID itself when it fits an [int]), and it has the
    rectangle of the index when that rectangle has a minx or a maxx
    that differs from 0 (as a NaN does); otherwise it keeps the all-zero
    rectangle of a file that was just opened. *)
Theorem loaded_tile_is_fresh (layer : layerObj) (psInfo psInfo' : msOGRFileInfo)
    (lyr : OGRLayer) (targetTile : Z) :
  hLayer psInfo = Some lyr ->
  ReadTile layer psInfo targetTile = (MS_SUCCESS, psInfo') ->
  exists t,
    poCurTile psInfo' = Some t /\
    last_record_index_read t = -1 /\
    (exists f d,
       f ∈ pending lyr ++ feats lyr /\ nTileId t = to_int (fid f) /\
       datasets !! tile_connection layer f = Some d /\
       hLayer t = Some (OGR_L_ResetReading d)) /\
    rect t = (if dne (minx (rect psInfo)) 0 || dne (maxx (rect psInfo)) 0
              then rect psInfo else mkRect 0 0 0 0).
Proof.
  intros Hl Hr.
  destruct (ReadTile_loaded layer psInfo lyr targetTile psInfo' Hl Hr)
    as (t & H1 & _ & H2 & H3 & H4).
  by exists t.
Qed.

Lemma just_loaded_cursor layer r l t :
  just_loaded datasets layer r l t -> cursor_ok t.
Proof.
  intros (Hlast & (f & d & _ & _ & _ & Hl) & _).
  exists (OGR_L_ResetReading d). rewrite Hlast. split_and!; [done | lia | done].
Qed.

Lemma set_cur_tile_same (p : msOGRFileInfo) : set_cur_tile (poCurTile p) p = p.
Proof. by destruct p. Qed.

Lemma ReadTile_cursor layer psInfo target psInfo' :
  is_Some (hLayer psInfo) ->
  ReadTile layer psInfo target = (MS_SUCCESS, psInfo') ->
  is_Some (hLayer psInfo') /\
  exists t, poCurTile psInfo' = Some t /\ cursor_ok t.
Proof.
  intros [lyr Hl] Hr.
  destruct (ReadTile_loaded layer psInfo lyr target psInfo' Hl Hr) as (t & H1 & H2 & H3).
  split; [done |]. exists t. split; [done |]. by eapply just_loaded_cursor.
Qed.

Lemma tiles_loop_success layer fuel shape psInfo s psInfo' :
  (forall t, poCurTile psInfo = Some t -> cursor_ok t) ->
  is_Some (hLayer psInfo) ->
  TilesLoop fuel layer shape psInfo = Some (MS_SUCCESS, s, psInfo') ->
  exists t',
    poCurTile psInfo' = Some t' /\ is_Some (hLayer psInfo') /\
    0 <= resultindex s /\ tileindex s = nTileId t' /\
    forall shape',
      msOGRFileGetShape msOGRGetValues layer shape' (resultindex s) (Some t') false
      = (MS_SUCCESS, s, Some t').
Proof.
  revert shape psInfo. induction fuel as [|fuel IH]; intros shape psInfo Hcur Hlyr; [done |].
  cbn [tiles_loop].
  destruct (msOGRFileNextShape msOGRGetValues layer shape (poCurTile psInfo))
    as [[st shape1] tile1] eqn:EN.
  destruct (negb (bool_decide (st = MS_DONE))) eqn:Ed.
  - intros [= -> -> <-].
    destruct (poCurTile psInfo) as [t0|] eqn:Et0; [| done].
    specialize (Hcur t0 eq_refl).
    destruct Hcur as (lyr0 & Hl0 & Hc0).
    destruct (next_shape_success msOGRGetValues layer shape s t0 lyr0 tile1 Hl0 EN)
      as (sk & f & rest & _ & _ & _ & _ & _ & Etile).
    rewrite Etile in EN |- *.
    edestruct (file_round_trip msOGRGetValues layer shape shape s t0)
      as (Hc' & Hge & Hri & Hti & Hid & _); [by exists lyr0 | exact EN |].
    eexists. split_and!; [reflexivity | done | done | by rewrite Hti, Hid |].
    intros shape'.
    edestruct (file_round_trip msOGRGetValues layer shape shape' s t0)
      as (_ & _ & _ & _ & _ & Hg); [by exists lyr0 | exact EN |]. exact Hg.
  - destruct (ReadTile layer (set_cur_tile tile1 psInfo) (-1)) as [st2 psInfo2] eqn:ER.
    destruct (negb (bool_decide (st2 = MS_SUCCESS))) eqn:E2.
    + intros [= -> _ _]. done.
    + apply negb_false_iff, bool_decide_eq_true in E2. subst st2.
      destruct (ReadTile_cursor layer (set_cur_tile tile1 psInfo) (-1) psInfo2 Hlyr ER)
        as (Hl2 & t2 & Ht2 & Hc2).
      apply IH; [| done]. intros t Ht. rewrite Ht2 in Ht. by injection Ht as <-.
Qed.

(** X11.  A shape read through the layer is found again by its record.
    For a layer whose reading file (the current tile of a tiled layer,
    the layer's own file otherwise) has its record count in step, when
    [msOGRLayerNextShape] succeeds, [msOGRLayerGetShape] on the shape's
    result, tile and shape indices returns the very same shape and leaves
    the layer as it was; on a tiled layer the shape's tile index is the
    id of the tile that is current afterwards. *)
Theorem layer_round_trip (layer : layerObj) (shape shape' s : shapeObj)
    (psInfo psInfo' : msOGRFileInfo) :
  (forall file, reading_file layer psInfo = Some file -> cursor_ok file) ->
  LayerNextShape layer shape (Some psInfo) = Some (MS_SUCCESS, s, Some psInfo') ->
  LayerGetShape layer shape' (record_of s) (Some psInfo')
  = (MS_SUCCESS, s, Some psInfo') /\
  (is_Some (tileindex_name layer) ->
   exists t, poCurTile psInfo' = Some t /\ tileindex s = nTileId t).
Proof.
  unfold reading_file, msOGRLayerNextShape, msOGRLayerGetShape, record_of.
  cbn [r_resultindex r_tileindex shapeindex].
  intros Hfile. destruct (hLayer psInfo) as [lyr|] eqn:Hl; [| done].
  destruct (tileindex_name layer) as [name|] eqn:Htiled.
  - (* a tiled layer *)
    assert (Hfirst : forall psInfo1,
              match poCurTile psInfo with
              | Some _ => (MS_SUCCESS, psInfo)
              | None => ReadTile layer psInfo (-1)
              end = (MS_SUCCESS, psInfo1) ->
              is_Some (hLayer psInfo1) /\
              forall t, poCurTile psInfo1 = Some t -> cursor_ok t).
    { intros psInfo1. destruct (poCurTile psInfo) as [t0|] eqn:Et0.
      - intros [= <-]. split; [by eexists |].
        intros t Ht. apply Hfile. congruence.
      - intros (Hl1 & t1 & Ht1 & Hc1)%ReadTile_cursor; [| by eexists].
        split; [done |]. intros t Ht. rewrite Ht1 in Ht. by injection Ht as <-. }
    destruct (match poCurTile psInfo with
              | Some _ => (MS_SUCCESS, psInfo)
              | None => ReadTile layer psInfo (-1)
              end) as [st1 psInfo1] eqn:E1.
    destruct st1; try done.
    destruct (Hfirst psInfo1 eq_refl) as [Hl1 Hc1].
    destruct (TilesLoop _ layer shape psInfo1) as [[[st shp] psInfo2]|] eqn:ET; [| done].
    intros [= -> -> ->].
    destruct (tiles_loop_success layer _ shape psInfo1 s psInfo' Hc1 Hl1 ET)
      as (t' & Ht' & [lyr' Hl'] & Hge & Hti & Hg).
    rewrite Hl', Ht'. apply Z.leb_le in Hge. rewrite Hge. cbn [negb].
    rewrite Hti, Z.eqb_refl. cbn [negb]. rewrite Ht', (Hg shape').
    split; [| intros _; by exists t'].
    by rewrite <- Ht', set_cur_tile_same.
  - (* the layer's own file *)
    intros [= EN]. specialize (Hfile psInfo eq_refl).
    destruct (file_round_trip msOGRGetValues layer shape shape' s psInfo psInfo' Hfile EN)
      as ((lyr' & Hl' & _) & Hge & _ & _ & _ & Hg).
    rewrite Hl'. apply Z.leb_le in Hge. rewrite Hge. cbn [negb].
    split; [exact Hg | by intros [? ?]].
Qed.

Lemma install_tile_rect psInfo f t st psInfo' :
  install_tile psInfo f t = (st, psInfo') -> rect psInfo' = rect psInfo.
Proof.
  unfold install_tile. destruct (dne _ _ || dne _ _).
  - destruct (msOGRFileWhichShapes _ _) as [[] ?]; by intros [= <- <-].
  - by intros [= <- <-].
Qed.

Lemma next_file_rect layer psInfo lyr target pend st psInfo' :
  NextFile layer psInfo lyr target pend = (st, psInfo') -> rect psInfo' = rect psInfo.
Proof.
  revert psInfo'. induction pend as [|f rest IH]; intros psInfo'; cbn [next_file].
  - by intros [= <- <-].
  - destruct (msOGRFileOpen datasets (tile_connection layer f)).
    + by intros ->%install_tile_rect.
    + destruct (negb IGNORE_MISSING_DATA && (target =? -1)); [apply IH |].
      by intros [= <- <-].
Qed.

Lemma ReadTile_rect layer psInfo target st psInfo' :
  ReadTile layer psInfo target = (st, psInfo') -> rect psInfo' = rect psInfo.
Proof.
  unfold msOGRFileReadTile. cbn [set_cur_tile hLayer].
  destruct (hLayer psInfo) as [lyr|]; [| by intros [= <- <-]].
  destruct (target <? 0).
  - by intros ->%next_file_rect.
  - destruct (OGR_L_GetFeature _ target) as [f|]; [| by intros [= <- <-]].
    destruct (msOGRFileOpen datasets (tile_connection layer f));
      [| by intros [= <- <-]].
    by intros ->%install_tile_rect.
Qed.

(** X12.  [msOGRLayerWhichShapes] gets the layer ready for reading from
    the start.  When it succeeds the rectangle is recorded in the layer's
    file, the reading file has its record count at -1 and in step with
    its layer (so that the first [msOGRLayerNextShape] returns the first
    compatible feature), and on a tiled layer a first tile is current
    with the rectangle applied to it (unless its minx and maxx are both
    0). *)
Theorem which_shapes_rewinds (layer : layerObj) (r : rectObj)
    (psInfo psInfo' : msOGRFileInfo) :
  msOGRLayerWhichShapes datasets IGNORE_MISSING_DATA layer r (Some psInfo)
  = (MS_SUCCESS, Some psInfo') ->
  rect psInfo' = r /\
  (exists file,
     reading_file layer psInfo' = Some file /\
     cursor_ok file /\ last_record_index_read file = -1) /\
  (is_Some (tileindex_name layer) ->
   exists t, poCurTile psInfo' = Some t /\
     rect t = (if dne (minx r) 0 || dne (maxx r) 0 then r
               else mkRect 0 0 0 0)).
Proof.
  unfold msOGRLayerWhichShapes, reading_file.
  destruct (hLayer psInfo) as [lyr|] eqn:Hl; [| done].
  unfold msOGRFileWhichShapes. rewrite Hl.
  destruct (filter_ok lyr); [| by destruct (tileindex_name layer)].
  rewrite bool_decide_eq_true_2 by done. cbn [negb orb].
  set (p1 := set_cursor (Some (OGR_L_ResetReading lyr)) (-1) (set_rect r psInfo)).
  destruct (tileindex_name layer) as [name|].
  - rewrite bool_decide_eq_true_2 by (by eexists). cbn [negb].
    destruct (ReadTile layer p1 (-1)) as [st2 psInfo2] eqn:ER.
    intros [= -> ->].
    destruct (ReadTile_loaded layer p1 (OGR_L_ResetReading lyr) (-1) psInfo' eq_refl ER)
      as (t & Ht & _ & Hj).
    split_and!.
    + by rewrite (ReadTile_rect layer p1 (-1) _ _ ER).
    + exists t. split; [done |]. split; [by eapply just_loaded_cursor | apply Hj].
    + intros _. exists t. split; [done | apply Hj].
  - rewrite bool_decide_eq_false_2 by (by intros [? ?]). cbn [negb].
    intros [= <-]. split_and!; [done | | by intros [? ?]].
    eexists. split; [reflexivity |]. split; [| done].
    exists (OGR_L_ResetReading lyr). split_and!; [done | simpl; lia | done].
Qed.

End TileReading.

Section ReadingExamples.
Import Geometry Layer LayerApi.

Lemma sequential_read_first_compatible_witness :
  exists f, compatible (fgeom f) MS_LAYER_POLYGON = true /\ index first_read.1.2 = fid f.
Proof.
  destruct (sequential_read_first_compatible load_fields polygon_layer msInitShape
              first_read.1.2 two_features
              (mkLayer [point_feature; square_feature]
                       [point_feature; square_feature] false true)
              first_read.2 eq_refl eq_refl)
    as (sk & f & rest & _ & _ & _ & Hc & Hs & _).
  exists f. split; [exact Hc | by rewrite Hs].
Defined.

Lemma sequential_read_end_witness :
  read_error (mkLayer [point_feature] [point_feature] false true) = false /\
  (msOGRFileNextShape load_fields polygon_layer msInitShape (Some points_only)).1.1
  = MS_DONE.
Proof.
  destruct (sequential_read_end load_fields polygon_layer msInitShape points_only
              (mkLayer [point_feature] [point_feature] false true) eq_refl eq_refl)
    as (Hre & _ & Hd & _).
  split; [exact Hre | by rewrite Hd].
Defined.

Lemma result_index_round_trip_witness :
  msOGRFileGetShape load_fields polygon_layer msInitShape
                    (resultindex first_read.1.2) (Some after_first_read) false
  = (MS_SUCCESS, first_read.1.2, Some after_first_read).
Proof.
  apply (result_index_round_trip load_fields polygon_layer msInitShape msInitShape
           first_read.1.2 two_features after_first_read).
  - exists (mkLayer [point_feature; square_feature]
                    [point_feature; square_feature] false true).
    split_and!; [reflexivity | simpl; lia | reflexivity].
  - reflexivity.
Defined.

Lemma loaded_tile_is_fresh_witness :
  exists t, poCurTile first_tile.2 = Some t /\ last_record_index_read t = -1.
Proof.
  destruct (loaded_tile_is_fresh tile_sources false tile_layer
              (tile_index_at three_records) first_tile.2
              (mkLayer three_records three_records false true) (-1)
              eq_refl ltac:(vm_compute; reflexivity))
    as (t & Ht & Hlast & _).
  by exists t.
Defined.

Lemma layer_round_trip_witness :
  msOGRLayerGetShape load_fields tile_sources false tile_layer msInitShape
                     (record_of tile_shape) (Some tile_state)
  = (MS_SUCCESS, tile_shape, Some tile_state).
Proof.
  apply (layer_round_trip load_fields tile_sources false tile_layer msInitShape
           msInitShape tile_shape (tile_index_at three_records) tile_state).
  - intros file Hf. vm_compute in Hf. discriminate Hf.
  - vm_compute. reflexivity.
Defined.

Lemma which_shapes_rewinds_witness :
  rect (default two_features
          (msOGRLayerWhichShapes tile_sources false polygon_layer (mkRect 0 0 5 5)
                                 (Some two_features)).2)
  = mkRect 0 0 5 5.
Proof.
  apply (which_shapes_rewinds tile_sources false polygon_layer (mkRect 0 0 5 5)
           two_features).
  reflexivity.
Defined.

End ReadingExamples.

(** ** Further properties of filter translation *)

Section TranslationOutcome.
Import Filter FilterFacts.

Variable sprintf_lf : double -> string.
Variable CPLEscapeString_SQL : string -> string.
Variable msExpressionTokenToString : token_kind -> string.

Local Abbreviation Translate :=
  (msOGRTranslateMsExpressionToOGRSQL sprintf_lf CPLEscapeString_SQL
     msExpressionTokenToString).
Local Abbreviation Walk :=
  (translate sprintf_lf CPLEscapeString_SQL msExpressionTokenToString).

(** A character token other than a parenthesis abandons the translation. *)
Lemma translate_other_char old r node rest st c :
  token node = MS_TOKEN_CHAR c -> c <> "("%char -> c <> ")"%char ->
  Walk old r (node :: rest) st = Returned (cleanup old r).
Proof.
  intros E H1 H2. cbn [translate]. rewrite E.
  destruct c as [[] [] [] [] [] [] [] []]; try reflexivity; by exfalso.
Qed.

(** A copied-through token. *)
Lemma translate_pass_step old r node rest st :
  passes_through (token node) = true ->
  Walk old r (node :: rest) st
  = let emit :=
      mkState (msStringConcatenate (msSQLExpression st)
                 (msExpressionTokenToString (token node)))
              (sBBOX st) (strtmpl st) (bIsIntersectRectangle st) in
    match rest with
    | n1 :: r1 =>
        if bool_decide (token node = MS_TOKEN_LOGICAL_AND)
           && bool_decide (token n1 = MS_TOKEN_COMPARISON_INTERSECTS)
        then Walk old r r1 st
        else Walk old r rest emit
    | [] => Walk old r rest emit
    end.
Proof.
  intros Hp. cbn [translate].
  destruct (token node) eqn:Et; try discriminate Hp; try reflexivity.
  simpl in Hp.
  by apply orb_true_iff in Hp as [->%bool_decide_eq_true | ->%bool_decide_eq_true].
Qed.

Lemma bbox_from_refl tokens st : bbox_from tokens st st.
Proof. by left. Qed.

(** What one token leads to: a null pointer read or a write past a
    buffer, the abandon, or the walk going on with a later part of the
    list. *)
Lemma translate_step old r node rest st :
  (exists e, Walk old r (node :: rest) st = NullDeref e
             \/ Walk old r (node :: rest) st = BufferOverrun e) \/
  Walk old r (node :: rest) st = Returned (cleanup old r) \/
  exists rest' st',
    Walk old r (node :: rest) st = Walk old r rest' st' /\
    (length rest' <= length rest)%nat /\ rest' ⊆ rest /\
    bbox_from rest st st'.
Proof.
  destruct (passes_through (token node)) eqn:Hp.
  { right; right. rewrite (translate_pass_step old r node rest st Hp). cbv zeta.
    destruct rest as [|n1 r1].
    - eexists [], _. split_and!; [reflexivity | done | done | by left].
    - destruct (_ && _).
      + exists r1, st. split_and!; [done | simpl; lia | | by left].
        intros x Hx. by apply list_elem_of_further.
      + eexists (n1 :: r1), _.
        split_and!; [reflexivity | done | done | by left]. }
  destruct (token node) eqn:Et; try discriminate Hp;
    try (right; left; cbn [translate]; rewrite Et; reflexivity).
  - (* a numeric literal *)
    cbn [translate]. rewrite Et. destruct (strtmpl st); cbv zeta.
    + destruct (overruns _ _); [left; eexists; by right |].
      right; right. eexists rest, _.
      split_and!; [reflexivity | done | done | by left].
    + left. eexists. by left.
  - (* a string literal *)
    cbn [translate]. rewrite Et.
    destruct (strtmpl st); [| left; eexists; by left].
    destruct (msOGREscapeSQLParam _ _); [| left; eexists; by left]. cbv zeta.
    destruct (overruns _ _); [left; eexists; by right |].
    right; right. eexists rest, _.
    split_and!; [reflexivity | done | done | by left].
  - (* INTERSECTS *)
    rewrite (translate_at_intersects sprintf_lf CPLEscapeString_SQL
               msExpressionTokenToString old r node rest st Et).
    unfold expect.
    destruct rest as [|n1 [|n2 [|n3 [|n4 [|n5 [|n6 [|n7 r7]]]]]]];
      repeat (case_bool_decide; [| right; left; reflexivity]);
      try (left; eexists; by left).
    destruct (dne _ _); [right; left; reflexivity |]. cbv zeta.
    assert (Hin : n4 ∈ n1 :: n2 :: n3 :: n4 :: n5 :: n6 :: n7 :: r7)
      by (do 3 apply list_elem_of_further; apply list_elem_of_here).
    assert (Hsub : r7 ⊆ n1 :: n2 :: n3 :: n4 :: n5 :: n6 :: n7 :: r7)
      by (intros x Hx; by do 7 apply list_elem_of_further).
    right; right. destruct r7 as [|n8 r8].
    + eexists [], _. split_and!; [reflexivity | simpl; lia | done |].
      right. by exists n4.
    + destruct (bool_decide (token n8 = MS_TOKEN_LOGICAL_AND)).
      * eexists r8, _. split_and!; [reflexivity | simpl; lia | | right; by exists n4].
        intros x Hx. apply Hsub. by apply list_elem_of_further.
      * eexists (n8 :: r8), _.
        split_and!; [reflexivity | simpl; lia | done | right; by exists n4].
  - (* a number field *)
    cbn [translate]. rewrite Et. cbv zeta.
    rewrite bool_decide_eq_false_2 by done.
    destruct rest as [|n1 r1]; [left; eexists; by left |].
    destruct (msOGREscapePropertyName _); [| left; eexists; by left].
    right; right. eexists (n1 :: r1), _.
    split_and!; [reflexivity | done | done | by left].
  - cbn [translate]. rewrite Et. cbv zeta.
    rewrite bool_decide_eq_false_2 by done.
    destruct rest as [|n1 r1]; [left; eexists; by left |].
    destruct (msOGREscapePropertyName _); [| left; eexists; by left].
    right; right. eexists (n1 :: r1), _.
    split_and!; [reflexivity | done | done | by left].
  - (* a string field *)
    cbn [translate]. rewrite Et. cbv zeta.
    rewrite bool_decide_eq_true_2 by done.
    destruct (msOGREscapePropertyName _); [| left; eexists; by left].
    right; right. eexists rest, _.
    split_and!; [reflexivity | done | done | by left].
  - (* another character *)
    right; left. simpl in Hp. apply orb_false_iff in Hp as [H1 H2].
    apply bool_decide_eq_false in H1, H2.
    by apply (translate_other_char old r node rest st c).
Qed.

Lemma bbox_from_trans (l l' : list tokenListNodeObj) st st' st'' :
  l' ⊆ l -> bbox_from l st st' -> bbox_from l' st' st'' -> bbox_from l st st''.
Proof.
  intros Hsub [[H1 H2] | (n & Hn & Ht & Hb)] [[H3 H4] | (m & Hm & Htm & Hbm)].
  - left. split; congruence.
  - right. exists m. split_and!; [by apply Hsub | done..].
  - right. exists n. split_and!; [done | done | congruence].
  - right. exists m. split_and!; [by apply Hsub | done..].
Qed.

(** Every call that returns has either given up or finished from a state
    whose shape rectangle comes from a literal shape of the filter. *)
Lemma translate_outcome old r tokens st t :
  Walk old r tokens st = Returned t ->
  t = cleanup old r \/
  exists st', t = finish old r st' /\ bbox_from tokens st st'.
Proof.
  remember (length tokens) as k eqn:Hk. revert tokens st Hk.
  induction k as [k IH] using lt_wf_ind. intros [|node rest] st Hk.
  - intros [= <-]. right. exists st. split; [done | by left].
  - destruct (translate_step old r node rest st)
      as [[e [He | He]] | [Hc | (rest' & st' & Hw & Hlen & Hsub & Hb)]].
    + rewrite He. discriminate.
    + rewrite He. discriminate.
    + rewrite Hc. intros [= <-]. by left.
    + rewrite Hw. intros Ht.
      destruct (IH (length rest') ltac:(simpl in Hk; lia) rest' st' eq_refl Ht)
        as [-> | (st'' & -> & Hb')]; [by left |].
      right. exists st''. split; [done |].
      assert (Hsub' : rest ⊆ node :: rest)
        by (intros x Hx; by apply list_elem_of_further).
      eapply (bbox_from_trans (node :: rest) rest'); [| | exact Hb'].
      * intros x Hx. by apply Hsub', Hsub.
      * destruct Hb as [Hb | (n & Hn & Hb)]; [by left |].
        right. exists n. split; [by apply Hsub' | done].
Qed.


Local Abbreviation Render :=
  (render sprintf_lf CPLEscapeString_SQL msExpressionTokenToString).
Local Abbreviation TokenSql :=
  (token_sql sprintf_lf CPLEscapeString_SQL msExpressionTokenToString).

Lemma escape_named item :
  item <> EmptyString -> exists e, msOGREscapePropertyName item = Some e.
Proof.
  intros Hne. unfold msOGREscapePropertyName.
  rewrite bool_decide_eq_false_2 by done. destruct (forallb _ _); by eexists.
Qed.

(** A copied-through token that is not an AND before an INTERSECTS adds
    its text. *)
Lemma translate_pass_emit old r n rest st :
  passes_through (token n) = true ->
  (token n = MS_TOKEN_LOGICAL_AND ->
   ~ starts_with MS_TOKEN_COMPARISON_INTERSECTS rest) ->
  Walk old r (n :: rest) st
  = Walk old r rest
      (mkState (msStringConcatenate (msSQLExpression st)
                  (msExpressionTokenToString (token n)))
               (sBBOX st) (strtmpl st) (bIsIntersectRectangle st)).
Proof.
  intros Hp Hand. rewrite (translate_pass_step old r n rest st Hp). cbv zeta.
  destruct rest as [|n1 r1]; [done |].
  destruct (decide (token n = MS_TOKEN_LOGICAL_AND)) as [Ha|Ha].
  - rewrite (bool_decide_eq_false_2 (token n1 = _)); [by rewrite andb_false_r |].
    intros Hi. apply (Hand Ha). by exists n1, r1.
  - by rewrite (bool_decide_eq_false_2 _ Ha).
Qed.

(** A field reference adds the escaped name in its template. *)
Lemma translate_binding_step old r n rest st e :
  is_field_binding (token n) = true ->
  (token n <> MS_TOKEN_BINDING_STRING -> rest <> []) ->
  msOGREscapePropertyName (tokenval_bindval_item n) = Some e ->
  Walk old r (n :: rest) st
  = Walk old r rest
      (mkState (msStringConcatenate (msSQLExpression st)
                  (sprintf_template (binding_template (token n) rest) e))
               (sBBOX st) (Some (binding_template (token n) rest))
               (bIsIntersectRectangle st)).
Proof.
  intros Hb Hn He. cbn [translate]. unfold binding_template.
  destruct (token n) eqn:Et; try discriminate Hb; cbv zeta.
  - rewrite !bool_decide_eq_false_2 by done.
    destruct rest as [|n1 r1]; [by destruct Hn |]. by rewrite He.
  - rewrite !bool_decide_eq_false_2 by done.
    destruct rest as [|n1 r1]; [by destruct Hn |]. by rewrite He.
  - rewrite !bool_decide_eq_true_2 by done. by rewrite He.
Qed.

Lemma length_append (a b : string) :
  String.length (a +:+ b) = (String.length a + String.length b)%nat.
Proof. induction a as [|c a IH]; simpl; [done | by rewrite IH]. Qed.

(** The buffer of a string literal holds it after the cast template and
    not after the plain one, whatever the string. *)
Lemma string_literal_fits (tm : template) (stresc : string) :
  overruns (String.length (template_text tm) + String.length stresc)
           ("'" +:+ stresc +:+ "'")
  = match tm with TMPL_CAST => false | TMPL_PLAIN => true end.
Proof.
  unfold overruns. rewrite !length_append.
  destruct tm; [apply Nat.leb_gt | apply Nat.leb_le]; simpl; lia.
Qed.

(** A literal after a field reference is rendered from its value when
    its buffer holds it. *)
Lemma translate_number_step old r n rest st tm :
  token n = MS_TOKEN_LITERAL_NUMBER ->
  strtmpl st = Some tm ->
  overruns (String.length (template_text tm) + 16)
           (sprintf_lf (tokenval_dblval n)) = false ->
  Walk old r (n :: rest) st
  = Walk old r rest
      (mkState (msStringConcatenate (msSQLExpression st)
                  (sprintf_lf (tokenval_dblval n)))
               (sBBOX st) (strtmpl st) (bIsIntersectRectangle st)).
Proof. intros Et Htm Hfit. cbn [translate]. by rewrite Et, Htm, Hfit. Qed.

Lemma translate_string_step old r n rest st :
  token n = MS_TOKEN_LITERAL_STRING ->
  strtmpl st = Some TMPL_CAST ->
  tokenval_strval n <> EmptyString ->
  Walk old r (n :: rest) st
  = Walk old r rest
      (mkState (msStringConcatenate (msSQLExpression st)
                  ("'" +:+ CPLEscapeString_SQL (tokenval_strval n) +:+ "'"))
               (sBBOX st) (strtmpl st) (bIsIntersectRectangle st)).
Proof.
  intros Et Htm Hne. cbn [translate]. rewrite Et, Htm.
  unfold msOGREscapeSQLParam. rewrite bool_decide_eq_false_2 by done.
  cbv zeta. by rewrite string_literal_fits.
Qed.

(** After the plain template a string literal is written past the end of
    its buffer. *)
Lemma translate_string_overrun old r n rest st :
  token n = MS_TOKEN_LITERAL_STRING ->
  strtmpl st = Some TMPL_PLAIN ->
  tokenval_strval n <> EmptyString ->
  Walk old r (n :: rest) st = BufferOverrun "snippet".
Proof.
  intros Et Htm Hne. cbn [translate]. rewrite Et, Htm.
  unfold msOGREscapeSQLParam. rewrite bool_decide_eq_false_2 by done.
  cbv zeta. by rewrite string_literal_fits.
Qed.

(** The walk over attribute tokens. *)
Lemma attribute_walk old r pre l :
  forall tmpl st,
    strtmpl st = tmpl ->
    attribute_tokens sprintf_lf tmpl pre l ->
    exists st',
      Walk old r (pre ++ l) st = Walk old r l st' /\
      msSQLExpression st' = Render (msSQLExpression st) pre l /\
      sBBOX st' = sBBOX st /\
      bIsIntersectRectangle st' = bIsIntersectRectangle st.
Proof.
  induction pre as [|n p IH]; intros tmpl st Htmpl Hattr.
  { exists st. by split_and!. }
  cbn [app]. cbn [render]. unfold token_sql at 1.
  cbn [attribute_tokens] in Hattr.
  assert (Hstep : forall st1,
            Walk old r (n :: p ++ l) st = Walk old r (p ++ l) st1 ->
            sBBOX st1 = sBBOX st ->
            bIsIntersectRectangle st1 = bIsIntersectRectangle st ->
            attribute_tokens sprintf_lf (strtmpl st1) p l ->
            exists st',
              Walk old r (n :: p ++ l) st = Walk old r l st' /\
              msSQLExpression st' = Render (msSQLExpression st1) p l /\
              sBBOX st' = sBBOX st /\
              bIsIntersectRectangle st' = bIsIntersectRectangle st).
  { intros st1 Hw Hb Hi Hrest.
    destruct (IH (strtmpl st1) st1 eq_refl Hrest) as (st' & H1 & H2 & H3 & H4).
    exists st'. rewrite Hw, H1, H3, H4. by split_and!. }
  assert (Hpass :
            passes_through (token n) = true /\
            (token n = MS_TOKEN_LOGICAL_AND ->
             ~ starts_with MS_TOKEN_COMPARISON_INTERSECTS (p ++ l)) /\
            attribute_tokens sprintf_lf tmpl p l ->
            exists st',
              Walk old r (n :: p ++ l) st = Walk old r l st' /\
              msSQLExpression st'
              = Render (msStringConcatenate (msSQLExpression st)
                          (msExpressionTokenToString (token n))) p l /\
              sBBOX st' = sBBOX st /\
              bIsIntersectRectangle st' = bIsIntersectRectangle st).
  { intros (Hp & Hand & Hrest).
    apply (Hstep
              (mkState (msStringConcatenate (msSQLExpression st)
                          (msExpressionTokenToString (token n)))
                       (sBBOX st) (strtmpl st) (bIsIntersectRectangle st)));
      [by apply translate_pass_emit | done | done |].
    cbn [strtmpl]. by rewrite Htmpl. }
  assert (Hbind : forall e,
            is_field_binding (token n) = true ->
            (token n <> MS_TOKEN_BINDING_STRING -> p ++ l <> []) ->
            msOGREscapePropertyName (tokenval_bindval_item n) = Some e ->
            attribute_tokens sprintf_lf
              (Some (binding_template (token n) (p ++ l))) p l ->
            exists st',
              Walk old r (n :: p ++ l) st = Walk old r l st' /\
              msSQLExpression st'
              = Render (msStringConcatenate (msSQLExpression st)
                          (sprintf_template (binding_template (token n) (p ++ l))
                             e)) p l /\
              sBBOX st' = sBBOX st /\
              bIsIntersectRectangle st' = bIsIntersectRectangle st).
  { intros e Hb Hn He Hrest.
    apply (Hstep
              (mkState (msStringConcatenate (msSQLExpression st)
                          (sprintf_template
                             (binding_template (token n) (p ++ l)) e))
                       (sBBOX st) (Some (binding_template (token n) (p ++ l)))
                       (bIsIntersectRectangle st)));
      [by apply translate_binding_step | done | done | done]. }
  destruct (token n) eqn:Et;
    try (apply Hpass; exact Hattr);
    try (destruct Hattr as [Hp _]; discriminate Hp).
  - (* a numeric literal *)
    destruct Hattr as [Hfit Hrest]. destruct tmpl as [tm|]; [| done].
    apply (Hstep
              (mkState (msStringConcatenate (msSQLExpression st)
                          (sprintf_lf (tokenval_dblval n)))
                       (sBBOX st) (strtmpl st) (bIsIntersectRectangle st)));
      [by apply (translate_number_step _ _ _ _ _ tm) | done | done |].
    cbn [strtmpl]. by rewrite Htmpl.
  - (* a string literal *)
    destruct Hattr as (-> & Hne & Hrest).
    apply (Hstep
              (mkState (msStringConcatenate (msSQLExpression st)
                          ("'" +:+ CPLEscapeString_SQL (tokenval_strval n)
                           +:+ "'"))
                       (sBBOX st) (strtmpl st) (bIsIntersectRectangle st)));
      [by apply translate_string_step | done | done |].
    cbn [strtmpl]. by rewrite Htmpl.
  - (* a number field *)
    destruct Hattr as (Hne & Hnext & Hrest).
    destruct (escape_named _ Hne) as [e He]. rewrite He. cbn [default].
    by apply Hbind.
  - destruct Hattr as (Hne & Hnext & Hrest).
    destruct (escape_named _ Hne) as [e He]. rewrite He. cbn [default].
    by apply Hbind.
  - (* a string field *)
    destruct Hattr as (Hne & Hrest).
    destruct (escape_named _ Hne) as [e He]. rewrite He. cbn [default].
    by apply Hbind.
Qed.

Lemma render_Some sql p l : is_Some (Render (Some sql) p l).
Proof. revert sql. induction p as [|n p IH]; intros sql; [by eexists | apply IH]. Qed.

Lemma render_nonempty p l : p <> [] -> is_Some (Render None p l).
Proof. destruct p as [|n p]; [done | intros _; apply render_Some]. Qed.

(** The state after a recognised intersects sequence. *)
Lemma translate_sequence_state old r s l st :
  is_intersects_sequence s ->
  Walk old r (s ++ l) st
  = match l with
    | n8 :: r8 =>
        if bool_decide (token n8 = MS_TOKEN_LOGICAL_AND)
        then Walk old r r8 (after_sequence st (sequence_shape s))
        else Walk old r l (after_sequence st (sequence_shape s))
    | [] => Walk old r l (after_sequence st (sequence_shape s))
    end.
Proof.
  intros [Hk Hv].
  destruct s as [|n0 [|n1 [|n2 [|n3 [|n4 [|n5 [|n6 [|n7 [|? ?]]]]]]]]];
    try discriminate Hk.
  injection Hk as E0 E1 E2 E3 E4 E5 E6 E7.
  specialize (Hv n7 eq_refl).
  cbn [app]. rewrite (translate_at_intersects _ _ _ _ _ _ _ _ E0).
  rewrite (expect_ok _ _ _ _ _ _ E1), (expect_ok _ _ _ _ _ _ E2),
    (expect_ok _ _ _ _ _ _ E3), (expect_ok _ _ _ _ _ _ E4),
    (expect_ok _ _ _ _ _ _ E5), (expect_ok _ _ _ _ _ _ E6),
    (expect_ok _ _ _ _ _ _ E7).
  rewrite Hv. change (dne MS_TRUE MS_TRUE) with false. cbv iota zeta.
  reflexivity.
Qed.

(** X13.  Whatever the filter, a call that returns leaves the caller's
    rectangle as it was, or refined with the bounds of a literal shape of
    the filter: no other rectangle is ever written. *)
Theorem rectangle_refined_from_shape_literal old tokens r t :
  Translate old tokens r = Returned t ->
  psRect t = r \/
  exists n, n ∈ tokens /\ token n = MS_TOKEN_LITERAL_SHAPE /\
            psRect t = refine_rect r (bounds (tokenval_shpval n)).
Proof.
  intros Ht. apply translate_outcome in Ht as [-> | (st' & -> & Hb)]; [by left |].
  destruct Hb as [[Hb _] | (n & Hn & Hk & Hb)].
  - left. unfold finish. cbn [psRect]. by rewrite Hb.
  - right. exists n. split_and!; try done. unfold finish. cbn [psRect].
    by rewrite Hb.
Qed.

(** X14.  A filter of attribute tokens only - field references with a
    name, literals that fit the buffer the last field reference gives
    them (a number of fewer characters than the template has and 16
    more; a string after a reference rendered with the cast), comparison
    and logical operators and parentheses - is translated completely:
    the call returns the tokens' texts concatenated in order, stores the
    same string as the layer's native filter and leaves the rectangle
    untouched. *)
Theorem attribute_filter_translated old tokens r :
  tokens <> [] ->
  attribute_tokens sprintf_lf None tokens [] ->
  exists sql,
    Render None tokens [] = Some sql /\
    Translate old tokens r
    = Returned (mkTranslation (Some sql) (Some sql) r).
Proof.
  intros Hne Hattr.
  destruct (render_nonempty tokens [] Hne) as [sql Hsql]. exists sql.
  split; [done |].
  destruct (attribute_walk old r tokens [] None initial_state)
    as (st' & Hw & Hq & Hb & Hi); [done | done |].
  unfold msOGRTranslateMsExpressionToOGRSQL.
  rewrite <- (app_nil_r tokens) at 1. rewrite Hw. cbn [translate].
  unfold finish. rewrite Hb, Hq. cbn [sBBOX msSQLExpression initial_state].
  by rewrite Hsql.
Qed.

(** X15.  An AND standing directly before the spatial predicate is
    consumed together with the INTERSECTS token; the shape reference after
    the parenthesis then makes the translation give up.  So attribute
    conditions (whose literals fit their buffers) followed by
    [AND intersects([shape], literal) = true] return no query and change
    neither the native filter nor the rectangle. *)
Theorem and_before_intersects_abandons old pre a s rest r :
  attribute_tokens sprintf_lf None pre (a :: s ++ rest) ->
  token a = MS_TOKEN_LOGICAL_AND ->
  is_intersects_sequence s ->
  Translate old (pre ++ a :: s ++ rest) r = Returned (cleanup old r).
Proof.
  intros Hattr Ha [Hk _].
  destruct (attribute_walk old r pre (a :: s ++ rest) None initial_state)
    as (st' & Hw & _); [done | done |].
  unfold msOGRTranslateMsExpressionToOGRSQL. rewrite Hw. clear Hw.
  destruct s as [|n0 [|n1 [|n2 s']]]; try discriminate Hk.
  injection Hk as E0 E1 E2 _.
  cbn [app]. rewrite translate_pass_step by (by rewrite Ha). cbv zeta.
  rewrite Ha, E0, !bool_decide_eq_true_2 by done. cbn [andb].
  rewrite translate_pass_step by (by rewrite E1). cbv zeta.
  rewrite E1. cbn [bool_decide decide_rel token_kind_eq_dec andb].
  rewrite (bool_decide_eq_false_2 (LPAREN = MS_TOKEN_LOGICAL_AND)) by done.
  cbn [andb translate]. by rewrite E2.
Qed.

(** X16.  The spatial predicate first, then AND and attribute tokens
    (whose literals fit their buffers): the
    returned query is that of the attribute tokens alone, the rectangle is
    refined with the bounds of the literal shape, and the query becomes
    the layer's native filter exactly when the literal shape passes the
    rectangle test; otherwise the native filter keeps its value. *)
Theorem spatial_then_attributes old s a attrs r :
  is_intersects_sequence s ->
  token a = MS_TOKEN_LOGICAL_AND ->
  attrs <> [] ->
  attribute_tokens sprintf_lf None attrs [] ->
  exists sql,
    Render None attrs [] = Some sql /\
    Translate old (s ++ a :: attrs) r
    = Returned (mkTranslation (Some sql)
                  (if is_rectangle (sequence_shape s) then Some sql else old)
                  (refine_rect r (bounds (sequence_shape s)))).
Proof.
  intros Hs Ha Hne Hattr.
  destruct (render_nonempty attrs [] Hne) as [sql Hsql]. exists sql.
  split; [done |].
  unfold msOGRTranslateMsExpressionToOGRSQL.
  rewrite (translate_sequence_state old r s (a :: attrs) _ Hs).
  rewrite bool_decide_eq_true_2 by done.
  destruct (attribute_walk old r attrs [] None
              (after_sequence initial_state (sequence_shape s)))
    as (st' & Hw & Hq & Hb & Hi); [done | done |].
  rewrite <- (app_nil_r attrs) at 1. rewrite Hw. cbn [translate].
  unfold finish. rewrite Hb, Hq, Hi.
  cbn [after_sequence sBBOX msSQLExpression bIsIntersectRectangle initial_state].
  rewrite Hsql. rewrite bool_decide_eq_true_2 by (by eexists). cbn [negb orb].
  by destruct (is_rectangle _).
Qed.

(** X17.  A number field (double or integer) as the last token, after
    attribute tokens whose literals fit their buffers: the test for a
    regular-expression operator reads [node->next->token] where
    [node->next] is null. *)
Theorem number_field_last_reads_null old pre n r :
  attribute_tokens sprintf_lf None pre [n] ->
  token n = MS_TOKEN_BINDING_DOUBLE \/ token n = MS_TOKEN_BINDING_INTEGER ->
  Translate old (pre ++ [n]) r = NullDeref "node->next".
Proof.
  intros Hattr Hn.
  destruct (attribute_walk old r pre [n] None initial_state)
    as (st' & Hw & _); [done | done |].
  unfold msOGRTranslateMsExpressionToOGRSQL. rewrite Hw.
  cbn [translate]. by destruct Hn as [-> | ->].
Qed.

(** X18.  An escaped property name holds only letters, digits,
    underscores and bytes above 127, and escaping it again gives it
    back. *)
Theorem escaped_property_name_safe s e :
  msOGREscapePropertyName s = Some e ->
  forallb property_char_ok (String.list_ascii_of_string e) = true /\
  msOGREscapePropertyName e = Some e.
Proof.
  unfold msOGREscapePropertyName. intros H.
  case_bool_decide as Hs; [discriminate |].
  destruct (forallb _ (String.list_ascii_of_string s)) eqn:Hok.
  - injection H as <-. rewrite Hok. split; [done |].
    by rewrite bool_decide_eq_false_2.
  - injection H as <-. split; vm_compute; reflexivity.
Qed.

(** X19.  The rectangle test accepts exactly the polygons of one ring of
    five points that starts at a corner, leaves it along the y axis and
    comes back to it: [(x0,y0) (x0,y1) (x1,y1) (x1,y0) (x0,y0)]. *)
Theorem rectangle_test_exact shape :
  is_rectangle shape = true <->
  type shape = MS_SHAPE_POLYGON /\
  exists x0 y0 x1 y1, line shape = [corner_ring x0 y0 x1 y1].
Proof.
  unfold is_rectangle, corner_ring. split.
  - intros H. repeat (apply andb_true_iff in H as [H ?]).
    apply bool_decide_eq_true in H. split; [done |].
    destruct (line shape) as [|l0 [|? ?]]; try discriminate.
    destruct l0 as [|[a0 b0] [|[a1 b1] [|[a2 b2] [|[a3 b3] [|[a4 b4] [|? ?]]]]]];
      try discriminate.
    simpl in *.
    repeat match goal with
           | H : _ && _ = true |- _ => apply andb_true_iff in H as [H ?]
           end.
    destruct a0, b0, a1, b1, a2, b2, a3, b3, a4, b4; try discriminate.
    repeat match goal with
           | H : deq (Num _) (Num _) = true |- _ => apply Z.eqb_eq in H
           end.
    subst. by eexists _, _, _, _.
  - intros [Ht (x0 & y0 & x1 & y1 & ->)]. rewrite Ht. simpl.
    by rewrite !Z.eqb_refl.
Qed.

End TranslationOutcome.

Section TranslationExamples.
Import Filter FilterFacts.

Local Abbreviation translate_example :=
  (msOGRTranslateMsExpressionToOGRSQL render_number double_quotes token_text).

Lemma rectangle_refined_from_shape_literal_witness :
  let tokens := intersects_sequence literal_square ++ logical_and :: name_is_x in
  let t := mkTranslation (Some "CAST(name AS CHARACTER) = 'x'")
                         (Some "CAST(name AS CHARACTER) = 'x'")
                         (mkRect 0 0 5 10) in
  translate_example None tokens view_rect = Returned t /\
  (psRect t = view_rect \/
   exists n, n ∈ tokens /\ token n = MS_TOKEN_LITERAL_SHAPE /\
             psRect t = refine_rect view_rect (bounds (tokenval_shpval n))).
Proof.
  intros tokens t. split; [vm_compute; reflexivity |].
  apply (rectangle_refined_from_shape_literal render_number double_quotes
           token_text None tokens view_rect t).
  vm_compute. reflexivity.
Defined.

Lemma attribute_filter_translated_witness :
  exists sql,
    render render_number double_quotes token_text None name_is_x [] = Some sql /\
    translate_example None name_is_x view_rect
    = Returned (mkTranslation (Some sql) (Some sql) view_rect).
Proof.
  apply (attribute_filter_translated render_number double_quotes token_text
           None name_is_x view_rect).
  - discriminate.
  - simpl. split_and!; (reflexivity || discriminate || exact I).
Defined.

Lemma and_before_intersects_abandons_witness :
  translate_example (Some "old")
    (name_is_x ++ logical_and :: intersects_sequence literal_square ++ [])
    view_rect
  = Returned (cleanup (Some "old") view_rect).
Proof.
  apply (and_before_intersects_abandons render_number double_quotes token_text
           (Some "old") name_is_x logical_and
           (intersects_sequence literal_square) [] view_rect).
  - simpl. split_and!; (reflexivity || discriminate || exact I).
  - reflexivity.
  - split; [reflexivity |]. intros n E. injection E as <-. reflexivity.
Defined.

Lemma spatial_then_attributes_witness :
  exists sql,
    render render_number double_quotes token_text None name_is_x [] = Some sql /\
    translate_example None
      (intersects_sequence literal_square ++ logical_and :: name_is_x) view_rect
    = Returned
        (mkTranslation (Some sql)
           (if is_rectangle (sequence_shape (intersects_sequence literal_square))
            then Some sql else None)
           (refine_rect view_rect
              (bounds (sequence_shape (intersects_sequence literal_square))))).
Proof.
  apply (spatial_then_attributes render_number double_quotes token_text
           None (intersects_sequence literal_square) logical_and name_is_x
           view_rect).
  - split; [reflexivity |]. intros n E. injection E as <-. reflexivity.
  - reflexivity.
  - discriminate.
  - simpl. split_and!; (reflexivity || discriminate || exact I).
Defined.

Lemma number_field_last_reads_null_witness :
  translate_example None (a_equals ++ [field_b]) view_rect
  = NullDeref "node->next".
Proof.
  apply (number_field_last_reads_null render_number double_quotes token_text
           None a_equals field_b view_rect).
  - simpl. split_and!; (reflexivity || discriminate || exact I).
  - right. reflexivity.
Defined.

Lemma escaped_property_name_safe_witness :
  forallb property_char_ok
    (String.list_ascii_of_string "invalid_property_name") = true /\
  msOGREscapePropertyName "invalid_property_name" = Some "invalid_property_name".
Proof.
  apply (escaped_property_name_safe "a b" "invalid_property_name").
  vm_compute. reflexivity.
Defined.

End TranslationExamples.

(** ** Further properties of style decoding *)

Section SymbolLookup.
Import Style StyleFacts.

Variable msGetSymbolIndex : string -> bool -> Z.
Variable msStringSplit : string -> list string.

Lemma lookup_loop_found b n names :
  n <> -1 ->
  foldl (fun n p => if n =? -1 then msGetSymbolIndex p b else n) n names = n.
Proof.
  intros Hn. induction names as [|p names IH]; simpl; [done |].
  destruct (Z.eqb_spec n (-1)); [done | apply IH].
Qed.

Lemma lookup_loop_none b names :
  Forall (fun q => msGetSymbolIndex q b = -1) names ->
  foldl (fun n p => if n =? -1 then msGetSymbolIndex p b else n) (-1) names = -1.
Proof.
  induction 1 as [|p names Hp _ IH]; simpl; [done |]. by rewrite Hp.
Qed.

Lemma lookup_loop_first b pre p post :
  Forall (fun q => msGetSymbolIndex q b = -1) pre ->
  msGetSymbolIndex p b <> -1 ->
  foldl (fun n p => if n =? -1 then msGetSymbolIndex p b else n) (-1)
        (pre ++ p :: post)
  = msGetSymbolIndex p b.
Proof.
  intros Hpre Hp. rewrite foldl_app, (lookup_loop_none b pre Hpre). simpl.
  by apply lookup_loop_found.
Qed.

(** X20.  The pieces of a symbol id are looked up from left to right and
    the first one the symbol set knows gives the result: later pieces and
    the default symbol are not used. *)
Theorem symbol_first_known_name id pszDefaultSymbol b pre p post :
  id <> EmptyString ->
  msStringSplit id = pre ++ p :: post ->
  Forall (fun q => msGetSymbolIndex q b = -1) pre ->
  msGetSymbolIndex p b <> -1 ->
  msOGRGetSymbolId msGetSymbolIndex msStringSplit (Some id) pszDefaultSymbol b
  = msGetSymbolIndex p b.
Proof.
  intros Hid Hsplit Hpre Hp. unfold msOGRGetSymbolId.
  rewrite bool_decide_eq_false_2 by done.
  rewrite Hsplit, (lookup_loop_first b pre p post Hpre Hp).
  destruct (Z.eqb_spec (msGetSymbolIndex p b) (-1)) as [E|_]; [done |].
  destruct pszDefaultSymbol; cbv zeta;
    by destruct (Z.eqb_spec (msGetSymbolIndex p b) (-1)).
Qed.

(** X21.  When the symbol id is missing or empty, or none of its pieces
    is known, the result is the index of the default symbol, and 0 when
    there is no default symbol or it is not known either; the result is
    never -1. *)
Theorem symbol_fallback pszSymbolId pszDefaultSymbol b :
  Forall (fun q => msGetSymbolIndex q b = -1)
         (tried_names msStringSplit pszSymbolId) ->
  msOGRGetSymbolId msGetSymbolIndex msStringSplit pszSymbolId pszDefaultSymbol b
  = match pszDefaultSymbol with
    | Some d => if msGetSymbolIndex d b =? -1 then 0 else msGetSymbolIndex d b
    | None => 0
    end
  /\ msOGRGetSymbolId msGetSymbolIndex msStringSplit pszSymbolId
       pszDefaultSymbol b <> -1.
Proof.
  intros Hnone. unfold msOGRGetSymbolId.
  assert (match pszSymbolId with
          | Some id =>
              if bool_decide (id = EmptyString) then -1
              else foldl (fun n p => if n =? -1 then msGetSymbolIndex p b else n)
                         (-1) (msStringSplit id)
          | None => -1
          end = -1) as ->.
  { unfold tried_names in Hnone. destruct pszSymbolId as [id|]; [| done].
    case_bool_decide; [done | by apply lookup_loop_none]. }
  cbv zeta. destruct pszDefaultSymbol as [d|]; simpl.
  - destruct (Z.eqb_spec (msGetSymbolIndex d b) (-1)) as [E|E]; [done |].
    by destruct (Z.eqb_spec (msGetSymbolIndex d b) (-1)).
  - done.
Qed.

End SymbolLookup.

Section SortOrder.
Import Style StyleFacts.

Lemma sort_fct_values a b :
  msOGRUpdateStyleSortFct a b = -1 \/ msOGRUpdateStyleSortFct a b = 1.
Proof.
  unfold msOGRUpdateStyleSortFct.
  destruct (_ <? _); [by left |]. destruct (_ >? _); [by right |].
  destruct (_ <? _)%nat; [by left | by right].
Qed.

Lemma sort_fct_less a b :
  msOGRUpdateStyleSortFct a b = -1 <->
  nPriority a < nPriority b \/
  (nPriority a = nPriority b /\ (nApparitionIndex a < nApparitionIndex b)%nat).
Proof.
  unfold msOGRUpdateStyleSortFct. rewrite Z.gtb_ltb.
  destruct (Z.ltb_spec (nPriority a) (nPriority b)); [intuition lia |].
  destruct (Z.ltb_spec (nPriority b) (nPriority a)); [intuition lia |].
  destruct (Nat.ltb_spec (nApparitionIndex a) (nApparitionIndex b));
    intuition lia.
Qed.

Lemma sort_struct_eq a b :
  nPriority a = nPriority b -> nApparitionIndex a = nApparitionIndex b -> a = b.
Proof. destruct a, b; simpl; congruence. Qed.

(** X22.  The comparator never answers 0; on two different entries it is
    antisymmetric, it is transitive, and an entry compared with itself
    gives 1.  It is thus a strict total order on the entries of one call,
    whose apparition indexes differ. *)
Theorem sort_fct_strict_total_order a b c :
  (msOGRUpdateStyleSortFct a b = -1 \/ msOGRUpdateStyleSortFct a b = 1) /\
  (a <> b ->
   (msOGRUpdateStyleSortFct a b = -1 <-> msOGRUpdateStyleSortFct b a = 1)) /\
  (msOGRUpdateStyleSortFct a b = -1 -> msOGRUpdateStyleSortFct b c = -1 ->
   msOGRUpdateStyleSortFct a c = -1) /\
  msOGRUpdateStyleSortFct a a = 1.
Proof.
  split_and!.
  - apply sort_fct_values.
  - intros Hab. split.
    + intros H. destruct (sort_fct_values b a) as [H'|H']; [| done].
      apply sort_fct_less in H, H'. lia.
    + intros H. destruct (sort_fct_values a b) as [H'|H']; [done |].
      exfalso. apply Hab.
      assert (~ msOGRUpdateStyleSortFct a b = -1) as Ha by (rewrite H'; lia).
      assert (~ msOGRUpdateStyleSortFct b a = -1) as Hb by (rewrite H; lia).
      rewrite sort_fct_less in Ha, Hb. apply sort_struct_eq; lia.
  - rewrite !sort_fct_less. lia.
  - destruct (sort_fct_values a a) as [H|H]; [| done].
    apply sort_fct_less in H. lia.
Qed.

Lemma no_inversion_sorted l : no_inversion l -> StronglySorted key_le l.
Proof.
  induction l as [|x l IH]; intros Hl; [constructor |].
  constructor.
  - apply IH. intros i j a b Hij Hi Hj. by apply (Hl (S i) (S j)); [lia | |].
  - apply Forall_forall. intros y Hy.
    apply list_elem_of_lookup in Hy as [j Hj].
    assert (~ msOGRUpdateStyleSortFct y x < 0) as Hyx
      by (by apply (Hl 0%nat (S j)); [lia | |]).
    apply sort_fct_ge. by apply Z.ltb_ge, Z.nlt_ge.
Qed.

Lemma key_le_antisym a b : key_le a b -> key_le b a -> a = b.
Proof. unfold key_le. intros ??. apply sort_struct_eq; lia. Qed.

(** X23.  The sorted array is determined by the comparator: every
    arrangement of the entries in which no entry stands before one that
    compares less is the array [qsort] gives, whichever sorting algorithm
    the C library uses. *)
Theorem sorted_array_unique l l' :
  l' ≡ₚ l -> no_inversion l' -> l' = qsort l.
Proof.
  intros Hp Hs.
  apply (StronglySorted_unique_strong key_le).
  - intros x y _ _. apply key_le_antisym.
  - by apply no_inversion_sorted.
  - apply qsort_sorted.
  - by rewrite qsort_perm.
Qed.

End SortOrder.

Section StyleHelperExamples.
Import Style StyleFacts.

Lemma symbol_first_known_name_witness :
  msOGRGetSymbolId two_symbols comma_split (Some "mapinfo-sym-35,ogr-sym-3")
                   (Some "default-marker") false
  = two_symbols "ogr-sym-3" false.
Proof.
  apply (symbol_first_known_name two_symbols comma_split
           "mapinfo-sym-35,ogr-sym-3" (Some "default-marker") false
           ["mapinfo-sym-35"] "ogr-sym-3" []).
  - discriminate.
  - vm_compute. reflexivity.
  - repeat constructor.
  - vm_compute. discriminate.
Defined.

Lemma symbol_fallback_witness :
  msOGRGetSymbolId two_symbols comma_split (Some "mapinfo-sym-35")
                   (Some "default-marker") false
  = (if two_symbols "default-marker" false =? -1 then 0
     else two_symbols "default-marker" false)
  /\ msOGRGetSymbolId two_symbols comma_split (Some "mapinfo-sym-35")
                      (Some "default-marker") false <> -1.
Proof.
  apply (symbol_fallback two_symbols comma_split (Some "mapinfo-sym-35")
           (Some "default-marker") false).
  vm_compute. repeat constructor.
Defined.

Lemma sorted_array_unique_witness :
  [mkSort 1 1; mkSort 3 0] = qsort [mkSort 3 0; mkSort 1 1].
Proof.
  apply (sorted_array_unique [mkSort 3 0; mkSort 1 1] [mkSort 1 1; mkSort 3 0]).
  - apply perm_swap.
  - intros i j a b Hij Hi Hj.
    destruct i as [|[|i]], j as [|[|j]]; try lia; try discriminate.
    injection Hi as <-. injection Hj as <-. vm_compute. discriminate.
Defined.

End StyleHelperExamples.

(** ** Items and their values *)

Section ItemValues.
Import Layer Style Items ItemFacts.

Variable OGR_SM_Parts : OGRFeature -> list (option OGRStyleTool).
Variable OGR_ST_GetParamStr : OGRStyleTool -> OGRSTParam -> option string.
Variable OGR_FD_FieldNames : OGRLayer -> list string.
Variable OGR_FD_GetFieldIndex : OGRLayer -> string -> Z.
Variable atoi : string -> Z.

Local Abbreviation ItemValue := (item_value OGR_ST_GetParamStr).
Local Abbreviation ParamOr := (param_or OGR_ST_GetParamStr).
Local Abbreviation GetValues := (msOGRGetValues OGR_SM_Parts OGR_ST_GetParamStr).
Local Abbreviation ItemIndex := (item_index OGR_FD_GetFieldIndex atoi).
Local Abbreviation ItemIndexes := (item_indexes OGR_FD_GetFieldIndex atoi).
Local Abbreviation ToolsOf := (style_tools_of OGR_SM_Parts).

Ltac index_tests :=
  cbv [MSOGR_LABELFONTNAMEINDEX MSOGR_LABELSIZEINDEX MSOGR_LABELTEXTINDEX
       MSOGR_LABELANGLEINDEX MSOGR_LABELFCOLORINDEX MSOGR_LABELBCOLORINDEX
       MSOGR_LABELPLACEMENTINDEX MSOGR_LABELANCHORINDEX MSOGR_LABELDXINDEX
       MSOGR_LABELDYINDEX MSOGR_LABELPERPINDEX MSOGR_LABELBOLDINDEX
       MSOGR_LABELITALICINDEX MSOGR_LABELUNDERLINEINDEX
       MSOGR_LABELPRIORITYINDEX MSOGR_LABELSTRIKEOUTINDEX
       MSOGR_LABELSTRETCHINDEX MSOGR_LABELADJHORINDEX MSOGR_LABELADJVERTINDEX
       MSOGR_LABELHCOLORINDEX MSOGR_LABELOCOLORINDEX MSOGR_LABELPARAMINDEX
       MSOGR_BRUSHPARAMINDEX MSOGR_PENPARAMINDEX MSOGR_SYMBOLPARAMINDEX] in *;
  repeat match goal with
         | |- context [?a =? ?b] =>
             destruct (Z.eqb_spec a b); [try lia |]
         | |- context [?a <=? ?b] =>
             destruct (Z.leb_spec a b); [try lia |]
         end;
  try lia.

Ltac name_tests :=
  repeat match goal with
         | |- context [EQUAL ?a ?b] =>
             let v := eval vm_compute in (EQUAL a b) in
             change (EQUAL a b) with v; cbv iota
         | |- context [EQUALN ?a ?b ?n] =>
             let v := eval vm_compute in (EQUALN a b n) in
             change (EQUALN a b n) with v; cbv iota
         | |- context [advance ?n ?a] =>
             let v := eval vm_compute in (advance n a) in
             change (advance n a) with v
         end.

(** An index of -800 or more has a value. *)
Lemma item_value_some tools f idx :
  MSOGR_SYMBOLPARAMINDEX <= idx -> is_Some (ItemValue tools f idx).
Proof.
  intros H. unfold item_value. index_tests; by eexists.
Qed.

Lemma item_value_none tools f idx :
  idx < MSOGR_SYMBOLPARAMINDEX -> ItemValue tools f idx = None.
Proof.
  intros H. unfold item_value. index_tests; done.
Qed.

Lemma get_values_length tools f ix values :
  get_values OGR_ST_GetParamStr tools f ix = Some values ->
  length values = length ix.
Proof.
  revert values. induction ix as [|idx ix IH]; intros values; simpl.
  - by intros [= <-].
  - destruct (ItemValue tools f idx); [| done].
    destruct (get_values _ _ _ ix); [| done].
    intros [= <-]. simpl. f_equal. by apply IH.
Qed.

Lemma get_values_some tools f ix :
  is_Some (get_values OGR_ST_GetParamStr tools f ix) <->
  Forall (fun idx => MSOGR_SYMBOLPARAMINDEX <= idx) ix.
Proof.
  induction ix as [|idx ix IH]; simpl.
  - split; [constructor | by eexists].
  - rewrite Forall_cons, <- IH.
    destruct (Z_lt_le_dec idx MSOGR_SYMBOLPARAMINDEX) as [Hlt|Hle].
    + rewrite (item_value_none _ _ _ Hlt). split; [by intros [? ?] | lia].
    + destruct (item_value_some tools f idx Hle) as [v ->].
      destruct (get_values _ _ _ ix); split.
      * intros _. by split; [| eexists].
      * by eexists.
      * by intros [? ?].
      * by intros [_ [? ?]].
Qed.

Lemma values_length itemindexes f values :
  GetValues itemindexes f = Some values -> length values = length itemindexes.
Proof.
  unfold msOGRGetValues. case_bool_decide; [done | apply get_values_length].
Qed.

(** X24.  [msOGRGetValues] returns values exactly when there are items
    and no item index is below -800, and then it returns one value per
    item. *)
Theorem values_one_per_item itemindexes f :
  (is_Some (GetValues itemindexes f) <->
   itemindexes <> [] /\
   Forall (fun idx => MSOGR_SYMBOLPARAMINDEX <= idx) itemindexes) /\
  (forall values,
     GetValues itemindexes f = Some values ->
     length values = length itemindexes).
Proof.
  unfold msOGRGetValues. split.
  - case_bool_decide as Hnil.
    + split; [by intros [? ?] | by intros [? _]].
    + rewrite get_values_some. by intuition.
  - intros values. case_bool_decide; [done | apply get_values_length].
Qed.

Lemma item_index_family lyr k suffix :
  ItemIndex lyr (family_name k +:+ suffix) = family_index k + atoi suffix.
Proof.
  destruct k; unfold item_index; cbn [family_name family_index];
    name_tests; reflexivity.
Qed.

Lemma item_value_family tools f k n :
  0 <= n < 100 ->
  ItemValue tools f (family_index k + n)
  = Some (ParamOr (family_tool k tools) (param_number n) EmptyString).
Proof.
  intros Hn. unfold item_value.
  destruct k; cbv [family_index family_tool]; index_tests;
    repeat f_equal; lia.
Qed.

Lemma item_indexes_lookup lyr items ix i item :
  ItemIndexes lyr items = (MS_SUCCESS, ix) ->
  items !! i = Some item ->
  ix !! i = Some (ItemIndex lyr item).
Proof.
  revert ix i. induction items as [|it items IH]; intros ix i; [done |].
  cbn [item_indexes]. cbv zeta.
  destruct (Z.eqb_spec (ItemIndex lyr it) (-1)); [done |].
  destruct (ItemIndexes lyr items) as [st l] eqn:E.
  intros [= -> <-] Hi. destruct i as [|i]; simpl in *.
  - by simplify_eq.
  - by apply IH.
Qed.

Lemma get_values_lookup tools f ix values i idx :
  get_values OGR_ST_GetParamStr tools f ix = Some values ->
  ix !! i = Some idx ->
  exists v, ItemValue tools f idx = Some v /\ values !! i = Some v.
Proof.
  revert values i. induction ix as [|x ix IH]; intros values i; [done |].
  cbn [get_values].
  destruct (ItemValue tools f x) as [v|] eqn:Ev; [| done].
  destruct (get_values _ _ _ ix) as [vs|]; [| done].
  intros [= <-] Hi. destruct i as [|i]; simpl in *.
  - simplify_eq. by exists v.
  - by apply IH.
Qed.

Section WithSources.

Variable datasets : gmap string OGRLayer.
Variable IGNORE_MISSING_DATA : bool.

Local Abbreviation InitItemInfo :=
  (msOGRLayerInitItemInfo OGR_FD_GetFieldIndex atoi datasets IGNORE_MISSING_DATA).
Local Abbreviation GetItems :=
  (msOGRLayerGetItems OGR_FD_FieldNames OGR_FD_GetFieldIndex atoi datasets
     IGNORE_MISSING_DATA).

(** The array a successful call leaves is that of the loop over the
    items, on the layer of the file read. *)
Lemma init_item_info_indexes layer items psInfo psInfo' ix :
  InitItemInfo layer items psInfo = (MS_SUCCESS, psInfo', Some ix) ->
  exists lyr, ItemIndexes lyr items = (MS_SUCCESS, ix).
Proof.
  unfold msOGRLayerInitItemInfo. case_bool_decide; [done |].
  destruct (match tileindex_name layer with
            | Some _ =>
                match poCurTile psInfo with
                | Some _ => (MS_SUCCESS, psInfo)
                | None =>
                    msOGRFileReadTile datasets IGNORE_MISSING_DATA layer psInfo (-2)
                end
            | None => (MS_SUCCESS, psInfo)
            end) as [st psInfo1].
  case_bool_decide; simpl; [| done].
  destruct (match tileindex_name layer with
            | Some _ => poCurTile psInfo1
            | None => Some psInfo1
            end) as [info|]; [| done].
  destruct (hLayer info) as [lyr|]; [| done].
  destruct (ItemIndexes lyr items) as [st' l] eqn:E.
  intros [= -> _ <-]. by exists lyr.
Qed.

Lemma item_value_at layer items psInfo psInfo' ix f values i item :
  InitItemInfo layer items psInfo = (MS_SUCCESS, psInfo', Some ix) ->
  GetValues ix f = Some values ->
  items !! i = Some item ->
  exists lyr,
    ItemValue (ToolsOf f) f (ItemIndex lyr item) = values !! i.
Proof.
  intros Hinit Hval Hi.
  destruct (init_item_info_indexes _ _ _ _ _ Hinit) as [lyr Hix].
  exists lyr. unfold msOGRGetValues in Hval.
  case_bool_decide; [done |].
  destruct (get_values_lookup _ _ _ _ i _ Hval
              (item_indexes_lookup _ _ _ _ _ Hix Hi)) as (v & -> & ->).
  done.
Qed.

(** X25.  A numbered parameter item, [OGR:LabelParam], [OGR:BrushParam],
    [OGR:PenParam] or [OGR:SymbolParam] followed by a number from 0 to 99:
    after [msOGRLayerInitItemInfo], [msOGRGetValues] gives at the item's
    position the parameter of that number of the feature's first part of
    the family, the empty string when the part or the parameter is
    missing. *)
Theorem param_item_round_trip layer items psInfo psInfo' ix f values i k suffix :
  InitItemInfo layer items psInfo = (MS_SUCCESS, psInfo', Some ix) ->
  GetValues ix f = Some values ->
  items !! i = Some (family_name k +:+ suffix) ->
  0 <= atoi suffix < 100 ->
  values !! i
  = Some (ParamOr (family_tool k (ToolsOf f)) (param_number (atoi suffix))
            EmptyString).
Proof.
  intros Hinit Hval Hi Hn.
  destruct (item_value_at _ _ _ _ _ _ _ _ _ Hinit Hval Hi) as [lyr <-].
  rewrite item_index_family. by apply item_value_family.
Qed.

(** X26.  A parameter number that reaches the opposite of the family's
    base index (500 for a label parameter, 600, 700 and 800 for a brush,
    pen and symbol parameter) gives an index that is not negative, and
    [msOGRGetValues] reads the feature's field of that index instead:
    [OGR:LabelParam500] is served as field 0. *)
Theorem param_number_reads_field layer items psInfo psInfo' ix f values i k suffix :
  InitItemInfo layer items psInfo = (MS_SUCCESS, psInfo', Some ix) ->
  GetValues ix f = Some values ->
  items !! i = Some (family_name k +:+ suffix) ->
  0 <= family_index k + atoi suffix ->
  values !! i
  = Some (OGR_F_GetFieldAsString f (family_index k + atoi suffix)).
Proof.
  intros Hinit Hval Hi Hn.
  destruct (item_value_at _ _ _ _ _ _ _ _ _ Hinit Hval Hi) as [lyr <-].
  rewrite item_index_family. unfold item_value.
  by destruct (Z.leb_spec 0 (family_index k + atoi suffix)); [| lia].
Qed.

Lemma item_index_field lyr name :
  special_item name = false ->
  ItemIndex lyr name = OGR_FD_GetFieldIndex lyr name.
Proof.
  intros H. unfold special_item, style_item_names in H. cbn [existsb] in H.
  repeat match goal with
         | H : _ || _ = false |- _ => apply orb_false_iff in H as [H ?]
         end.
  unfold item_index.
  repeat match goal with
         | H : ?t = false |- _ => rewrite H; clear H
         end.
  reflexivity.
Qed.

Lemma item_indexes_fields lyr names rest k :
  (forall i name, names !! i = Some name ->
     special_item name = false /\
     OGR_FD_GetFieldIndex lyr name = Z.of_nat (k + i)) ->
  ItemIndexes lyr (names ++ rest)
  = ((ItemIndexes lyr rest).1,
     map Z.of_nat (seq k (length names)) ++ (ItemIndexes lyr rest).2).
Proof.
  revert k. induction names as [|name names IH]; intros k Hn.
  - simpl. by destruct (ItemIndexes lyr rest).
  - cbn [app item_indexes]. cbv zeta.
    destruct (Hn 0%nat name eq_refl) as [Hs Hi].
    rewrite (item_index_field lyr name Hs), Hi, Nat.add_0_r.
    destruct (Z.eqb_spec (Z.of_nat k) (-1)); [lia |].
    rewrite (IH (S k)).
    + reflexivity.
    + intros i nm Hnm. destruct (Hn (S i) nm Hnm) as [? ->].
      split; [done | f_equal; lia].
Qed.

Lemma item_indexes_style lyr :
  ItemIndexes lyr style_item_names = (MS_SUCCESS, style_item_indexes).
Proof. vm_compute. reflexivity. Qed.

Lemma get_values_app tools f ix1 ix2 v1 v2 :
  get_values OGR_ST_GetParamStr tools f ix1 = Some v1 ->
  get_values OGR_ST_GetParamStr tools f ix2 = Some v2 ->
  get_values OGR_ST_GetParamStr tools f (ix1 ++ ix2) = Some (v1 ++ v2).
Proof.
  revert v1. induction ix1 as [|x ix1 IH]; intros v1; simpl.
  - by intros [= <-].
  - destruct (ItemValue tools f x); [| done].
    destruct (get_values _ _ _ ix1) as [vs|]; [| done].
    intros [= <-] H2. by rewrite (IH vs eq_refl H2).
Qed.

Lemma get_values_fields tools f k n :
  get_values OGR_ST_GetParamStr tools f (map Z.of_nat (seq k n))
  = Some (map (fun i => OGR_F_GetFieldAsString f (Z.of_nat i)) (seq k n)).
Proof.
  revert k. induction n as [|n IH]; intros k; [done |].
  cbn [seq map get_values]. rewrite IH. unfold item_value.
  by destruct (Z.leb_spec 0 (Z.of_nat k)); [| lia].
Qed.

Lemma get_values_style tools f :
  get_values OGR_ST_GetParamStr tools f style_item_indexes
  = Some (map (fun pd => ParamOr (hLabelStyle tools) pd.1 pd.2)
              style_item_params).
Proof. vm_compute. reflexivity. Qed.

(** X27.  With [GETSHAPE_STYLE_ITEMS "all"], a layer without tile index
    whose field names are no special item names and are found at their
    own positions gets as items its fields followed by the 21 style
    items; the items' indexes are the fields' positions and -100 down to
    -120; and the values of a feature are its field values followed, for
    each style item, by the parameter of its first label part, or the
    item's default value when the part or the parameter is missing. *)
Theorem style_items_all layer psInfo lyr f :
  tileindex_name layer = None ->
  hLayer psInfo = Some lyr ->
  (forall i name, OGR_FD_FieldNames lyr !! i = Some name ->
     special_item name = false /\
     OGR_FD_GetFieldIndex lyr name = Z.of_nat i) ->
  let n := length (OGR_FD_FieldNames lyr) in
  let ix := map Z.of_nat (seq 0 n) ++ style_item_indexes in
  GetItems layer (Some "all") (Some psInfo)
  = (MS_SUCCESS, Some psInfo,
     Some (OGR_FD_FieldNames lyr ++ style_item_names), Some ix) /\
  GetValues ix f
  = Some (field_values f n
          ++ map (fun pd => ParamOr (hLabelStyle (ToolsOf f)) pd.1 pd.2)
                 style_item_params).
Proof.
  intros Ht Hl Hnames n ix. split.
  - unfold msOGRLayerGetItems. rewrite Hl, Ht. cbn [bool_decide negb].
    rewrite bool_decide_eq_true_2 by done. cbn [negb].
    unfold msOGRFileGetItems. rewrite Hl.
    change (EQUAL "all" "all") with true. cbv iota.
    unfold msOGRLayerInitItemInfo. rewrite Ht.
    rewrite bool_decide_eq_false_2
      by (intros E; apply (f_equal length) in E; rewrite length_app in E;
          simpl in E; lia).
    rewrite bool_decide_eq_true_2 by done. cbn [negb]. rewrite Hl.
    rewrite (item_indexes_fields lyr _ _ 0 Hnames), item_indexes_style.
    reflexivity.
  - unfold msOGRGetValues.
    rewrite bool_decide_eq_false_2
      by (intros E; apply (f_equal length) in E; unfold ix in E;
          rewrite length_app in E; simpl in E; lia).
    apply get_values_app; [apply get_values_fields | apply get_values_style].
Qed.

End WithSources.

(** X28.  Sequential reading with the values loaded by [msOGRGetValues]:
    a shape that is returned carries one value per item of the layer,
    and they are the item values of the feature the shape was made
    from. *)
Theorem fetched_shape_values layer ix shape info lyr s info' :
  numitems layer = length ix ->
  hLayer info = Some lyr ->
  msOGRFileNextShape (fun _ f => GetValues ix f) layer shape (Some info)
  = (MS_SUCCESS, s, info') ->
  length (values s) = numitems layer /\
  exists f psInfo,
    info' = Some psInfo /\ hLastFeature psInfo = Some f /\ index s = fid f /\
    (ix <> [] -> GetValues ix f = Some (values s)).
Proof.
  intros Hn Hl Hnext.
  destruct (next_shape_success _ _ _ _ _ _ _ Hl Hnext)
    as (sk & f & rest & _ & _ & Hv & _ & -> & ->).
  cbn [values index]. unfold LayerApi.feature_values, values_load in *.
  destruct (Nat.ltb_spec 0 (numitems layer)) as [Hpos|Hzero].
  - simpl in Hv. apply bool_decide_eq_true in Hv as [v Hv]. rewrite Hv.
    split.
    + by rewrite (values_length ix f v Hv).
    + eexists f, _. by split_and!.
  - split; [simpl; lia |]. eexists f, _. split_and!; [done.. |].
    intros Hix. destruct ix; [done | simpl in Hn; lia].
Qed.


End ItemValues.

Section ItemExamples.
Import Layer Style Items ItemFacts.

Local Abbreviation init_example :=
  (msOGRLayerInitItemInfo city_field_index decimal tile_sources false).
Local Abbreviation values_example := (msOGRGetValues city_parts city_param).

Lemma param_item_round_trip_witness :
  ["Springfield"; "#000000"] !! 1%nat
  = Some (param_or city_param
            (family_tool PenParam (style_tools_of city_parts city_feature))
            (param_number (decimal "0")) EmptyString).
Proof.
  apply (param_item_round_trip city_parts city_param city_field_index decimal
           tile_sources false city_layer ["name"; "OGR:PenParam0"] city_file
           city_file [0; -700] city_feature ["Springfield"; "#000000"] 1%nat
           PenParam "0").
  - vm_compute. reflexivity.
  - vm_compute. reflexivity.
  - reflexivity.
  - vm_compute. split; [discriminate | reflexivity].
Defined.

Lemma param_number_reads_field_witness :
  ["Springfield"] !! 0%nat
  = Some (OGR_F_GetFieldAsString city_feature
            (family_index LabelParam + decimal "500")).
Proof.
  apply (param_number_reads_field city_parts city_param city_field_index decimal
           tile_sources false city_layer ["OGR:LabelParam500"] city_file
           city_file [0] city_feature ["Springfield"] 0%nat LabelParam "500").
  - vm_compute. reflexivity.
  - vm_compute. reflexivity.
  - reflexivity.
  - vm_compute. discriminate.
Defined.

Lemma style_items_all_witness :
  let n := length (city_fields cities) in
  let ix := map Z.of_nat (seq 0 n) ++ style_item_indexes in
  msOGRLayerGetItems city_fields city_field_index decimal tile_sources false
    city_layer (Some "all") (Some city_file)
  = (MS_SUCCESS, Some city_file,
     Some (city_fields cities ++ style_item_names), Some ix) /\
  values_example ix city_feature
  = Some (field_values city_feature n
          ++ map (fun pd =>
                    param_or city_param
                      (hLabelStyle (style_tools_of city_parts city_feature))
                      pd.1 pd.2)
                 style_item_params).
Proof.
  apply (style_items_all city_parts city_param city_fields city_field_index
           decimal tile_sources false city_layer city_file cities city_feature).
  - reflexivity.
  - reflexivity.
  - intros i name Hi. destruct i as [|[|i]]; simpl in Hi.
    + injection Hi as <-. vm_compute. split; reflexivity.
    + injection Hi as <-. vm_compute. split; reflexivity.
    + discriminate Hi.
Defined.

Lemma fetched_shape_values_witness :
  length (values city_read.1.2) = numitems city_layer /\
  exists f psInfo,
    city_read.2 = Some psInfo /\ hLastFeature psInfo = Some f /\
    index city_read.1.2 = fid f /\
    ([0; -102] <> [] -> values_example [0; -102] f = Some (values city_read.1.2)).
Proof.
  apply (fetched_shape_values city_parts city_param city_layer [0; -102]
           msInitShape city_file cities city_read.1.2 city_read.2).
  - reflexivity.
  - reflexivity.
  - vm_compute. reflexivity.
Defined.

End ItemExamples.

(** ** The spatial filter *)

Section SpatialFilterProperties.
Import Geometry Wkt SpatialFilter.

(** X29.  For a rectangle whose minima do not exceed its maxima, the
    geometry set as spatial filter has exactly that rectangle as bounding
    rectangle, whether it is the point, the line or the polygon. *)
Theorem spatial_filter_covers_rect rect :
  dle (minx rect) (maxx rect) -> dle (miny rect) (maxy rect) ->
  bbox_exact rect (points_visited (spatial_filter rect)).
Proof.
  destruct rect as [[x0|] [y0|] [x1|] [y1|]]; try done.
  cbn [minx miny maxx maxy dle]. intros Hx Hy.
  unfold spatial_filter, bbox_exact. cbn [minx miny maxx maxy deq].
  destruct (Z.eqb_spec x0 x1) as [Ex|Ex];
    destruct (Z.eqb_spec y0 y1) as [Ey|Ey];
    cbn [andb orb points_visited wkbFlatten ring_geometry map concat app
         OGR_G_GetXY OGR_G_Points nth].
  - split_and!.
    + intros p ->%list_elem_of_singleton. simpl; lia.
    + eexists; split; [by left | done].
    + eexists; split; [by left | simpl; f_equal; lia].
    + eexists; split; [by left | done].
    + eexists; split; [by left | simpl; f_equal; lia].
  - split_and!.
    + intros p Hp. repeat (apply elem_of_cons in Hp as [-> | Hp]); simpl;
        [lia.. | by apply elem_of_nil in Hp].
    + eexists; split; [by left | done].
    + eexists; split; [by left | simpl; f_equal; lia].
    + eexists; split; [by left | done].
    + eexists; split; [right; by left | done].
  - split_and!.
    + intros p Hp. repeat (apply elem_of_cons in Hp as [-> | Hp]); simpl;
        [lia.. | by apply elem_of_nil in Hp].
    + eexists; split; [by left | done].
    + eexists; split; [right; by left | done].
    + eexists; split; [by left | done].
    + eexists; split; [by left | simpl; f_equal; lia].
  - split_and!.
    + intros p Hp. repeat (apply elem_of_cons in Hp as [-> | Hp]); simpl;
        [lia.. | by apply elem_of_nil in Hp].
    + eexists; split; [by left | done].
    + eexists; split; [right; by left | done].
    + eexists; split; [by left | done].
    + eexists; split; [right; right; by left | done].
Qed.

End SpatialFilterProperties.

Section SpatialFilterExamples.
Import Geometry Wkt SpatialFilter.

Lemma spatial_filter_covers_rect_witness :
  bbox_exact view_rect (points_visited (spatial_filter view_rect)).
Proof.
  apply (spatial_filter_covers_rect view_rect); vm_compute; discriminate.
Defined.

End SpatialFilterExamples.
